(** * Raw2Gltf: the glTF assembler of FBX2glTF, embedded in Rocq

    A shallow embedding of [src/gltf/Raw2Gltf.cpp]: the translation of a
    [RawModel] into the holders of a [GltfModel], and the emission of the
    result as a binary container (.glb).

    Conventions.
    - 32-bit floats are [spec_float] values rounded with [prec = 24] and
      [emax = 128] (IEEE 754 binary32), so that [sqrtf], [*] and [-] are the
      correctly rounded operations of the source.
    - Holders are lists; the index stamped on an entity is its position.
      A [std::shared_ptr] to a held entity is its holder index, so that a
      mutation through [nodesById] is a mutation of the held node.
    - A failed [assert], a null dereference or an out-of-range subscript
      aborts the run: the computation returns [None].
    - [verboseOutput] is off: only the unconditional [fmt::printf] calls
      are recorded in the diagnostics. *)

From Stdlib Require Import ZArith Lia List String Ascii.
From Stdlib Require Import Strings.Byte DecimalString.
From Stdlib Require Import Floats.SpecFloat.
From stdpp Require Import base option list gmap strings.

Local Open Scope Z_scope.

(** ** Bytes and fixed-width integers *)

Definition UINT32_MOD : Z := 2 ^ 32.
Definition SIZE_MOD : Z := 2 ^ 64.

(** [(uint32_t) n] *)
Definition u32 (n : Z) : Z := n mod UINT32_MOD.

(** conversion of an [int] to [char], as [std::ostream::put] receives it *)
Definition char_of_int (n : Z) : byte :=
  default x00 (Byte.of_N (Z.to_N (n mod 256))).

Definition int_of_char (b : byte) : Z := Z.of_N (Byte.to_N b).

Definition bytes_of_string (s : string) : list byte := list_byte_of_string s.

(** the four [put] arguments [(n >> 0) & 0xFF], ..., [(n >> 24) & 0xFF] *)
Definition le32_bytes (n : Z) : list byte :=
  [ char_of_int (Z.land (Z.shiftr n 0) 255);
    char_of_int (Z.land (Z.shiftr n 8) 255);
    char_of_int (Z.land (Z.shiftr n 16) 255);
    char_of_int (Z.land (Z.shiftr n 24) 255) ].

Definition le16_bytes (n : Z) : list byte :=
  [ char_of_int (Z.land (Z.shiftr n 0) 255);
    char_of_int (Z.land (Z.shiftr n 8) 255) ].

(** reading a little-endian unsigned integer back *)
Fixpoint le_decode (bs : list byte) : Z :=
  match bs with
  | [] => 0
  | b :: bs' => int_of_char b + 256 * le_decode bs'
  end.

(** [%lu] of a [long] *)
Definition print_lu (n : Z) : string :=
  NilEmpty.string_of_uint (N.to_uint (Z.to_N (n mod SIZE_MOD))).

(** ** The output stream

    [std::ofstream] as the bytes of the file and the put pointer.  A write
    at the put pointer replaces the bytes it covers and extends the file
    where it runs past the end. *)

Record ofstream := { file : list byte; ppos : nat }.

Definition fresh_stream : ofstream := {| file := []; ppos := 0 |}.

Definition store (p : nat) (bs : list byte) (l : list byte) : list byte :=
  match bs with
  | [] => l
  | _ => take p l ++ replicate (p - length l) x00 ++ bs ++ drop (p + length bs) l
  end.

Definition os_write (bs : list byte) (s : ofstream) : ofstream :=
  {| file := store (ppos s) bs (file s); ppos := ppos s + length bs |}.

Definition os_put (c : byte) (s : ofstream) : ofstream := os_write [c] s.

Definition tellp (s : ofstream) : Z := Z.of_nat (ppos s).

Definition seekp (p : Z) (s : ofstream) : ofstream :=
  {| file := file s; ppos := Z.to_nat p |}.

(** [seekp(0, std::ios::end)] *)
Definition seekp_end (s : ofstream) : ofstream :=
  {| file := file s; ppos := length (file s) |}.

(** ** The .glb container (Raw2Gltf.cpp, lines 953-1069) *)

Definition glbHeader : list byte :=
  bytes_of_string "glTF" ++ [x02; x00; x00; x00] ++ [x00; x00; x00; x00].

Definition glb2JsonHeader : list byte :=
  [x00; x00; x00; x00] ++ bytes_of_string "JSON".

Definition glb2BinaryHeader : list byte :=
  [x00; x00; x00; x00] ++ bytes_of_string "BIN" ++ [x00].

(** [while ((len % 4) != 0) { stream.put(c); len++; }] with [len] an
    unsigned integer of modulus [wrap].  The loop is cut after [fuel]
    iterations; [None] means the cut was reached. *)
Fixpoint pad_loop (fuel : nat) (wrap : Z) (c : byte) (len : Z) (s : ofstream)
  : option (Z * ofstream) :=
  match fuel with
  | O => None
  | S fuel' =>
      if negb (len mod 4 =? 0)
      then pad_loop fuel' wrap c ((len + 1) mod wrap) (os_put c s)
      else Some (len, s)
  end.

(** the padding a length needs to reach the next multiple of 4 *)
Definition pad4 (n : nat) : nat := Z.to_nat ((- Z.of_nat n) mod 4).

(** ** 32-bit floats *)

Definition float : Type := spec_float.

Definition f32_prec : Z := 24.
Definition f32_emax : Z := 128.

Definition fadd : float -> float -> float := SFadd f32_prec f32_emax.
Definition fsub : float -> float -> float := SFsub f32_prec f32_emax.
Definition fmul : float -> float -> float := SFmul f32_prec f32_emax.
Definition fdiv : float -> float -> float := SFdiv f32_prec f32_emax.
Definition sqrtf : float -> float := SFsqrt f32_prec f32_emax.
Definition flt : float -> float -> bool := SFltb.

(** conversion of an integer constant to [float] *)
Definition f32_of_Z (z : Z) : float := binary_normalize f32_prec f32_emax z 0 false.

(** the literal [num/den] with [num] and [den] exact in binary32: the
    division rounds to nearest, as the compiler rounds the decimal literal *)
Definition f32_lit (num den : Z) : float := fdiv (f32_of_Z num) (f32_of_Z den).

Definition f0 : float := S754_zero false.
Definition f1 : float := f32_of_Z 1.
Definition f2 : float := f32_of_Z 2.

(** [(float)M_PI], 0x40490FDB *)
Definition M_PI_f : float := S754_finite false 13176795 (-22).

(** the IEEE 754 binary32 encoding *)
Definition f32_bits (x : float) : Z :=
  match x with
  | S754_zero s => if s then 2 ^ 31 else 0
  | S754_infinity s => (if s then 2 ^ 31 else 0) + 2139095040
  | S754_nan => 2143289344
  | S754_finite s m e =>
      (if s then 2 ^ 31 else 0) +
      (if Z.pos m <? 2 ^ 23 then Z.pos m
       else (e + 150) * 2 ^ 23 + (Z.pos m - 2 ^ 23))
  end.

(** conversion of a [float] to an integer, truncating *)
Definition f32_trunc (x : float) : Z :=
  match x with
  | S754_finite s m e =>
      let a := if 0 <=? e then Z.pos m * 2 ^ e else Z.pos m / 2 ^ (- e) in
      if s then - a else a
  | _ => 0
  end.

Definition Vec2f : Type := float * float.
Definition Vec3f : Type := float * float * float.
Definition Vec4f : Type := float * float * float * float.
Definition Quatf : Type := float * float * float * float.
Definition Vec4i : Type := Z * Z * Z * Z.
(** a 4x4 matrix, the sixteen entries row by row *)
Definition Mat4f : Type := list float.

Definition Vec3f_zero : Vec3f := (f0, f0, f0).

Definition vec3_scale (v : Vec3f) (k : float) : Vec3f :=
  let '(x, y, z) := v in (fmul x k, fmul y k, fmul z k).

(** [Vec3f::Length()] *)
Definition vec3_Length (v : Vec3f) : float :=
  let '(x, y, z) := v in sqrtf (fadd (fadd (fmul x x) (fmul y y)) (fmul z z)).

Definition Mat4f_Transpose (m : Mat4f) : Mat4f :=
  map (fun k => nth ((k mod 4) * 4 + k / 4)%nat m f0) (seq 0 16).




(** ** The source scene ([raw/RawModel.hpp])

    The fields are those Raw2Gltf.cpp reads.  An index that does not name
    an element makes the accessor return [None]. *)

Inductive RawShadingModel :=
| RAW_SHADING_MODEL_PBR_MET_ROUGH
| RAW_SHADING_MODEL_BLINN
| RAW_SHADING_MODEL_PHONG
| RAW_SHADING_MODEL_OTHER. (* the remaining traditional models *)

Inductive RawMaterialType :=
| RAW_MATERIAL_TYPE_OPAQUE
| RAW_MATERIAL_TYPE_TRANSPARENT
| RAW_MATERIAL_TYPE_SKINNED_OPAQUE
| RAW_MATERIAL_TYPE_SKINNED_TRANSPARENT.

Inductive RawTextureUsage :=
| RAW_TEXTURE_USAGE_ALBEDO
| RAW_TEXTURE_USAGE_DIFFUSE
| RAW_TEXTURE_USAGE_NORMAL
| RAW_TEXTURE_USAGE_EMISSIVE
| RAW_TEXTURE_USAGE_OCCLUSION
| RAW_TEXTURE_USAGE_METALLIC
| RAW_TEXTURE_USAGE_ROUGHNESS
| RAW_TEXTURE_USAGE_SHININESS.

(** [RawMetRoughMatProps] and [RawTraditionalMatProps], the two
    subclasses of [RawMatProps] the casts of lines 264 and 374 select *)
Record RawMetRoughMatProps := {
  mr_diffuseFactor : Vec4f;
  mr_emissiveFactor : Vec3f;
  mr_emissiveIntensity : float;
  mr_metallic : float;
  mr_roughness : float;
  mr_invertRoughnessMap : bool
}.

Record RawTraditionalMatProps := {
  tr_diffuseFactor : Vec4f;
  tr_emissiveFactor : Vec3f;
  tr_shininess : float
}.

Inductive RawMatProps :=
| MetRoughProps (p : RawMetRoughMatProps)
| TraditionalProps (model : RawShadingModel) (p : RawTraditionalMatProps).

Definition shadingModel (info : RawMatProps) : RawShadingModel :=
  match info with
  | MetRoughProps _ => RAW_SHADING_MODEL_PBR_MET_ROUGH
  | TraditionalProps m _ => m
  end.

Record RawTexture := { rt_name : string; rt_fileLocation : string }.

Record RawMaterial := {
  rm_id : Z;
  rm_name : string;
  rm_type : RawMaterialType;
  rm_info : RawMatProps;
  rm_isDoubleSided : bool;
  rm_textures : RawTextureUsage -> Z;
  rm_userProperties : list string
}.

Record RawBlendVertex := {
  bl_position : Vec3f;
  bl_normal : Vec3f;
  bl_tangent : Vec4f
}.

Record RawVertex := {
  rv_position : Vec3f;
  rv_normal : Vec3f;
  rv_tangent : Vec4f;
  rv_color : Vec4f;
  rv_uv0 : Vec2f;
  rv_uv1 : Vec2f;
  rv_jointIndices : list Vec4i;
  rv_jointWeights : list Vec4f;
  rv_blends : list RawBlendVertex
}.

Record RawTriangle := { verts : Z * Z * Z; materialIndex : Z }.

Record RawBlendChannel := {
  bc_name : string;
  bc_defaultDeform : float;
  bc_hasNormals : bool;
  bc_hasTangents : bool
}.

Record RawSurface := {
  rs_id : Z;
  rs_name : string;
  rs_bounds : Vec3f * Vec3f;
  rs_blendChannels : list RawBlendChannel;
  rs_jointIds : list Z;
  rs_inverseBindMatrices : list Mat4f;
  rs_skeletonRootId : Z
}.

Record RawChannel := {
  ch_nodeIndex : Z;
  ch_translations : list Vec3f;
  ch_rotations : list Quatf;
  ch_scales : list Vec3f;
  ch_weights : list float
}.

Record RawAnimation := {
  ra_name : string;
  ra_times : list float;
  ra_channels : list RawChannel
}.

Inductive RawCameraMode := CAMERA_MODE_PERSPECTIVE | CAMERA_MODE_ORTHOGRAPHIC.

Record RawCamera := {
  rc_name : string;
  rc_nodeId : Z;
  rc_mode : RawCameraMode;
  rc_aspectRatio : float;
  rc_fovDegreesY : float;
  rc_persp_nearZ : float;
  rc_persp_farZ : float;
  rc_magX : float;
  rc_magY : float;
  rc_ortho_nearZ : float;
  rc_ortho_farZ : float
}.

Inductive RawLightType :=
| RAW_LIGHT_TYPE_DIRECTIONAL
| RAW_LIGHT_TYPE_POINT
| RAW_LIGHT_TYPE_SPOT.

Record RawLight := {
  rl_name : string;
  rl_type : RawLightType;
  rl_color : Vec3f;
  rl_intensity : float;
  rl_innerConeAngle : float;
  rl_outerConeAngle : float
}.

Record RawNode := {
  rn_id : Z;
  rn_name : string;
  rn_translation : Vec3f;
  rn_rotation : Quatf;
  rn_scale : Vec3f;
  rn_isJoint : bool;
  rn_childIds : list Z;
  rn_surfaceId : Z;
  rn_lightIx : Z;
  rn_extraSkinIx : Z;
  rn_userProperties : list string
}.

(** the [RAW_VERTEX_ATTRIBUTE_*] bits of [GetVertexAttributes()] *)
Definition RAW_VERTEX_ATTRIBUTE_POSITION : Z := 1.
Definition RAW_VERTEX_ATTRIBUTE_NORMAL : Z := 2.
Definition RAW_VERTEX_ATTRIBUTE_TANGENT : Z := 4.
Definition RAW_VERTEX_ATTRIBUTE_COLOR : Z := 16.
Definition RAW_VERTEX_ATTRIBUTE_UV0 : Z := 32.
Definition RAW_VERTEX_ATTRIBUTE_UV1 : Z := 64.
Definition RAW_VERTEX_ATTRIBUTE_JOINT_INDICES : Z := 128.
Definition RAW_VERTEX_ATTRIBUTE_JOINT_WEIGHTS : Z := 256.

Record RawModel := {
  raw_rootNodeId : Z;
  raw_vertexAttributes : Z;
  raw_globalWeightCount : Z;
  raw_extraSkinCount : nat;
  raw_vertices : list RawVertex;
  raw_triangles : list RawTriangle;
  raw_textures : list RawTexture;
  raw_materials : list RawMaterial;
  raw_surfaces : list RawSurface;
  raw_animations : list RawAnimation;
  raw_cameras : list RawCamera;
  raw_lights : list RawLight;
  raw_nodes : list RawNode
}.

(** subscripting with a C++ [int] *)
Definition at_index {A} (l : list A) (i : Z) : option A :=
  if i <? 0 then None else l !! Z.to_nat i.

(** the position of the first element that satisfies [p], or [-1] *)
Fixpoint find_index {A} (p : A -> bool) (l : list A) : Z :=
  match l with
  | [] => -1
  | x :: l' => if p x then 0 else
      let r := find_index p l' in if r <? 0 then -1 else r + 1
  end.

Definition GetNodeById (raw : RawModel) (id : Z) : Z :=
  find_index (fun n => rn_id n =? id) (raw_nodes raw).

Definition GetSurfaceById (raw : RawModel) (id : Z) : Z :=
  find_index (fun s => rs_id s =? id) (raw_surfaces raw).

Definition GetVertexCount (raw : RawModel) : Z := Z.of_nat (length (raw_vertices raw)).
Definition GetTriangleCount (raw : RawModel) : Z := Z.of_nat (length (raw_triangles raw)).

(** ** Options ([GltfOptions]) *)

Inductive UseLongIndicesOptions := NEVER | AUTO | ALWAYS.

Record DracoOptions := {
  draco_enabled : bool;
  draco_compressionLevel : Z;
  draco_quantBitsPosition : Z;
  draco_quantBitsTexCoord : Z;
  draco_quantBitsNormal : Z;
  draco_quantBitsColor : Z;
  draco_quantBitsGeneric : Z
}.

Record GltfOptions := {
  outputBinary : bool;
  usePBRMetRough : bool;
  useKHRMatUnlit : bool;
  useKHRLightsPunctual : bool;
  disableSparseBlendShapes : bool;
  useBlendShapeNormals : bool;
  useBlendShapeTangents : bool;
  enableUserProperties : bool;
  useLongIndices : UseLongIndicesOptions;
  draco : DracoOptions
}.

(** ** glTF entities ([gltf/properties/*.hpp]) *)

Inductive ComponentType := CT_USHORT | CT_UINT | CT_FLOAT.

(** the glTF code and the byte size of a component *)
Definition glType (c : ComponentType) : Z :=
  match c with CT_USHORT => 5123 | CT_UINT => 5125 | CT_FLOAT => 5126 end.

Definition ct_size (c : ComponentType) : Z :=
  match c with CT_USHORT => 2 | CT_UINT => 4 | CT_FLOAT => 4 end.

(** [GLType]: component type, component count and glTF type name, in the
    order of the braced initialiser of line 212 *)
Record GLType := {
  componentType : ComponentType;
  gl_count : nat;
  dataType : string
}.

Definition GLT_FLOAT : GLType := {| componentType := CT_FLOAT; gl_count := 1; dataType := "SCALAR" |}.
Definition GLT_USHORT : GLType := {| componentType := CT_USHORT; gl_count := 1; dataType := "SCALAR" |}.
Definition GLT_UINT : GLType := {| componentType := CT_UINT; gl_count := 1; dataType := "SCALAR" |}.
Definition GLT_VEC2F : GLType := {| componentType := CT_FLOAT; gl_count := 2; dataType := "VEC2" |}.
Definition GLT_VEC3F : GLType := {| componentType := CT_FLOAT; gl_count := 3; dataType := "VEC3" |}.
Definition GLT_VEC4F : GLType := {| componentType := CT_FLOAT; gl_count := 4; dataType := "VEC4" |}.
Definition GLT_VEC4I : GLType := {| componentType := CT_USHORT; gl_count := 4; dataType := "VEC4" |}.
Definition GLT_MAT4F : GLType := {| componentType := CT_FLOAT; gl_count := 16; dataType := "MAT4" |}.
Definition GLT_QUATF : GLType := {| componentType := CT_FLOAT; gl_count := 4; dataType := "VEC4" |}.

Definition byteStride (t : GLType) : Z := ct_size (componentType t) * Z.of_nat (gl_count t).

(** a component of a source value, before its conversion *)
Inductive scalar := SInt (z : Z) | SFlt (f : float).

(** the source value types of the templates, by their components *)
Class GLWritable (T : Type) := components : T -> list scalar.

#[export] Instance float_writable : GLWritable float := fun f => [SFlt f].
#[export] Instance index_writable : GLWritable Z := fun z => [SInt z].
#[export] Instance vec2f_writable : GLWritable Vec2f :=
  fun '(x, y) => [SFlt x; SFlt y].
#[export] Instance vec3f_writable : GLWritable Vec3f :=
  fun '(x, y, z) => [SFlt x; SFlt y; SFlt z].
#[export] Instance vec4f_writable : GLWritable Vec4f :=
  fun '(x, y, z, w) => [SFlt x; SFlt y; SFlt z; SFlt w].
#[export] Instance vec4i_writable : GLWritable Vec4i :=
  fun '(x, y, z, w) => [SInt x; SInt y; SInt z; SInt w].
#[export] Instance mat4f_writable : GLWritable Mat4f := map SFlt.

(** Modelled from the spec: [GLType::write] is not in this file.  Spec 4.2
    (a): typed data is converted to little-endian bytes, one component
    after the other, each in the accessor's component type. *)
Definition write_component (c : ComponentType) (x : scalar) : list byte :=
  match c, x with
  | CT_USHORT, SInt z => le16_bytes z
  | CT_USHORT, SFlt f => le16_bytes (f32_trunc f)
  | CT_UINT, SInt z => le32_bytes z
  | CT_UINT, SFlt f => le32_bytes (f32_trunc f)
  | CT_FLOAT, SInt z => le32_bytes (f32_bits (f32_of_Z z))
  | CT_FLOAT, SFlt f => le32_bytes (f32_bits f)
  end.

Definition gl_write `{GLWritable T} (t : GLType) (x : T) : list byte :=
  concat (map (write_component (componentType t)) (take (gl_count t) (components x))).

Definition gl_write_array `{GLWritable T} (t : GLType) (xs : list T) : list byte :=
  concat (map (gl_write t) xs).

Inductive GL_ArrayType := GL_ARRAY_NONE | GL_ARRAY_BUFFER | GL_ELEMENT_ARRAY_BUFFER.

Record BufferViewData := {
  bv_ix : nat;
  bv_byteOffset : Z;
  bv_byteLength : Z;
  bv_target : GL_ArrayType
}.

Record AccessorData := {
  acc_ix : nat;
  acc_bufferView : Z; (* -1: none *)
  acc_type : GLType;
  acc_byteOffset : Z;
  acc_count : Z;
  acc_min : list float;
  acc_max : list float;
  acc_name : string;
  acc_sparse : bool;
  sparseIdxCount : Z;
  sparseIdxBufferView : Z;
  sparseIdxBufferViewType : Z;
  sparseDataBufferView : Z
}.

Record NodeData := {
  nd_ix : nat;
  nd_name : string;
  nd_translation : Vec3f;
  nd_rotation : Quatf;
  nd_scale : Vec3f;
  nd_isJoint : bool;
  nd_children : list Z;
  nd_mesh : Z;
  nd_skin : Z;
  nd_camera : Z;
  nd_light : Z;
  nd_userProperties : list string
}.

(** [new NodeData(name, translation, rotation, scale, isJoint)] *)
Definition new_NodeData (name : string) (t : Vec3f) (r : Quatf) (s : Vec3f)
    (isJoint : bool) : NodeData :=
  {| nd_ix := 0; nd_name := name; nd_translation := t; nd_rotation := r;
     nd_scale := s; nd_isJoint := isJoint; nd_children := [];
     nd_mesh := -1; nd_skin := -1; nd_camera := -1; nd_light := -1;
     nd_userProperties := [] |}.

(** the pixel of a texture under construction: four floats *)
Definition pixel : Type := float * float * float * float.

(** [TextureBuilder::pixel_merger]; [None] is a subscript out of range *)
Definition pixel_merger : Type := list pixel -> option pixel.

Record TextureData := {
  tex_ix : nat;
  tex_tag : string;
  tex_sources : list Z;
  tex_srgb : bool;
  tex_merger : option pixel_merger
}.

Record PBRMetallicRoughness := {
  baseColorTexture : option nat;
  metRoughTexture : option nat;
  baseColorFactor : Vec4f;
  pbr_metallic : float;
  pbr_roughness : float
}.

Record MaterialData := {
  mat_ix : nat;
  mat_name : string;
  mat_isTransparent : bool;
  mat_isDoubleSided : bool;
  mat_shadingModel : RawShadingModel;
  normalTexture : option nat;
  occlusionTexture : option nat;
  emissiveTexture : option nat;
  mat_emissiveFactor : Vec3f;
  khrCmnUnlitMat : bool;
  pbrMetallicRoughness : option PBRMetallicRoughness;
  mat_userProperties : list string
}.

(** the mesh under compression: faces, point count and the attributes
    handed to the encoder *)
Record DracoMesh := {
  dm_faces : list (Z * Z * Z);
  dm_num_points : Z;
  dm_attributes : list (string * list byte)
}.

Record PrimitiveData := {
  pr_indices : nat;
  pr_material : nat;
  pr_attributes : list (string * nat);
  pr_targets : list (nat * option nat * option nat);
  pr_dracoMesh : option DracoMesh;
  pr_dracoBufferView : Z
}.

Record MeshData := {
  mesh_ix : nat;
  mesh_name : string;
  mesh_weights : list float;
  mesh_primitives : list PrimitiveData
}.

Record SkinData := {
  skin_ix : nat;
  skin_joints : list Z;
  skin_inverseBindMatrices : option nat;
  skin_skeletonRoot : option nat;
  skin_isExtraSkin : bool
}.

Record AnimationData := {
  anim_ix : nat;
  anim_name : string;
  anim_timeAccessor : nat;
  anim_channels : list (nat * nat * string)
}.

Record CameraData := {
  cam_ix : nat;
  cam_name : string;
  cam_type : string;
  cam_aspectRatio : float;
  cam_yfov : float;
  cam_xmag : float;
  cam_ymag : float;
  cam_znear : float;
  cam_zfar : float
}.

Inductive LightType := Directional | Point | Spot.

Record LightData := {
  light_ix : nat;
  light_name : string;
  light_type : LightType;
  light_color : Vec3f;
  light_intensity : float;
  light_innerConeAngle : float;
  light_outerConeAngle : float
}.

Record SceneData := { scene_ix : nat; scene_name : string; scene_root : nat }.

(** *** Holders

    Modelled from the spec: [Holder] is declared in GltfModel.hpp.  Spec
    4.4: [hold] appends the entity and stamps it with the dense index it
    was given. *)

Class Holdable (T : Type) := stamp : nat -> T -> T.

#[export] Instance node_holdable : Holdable NodeData := fun i n =>
  {| nd_ix := i; nd_name := nd_name n; nd_translation := nd_translation n;
     nd_rotation := nd_rotation n; nd_scale := nd_scale n; nd_isJoint := nd_isJoint n;
     nd_children := nd_children n; nd_mesh := nd_mesh n; nd_skin := nd_skin n;
     nd_camera := nd_camera n; nd_light := nd_light n;
     nd_userProperties := nd_userProperties n |}.

#[export] Instance bufferView_holdable : Holdable BufferViewData := fun i v =>
  {| bv_ix := i; bv_byteOffset := bv_byteOffset v; bv_byteLength := bv_byteLength v;
     bv_target := bv_target v |}.

#[export] Instance accessor_holdable : Holdable AccessorData := fun i a =>
  {| acc_ix := i; acc_bufferView := acc_bufferView a; acc_type := acc_type a;
     acc_byteOffset := acc_byteOffset a; acc_count := acc_count a;
     acc_min := acc_min a; acc_max := acc_max a; acc_name := acc_name a;
     acc_sparse := acc_sparse a; sparseIdxCount := sparseIdxCount a;
     sparseIdxBufferView := sparseIdxBufferView a;
     sparseIdxBufferViewType := sparseIdxBufferViewType a;
     sparseDataBufferView := sparseDataBufferView a |}.

#[export] Instance texture_holdable : Holdable TextureData := fun i t =>
  {| tex_ix := i; tex_tag := tex_tag t; tex_sources := tex_sources t;
     tex_srgb := tex_srgb t; tex_merger := tex_merger t |}.

#[export] Instance material_holdable : Holdable MaterialData := fun i m =>
  {| mat_ix := i; mat_name := mat_name m; mat_isTransparent := mat_isTransparent m;
     mat_isDoubleSided := mat_isDoubleSided m; mat_shadingModel := mat_shadingModel m;
     normalTexture := normalTexture m; occlusionTexture := occlusionTexture m;
     emissiveTexture := emissiveTexture m; mat_emissiveFactor := mat_emissiveFactor m;
     khrCmnUnlitMat := khrCmnUnlitMat m; pbrMetallicRoughness := pbrMetallicRoughness m;
     mat_userProperties := mat_userProperties m |}.

#[export] Instance mesh_holdable : Holdable MeshData := fun i m =>
  {| mesh_ix := i; mesh_name := mesh_name m; mesh_weights := mesh_weights m;
     mesh_primitives := mesh_primitives m |}.

#[export] Instance skin_holdable : Holdable SkinData := fun i s =>
  {| skin_ix := i; skin_joints := skin_joints s;
     skin_inverseBindMatrices := skin_inverseBindMatrices s;
     skin_skeletonRoot := skin_skeletonRoot s; skin_isExtraSkin := skin_isExtraSkin s |}.

#[export] Instance animation_holdable : Holdable AnimationData := fun i a =>
  {| anim_ix := i; anim_name := anim_name a; anim_timeAccessor := anim_timeAccessor a;
     anim_channels := anim_channels a |}.

#[export] Instance camera_holdable : Holdable CameraData := fun i c =>
  {| cam_ix := i; cam_name := cam_name c; cam_type := cam_type c;
     cam_aspectRatio := cam_aspectRatio c; cam_yfov := cam_yfov c;
     cam_xmag := cam_xmag c; cam_ymag := cam_ymag c; cam_znear := cam_znear c;
     cam_zfar := cam_zfar c |}.

#[export] Instance light_holdable : Holdable LightData := fun i l =>
  {| light_ix := i; light_name := light_name l; light_type := light_type l;
     light_color := light_color l; light_intensity := light_intensity l;
     light_innerConeAngle := light_innerConeAngle l;
     light_outerConeAngle := light_outerConeAngle l |}.

#[export] Instance scene_holdable : Holdable SceneData := fun i s =>
  {| scene_ix := i; scene_name := scene_name s; scene_root := scene_root s |}.

(** [holder.hold(x)]: the stamped entity and the extended holder *)
Definition hold `{Holdable T} (x : T) (ptrs : list T) : T * list T :=
  let x' := stamp (length ptrs) x in (x', ptrs ++ [x']).

(** ** The model under construction ([GltfModel]) *)

Record GltfModel := {
  nodes : list NodeData;
  animations : list AnimationData;
  accessors : list AccessorData;
  bufferViews : list BufferViewData;
  meshes : list MeshData;
  materials : list MaterialData;
  textures : list TextureData;
  skins : list SkinData;
  cameras : list CameraData;
  lights : list LightData;
  scenes : list SceneData;
  binary : list byte
}.

Definition new_GltfModel : GltfModel :=
  {| nodes := []; animations := []; accessors := []; bufferViews := [];
     meshes := []; materials := []; textures := []; skins := []; cameras := [];
     lights := []; scenes := []; binary := [] |}.

Definition set_nodes (x : list NodeData) (g : GltfModel) : GltfModel :=
  {| nodes := x; animations := animations g; accessors := accessors g;
     bufferViews := bufferViews g; meshes := meshes g; materials := materials g;
     textures := textures g; skins := skins g; cameras := cameras g;
     lights := lights g; scenes := scenes g; binary := binary g |}.
Definition set_animations (x : list AnimationData) (g : GltfModel) : GltfModel :=
  {| nodes := nodes g; animations := x; accessors := accessors g;
     bufferViews := bufferViews g; meshes := meshes g; materials := materials g;
     textures := textures g; skins := skins g; cameras := cameras g;
     lights := lights g; scenes := scenes g; binary := binary g |}.
Definition set_accessors (x : list AccessorData) (g : GltfModel) : GltfModel :=
  {| nodes := nodes g; animations := animations g; accessors := x;
     bufferViews := bufferViews g; meshes := meshes g; materials := materials g;
     textures := textures g; skins := skins g; cameras := cameras g;
     lights := lights g; scenes := scenes g; binary := binary g |}.
Definition set_bufferViews (x : list BufferViewData) (g : GltfModel) : GltfModel :=
  {| nodes := nodes g; animations := animations g; accessors := accessors g;
     bufferViews := x; meshes := meshes g; materials := materials g;
     textures := textures g; skins := skins g; cameras := cameras g;
     lights := lights g; scenes := scenes g; binary := binary g |}.
Definition set_meshes (x : list MeshData) (g : GltfModel) : GltfModel :=
  {| nodes := nodes g; animations := animations g; accessors := accessors g;
     bufferViews := bufferViews g; meshes := x; materials := materials g;
     textures := textures g; skins := skins g; cameras := cameras g;
     lights := lights g; scenes := scenes g; binary := binary g |}.
Definition set_materials (x : list MaterialData) (g : GltfModel) : GltfModel :=
  {| nodes := nodes g; animations := animations g; accessors := accessors g;
     bufferViews := bufferViews g; meshes := meshes g; materials := x;
     textures := textures g; skins := skins g; cameras := cameras g;
     lights := lights g; scenes := scenes g; binary := binary g |}.
Definition set_textures (x : list TextureData) (g : GltfModel) : GltfModel :=
  {| nodes := nodes g; animations := animations g; accessors := accessors g;
     bufferViews := bufferViews g; meshes := meshes g; materials := materials g;
     textures := x; skins := skins g; cameras := cameras g;
     lights := lights g; scenes := scenes g; binary := binary g |}.
Definition set_skins (x : list SkinData) (g : GltfModel) : GltfModel :=
  {| nodes := nodes g; animations := animations g; accessors := accessors g;
     bufferViews := bufferViews g; meshes := meshes g; materials := materials g;
     textures := textures g; skins := x; cameras := cameras g;
     lights := lights g; scenes := scenes g; binary := binary g |}.
Definition set_cameras (x : list CameraData) (g : GltfModel) : GltfModel :=
  {| nodes := nodes g; animations := animations g; accessors := accessors g;
     bufferViews := bufferViews g; meshes := meshes g; materials := materials g;
     textures := textures g; skins := skins g; cameras := x;
     lights := lights g; scenes := scenes g; binary := binary g |}.
Definition set_lights (x : list LightData) (g : GltfModel) : GltfModel :=
  {| nodes := nodes g; animations := animations g; accessors := accessors g;
     bufferViews := bufferViews g; meshes := meshes g; materials := materials g;
     textures := textures g; skins := skins g; cameras := cameras g;
     lights := x; scenes := scenes g; binary := binary g |}.
Definition set_scenes (x : list SceneData) (g : GltfModel) : GltfModel :=
  {| nodes := nodes g; animations := animations g; accessors := accessors g;
     bufferViews := bufferViews g; meshes := meshes g; materials := materials g;
     textures := textures g; skins := skins g; cameras := cameras g;
     lights := lights g; scenes := x; binary := binary g |}.
Definition set_binary (x : list byte) (g : GltfModel) : GltfModel :=
  {| nodes := nodes g; animations := animations g; accessors := accessors g;
     bufferViews := bufferViews g; meshes := meshes g; materials := materials g;
     textures := textures g; skins := skins g; cameras := cameras g;
     lights := lights g; scenes := scenes g; binary := x |}.

(** a call of the texture builder, with what it returned *)
Inductive TBCall :=
| CallSimple (rawTexIndex : Z) (tag : string) (result : option nat)
| CallCombine (ixVec : list Z) (tag : string) (merger : pixel_merger)
    (srgb : bool) (result : option nat).

(** the state of a run: the model, the texture builder's tables and call
    record, and what [fmt::printf] has written *)
Record State := {
  gltf : GltfModel;
  simpleByIndex : gmap (Z * string) nat;
  combinedByKey : gmap (string * list string) nat;
  tb_calls : list TBCall;
  printed : list string
}.

Definition new_State : State :=
  {| gltf := new_GltfModel; simpleByIndex := ∅; combinedByKey := ∅;
     tb_calls := []; printed := [] |}.

Definition set_gltf (g : GltfModel) (s : State) : State :=
  {| gltf := g; simpleByIndex := simpleByIndex s; combinedByKey := combinedByKey s;
     tb_calls := tb_calls s; printed := printed s |}.

(** *** The monad of the run: state, and [None] for an abort *)

Definition M (A : Type) : Type := State -> option (A * State).

#[export] Instance M_ret : MRet M := fun A x s => Some (x, s).
#[export] Instance M_bind : MBind M := fun A B f m s =>
  match m s with
  | Some (x, s') => f x s'
  | None => None
  end.

Definition abort {A} : M A := fun _ => None.
Definition get_model : M GltfModel := fun s => Some (gltf s, s).
Definition modify (f : GltfModel -> GltfModel) : M unit :=
  fun s => Some (tt, set_gltf (f (gltf s)) s).
Definition printf (line : string) : M unit := fun s =>
  Some (tt, {| gltf := gltf s; simpleByIndex := simpleByIndex s;
               combinedByKey := combinedByKey s;
               tb_calls := tb_calls s; printed := printed s ++ [line] |}).
(** dereferencing: a null pointer or a subscript out of range aborts *)
Definition deref {A} (o : option A) : M A :=
  match o with Some x => mret x | None => abort end.
Definition assert (b : bool) : M unit := if b then mret tt else abort.

(** [for (x : xs) body] *)
Fixpoint for_each {A} (xs : list A) (body : A -> M unit) : M unit :=
  match xs with
  | [] => mret tt
  | x :: xs' => body x ;; for_each xs' body
  end.

(** a loop that carries local variables of type [L] from one iteration
    to the next *)
Fixpoint for_fold {A L} (xs : list A) (body : A -> L -> M L) (l : L) : M L :=
  match xs with
  | [] => mret l
  | x :: xs' => l' ← body x l; for_fold xs' body l'
  end.

(** [for (int i = 0; i < n; i++)] over the elements of a vector *)
Definition indexed {A} (xs : list A) : list (nat * A) := zip (seq 0 (length xs)) xs.

(** *** Buffer views and accessors ([GltfModel.hpp])

    These members are declared outside Raw2Gltf.cpp; each is modelled from
    the spec, sections 4.1 to 4.3.  A [std::shared_ptr] to a view or to an
    accessor is the index the holder gave it. *)

Definition size_of (b : list byte) : Z := Z.of_nat (length b).

(** Modelled from the spec: [BinaryBuffer::appendAligned] is missing.
    Spec 4.1: pads the current length up to [alignment], then appends. *)
Definition pad_to (alignment : Z) (b : list byte) : list byte :=
  b ++ replicate (Z.to_nat ((- size_of b) mod alignment)) x00.

Definition appendAligned (bytes : list byte) (alignment : Z) (b : list byte) : list byte :=
  pad_to alignment b ++ bytes.

(** Modelled from the spec: [GltfModel::GetAlignedBufferView] is missing.
    Spec 4.2: a fresh empty view whose start offset is aligned. *)
Definition GetAlignedBufferView (target : GL_ArrayType) : M nat :=
  g ← get_model;
  let bin := pad_to 4 (binary g) in
  let '(v, vs) := hold {| bv_ix := 0; bv_byteOffset := size_of bin;
                          bv_byteLength := 0; bv_target := target |} (bufferViews g) in
  modify (fun g => set_bufferViews vs (set_binary bin g)) ;;
  mret (bv_ix v).

(** Modelled from the spec: [GltfModel::CopyToBufferView] and
    [BufferViewData::appendAsBinaryArray] are missing.  Spec 4.2 and 9:
    the data is converted to little-endian bytes, appended with alignment
    [max(4, componentSize)], and the view is extended to cover them. *)
Definition appendAsBinaryArray `{GLWritable T} (view : nat) (data : list T) (t : GLType)
  : M Z :=
  g ← get_model;
  v ← deref (bufferViews g !! view);
  let alignment := Z.max 4 (ct_size (componentType t)) in
  let start := size_of (pad_to alignment (binary g)) in
  let bin := appendAligned (gl_write_array t data) alignment (binary g) in
  let v' := {| bv_ix := bv_ix v; bv_byteOffset := bv_byteOffset v;
               bv_byteLength := size_of bin - bv_byteOffset v;
               bv_target := bv_target v |} in
  modify (fun g => set_bufferViews (<[view := v']> (bufferViews g)) (set_binary bin g)) ;;
  mret (start - bv_byteOffset v).

Definition CopyToBufferView `{GLWritable T} (view : nat) (data : list T) (t : GLType)
  : M unit :=
  appendAsBinaryArray view data t ;; mret tt.

(** [new AccessorData(bufferView, type, name)] and [new AccessorData(type)] *)
Definition new_AccessorData (bufferView : Z) (t : GLType) (name : string) : AccessorData :=
  {| acc_ix := 0; acc_bufferView := bufferView; acc_type := t; acc_byteOffset := 0;
     acc_count := 0; acc_min := []; acc_max := []; acc_name := name;
     acc_sparse := false; sparseIdxCount := 0; sparseIdxBufferView := -1;
     sparseIdxBufferViewType := 0; sparseDataBufferView := -1 |}.

Definition hold_accessor (a : AccessorData) : M nat :=
  g ← get_model;
  let '(a', l) := hold a (accessors g) in
  modify (set_accessors l) ;; mret (acc_ix a').

(** assignment through a [shared_ptr<AccessorData>] *)
Definition update_accessor (ix : nat) (f : AccessorData -> AccessorData) : M unit :=
  g ← get_model;
  a ← deref (accessors g !! ix);
  modify (fun g => set_accessors (<[ix := f a]> (accessors g)) g).

Definition set_acc_layout (byteOffset count : Z) (a : AccessorData) : AccessorData :=
  {| acc_ix := acc_ix a; acc_bufferView := acc_bufferView a; acc_type := acc_type a;
     acc_byteOffset := byteOffset; acc_count := count;
     acc_min := acc_min a; acc_max := acc_max a; acc_name := acc_name a;
     acc_sparse := acc_sparse a; sparseIdxCount := sparseIdxCount a;
     sparseIdxBufferView := sparseIdxBufferView a;
     sparseIdxBufferViewType := sparseIdxBufferViewType a;
     sparseDataBufferView := sparseDataBufferView a |}.

(** [accessor->min = lo; accessor->max = hi] *)
Definition set_acc_bounds (lo hi : list float) (a : AccessorData) : AccessorData :=
  {| acc_ix := acc_ix a; acc_bufferView := acc_bufferView a; acc_type := acc_type a;
     acc_byteOffset := acc_byteOffset a; acc_count := acc_count a;
     acc_min := lo; acc_max := hi; acc_name := acc_name a;
     acc_sparse := acc_sparse a; sparseIdxCount := sparseIdxCount a;
     sparseIdxBufferView := sparseIdxBufferView a;
     sparseIdxBufferViewType := sparseIdxBufferViewType a;
     sparseDataBufferView := sparseDataBufferView a |}.

(** Modelled from the spec: [GltfModel::AddAccessorWithView] is missing.
    Spec 4.3: reuses an existing view, appending at its current end. *)
Definition AddAccessorWithView `{GLWritable T} (view : nat) (t : GLType)
    (source : list T) (name : string) : M nat :=
  a ← hold_accessor (new_AccessorData (Z.of_nat view) t name);
  byteOffset ← appendAsBinaryArray view source t;
  update_accessor a (set_acc_layout byteOffset (Z.of_nat (length source))) ;;
  mret a.

(** Modelled from the spec: [GltfModel::AddAccessorAndView] is missing.
    Spec 4.3: a new buffer view (element-array for integer index types),
    the data copied into it, and an accessor spanning it. *)
Definition AddAccessorAndView `{GLWritable T} (t : GLType) (source : list T) : M nat :=
  view ← GetAlignedBufferView
            (match componentType t with
             | CT_FLOAT => GL_ARRAY_NONE
             | _ => GL_ELEMENT_ARRAY_BUFFER
             end);
  AddAccessorWithView view t source "".

(** Modelled from the spec: [GltfModel::AddSparseAccessor] is missing.
    Spec 4.3: a sparse accessor whose non-sparse fields mirror [base]; it
    substitutes as many elements as the index view holds indices. *)
Definition AddSparseAccessor (base : nat) (indexView : nat) (indexType : GLType)
    (dataView : nat) (t : GLType) (name : string) : M nat :=
  g ← get_model;
  b ← deref (accessors g !! base);
  iv ← deref (bufferViews g !! indexView);
  _ ← deref (bufferViews g !! dataView);
  hold_accessor
    {| acc_ix := 0; acc_bufferView := acc_bufferView b; acc_type := t;
       acc_byteOffset := acc_byteOffset b; acc_count := acc_count b;
       acc_min := []; acc_max := []; acc_name := name;
       acc_sparse := true;
       sparseIdxCount := bv_byteLength iv / byteStride indexType;
       sparseIdxBufferView := Z.of_nat indexView;
       sparseIdxBufferViewType := glType (componentType indexType);
       sparseDataBufferView := Z.of_nat dataView |}.

(** Modelled from the spec: [GltfModel::AddSparseAccessorWithView] is
    missing.  Spec 4.3: the same, but [values] is copied into the values
    view first; one element is substituted per value. *)
Definition AddSparseAccessorWithView `{GLWritable T} (base : nat) (indexView : nat)
    (indexType : GLType) (dataView : nat) (t : GLType) (values : list T)
    (name : string) : M nat :=
  CopyToBufferView dataView values t ;;
  g ← get_model;
  b ← deref (accessors g !! base);
  _ ← deref (bufferViews g !! indexView);
  hold_accessor
    {| acc_ix := 0; acc_bufferView := acc_bufferView b; acc_type := t;
       acc_byteOffset := acc_byteOffset b; acc_count := acc_count b;
       acc_min := []; acc_max := []; acc_name := name;
       acc_sparse := true;
       sparseIdxCount := Z.of_nat (length values);
       sparseIdxBufferView := Z.of_nat indexView;
       sparseIdxBufferViewType := glType (componentType indexType);
       sparseDataBufferView := Z.of_nat dataView |}.

(** Modelled from the spec: [GltfModel::AddRawBufferView] is missing.
    Spec 4.1 and 4.2: the bytes are appended without padding and a view
    without target covers them. *)
Definition AddRawBufferView (bytes : list byte) : M nat :=
  g ← get_model;
  let '(v, vs) := hold {| bv_ix := 0; bv_byteOffset := size_of (binary g);
                          bv_byteLength := size_of bytes;
                          bv_target := GL_ARRAY_NONE |} (bufferViews g) in
  modify (fun g => set_bufferViews vs (set_binary (binary g ++ bytes) g)) ;;
  mret (bv_ix v).

(** ** Raw2Gltf, stage by stage *)

Definition nl : string := String (ascii_of_nat 10) EmptyString.

(** [require(map, key)]: the entry must exist *)
Definition require (map : gmap Z nat) (key : Z) : M nat := deref (map !! key).

(** [std::map::insert]: an existing entry is kept *)
Definition map_insert_new (key : Z) (v : nat) (map : gmap Z nat) : gmap Z nat :=
  match map !! key with
  | Some _ => map
  | None => <[key := v]> map
  end.

(** assignment through a [shared_ptr<NodeData>] *)
Definition update_node (ix : nat) (f : NodeData -> NodeData) : M unit :=
  g ← get_model;
  n ← deref (nodes g !! ix);
  modify (fun g => set_nodes (<[ix := f n]> (nodes g)) g).

Definition set_userProperties (p : list string) (n : NodeData) : NodeData :=
  {| nd_ix := nd_ix n; nd_name := nd_name n; nd_translation := nd_translation n;
     nd_rotation := nd_rotation n; nd_scale := nd_scale n; nd_isJoint := nd_isJoint n;
     nd_children := nd_children n; nd_mesh := nd_mesh n; nd_skin := nd_skin n;
     nd_camera := nd_camera n; nd_light := nd_light n; nd_userProperties := p |}.
Definition AddChildNode (childIx : Z) (n : NodeData) : NodeData :=
  {| nd_ix := nd_ix n; nd_name := nd_name n; nd_translation := nd_translation n;
     nd_rotation := nd_rotation n; nd_scale := nd_scale n; nd_isJoint := nd_isJoint n;
     nd_children := nd_children n ++ [childIx]; nd_mesh := nd_mesh n;
     nd_skin := nd_skin n; nd_camera := nd_camera n; nd_light := nd_light n;
     nd_userProperties := nd_userProperties n |}.
Definition SetMesh (meshIx : Z) (n : NodeData) : NodeData :=
  {| nd_ix := nd_ix n; nd_name := nd_name n; nd_translation := nd_translation n;
     nd_rotation := nd_rotation n; nd_scale := nd_scale n; nd_isJoint := nd_isJoint n;
     nd_children := nd_children n; nd_mesh := meshIx; nd_skin := nd_skin n;
     nd_camera := nd_camera n; nd_light := nd_light n;
     nd_userProperties := nd_userProperties n |}.
Definition SetSkin (skinIx : Z) (n : NodeData) : NodeData :=
  {| nd_ix := nd_ix n; nd_name := nd_name n; nd_translation := nd_translation n;
     nd_rotation := nd_rotation n; nd_scale := nd_scale n; nd_isJoint := nd_isJoint n;
     nd_children := nd_children n; nd_mesh := nd_mesh n; nd_skin := skinIx;
     nd_camera := nd_camera n; nd_light := nd_light n;
     nd_userProperties := nd_userProperties n |}.
Definition SetCamera (cameraIx : Z) (n : NodeData) : NodeData :=
  {| nd_ix := nd_ix n; nd_name := nd_name n; nd_translation := nd_translation n;
     nd_rotation := nd_rotation n; nd_scale := nd_scale n; nd_isJoint := nd_isJoint n;
     nd_children := nd_children n; nd_mesh := nd_mesh n; nd_skin := nd_skin n;
     nd_camera := cameraIx; nd_light := nd_light n;
     nd_userProperties := nd_userProperties n |}.
Definition SetLight (lightIx : Z) (n : NodeData) : NodeData :=
  {| nd_ix := nd_ix n; nd_name := nd_name n; nd_translation := nd_translation n;
     nd_rotation := nd_rotation n; nd_scale := nd_scale n; nd_isJoint := nd_isJoint n;
     nd_children := nd_children n; nd_mesh := nd_mesh n; nd_skin := nd_skin n;
     nd_camera := nd_camera n; nd_light := lightIx;
     nd_userProperties := nd_userProperties n |}.

(** *** Nodes (lines 132-150) *)

Definition node_step (raw : RawModel) (options : GltfOptions) (node : RawNode)
    (nodesById : gmap Z nat) : M (gmap Z nat) :=
  (* assumption: RawNode index == NodeData index *)
  g ← get_model;
  let '(nodeData, l) :=
    hold (new_NodeData (rn_name node) (rn_translation node) (rn_rotation node)
            (rn_scale node) (rn_isJoint node)) (nodes g) in
  modify (set_nodes l) ;;
  (if enableUserProperties options
   then update_node (nd_ix nodeData) (set_userProperties (rn_userProperties node))
   else mret tt) ;;
  for_each (rn_childIds node) (fun childId =>
    let childIx := GetNodeById raw childId in
    assert (0 <=? childIx) ;;
    update_node (nd_ix nodeData) (AddChildNode childIx)) ;;
  mret (map_insert_new (rn_id node) (nd_ix nodeData) nodesById).

Definition build_nodes (raw : RawModel) (options : GltfOptions) : M (gmap Z nat) :=
  for_fold (raw_nodes raw) (node_step raw options) ∅.

(** *** Animations (lines 156-216) *)

(** [*std::min_element(first, last)] and [*std::max_element(first, last)];
    [None] on an empty range, where the source dereferences [last] *)
Definition min_element (l : list float) : option float :=
  match l with
  | [] => None
  | x :: l' => Some (fold_left (fun smallest y => if flt y smallest then y else smallest) l' x)
  end.

Definition max_element (l : list float) : option float :=
  match l with
  | [] => None
  | x :: l' => Some (fold_left (fun largest y => if flt largest y then y else largest) l' x)
  end.

Definition hold_animation (a : AnimationData) : M nat :=
  g ← get_model;
  let '(a', l) := hold a (animations g) in
  modify (set_animations l) ;; mret (anim_ix a').

(** [aDat.AddNodeChannel(node, accessor, path)] *)
Definition AddNodeChannel (aDat nDat accessor : nat) (path : string) : M unit :=
  g ← get_model;
  a ← deref (animations g !! aDat);
  let a' := {| anim_ix := anim_ix a; anim_name := anim_name a;
               anim_timeAccessor := anim_timeAccessor a;
               anim_channels := anim_channels a ++ [(nDat, accessor, path)] |} in
  modify (fun g => set_animations (<[aDat := a']> (animations g)) g).

Definition is_empty {A} (l : list A) : bool :=
  match l with [] => true | _ => false end.

Definition channel_step (raw : RawModel) (nodesById : gmap Z nat) (aDat : nat)
    (channel : RawChannel) : M unit :=
  node ← deref (at_index (raw_nodes raw) (ch_nodeIndex channel));
  nDat ← require nodesById (rn_id node);
  (if negb (is_empty (ch_translations channel))
   then acc ← AddAccessorAndView GLT_VEC3F (ch_translations channel);
        AddNodeChannel aDat nDat acc "translation"
   else mret tt) ;;
  (if negb (is_empty (ch_rotations channel))
   then acc ← AddAccessorAndView GLT_QUATF (ch_rotations channel);
        AddNodeChannel aDat nDat acc "rotation"
   else mret tt) ;;
  (if negb (is_empty (ch_scales channel))
   then acc ← AddAccessorAndView GLT_VEC3F (ch_scales channel);
        AddNodeChannel aDat nDat acc "scale"
   else mret tt) ;;
  (if negb (is_empty (ch_weights channel))
   then acc ← AddAccessorAndView
                {| componentType := CT_FLOAT; gl_count := 1; dataType := "SCALAR" |}
                (ch_weights channel);
        AddNodeChannel aDat nDat acc "weights"
   else mret tt).

Definition animation_step (raw : RawModel) (nodesById : gmap Z nat)
    (animation : RawAnimation) : M unit :=
  if is_empty (ra_channels animation)
  then printf ("Animation '" ++ ra_name animation ++ "' has no channels, skipped" ++ nl)
  else
    accessor ← AddAccessorAndView GLT_FLOAT (ra_times animation);
    lo ← deref (min_element (ra_times animation));
    hi ← deref (max_element (ra_times animation));
    update_accessor accessor (set_acc_bounds [lo] [hi]) ;;
    aDat ← hold_animation {| anim_ix := 0; anim_name := ra_name animation;
                             anim_timeAccessor := accessor; anim_channels := [] |};
    for_each (ra_channels animation) (channel_step raw nodesById aDat).

Definition build_animations (raw : RawModel) (nodesById : gmap Z nat) : M unit :=
  for_each (raw_animations raw) (animation_step raw nodesById).

(** *** The texture builder ([TextureBuilder.hpp])

    An external collaborator: only its contract, spec 4.5, is modelled.
    Image files are not read; a combined texture records the merger that
    computes each of its texels. *)

Definition to_lower_ascii (c : ascii) : ascii :=
  let n := nat_of_ascii c in
  if ((65 <=? n) && (n <=? 90))%nat then ascii_of_nat (n + 32) else c.

Fixpoint to_lower (s : string) : string :=
  match s with
  | EmptyString => EmptyString
  | String c s' => String (to_lower_ascii c) (to_lower s')
  end.

(** [StringUtils::CompareNoCase(a, b) == 0] *)
Definition CompareNoCase_eq (a b : string) : bool :=
  String.eqb (to_lower a) (to_lower b).

Definition hold_texture (t : TextureData) : M nat :=
  g ← get_model;
  let '(t', l) := hold t (textures g) in
  modify (set_textures l) ;; mret (tex_ix t').

Definition tb_record (c : TBCall) : M unit := fun s =>
  Some (tt, {| gltf := gltf s; simpleByIndex := simpleByIndex s;
               combinedByKey := combinedByKey s;
               tb_calls := tb_calls s ++ [c]; printed := printed s |}).

Definition tb_get_simple : M (gmap (Z * string) nat) := fun s => Some (simpleByIndex s, s).
Definition tb_get_combined : M (gmap (string * list string) nat) :=
  fun s => Some (combinedByKey s, s).
Definition tb_put_simple (m : gmap (Z * string) nat) : M unit := fun s =>
  Some (tt, {| gltf := gltf s; simpleByIndex := m; combinedByKey := combinedByKey s;
               tb_calls := tb_calls s; printed := printed s |}).
Definition tb_put_combined (m : gmap (string * list string) nat) : M unit := fun s =>
  Some (tt, {| gltf := gltf s; simpleByIndex := simpleByIndex s; combinedByKey := m;
               tb_calls := tb_calls s; printed := printed s |}).

(** Modelled from the spec: [TextureBuilder::simple] is missing.  Spec 4.5:
    the texture of a source texture, created lazily and deduplicated by
    (source index, tag); null for a negative index. *)
Definition tb_simple (raw : RawModel) (rawTexIndex : Z) (tag : string) : M (option nat) :=
  if rawTexIndex <? 0
  then tb_record (CallSimple rawTexIndex tag None) ;; mret None
  else
    _ ← deref (at_index (raw_textures raw) rawTexIndex);
    cache ← tb_get_simple;
    match cache !! (rawTexIndex, tag) with
    | Some t => tb_record (CallSimple rawTexIndex tag (Some t)) ;; mret (Some t)
    | None =>
        t ← hold_texture {| tex_ix := 0; tex_tag := tag; tex_sources := [rawTexIndex];
                            tex_srgb := false; tex_merger := None |};
        tb_put_simple (<[(rawTexIndex, tag) := t]> cache) ;;
        tb_record (CallSimple rawTexIndex tag (Some t)) ;;
        mret (Some t)
    end.

(** the file location of a source index, the empty string if negative *)
Definition source_location (raw : RawModel) (ix : Z) : M string :=
  if ix <? 0 then mret EmptyString
  else t ← deref (at_index (raw_textures raw) ix); mret (to_lower (rt_fileLocation t)).

Fixpoint source_locations (raw : RawModel) (ixVec : list Z) : M (list string) :=
  match ixVec with
  | [] => mret []
  | ix :: r => l ← source_location raw ix; ls ← source_locations raw r; mret (l :: ls)
  end.

(** Modelled from the spec: [TextureBuilder::combine] is missing.  Spec
    4.5: a texture whose texels are [pixelCombiner(pixels)]; null only if
    all source indices are negative; deduplicated by the output tag and
    the source file locations, compared without case. *)
Definition tb_combine (raw : RawModel) (ixVec : list Z) (tag : string)
    (computePixel : pixel_merger) (srgb : bool) : M (option nat) :=
  if forallb (fun ix => ix <? 0) ixVec
  then tb_record (CallCombine ixVec tag computePixel srgb None) ;; mret None
  else
    locations ← source_locations raw ixVec;
    cache ← tb_get_combined;
    match cache !! (tag, locations) with
    | Some t => tb_record (CallCombine ixVec tag computePixel srgb (Some t)) ;;
                mret (Some t)
    | None =>
        t ← hold_texture {| tex_ix := 0; tex_tag := tag; tex_sources := ixVec;
                            tex_srgb := srgb; tex_merger := Some computePixel |};
        tb_put_combined (<[(tag, locations) := t]> cache) ;;
        tb_record (CallCombine ixVec tag computePixel srgb (Some t)) ;;
        mret (Some t)
    end.

(** *** Materials (lines 231-473) *)

(** the downcasts of lines 264 and 374: defined on the matching subclass *)
Definition as_met_rough (info : RawMatProps) : option RawMetRoughMatProps :=
  match info with MetRoughProps p => Some p | _ => None end.
Definition as_traditional (info : RawMatProps) : option RawTraditionalMatProps :=
  match info with TraditionalProps _ p => Some p | _ => None end.

Definition px_R (p : pixel) : float := let '(r, _, _, _) := p in r.
Definition px_G (p : pixel) : float := let '(_, g, _, _) := p in g.
Definition px_B (p : pixel) : float := let '(_, _, b, _) := p in b.

(** the lambda of lines 332-348 *)
Definition ao_met_rough_merger (hasOcclusionMap hasRoughnessMap hasMetallicMap : bool)
    (props : RawMetRoughMatProps) : pixel_merger := fun pixels =>
  occlusion ← (if hasOcclusionMap then px_R <$> pixels !! 0%nat else Some f1);
  p1 ← pixels !! 1%nat;
  let roughness := fmul (px_G p1) (if hasRoughnessMap then f1 else mr_roughness props) in
  p2 ← pixels !! 2%nat;
  let metallic := fmul (px_B p2) (if hasMetallicMap then f1 else mr_metallic props) in
  Some (occlusion,
        if mr_invertRoughnessMap props then fsub f1 roughness else roughness,
        metallic,
        f1).

(** the lambda of line 388 *)
Definition getRoughness (shininess : float) : float :=
  sqrtf (fdiv f2 (fadd f2 shininess)).

(** the lambda of lines 395-401; [metallic] is the local it captures by
    reference, read when the texture builder applies the lambda *)
Definition shininess_merger (props : RawTraditionalMatProps) (metallic : float)
  : pixel_merger := fun pixels =>
  p0 ← pixels !! 0%nat;
  let shininess := fmul (tr_shininess props) (px_R p0) in
  Some (f0, getRoughness shininess, metallic, f1).

Definition hold_material (m : MaterialData) : M nat :=
  g ← get_model;
  let '(m', l) := hold m (materials g) in
  modify (set_materials l) ;; mret (mat_ix m').

(** the lambda [simpleTex] of lines 240-244 *)
Definition simpleTex (raw : RawModel) (material : RawMaterial) (usage : RawTextureUsage)
  : M (option nat) :=
  if 0 <=? rm_textures material usage
  then tb_simple raw (rm_textures material usage) "simple"
  else mret None.

(** the lambda [texturesAreSame] of lines 272-277 *)
Definition texturesAreSame (raw : RawModel) (material : RawMaterial)
    (a b : RawTextureUsage) : M bool :=
  ta ← deref (at_index (raw_textures raw) (rm_textures material a));
  tb ← deref (at_index (raw_textures raw) (rm_textures material b));
  mret (CompareNoCase_eq (rt_fileLocation ta) (rt_fileLocation tb)).

(** [Vec3f emissiveFactor; float emissiveIntensity;] (lines 236-237) are
    declared without an initializer.  A run that assigns nothing to them,
    as with metallic-roughness output disabled, still reads them at line
    465: [Unassigned] is what the two locals hold then, an input of the
    step that the program does not determine. *)
Record Unassigned := {
  un_emissiveFactor : Vec3f;
  un_emissiveIntensity : float
}.

(** the locals the material branches leave behind; [None] in
    [loc_emissiveFactor] and [loc_emissiveIntensity] is a local that was
    never assigned *)
Record MaterialLocals := {
  loc_pbrMetRough : option PBRMetallicRoughness;
  loc_occlusionTexture : option nat;
  loc_emissiveFactor : option Vec3f;
  loc_emissiveIntensity : option float
}.

(** lines 257-368: PBR FBX material to PBR metallic-roughness *)
Definition pbr_from_met_rough (raw : RawModel) (material : RawMaterial)
  : M MaterialLocals :=
  props ← deref (as_met_rough (rm_info material));
  let hasMetallicMap := 0 <=? rm_textures material RAW_TEXTURE_USAGE_METALLIC in
  let hasRoughnessMap := 0 <=? rm_textures material RAW_TEXTURE_USAGE_ROUGHNESS in
  let hasOcclusionMap := 0 <=? rm_textures material RAW_TEXTURE_USAGE_OCCLUSION in
  isPassThroughTexture ←
    (if hasOcclusionMap && hasRoughnessMap && hasMetallicMap
     then
       same1 ← texturesAreSame raw material
                 RAW_TEXTURE_USAGE_METALLIC RAW_TEXTURE_USAGE_ROUGHNESS;
       if same1 : bool
       then texturesAreSame raw material
              RAW_TEXTURE_USAGE_METALLIC RAW_TEXTURE_USAGE_OCCLUSION
       else mret false
     else mret false);
  aoMetRoughTex ←
    (if negb (hasMetallicMap || hasRoughnessMap || hasOcclusionMap)
     then mret None
     else if isPassThroughTexture : bool
     then
       if hasMetallicMap then simpleTex raw material RAW_TEXTURE_USAGE_METALLIC
       else if hasRoughnessMap then simpleTex raw material RAW_TEXTURE_USAGE_ROUGHNESS
       else if hasOcclusionMap then simpleTex raw material RAW_TEXTURE_USAGE_OCCLUSION
       else mret None
     else
       tb_combine raw
         [ rm_textures material RAW_TEXTURE_USAGE_OCCLUSION;
           rm_textures material RAW_TEXTURE_USAGE_ROUGHNESS;
           rm_textures material RAW_TEXTURE_USAGE_METALLIC ]
         "ao_met_rough"
         (ao_met_rough_merger hasOcclusionMap hasRoughnessMap hasMetallicMap props)
         false);
  baseColorTex ← simpleTex raw material RAW_TEXTURE_USAGE_ALBEDO;
  mret {| loc_pbrMetRough :=
            Some {| baseColorTexture := baseColorTex; metRoughTexture := aoMetRoughTex;
                    baseColorFactor := mr_diffuseFactor props;
                    pbr_metallic := mr_metallic props;
                    pbr_roughness := mr_roughness props |};
          loc_occlusionTexture := aoMetRoughTex;
          loc_emissiveFactor := Some (mr_emissiveFactor props);
          loc_emissiveIntensity := Some (mr_emissiveIntensity props) |}.

(** lines 368-421: traditional FBX material to PBR metallic-roughness *)
Definition pbr_from_traditional (raw : RawModel) (material : RawMaterial)
  : M MaterialLocals :=
  props ← deref (as_traditional (rm_info material));
  '(aoMetRoughTex, metallic, roughness) ←
    (match shadingModel (rm_info material) with
     | RAW_SHADING_MODEL_BLINN | RAW_SHADING_MODEL_PHONG =>
         (* blinn/phong hardcoded to 0.4 metallic *)
         let metallic := f32_lit 2 5 in
         aoMetRoughTex ← tb_combine raw
           [ rm_textures material RAW_TEXTURE_USAGE_SHININESS ]
           "ao_met_rough"
           (shininess_merger props metallic)
           false;
         match aoMetRoughTex with
         | Some _ => mret (aoMetRoughTex, f1, f1)
         | None => mret (aoMetRoughTex, metallic, getRoughness (tr_shininess props))
         end
     | _ => mret (None, f32_lit 1 5, f32_lit 4 5)
     end);
  baseColorTex ← simpleTex raw material RAW_TEXTURE_USAGE_DIFFUSE;
  mret {| loc_pbrMetRough :=
            Some {| baseColorTexture := baseColorTex; metRoughTexture := aoMetRoughTex;
                    baseColorFactor := tr_diffuseFactor props;
                    pbr_metallic := metallic;
                    pbr_roughness := roughness |};
          loc_occlusionTexture := None;
          loc_emissiveFactor := Some (tr_emissiveFactor props);
          loc_emissiveIntensity := Some f1 |}.

(** lines 426-450: the unlit override *)
Definition unlit_base (raw : RawModel) (material : RawMaterial)
  : M PBRMetallicRoughness :=
  match shadingModel (rm_info material) with
  | RAW_SHADING_MODEL_PBR_MET_ROUGH =>
      props ← deref (as_met_rough (rm_info material));
      baseColorTex ← simpleTex raw material RAW_TEXTURE_USAGE_ALBEDO;
      mret {| baseColorTexture := baseColorTex; metRoughTexture := None;
              baseColorFactor := mr_diffuseFactor props;
              pbr_metallic := f0; pbr_roughness := f1 |}
  | _ =>
      props ← deref (as_traditional (rm_info material));
      baseColorTex ← simpleTex raw material RAW_TEXTURE_USAGE_DIFFUSE;
      mret {| baseColorTexture := baseColorTex; metRoughTexture := None;
              baseColorFactor := tr_diffuseFactor props;
              pbr_metallic := f0; pbr_roughness := f1 |}
  end.

Definition material_step (raw : RawModel) (options : GltfOptions)
    (unassigned : Unassigned) (material : RawMaterial) (materialsById : gmap Z nat)
  : M (gmap Z nat) :=
  let isTransparent :=
    match rm_type material with
    | RAW_MATERIAL_TYPE_TRANSPARENT | RAW_MATERIAL_TYPE_SKINNED_TRANSPARENT => true
    | _ => false
    end in
  normalTex ← simpleTex raw material RAW_TEXTURE_USAGE_NORMAL;
  emissiveTex ← simpleTex raw material RAW_TEXTURE_USAGE_EMISSIVE;
  loc ←
    (if usePBRMetRough options
     then
       match shadingModel (rm_info material) with
       | RAW_SHADING_MODEL_PBR_MET_ROUGH => pbr_from_met_rough raw material
       | _ => pbr_from_traditional raw material
       end
     else mret {| loc_pbrMetRough := None; loc_occlusionTexture := None;
                  loc_emissiveFactor := None; loc_emissiveIntensity := None |});
  '(normalTex, emissiveTex, emissiveFactor, pbrMetRough, khrCmnUnlit) ←
    (if useKHRMatUnlit options
     then
       base ← unlit_base raw material;
       mret (None, None, Some Vec3f_zero, Some base, true)
     else mret (normalTex, emissiveTex, loc_emissiveFactor loc,
                loc_pbrMetRough loc, false));
  occlusionTex ←
    (match loc_occlusionTexture loc with
     | None => simpleTex raw material RAW_TEXTURE_USAGE_OCCLUSION
     | Some t => mret (Some t)
     end);
  (* line 465 reads both locals, assigned or not *)
  let emissiveFactor := default (un_emissiveFactor unassigned) emissiveFactor in
  let emissiveIntensity :=
    default (un_emissiveIntensity unassigned) (loc_emissiveIntensity loc) in
  mData ← hold_material
    {| mat_ix := 0; mat_name := rm_name material;
       mat_isTransparent := isTransparent;
       mat_isDoubleSided := rm_isDoubleSided material;
       mat_shadingModel := shadingModel (rm_info material);
       normalTexture := normalTex; occlusionTexture := occlusionTex;
       emissiveTexture := emissiveTex;
       mat_emissiveFactor := vec3_scale emissiveFactor emissiveIntensity;
       khrCmnUnlitMat := khrCmnUnlit;
       pbrMetallicRoughness := pbrMetRough;
       mat_userProperties :=
         if enableUserProperties options then rm_userProperties material else [] |};
  mret (<[rm_id material := mData]> materialsById).

(** lines 231-473; material [materialIndex] finds [unassigned materialIndex]
    in its unassigned locals *)
Definition build_materials (raw : RawModel) (options : GltfOptions)
    (unassigned : nat -> Unassigned) : M (gmap Z nat) :=
  for_fold (indexed (raw_materials raw))
    (fun im materialsById =>
       let '(materialIndex, material) := im in
       material_step raw options (unassigned materialIndex) material materialsById) ∅.

(** *** Meshes and primitives (lines 475-817) *)

Inductive DracoAttribute := DRACO_POSITION | DRACO_NORMAL | DRACO_COLOR
                          | DRACO_TEX_COORD | DRACO_GENERIC.

(** [AttributeDefinition<T>] and [AttributeArrayDefinition<T>]: the glTF
    name, the vertex member read (with the array offset applied), the
    accessor type and, where the attribute can be compressed, its kind *)
Record AttributeDefinition (T : Type) := {
  gltfName : string;
  rawAttribute : RawVertex -> option T;
  attr_glType : GLType;
  dracoAttribute : option DracoAttribute
}.
Arguments gltfName {T}.
Arguments rawAttribute {T}.
Arguments attr_glType {T}.
Arguments dracoAttribute {T}.

(** the encoder as lines 781-806 configure it *)
Record DracoEncoder := {
  enc_speed : option (Z * Z);
  enc_quantization : list (DracoAttribute * Z)
}.

(** [Bounds<float, 3>]: empty until the first point *)
Definition Bounds : Type := option (Vec3f * Vec3f).

Definition std_min (a b : float) : float := if flt b a then b else a.
Definition std_max (a b : float) : float := if flt a b then b else a.

(** Modelled from the spec: [Bounds::AddPoint] is missing.  Spec 4.7 step
    5: the bounds of the position deltas are tracked. *)
Definition AddPoint (p : Vec3f) (b : Bounds) : Bounds :=
  match b with
  | None => Some (p, p)
  | Some ((x0, y0, z0), (x1, y1, z1)) =>
      let '(x, y, z) := p in
      Some ((std_min x0 x, std_min y0 y, std_min z0 z),
            (std_max x1 x, std_max y1 y, std_max z1 z))
  end.

Definition toStdVec (v : Vec3f) : list float := let '(x, y, z) := v in [x; y; z].

Definition bounds_min (b : Bounds) : Vec3f :=
  match b with Some (lo, _) => lo | None => Vec3f_zero end.
Definition bounds_max (b : Bounds) : Vec3f :=
  match b with Some (_, hi) => hi | None => Vec3f_zero end.

(** [getIndexArray] (lines 68-77) *)
Definition getIndexArray (raw : RawModel) : list Z :=
  flat_map (fun t => let '(a, b, c) := verts t in [u32 a; u32 b; u32 c])
           (raw_triangles raw).

(** [primitive->AddTarget(pAcc.get(), nAcc.get(), tAcc.get())] *)
Definition AddTarget (pAcc : nat) (nAcc tAcc : option nat) (p : PrimitiveData)
  : PrimitiveData :=
  {| pr_indices := pr_indices p; pr_material := pr_material p;
     pr_attributes := pr_attributes p;
     pr_targets := pr_targets p ++ [(pAcc, nAcc, tAcc)];
     pr_dracoMesh := pr_dracoMesh p; pr_dracoBufferView := pr_dracoBufferView p |}.

Definition AddAttrib (name : string) (accessor : nat) (p : PrimitiveData)
  : PrimitiveData :=
  {| pr_indices := pr_indices p; pr_material := pr_material p;
     pr_attributes := pr_attributes p ++ [(name, accessor)];
     pr_targets := pr_targets p;
     pr_dracoMesh := pr_dracoMesh p; pr_dracoBufferView := pr_dracoBufferView p |}.

Definition AddDracoAttrib (name : string) (data : list byte) (p : PrimitiveData)
  : PrimitiveData :=
  {| pr_indices := pr_indices p; pr_material := pr_material p;
     pr_attributes := pr_attributes p; pr_targets := pr_targets p;
     pr_dracoMesh :=
       (fun m => {| dm_faces := dm_faces m; dm_num_points := dm_num_points m;
                    dm_attributes := dm_attributes m ++ [(name, data)] |})
       <$> pr_dracoMesh p;
     pr_dracoBufferView := pr_dracoBufferView p |}.

Definition NoteDracoBuffer (view : nat) (p : PrimitiveData) : PrimitiveData :=
  {| pr_indices := pr_indices p; pr_material := pr_material p;
     pr_attributes := pr_attributes p; pr_targets := pr_targets p;
     pr_dracoMesh := pr_dracoMesh p; pr_dracoBufferView := Z.of_nat view |}.

(** [new PrimitiveData(indexes, mData)] and, with a mesh to compress,
    [new PrimitiveData(indexes, mData, dracoMesh)] *)
Definition new_PrimitiveData (indexes mData : nat) (dracoMesh : option DracoMesh)
  : PrimitiveData :=
  {| pr_indices := indexes; pr_material := mData; pr_attributes := [];
     pr_targets := []; pr_dracoMesh := dracoMesh; pr_dracoBufferView := -1 |}.

Definition hold_mesh (m : MeshData) : M nat :=
  g ← get_model;
  let '(m', l) := hold m (meshes g) in
  modify (set_meshes l) ;; mret (mesh_ix m').

(** [mesh->AddPrimitive(primitive)] *)
Definition AddPrimitive (mesh : nat) (p : PrimitiveData) : M unit :=
  g ← get_model;
  m ← deref (meshes g !! mesh);
  let m' := {| mesh_ix := mesh_ix m; mesh_name := mesh_name m;
               mesh_weights := mesh_weights m;
               mesh_primitives := mesh_primitives m ++ [p] |} in
  modify (fun g => set_meshes (<[mesh := m']> (meshes g)) g).

(** the vertices visited so far for one blend channel (lines 643-679) *)
Record ChannelData := {
  shapeBounds : Bounds;
  positions : list Vec3f;
  normals : list Vec3f;
  tangents : list Vec4f;
  sparseIndices : list Z
}.

Definition collect_vertex (options : GltfOptions) (channel : RawBlendChannel)
    (channelIx : nat) (jv : nat * RawVertex) (d : ChannelData) : option ChannelData :=
  let '(jj, vertex) := jv in
  blendVertex ← rv_blends vertex !! channelIx;
  let isSparseVertex :=
    if flt f0 (vec3_Length (bl_position blendVertex)) then true
    else disableSparseBlendShapes options (* if sparse is off, add all vertices *) in
  Some {| shapeBounds := AddPoint (bl_position blendVertex) (shapeBounds d);
          positions := if isSparseVertex
                       then positions d ++ [bl_position blendVertex] else positions d;
          normals := if isSparseVertex && useBlendShapeNormals options
                        && bc_hasNormals channel
                     then normals d ++ [bl_normal blendVertex] else normals d;
          tangents := if isSparseVertex && useBlendShapeTangents options
                         && bc_hasTangents channel
                      then tangents d ++ [bl_tangent blendVertex] else tangents d;
          sparseIndices := if isSparseVertex
                           then sparseIndices d ++ [Z.of_nat jj] else sparseIndices d |}.

Fixpoint collect_vertices (options : GltfOptions) (channel : RawBlendChannel)
    (channelIx : nat) (vs : list (nat * RawVertex)) (d : ChannelData)
  : option ChannelData :=
  match vs with
  | [] => Some d
  | jv :: vs' =>
      d' ← collect_vertex options channel channelIx jv d;
      collect_vertices options channel channelIx vs' d'
  end.

Definition collect_channel (options : GltfOptions) (surfaceModel : RawModel)
    (channel : RawBlendChannel) (channelIx : nat) : option ChannelData :=
  collect_vertices options channel channelIx (indexed (raw_vertices surfaceModel))
    {| shapeBounds := None; positions := []; normals := []; tangents := [];
       sparseIndices := [] |}.

(** the locals of the surface loop that the channel loop updates *)
Record SurfaceLocals := {
  primitive : PrimitiveData;
  dummyIdxView : option nat;
  dummyDataView : option nat
}.

(** lines 689-715: a channel that modifies no vertex *)
Definition empty_channel (useLongIndices : bool) (pAccBase : option nat)
    (channel : RawBlendChannel) (loc : SurfaceLocals)
  : M (nat * nat * nat) :=
  let indexType := if useLongIndices then GLT_UINT else GLT_USHORT in
  (* Initalize dummy bufferviews if needed *)
  idxView ←
    (match dummyIdxView loc with
     | Some v => mret v
     | None =>
         v ← GetAlignedBufferView GL_ARRAY_NONE;
         CopyToBufferView v [0] indexType ;;
         mret v
     end);
  dataView ←
    (match dummyDataView loc with
     | Some v => mret v
     | None =>
         v ← GetAlignedBufferView GL_ARRAY_NONE;
         appendAsBinaryArray v [Vec3f_zero] GLT_VEC3F ;;
         mret v
     end);
  (* Set up sparse accessor with dummy buffer views *)
  base ← deref pAccBase;
  pAcc ← AddSparseAccessor base idxView indexType dataView GLT_VEC3F (bc_name channel);
  mret (pAcc, idxView, dataView).

(** lines 716-751: a channel with modified vertices, sparse *)
Definition sparse_channel (useLongIndices : bool) (pAccBase nAccBase : option nat)
    (channel : RawBlendChannel) (d : ChannelData)
  : M (nat * option nat * option nat) :=
  let indexType := if useLongIndices then GLT_UINT else GLT_USHORT in
  (* Build Orphan Bufferview for Sparse Indices *)
  indexBufferView ← GetAlignedBufferView GL_ARRAY_NONE;
  CopyToBufferView indexBufferView (sparseIndices d) indexType ;;
  base ← deref pAccBase;
  view ← GetAlignedBufferView GL_ARRAY_NONE;
  pAcc ← AddSparseAccessorWithView base indexBufferView indexType view GLT_VEC3F
           (positions d) (bc_name channel);
  nAcc ←
    (if negb (is_empty (normals d))
     then
       base ← deref nAccBase;
       view ← GetAlignedBufferView GL_ARRAY_NONE;
       a ← AddSparseAccessorWithView base indexBufferView indexType view GLT_VEC3F
             (normals d) (bc_name channel);
       mret (Some a)
     else mret None);
  tAcc ←
    (if negb (is_empty (tangents d))
     then
       base ← deref nAccBase;
       view ← GetAlignedBufferView GL_ARRAY_NONE;
       a ← AddSparseAccessorWithView base indexBufferView indexType view GLT_VEC4F
             (tangents d) (bc_name channel);
       mret (Some a)
     else mret None);
  mret (pAcc, nAcc, tAcc).

(** lines 752-772: all vertices, through plain accessors *)
Definition dense_channel (channel : RawBlendChannel) (d : ChannelData)
  : M (nat * option nat * option nat) :=
  view ← GetAlignedBufferView GL_ARRAY_BUFFER;
  pAcc ← AddAccessorWithView view GLT_VEC3F (positions d) (bc_name channel);
  nAcc ←
    (if negb (is_empty (normals d))
     then
       view ← GetAlignedBufferView GL_ARRAY_BUFFER;
       a ← AddAccessorWithView view GLT_VEC3F (normals d) (bc_name channel);
       mret (Some a)
     else mret None);
  nAcc ←
    (if negb (is_empty (tangents d))
     then
       view ← GetAlignedBufferView GL_ARRAY_BUFFER;
       a ← AddAccessorWithView view GLT_VEC4F (tangents d) (bc_name channel);
       mret (Some a)
     else mret nAcc);
  mret (pAcc, nAcc, None).

(** the body of the channel loop (lines 640-777) *)
Definition channel_target (options : GltfOptions) (surfaceModel : RawModel)
    (useLongIndices : bool) (pAccBase nAccBase : option nat)
    (ic : nat * RawBlendChannel) (loc : SurfaceLocals) : M SurfaceLocals :=
  let '(channelIx, channel) := ic in
  d ← deref (collect_channel options surfaceModel channel channelIx);
  '(pAcc, nAcc, tAcc, idxView, dataView) ←
    (if negb (disableSparseBlendShapes options)
     then
       if (length (sparseIndices d) =? 0)%nat
       then
         '(pAcc, idxView, dataView) ← empty_channel useLongIndices pAccBase channel loc;
         mret (pAcc, None, None, Some idxView, Some dataView)
       else
         '(pAcc, nAcc, tAcc) ← sparse_channel useLongIndices pAccBase nAccBase channel d;
         mret (pAcc, nAcc, tAcc, dummyIdxView loc, dummyDataView loc)
     else
       '(pAcc, nAcc, tAcc) ← dense_channel channel d;
       mret (pAcc, nAcc, tAcc, dummyIdxView loc, dummyDataView loc));
  update_accessor pAcc
    (set_acc_bounds (toStdVec (bounds_min (shapeBounds d)))
                    (toStdVec (bounds_max (shapeBounds d)))) ;;
  mret {| primitive := AddTarget pAcc nAcc tAcc (primitive loc);
          dummyIdxView := idxView; dummyDataView := dataView |}.

Section Assembler.

(** What Raw2Gltf.cpp calls and this repository part does not define:
    - [to_uint32], the checked narrowing of a size ([None]: the check
      failed);
    - the Draco encoder, [None] when its status is not OK;
    - the JSON text of the document, from the extension lists, the scene
      index, the holders and the indentation of [dump]. *)
Variable to_uint32 : Z -> option Z.
Variable EncodeMeshToBuffer : DracoEncoder -> DracoMesh -> option (list byte).
Variable serialize : list string -> list string -> nat -> GltfModel -> Z -> list byte.

Definition attribute_array {T} (surfaceModel : RawModel) (attrDef : AttributeDefinition T)
  : option (list T) :=
  mapM (rawAttribute attrDef) (raw_vertices surfaceModel).

(** Modelled from the spec: [GltfModel::AddAttributeToPrimitive] and
    [AddAttributeArrayToPrimitive] are missing.  Spec 4.7 steps 4 and 6:
    an attribute appends to an array-buffer view and creates an accessor;
    under compression the data goes to the compressed mesh and the
    accessor stands alone, with the vertex count. *)
Definition AddAttributeToPrimitive `{GLWritable T} (surfaceModel : RawModel)
    (p : PrimitiveData) (attrDef : AttributeDefinition T) : M (nat * PrimitiveData) :=
  attribArr ← deref (attribute_array surfaceModel attrDef);
  match dracoAttribute attrDef, pr_dracoMesh p with
  | Some _, Some _ =>
      count ← deref (to_uint32 (Z.of_nat (length attribArr)));
      accessor ← hold_accessor (new_AccessorData (-1) (attr_glType attrDef) "");
      update_accessor accessor (set_acc_layout 0 count) ;;
      mret (accessor,
            AddAttrib (gltfName attrDef) accessor
              (AddDracoAttrib (gltfName attrDef)
                 (gl_write_array (attr_glType attrDef) attribArr) p))
  | _, _ =>
      bufferView ← GetAlignedBufferView GL_ARRAY_BUFFER;
      accessor ← AddAccessorWithView bufferView (attr_glType attrDef) attribArr "";
      mret (accessor, AddAttrib (gltfName attrDef) accessor p)
  end.

Definition has_attribute (surfaceModel : RawModel) (bit : Z) : bool :=
  negb (Z.land (raw_vertexAttributes surfaceModel) bit =? 0).

Definition ATTR_POSITION : AttributeDefinition Vec3f :=
  {| gltfName := "POSITION"; rawAttribute := fun v => Some (rv_position v);
     attr_glType := GLT_VEC3F; dracoAttribute := Some DRACO_POSITION |}.
Definition ATTR_NORMAL : AttributeDefinition Vec3f :=
  {| gltfName := "NORMAL"; rawAttribute := fun v => Some (rv_normal v);
     attr_glType := GLT_VEC3F; dracoAttribute := Some DRACO_NORMAL |}.
Definition ATTR_TANGENT : AttributeDefinition Vec4f :=
  {| gltfName := "TANGENT"; rawAttribute := fun v => Some (rv_tangent v);
     attr_glType := GLT_VEC4F; dracoAttribute := None |}.
Definition ATTR_COLOR : AttributeDefinition Vec4f :=
  {| gltfName := "COLOR_0"; rawAttribute := fun v => Some (rv_color v);
     attr_glType := GLT_VEC4F; dracoAttribute := Some DRACO_COLOR |}.
Definition ATTR_TEXCOORD_0 : AttributeDefinition Vec2f :=
  {| gltfName := "TEXCOORD_0"; rawAttribute := fun v => Some (rv_uv0 v);
     attr_glType := GLT_VEC2F; dracoAttribute := Some DRACO_TEX_COORD |}.
Definition ATTR_TEXCOORD_1 : AttributeDefinition Vec2f :=
  {| gltfName := "TEXCOORD_1"; rawAttribute := fun v => Some (rv_uv1 v);
     attr_glType := GLT_VEC2F; dracoAttribute := Some DRACO_TEX_COORD |}.

(** [std::to_string(i / 4)] *)
Definition to_string (n : nat) : string := NilZero.string_of_uint (Nat.to_uint n).

Definition ATTR_JOINTS (k : nat) : AttributeDefinition Vec4i :=
  {| gltfName := "JOINTS_" ++ to_string k;
     rawAttribute := fun v => rv_jointIndices v !! k;
     attr_glType := GLT_VEC4I; dracoAttribute := Some DRACO_GENERIC |}.
Definition ATTR_WEIGHTS (k : nat) : AttributeDefinition Vec4f :=
  {| gltfName := "WEIGHTS_" ++ to_string k;
     rawAttribute := fun v => rv_jointWeights v !! k;
     attr_glType := GLT_VEC4F; dracoAttribute := Some DRACO_GENERIC |}.

(** the values [i / 4] of [for (int i = 0; i < n; i += 4)] *)
Definition weight_groups (n : Z) : list nat := seq 0 (Z.to_nat ((n + 3) / 4)).

(** the base accessors of the surface loop *)
Record BaseAccessors := {
  pAccBase : option nat;
  nAccBase : option nat;
  tAccBase : option nat
}.

(** lines 550-637: the vertex attributes of a surface *)
Definition surface_attributes (surfaceModel : RawModel) (rawSurface : RawSurface)
    (p : PrimitiveData) : M (BaseAccessors * PrimitiveData) :=
  '(pBase, p) ←
    (if has_attribute surfaceModel RAW_VERTEX_ATTRIBUTE_POSITION
     then
       '(accessor, p) ← AddAttributeToPrimitive surfaceModel p ATTR_POSITION;
       update_accessor accessor
         (set_acc_bounds (toStdVec (rs_bounds rawSurface).1)
                         (toStdVec (rs_bounds rawSurface).2)) ;;
       mret (Some accessor, p)
     else mret (None, p));
  '(nBase, p) ←
    (if has_attribute surfaceModel RAW_VERTEX_ATTRIBUTE_NORMAL
     then '(a, p) ← AddAttributeToPrimitive surfaceModel p ATTR_NORMAL; mret (Some a, p)
     else mret (None, p));
  '(tBase, p) ←
    (if has_attribute surfaceModel RAW_VERTEX_ATTRIBUTE_TANGENT
     then '(a, p) ← AddAttributeToPrimitive surfaceModel p ATTR_TANGENT; mret (Some a, p)
     else mret (None, p));
  p ←
    (if has_attribute surfaceModel RAW_VERTEX_ATTRIBUTE_COLOR
     then '(_, p) ← AddAttributeToPrimitive surfaceModel p ATTR_COLOR; mret p
     else mret p);
  p ←
    (if has_attribute surfaceModel RAW_VERTEX_ATTRIBUTE_UV0
     then '(_, p) ← AddAttributeToPrimitive surfaceModel p ATTR_TEXCOORD_0; mret p
     else mret p);
  p ←
    (if has_attribute surfaceModel RAW_VERTEX_ATTRIBUTE_UV1
     then '(_, p) ← AddAttributeToPrimitive surfaceModel p ATTR_TEXCOORD_1; mret p
     else mret p);
  p ←
    (if has_attribute surfaceModel RAW_VERTEX_ATTRIBUTE_JOINT_INDICES
     then for_fold (weight_groups (raw_globalWeightCount surfaceModel))
            (fun k p => '(_, p) ← AddAttributeToPrimitive surfaceModel p (ATTR_JOINTS k);
                        mret p) p
     else mret p);
  p ←
    (if has_attribute surfaceModel RAW_VERTEX_ATTRIBUTE_JOINT_WEIGHTS
     then for_fold (weight_groups (raw_globalWeightCount surfaceModel))
            (fun k p => '(_, p) ← AddAttributeToPrimitive surfaceModel p (ATTR_WEIGHTS k);
                        mret p) p
     else mret p);
  mret ({| pAccBase := pBase; nAccBase := nBase; tAccBase := tBase |}, p).

(** line 502 *)
Definition decide_long_indices (options : GltfOptions) (surfaceModel : RawModel) : bool :=
  match useLongIndices options with
  | ALWAYS => true
  | AUTO => 65535 <? GetVertexCount surfaceModel
  | NEVER => false
  end.

(** lines 506-534: the indices of a surface *)
Definition surface_indices (options : GltfOptions) (surfaceModel : RawModel)
    (useLongIndices : bool) (mData : nat) : M PrimitiveData :=
  let indexType := if useLongIndices then GLT_UINT else GLT_USHORT in
  if draco_enabled (draco options)
  then
    let triangleCount := GetTriangleCount surfaceModel in
    let dracoMesh :=
      {| dm_faces := map verts (raw_triangles surfaceModel);
         dm_num_points := GetVertexCount surfaceModel;
         dm_attributes := [] |} in
    indexes ← hold_accessor (new_AccessorData (-1) indexType "");
    count ← deref (to_uint32 (3 * triangleCount));
    update_accessor indexes (set_acc_layout 0 count) ;;
    mret (new_PrimitiveData indexes mData (Some dracoMesh))
  else
    view ← GetAlignedBufferView GL_ELEMENT_ARRAY_BUFFER;
    indexes ← AddAccessorWithView view indexType (getIndexArray surfaceModel) "";
    mret (new_PrimitiveData indexes mData None).

(** lines 781-806 *)
Definition configure_encoder (d : DracoOptions) : DracoEncoder :=
  let quant (a : DracoAttribute) (bits : Z) :=
    if negb (bits =? -1) then [(a, bits)] else [] in
  {| enc_speed :=
       if negb (draco_compressionLevel d =? -1)
       then Some (10 - draco_compressionLevel d, 10 - draco_compressionLevel d)
       else None;
     enc_quantization :=
       quant DRACO_POSITION (draco_quantBitsPosition d)
       ++ quant DRACO_TEX_COORD (draco_quantBitsTexCoord d)
       ++ quant DRACO_NORMAL (draco_quantBitsNormal d)
       ++ quant DRACO_COLOR (draco_quantBitsColor d)
       ++ quant DRACO_GENERIC (draco_quantBitsGeneric d) |}.

(** lines 779-815 *)
Definition surface_compress (options : GltfOptions) (p : PrimitiveData)
  : M PrimitiveData :=
  if draco_enabled (draco options)
  then
    dracoMesh ← deref (pr_dracoMesh p);
    dracoBuffer ← deref (EncodeMeshToBuffer (configure_encoder (draco options)) dracoMesh);
    size ← deref (to_uint32 (size_of dracoBuffer));
    view ← AddRawBufferView (take (Z.to_nat size) dracoBuffer);
    mret (NoteDracoBuffer view p)
  else mret p.

(** the body of the surface loop (lines 475-817) *)
Definition surface_step (options : GltfOptions) (materialsById : gmap Z nat)
    (surfaceModel : RawModel) (meshBySurfaceId : gmap Z nat) : M (gmap Z nat) :=
  assert (length (raw_surfaces surfaceModel) =? 1)%nat ;;
  rawSurface ← deref (raw_surfaces surfaceModel !! 0%nat);
  let surfaceId := rs_id rawSurface in
  triangle0 ← deref (raw_triangles surfaceModel !! 0%nat);
  rawMaterial ← deref (at_index (raw_materials surfaceModel) (materialIndex triangle0));
  mData ← require materialsById (rm_id rawMaterial);
  '(mesh, meshBySurfaceId) ←
    (match meshBySurfaceId !! surfaceId with
     | Some m => mret (m, meshBySurfaceId)
     | None =>
         let defaultDeforms := map bc_defaultDeform (rs_blendChannels rawSurface) in
         m ← hold_mesh {| mesh_ix := 0; mesh_name := rs_name rawSurface;
                          mesh_weights := defaultDeforms; mesh_primitives := [] |};
         mret (m, <[surfaceId := m]> meshBySurfaceId)
     end);
  let useLongIndices := decide_long_indices options surfaceModel in
  p ← surface_indices options surfaceModel useLongIndices mData;
  '(base, p) ← surface_attributes surfaceModel rawSurface p;
  (* each channel present in the mesh always ends up a target in the primitive *)
  loc ← for_fold (indexed (rs_blendChannels rawSurface))
          (channel_target options surfaceModel useLongIndices (pAccBase base) (nAccBase base))
          {| primitive := p; dummyIdxView := None; dummyDataView := None |};
  p ← surface_compress options (primitive loc);
  AddPrimitive mesh p ;;
  mret meshBySurfaceId.

Definition build_surfaces (options : GltfOptions) (materialsById : gmap Z nat)
    (materialModels : list RawModel) : M (gmap Z nat) :=
  for_fold materialModels (surface_step options materialsById) ∅.

(** *** Meshes and skins of the nodes (lines 823-874) *)

Definition hold_skin (s : SkinData) : M nat :=
  g ← get_model;
  let '(s', l) := hold s (skins g) in
  modify (set_skins l) ;; mret (skin_ix s').

(** [require(nodesById, id).ix] *)
Definition node_ix_by_id (nodesById : gmap Z nat) (id : Z) : M nat :=
  ptr ← require nodesById id;
  g ← get_model;
  n ← deref (nodes g !! ptr);
  mret (nd_ix n).

Fixpoint joint_indexes (nodesById : gmap Z nat) (jointIds : list Z) : M (list Z) :=
  match jointIds with
  | [] => mret []
  | jointId :: r =>
      ix ← node_ix_by_id nodesById jointId;
      ixs ← joint_indexes nodesById r;
      mret (Z.of_nat ix :: ixs)
  end.

Definition assign_mesh_step (raw : RawModel) (nodesById meshBySurfaceId : gmap Z nat)
    (inode : nat * RawNode) : M unit :=
  let '(i, node) := inode in
  g ← get_model;
  _ ← deref (nodes g !! i);  (* gltf->nodes.ptrs[i] *)
  let nodeData := i in
  if 0 <? rn_surfaceId node
  then
    let surfaceIndex := GetSurfaceById raw (rn_surfaceId node) in
    rawSurface ← deref (at_index (raw_surfaces raw) surfaceIndex);
    meshData ← require meshBySurfaceId (rs_id rawSurface);
    g ← get_model;
    m ← deref (meshes g !! meshData);
    update_node nodeData (SetMesh (Z.of_nat (mesh_ix m))) ;;
    if negb (is_empty (rs_jointIds rawSurface))
    then
      g ← get_model;
      n ← deref (nodes g !! nodeData);
      if nd_skin n =? -1
      then
        (* glTF uses column-major matrices *)
        let inverseBindMatrices := map Mat4f_Transpose (rs_inverseBindMatrices rawSurface) in
        jointIndexes ← joint_indexes nodesById (rs_jointIds rawSurface);
        accIBM ← AddAccessorAndView GLT_MAT4F inverseBindMatrices;
        skeletonRoot ← node_ix_by_id nodesById (rs_skeletonRootId rawSurface);
        skin ← hold_skin {| skin_ix := 0; skin_joints := jointIndexes;
                            skin_inverseBindMatrices := Some accIBM;
                            skin_skeletonRoot := Some skeletonRoot;
                            skin_isExtraSkin := false |};
        update_node nodeData (SetSkin (Z.of_nat skin))
      else mret tt
    else mret tt
  else mret tt.

Definition assign_meshes (raw : RawModel) (nodesById meshBySurfaceId : gmap Z nat)
  : M unit :=
  for_each (indexed (raw_nodes raw)) (assign_mesh_step raw nodesById meshBySurfaceId).

(** [extraJointIndexes[node.extraSkinIx].push_back(i)] *)
Definition extra_joint_step (inode : nat * RawNode) (extraJointIndexes : list (list Z))
  : M (list (list Z)) :=
  let '(i, node) := inode in
  if 0 <=? rn_extraSkinIx node
  then
    bucket ← deref (at_index extraJointIndexes (rn_extraSkinIx node));
    mret (<[Z.to_nat (rn_extraSkinIx node) := bucket ++ [Z.of_nat i]]> extraJointIndexes)
  else mret extraJointIndexes.

Definition build_extra_skins (raw : RawModel) : M unit :=
  extraJointIndexes ← for_fold (indexed (raw_nodes raw)) extra_joint_step
                         (replicate (raw_extraSkinCount raw) []);
  for_each extraJointIndexes (fun joints =>
    hold_skin {| skin_ix := 0; skin_joints := joints;
                 skin_inverseBindMatrices := None; skin_skeletonRoot := None;
                 skin_isExtraSkin := true |} ;; mret tt).

(** *** Cameras (lines 880-906) *)

Definition hold_camera (c : CameraData) : M nat :=
  g ← get_model;
  let '(c', l) := hold c (cameras g) in
  modify (set_cameras l) ;; mret (cam_ix c').

Definition camera_step (nodesById : gmap Z nat) (cam : RawCamera) : M unit :=
  camera ← hold_camera
    (match rc_mode cam with
     | CAMERA_MODE_PERSPECTIVE =>
         {| cam_ix := 0; cam_name := rc_name cam; cam_type := "perspective";
            cam_aspectRatio := rc_aspectRatio cam;
            cam_yfov := fmul (rc_fovDegreesY cam) (fdiv M_PI_f (f32_of_Z 180));
            cam_xmag := f0; cam_ymag := f0;
            cam_znear := rc_persp_nearZ cam; cam_zfar := rc_persp_farZ cam |}
     | CAMERA_MODE_ORTHOGRAPHIC =>
         {| cam_ix := 0; cam_name := rc_name cam; cam_type := "orthographic";
            cam_aspectRatio := f0; cam_yfov := f0;
            cam_xmag := rc_magX cam; cam_ymag := rc_magY cam;
            cam_znear := rc_ortho_nearZ cam; cam_zfar := rc_ortho_farZ cam |}
     end);
  (* Add the camera to the node hierarchy. *)
  match nodesById !! rc_nodeId cam with
  | None =>
      printf ("Warning: Camera node id " ++ print_lu (rc_nodeId cam)
              ++ " does not exist." ++ nl)
  | Some node => update_node node (SetCamera (Z.of_nat camera))
  end.

Definition build_cameras (raw : RawModel) (nodesById : gmap Z nat) : M unit :=
  for_each (raw_cameras raw) (camera_step nodesById).

(** *** Lights (lines 911-947) *)

Definition hold_light (l : LightData) : M nat :=
  g ← get_model;
  let '(l', ls) := hold l (lights g) in
  modify (set_lights ls) ;; mret (light_ix l').

Definition light_step (light : RawLight) : M unit :=
  let type :=
    match rl_type light with
    | RAW_LIGHT_TYPE_DIRECTIONAL => Directional
    | RAW_LIGHT_TYPE_POINT => Point
    | RAW_LIGHT_TYPE_SPOT => Spot
    end in
  hold_light {| light_ix := 0; light_name := rl_name light; light_type := type;
                light_color := rl_color light;
                light_intensity := fdiv (rl_intensity light) (f32_of_Z 100);
                light_innerConeAngle := rl_innerConeAngle light;
                light_outerConeAngle := rl_outerConeAngle light |} ;;
  mret tt.

Definition attach_light_step (inode : nat * RawNode) : M unit :=
  let '(i, node) := inode in
  g ← get_model;
  _ ← deref (nodes g !! i);  (* gltf->nodes.ptrs[i] *)
  if 0 <=? rn_lightIx node
  then
    (* we lean on the fact that in this simple case, raw and gltf indexing are aligned *)
    update_node i (SetLight (rn_lightIx node))
  else mret tt.

Definition build_lights (raw : RawModel) (options : GltfOptions) : M unit :=
  if useKHRLightsPunctual options
  then
    for_each (raw_lights raw) light_step ;;
    for_each (indexed (raw_nodes raw)) attach_light_step
  else mret tt.

(** *** The scene and the output (lines 950-1071) *)

Definition DEFAULT_SCENE_NAME : string := "Root Scene".

Definition hold_scene (s : SceneData) : M nat :=
  g ← get_model;
  let '(s', l) := hold s (scenes g) in
  modify (set_scenes l) ;; mret (scene_ix s').

Definition KHR_MATERIALS_CMN_UNLIT : string := "KHR_materials_unlit".
Definition KHR_LIGHTS_PUNCTUAL : string := "KHR_lights_punctual".
Definition KHR_DRACO_MESH_COMPRESSION : string := "KHR_draco_mesh_compression".

(** lines 985-1011: the JSON text *)
Definition document_json (options : GltfOptions) (rootScene : nat) (g : GltfModel)
  : list byte :=
  let extensionsUsed :=
    (if useKHRMatUnlit options then [KHR_MATERIALS_CMN_UNLIT] else [])
    ++ (if negb (is_empty (lights g)) then [KHR_LIGHTS_PUNCTUAL] else [])
    ++ (if draco_enabled (draco options) then [KHR_DRACO_MESH_COMPRESSION] else []) in
  let extensionsRequired :=
    if draco_enabled (draco options) then [KHR_DRACO_MESH_COMPRESSION] else [] in
  serialize extensionsUsed extensionsRequired rootScene g
    (if outputBinary options then 0 else 4).

(** lines 953-983: the header and the JSON sub-header *)
Definition write_glb_headers (s : ofstream) : ofstream :=
  os_write glb2JsonHeader (os_write glbHeader s).

(** lines 1012-1069, after the JSON text has been written *)
Definition finish_glb (binary : list byte) (s : ofstream) : option ofstream :=
  let jsonLength := u32 (u32 (tellp s) - 20) in
  (* the binary body must begin on a 4-aligned address, so pad json with spaces *)
  '(jsonLength, s) ← pad_loop 4 UINT32_MOD " "%byte jsonLength s;
  let binHeader := u32 (tellp s) in
  let s := os_write glb2BinaryHeader s in
  (* append binary buffer directly to .glb file *)
  let binaryLength := Z.of_nat (length binary) in
  let s := os_write binary s in
  '(binaryLength, s) ← pad_loop 4 SIZE_MOD x00 binaryLength s;
  totalLength ← to_uint32 (tellp s);
  (* seek back to sub-header for json chunk *)
  let s := seekp 8 s in
  (* write total length, little-endian *)
  let s := foldl (fun s c => os_put c s) s (le32_bytes totalLength) in
  (* write JSON length, little-endian *)
  let s := foldl (fun s c => os_put c s) s (le32_bytes jsonLength) in
  (* seek back to the gltf 2.0 binary chunk header *)
  let s := seekp binHeader s in
  let s := foldl (fun s c => os_put c s) s (le32_bytes binaryLength) in
  (* be tidy and return write pointer to end-of-file *)
  Some (seekp_end s).

(** lines 953-1069 on an assembled model *)
Definition emit (options : GltfOptions) (rootScene : nat) (g : GltfModel)
    (gltfOutStream : ofstream) : option ofstream :=
  let s := if outputBinary options then write_glb_headers gltfOutStream
           else gltfOutStream in
  let s := os_write (document_json options rootScene g) s in
  if outputBinary options then finish_glb (binary g) s else Some s.

(** the assembly of the holders (lines 117-951) *)
Definition assemble (raw : RawModel) (materialModels : list RawModel)
    (options : GltfOptions) (unassigned : nat -> Unassigned) : M nat :=
  nodesById ← build_nodes raw options;
  build_animations raw nodesById ;;
  materialsById ← build_materials raw options unassigned;
  meshBySurfaceId ← build_surfaces options materialsById materialModels;
  assign_meshes raw nodesById meshBySurfaceId ;;
  build_extra_skins raw ;;
  build_cameras raw nodesById ;;
  build_lights raw options ;;
  rootNode ← node_ix_by_id nodesById (raw_rootNodeId raw);
  hold_scene {| scene_ix := 0; scene_name := DEFAULT_SCENE_NAME; scene_root := rootNode |}.

(** [Raw2Gltf(gltfOutStream, outputFolder, raw, options)].  [materialModels]
    is what [raw.CreateMaterialModels] returns and [unassigned] what the
    unassigned locals of the material loop hold; the result is the stream,
    and the state whose model holds the binary buffer of the returned
    [ModelData]. *)
Definition Raw2Gltf (gltfOutStream : ofstream) (raw : RawModel)
    (materialModels : list RawModel) (options : GltfOptions)
    (unassigned : nat -> Unassigned) : option (ofstream * State) :=
  '(rootScene, st) ← assemble raw materialModels options unassigned new_State;
  out ← emit options rootScene (gltf st) gltfOutStream;
  Some (out, st).

End Assembler.

(** * Sample inputs

    A small model: two nodes, one surface of three vertices with three
    blend channels, a Blinn material, two animations, a camera whose node
    id is unknown and a light. *)

Definition v3 (a b c : Z) : Vec3f := (f32_of_Z a, f32_of_Z b, f32_of_Z c).
Definition v4 (a b c d : Z) : Vec4f := (f32_of_Z a, f32_of_Z b, f32_of_Z c, f32_of_Z d).

Definition ex_vertex (p : Vec3f) (blends : list RawBlendVertex) : RawVertex :=
  {| rv_position := p; rv_normal := v3 0 0 1; rv_tangent := v4 1 0 0 1;
     rv_color := v4 1 1 1 1; rv_uv0 := (f0, f0); rv_uv1 := (f0, f0);
     rv_jointIndices := []; rv_jointWeights := []; rv_blends := blends |}.

Definition ex_blend (p : Vec3f) : RawBlendVertex :=
  {| bl_position := p; bl_normal := v3 0 0 0; bl_tangent := v4 0 0 0 0 |}.

Definition ex_material : RawMaterial :=
  {| rm_id := 7; rm_name := "mat"; rm_type := RAW_MATERIAL_TYPE_OPAQUE;
     rm_info := TraditionalProps RAW_SHADING_MODEL_BLINN
        {| tr_diffuseFactor := v4 1 1 1 1; tr_emissiveFactor := v3 0 0 0;
           tr_shininess := f32_of_Z 6 |};
     rm_isDoubleSided := false; rm_textures := fun _ => -1; rm_userProperties := [] |}.

Definition ex_surface : RawSurface :=
  {| rs_id := 5; rs_name := "surf"; rs_bounds := (v3 0 0 0, v3 1 1 0);
     rs_blendChannels := [ {| bc_name := "a"; bc_defaultDeform := f0; bc_hasNormals := true; bc_hasTangents := true |};
                           {| bc_name := "b"; bc_defaultDeform := f0; bc_hasNormals := false; bc_hasTangents := false |};
                           {| bc_name := "c"; bc_defaultDeform := f0; bc_hasNormals := false; bc_hasTangents := false |} ];
     rs_jointIds := []; rs_inverseBindMatrices := []; rs_skeletonRootId := 0 |}.

Definition ex_node : RawNode :=
  {| rn_id := 100; rn_name := "root"; rn_translation := v3 0 0 0; rn_rotation := v4 0 0 0 1;
     rn_scale := v3 1 1 1; rn_isJoint := false; rn_childIds := [101]; rn_surfaceId := 0;
     rn_lightIx := -1; rn_extraSkinIx := -1; rn_userProperties := [] |}.
Definition ex_node2 : RawNode :=
  {| rn_id := 101; rn_name := "child"; rn_translation := v3 0 0 0; rn_rotation := v4 0 0 0 1;
     rn_scale := v3 1 1 1; rn_isJoint := false; rn_childIds := []; rn_surfaceId := 5;
     rn_lightIx := 0; rn_extraSkinIx := -1; rn_userProperties := [] |}.

Definition ex_raw : RawModel :=
  {| raw_rootNodeId := 100; raw_vertexAttributes := 7; raw_globalWeightCount := 0;
     raw_extraSkinCount := 0;
     raw_vertices := [ex_vertex (v3 0 0 0) [ex_blend (v3 0 0 1); ex_blend (v3 0 0 0); ex_blend (v3 0 0 0)];
                      ex_vertex (v3 1 0 0) [ex_blend (v3 0 0 0); ex_blend (v3 0 0 0); ex_blend (v3 0 0 0)];
                      ex_vertex (v3 0 1 0) [ex_blend (v3 0 1 0); ex_blend (v3 0 0 0); ex_blend (v3 0 0 0)]];
     raw_triangles := [ {| verts := (0, 1, 2); materialIndex := 0 |} ];
     raw_textures := []; raw_materials := [ex_material]; raw_surfaces := [ex_surface];
     raw_animations := [ {| ra_name := "idle"; ra_times := [f0; f1]; 
                            ra_channels := [ {| ch_nodeIndex := 1; ch_translations := [v3 0 0 0; v3 1 0 0]; ch_rotations := []; ch_scales := []; ch_weights := [] |} ] |};
                         {| ra_name := "empty"; ra_times := []; ra_channels := [] |} ];
     raw_cameras := [ {| rc_name := "cam"; rc_nodeId := 55; rc_mode := CAMERA_MODE_PERSPECTIVE;
                         rc_aspectRatio := f1; rc_fovDegreesY := f32_of_Z 90; rc_persp_nearZ := f1; rc_persp_farZ := f2;
                         rc_magX := f0; rc_magY := f0; rc_ortho_nearZ := f0; rc_ortho_farZ := f0 |} ];
     raw_lights := [ {| rl_name := "sun"; rl_type := RAW_LIGHT_TYPE_POINT; rl_color := v3 1 1 1; rl_intensity := f32_of_Z 100; rl_innerConeAngle := f0; rl_outerConeAngle := f0 |} ];
     raw_nodes := [ex_node; ex_node2] |}.

Definition ex_options : GltfOptions :=
  {| outputBinary := true; usePBRMetRough := true; useKHRMatUnlit := false;
     useKHRLightsPunctual := true; disableSparseBlendShapes := false;
     useBlendShapeNormals := true; useBlendShapeTangents := true;
     enableUserProperties := false; useLongIndices := AUTO;
     draco := {| draco_enabled := false; draco_compressionLevel := -1; draco_quantBitsPosition := -1;
                 draco_quantBitsTexCoord := -1; draco_quantBitsNormal := -1; draco_quantBitsColor := -1;
                 draco_quantBitsGeneric := -1 |} |}.

(** what the unassigned locals of the material loop hold in the sample runs *)
Definition ex_unassigned (materialIndex : nat) : Unassigned :=
  {| un_emissiveFactor := v3 5 6 7; un_emissiveIntensity := f32_of_Z 3 |}.

Definition ex_to_uint32 (n : Z) : option Z := if n <? 2^32 - 1 then Some n else None.
Definition ex_serialize (u r : list string) (sc : nat) (g : GltfModel) (indent : Z) : list byte := bytes_of_string "{}".

Definition ex_encode (e : DracoEncoder) (m : DracoMesh) : option (list byte) := None.

(** the same options with sparse blend shapes off *)
Definition ex_options_dense : GltfOptions :=
  {| outputBinary := true; usePBRMetRough := true; useKHRMatUnlit := false;
     useKHRLightsPunctual := true; disableSparseBlendShapes := true;
     useBlendShapeNormals := true; useBlendShapeTangents := true;
     enableUserProperties := false; useLongIndices := AUTO;
     draco := draco ex_options |}.

(** a metallic-roughness material with an occlusion map only *)
Definition ex_pbr_material : RawMaterial :=
  {| rm_id := 8; rm_name := "pbr"; rm_type := RAW_MATERIAL_TYPE_OPAQUE;
     rm_info := MetRoughProps
        {| mr_diffuseFactor := v4 1 1 1 1; mr_emissiveFactor := v3 0 0 0;
           mr_emissiveIntensity := f1; mr_metallic := f1; mr_roughness := f1;
           mr_invertRoughnessMap := false |};
     rm_isDoubleSided := false;
     rm_textures := fun u => match u with RAW_TEXTURE_USAGE_OCCLUSION => 0 | _ => -1 end;
     rm_userProperties := [] |}.

Definition ex_raw_pbr : RawModel :=
  {| raw_rootNodeId := 100; raw_vertexAttributes := 1; raw_globalWeightCount := 0;
     raw_extraSkinCount := 0; raw_vertices := []; raw_triangles := [];
     raw_textures := [ {| rt_name := "ao"; rt_fileLocation := "ao.png" |} ];
     raw_materials := [ex_pbr_material]; raw_surfaces := []; raw_animations := [];
     raw_cameras := []; raw_lights := []; raw_nodes := [ex_node] |}.

(** an animation whose time samples decrease *)
Definition ex_reversed_animation : RawAnimation :=
  {| ra_name := "back"; ra_times := [f2; f1];
     ra_channels := [ {| ch_nodeIndex := 1; ch_translations := [v3 1 0 0; v3 0 0 0];
                         ch_rotations := []; ch_scales := []; ch_weights := [] |} ] |}.

Definition ex_empty_animation : RawAnimation :=
  {| ra_name := "empty"; ra_times := []; ra_channels := [] |}.

(** the time accessor of [ex_reversed_animation], built after the nodes of
    [ex_raw]: the first accessor of the model *)
Definition ex_time_accessor : option AccessorData :=
  '(nodesById, s) ← build_nodes ex_raw ex_options new_State;
  '(_, s') ← animation_step ex_raw nodesById ex_reversed_animation s;
  accessors (gltf s') !! 0%nat.

(** * Properties

    From here on: what the definitions above satisfy. *)

(** ** The binary32 constants *)

Example f32_lit_04 : f32_lit 2 5 = S754_finite false 13421773 (-25).
Proof. reflexivity. Qed.
Example f32_bits_1 : f32_bits f1 = 1065353216.
Proof. reflexivity. Qed.
Example f32_bits_pi : f32_bits M_PI_f = 1078530011.
Proof. reflexivity. Qed.

(** ** The .glb container *)

Lemma store_end (bs l : list byte) : store (length l) bs l = l ++ bs.
Proof.
  unfold store. destruct bs as [|b bs]; [by rewrite app_nil_r|].
  rewrite firstn_all, Nat.sub_diag. simpl.
  rewrite drop_ge by (simpl; lia). by rewrite app_nil_r.
Qed.

Lemma store_app (a c d bs : list byte) :
  length c = length bs -> store (length a) bs (a ++ c ++ d) = a ++ bs ++ d.
Proof.
  intros H. unfold store. destruct bs as [|b bs].
  - destruct c; [done|discriminate].
  - rewrite take_app_length.
    replace (length a - length (a ++ c ++ d))%nat with O
      by (rewrite !length_app; lia).
    rewrite drop_app_add', <- H by done. by rewrite drop_app_length.
Qed.

Lemma os_write_end bs s :
  ppos s = length (file s) ->
  os_write bs s = {| file := file s ++ bs; ppos := length (file s ++ bs) |}.
Proof.
  intros H. unfold os_write. rewrite H, store_end. f_equal. by rewrite length_app.
Qed.

Lemma puts_patch bs : forall a c d,
  length c = length bs ->
  foldl (fun s c => os_put c s) {| file := a ++ c ++ d; ppos := length a |} bs
  = {| file := a ++ bs ++ d; ppos := length (a ++ bs) |}.
Proof.
  induction bs as [|b bs IH]; intros a c d H.
  - destruct c; [|discriminate]. simpl. by rewrite app_nil_r.
  - destruct c as [|c0 c]; [discriminate|]. simpl in H.
    simpl foldl. unfold os_put at 2, os_write. simpl file. simpl ppos.
    change (a ++ c0 :: c ++ d) with (a ++ [c0] ++ (c ++ d)).
    rewrite store_app by done.
    rewrite <- length_app, (app_assoc a [b]).
    rewrite IH by lia. by rewrite <- !app_assoc.
Qed.

Lemma pad_loop_spec wrap c fuel : forall len s,
  0 <= len -> len + (- len) mod 4 < wrap ->
  (Z.to_nat ((- len) mod 4) < fuel)%nat ->
  ppos s = length (file s) ->
  pad_loop fuel wrap c len s
  = Some (len + (- len) mod 4,
          {| file := file s ++ replicate (Z.to_nat ((- len) mod 4)) c;
             ppos := length (file s ++ replicate (Z.to_nat ((- len) mod 4)) c) |}).
Proof.
  induction fuel as [|fuel IH]; intros len s H0 Hlt Hk Hs; [lia|].
  simpl. destruct (Z.eqb_spec (len mod 4) 0) as [Hz|Hnz]; simpl.
  - assert ((- len) mod 4 = 0) as -> by (Z.div_mod_to_equations; lia).
    simpl. rewrite app_nil_r, Z.add_0_r. destruct s; simpl in *; by subst.
  - assert (Hm : (- len) mod 4 = (- (len + 1)) mod 4 + 1)
      by (Z.div_mod_to_equations; lia).
    assert (Hb := Z.mod_pos_bound (- (len + 1)) 4 ltac:(lia)).
    assert (Hw : (len + 1) mod wrap = len + 1) by (apply Z.mod_small; lia).
    rewrite Hw. clear Hw. unfold os_put. rewrite os_write_end by done.
    rewrite IH. 2: lia. 2: lia. 2: lia. 2: done.
    simpl file. rewrite Hm.
    replace (Z.to_nat ((- (len + 1)) mod 4 + 1)) with (S (Z.to_nat ((- (len + 1)) mod 4))) by lia.
    simpl replicate. rewrite <- !app_assoc. simpl.
    f_equal. f_equal. lia.
Qed.

Lemma char_of_int_byte n : 0 <= n < 256 -> int_of_char (char_of_int n) = n.
Proof.
  intros H. unfold int_of_char, char_of_int. rewrite Z.mod_small by done.
  destruct (Byte.of_N (Z.to_N n)) as [b|] eqn:E.
  - simpl. apply Byte.to_of_N in E. lia.
  - apply Byte.of_N_None_iff in E. lia.
Qed.

Lemma le_decode_le32 n : 0 <= n < UINT32_MOD -> le_decode (le32_bytes n) = n.
Proof.
  intros H. unfold le32_bytes, le_decode.
  change 255 with (Z.ones 8). rewrite !Z.land_ones by lia.
  rewrite !Z.shiftr_div_pow2 by lia.
  rewrite !char_of_int_byte by (apply Z.mod_pos_bound; lia).
  unfold UINT32_MOD in H. change (2 ^ 0) with 1. change (2^8) with 256.
  change (2 ^ 16) with 65536. change (2 ^ 24) with 16777216. change (2^32) with 4294967296 in H.
  Z.div_mod_to_equations. lia.
Qed.

Definition UINT32_MAX : Z := UINT32_MOD - 1.

Section ContainerProofs.
Variable to_uint32 : Z -> option Z.
Hypothesis to_uint32_fits : forall n, 0 <= n < UINT32_MAX -> to_uint32 n = Some n.

Lemma finish_glb_layout (json binary : list byte) :
  let pj := pad4 (length json) in
  let pb := pad4 (length binary) in
  let J := (length json + pj)%nat in
  let B := (length binary + pb)%nat in
  let T := (28 + J + B)%nat in
  Z.of_nat T < UINT32_MOD ->
  exists out,
    finish_glb to_uint32 binary (os_write json (write_glb_headers fresh_stream)) = Some out /\
    file out =
      bytes_of_string "glTF" ++ [x02; x00; x00; x00] ++ le32_bytes (Z.of_nat T)
      ++ le32_bytes (Z.of_nat J) ++ bytes_of_string "JSON"
      ++ json ++ replicate pj " "%byte
      ++ le32_bytes (Z.of_nat B) ++ bytes_of_string "BIN" ++ [x00]
      ++ binary ++ replicate pb x00 /\
    length (file out) = T /\
    (T mod 4 = 0 /\ J mod 4 = 0 /\ B mod 4 = 0)%nat /\
    le_decode (take 4 (drop 8 (file out))) = Z.of_nat (length (file out)) /\
    le_decode (take 4 (drop 12 (file out))) = Z.of_nat J /\
    le_decode (take 4 (drop (20 + J) (file out))) = Z.of_nat B /\
    ppos out = length (file out).
Proof.
  intros pj pb J B T HT.
  assert (HJ4 : (J mod 4 = 0)%nat).
  { subst J pj. unfold pad4. 
    apply Nat2Z.inj. rewrite Nat2Z.inj_mod, Nat2Z.inj_add, Z2Nat.id by (apply Z.mod_pos_bound; lia).
    Z.div_mod_to_equations; lia. }
  assert (HB4 : (B mod 4 = 0)%nat).
  { subst B pb. unfold pad4. 
    apply Nat2Z.inj. rewrite Nat2Z.inj_mod, Nat2Z.inj_add, Z2Nat.id by (apply Z.mod_pos_bound; lia).
    Z.div_mod_to_equations; lia. }
  assert (HT4 : (T mod 4 = 0)%nat).
  { subst T. apply Nat2Z.inj. rewrite Nat2Z.inj_mod. 
    apply (f_equal Z.of_nat) in HJ4, HB4. rewrite Nat2Z.inj_mod in HJ4, HB4.
    rewrite !Nat2Z.inj_add. Z.div_mod_to_equations; lia. }
  unfold UINT32_MOD in HT.
  assert (HJ : J = (length json + pj)%nat) by done.
  assert (HB : B = (length binary + pb)%nat) by done.
  assert (HTe : T = (28 + J + B)%nat) by done.
  clearbody J B T.
  unfold write_glb_headers.
  rewrite (os_write_end glbHeader) by done.
  rewrite (os_write_end glb2JsonHeader) by done.
  rewrite (os_write_end json) by done.
  simpl file.
  unfold finish_glb.
  set (s0 := {| file := _ |}).
  assert (Htell : tellp s0 = 20 + Z.of_nat (length json)).
  { unfold tellp, s0. simpl ppos. rewrite ?length_app. simpl. lia. }
  rewrite Htell.
  assert (Hu1 : u32 (u32 (20 + Z.of_nat (length json)) - 20) = Z.of_nat (length json)).
  { unfold u32, UINT32_MOD. rewrite (Z.mod_small (20 + _)) by lia.
    rewrite Z.mod_small; lia. }
  rewrite Hu1.
  assert (Hpj : Z.of_nat pj = (- Z.of_nat (length json)) mod 4).
  { subst pj. unfold pad4. rewrite Z2Nat.id; [done|]. apply Z.mod_pos_bound; lia. }
  assert (Hpb : Z.of_nat pb = (- Z.of_nat (length binary)) mod 4).
  { subst pb. unfold pad4. rewrite Z2Nat.id; [done|]. apply Z.mod_pos_bound; lia. }
  rewrite pad_loop_spec; [| lia | unfold UINT32_MOD; lia | | done].
  2:{ pose proof (Z.mod_pos_bound (- Z.of_nat (length json)) 4). lia. }
  unfold mbind, option_bind. cbv beta iota.
  rewrite <- Hpj. rewrite Nat2Z.id.
  set (s1 := {| file := file s0 ++ _ |}).
  assert (Htell1 : tellp s1 = 20 + Z.of_nat J).
  { unfold tellp, s1, s0. simpl ppos. rewrite ?length_app, ?length_replicate. simpl. lia. }
  rewrite (os_write_end glb2BinaryHeader) by done.
  rewrite (os_write_end binary) by done.
  rewrite pad_loop_spec; [| lia | unfold SIZE_MOD; lia | | done].
  2:{ pose proof (Z.mod_pos_bound (- Z.of_nat (length binary)) 4). lia. }
  cbv beta iota.
  rewrite <- Hpb. rewrite Nat2Z.id. simpl file.
  set (s2 := {| file := _ |}).
  assert (Hlen2 : length (file s2) = T).
  { unfold s2, s1, s0. simpl file. rewrite ?length_app, ?length_replicate. simpl. rewrite ?length_app, ?length_replicate. simpl. lia. }
  assert (Htell2 : tellp s2 = Z.of_nat T).
  { unfold tellp. rewrite <- Hlen2. done. }
  rewrite Htell2, to_uint32_fits.
  2:{ unfold UINT32_MAX, UINT32_MOD. 
      apply (f_equal Z.of_nat) in HT4. rewrite Nat2Z.inj_mod in HT4.
      change (Z.of_nat 4) with 4 in HT4. change (Z.of_nat 0) with 0 in HT4.
      clear - HT HT4. Z.div_mod_to_equations. lia. }
  rewrite Htell1. 
  replace (u32 (20 + Z.of_nat J)) with (Z.of_nat (20 + J)).
  2:{ unfold u32, UINT32_MOD. rewrite Z.mod_small; lia. }
  replace (Z.of_nat (length json) + Z.of_nat pj) with (Z.of_nat J) by lia.
  replace (Z.of_nat (length binary) + Z.of_nat pb) with (Z.of_nat B) by lia.
  set (Z4 := [x00; x00; x00; x00]).
  set (A := bytes_of_string "glTF" ++ [x02; x00; x00; x00]).
  set (R1 := bytes_of_string "JSON" ++ json ++ replicate pj " "%byte).
  set (R2 := bytes_of_string "BIN" ++ [x00] ++ binary ++ replicate pb x00).
  assert (Hfile2 : file s2 = A ++ Z4 ++ Z4 ++ R1 ++ Z4 ++ R2).
  { unfold s2, s1, s0, A, R1, R2, Z4. simpl. rewrite <- !app_assoc. done. }
  replace (seekp 8 s2) with {| file := A ++ Z4 ++ (Z4 ++ R1 ++ Z4 ++ R2); ppos := length A |}
    by (unfold seekp; by rewrite Hfile2).
  rewrite puts_patch by done.
  rewrite (app_assoc A (le32_bytes _)).
  rewrite puts_patch by done.
  unfold seekp. cbn [file]. rewrite Nat2Z.id.
  set (A2 := ((A ++ le32_bytes (Z.of_nat T)) ++ le32_bytes (Z.of_nat J) ++ R1)).
  assert (HA2 : length A2 = (20 + J)%nat).
  { unfold A2, A, R1. rewrite !length_app, length_replicate. simpl. lia. }
  replace (((A ++ le32_bytes (Z.of_nat T)) ++ le32_bytes (Z.of_nat J) ++ R1 ++ Z4 ++ R2))
    with (A2 ++ Z4 ++ R2) by (unfold A2; by rewrite <- !app_assoc).
  rewrite <- HA2. rewrite puts_patch by done.
  eexists. split; [reflexivity|].
  unfold seekp_end. cbn [file ppos].
  assert (Hout : A2 ++ le32_bytes (Z.of_nat B) ++ R2 =
     bytes_of_string "glTF" ++ [x02; x00; x00; x00] ++ le32_bytes (Z.of_nat T) ++
      le32_bytes (Z.of_nat J) ++ bytes_of_string "JSON" ++ json ++ replicate pj " "%byte ++
      le32_bytes (Z.of_nat B) ++ bytes_of_string "BIN" ++ [x00] ++ binary ++ replicate pb x00).
  { unfold A2, A, R1, R2. rewrite <- !app_assoc. done. }
  assert (Hlen : length (A2 ++ le32_bytes (Z.of_nat B) ++ R2) = T).
  { rewrite !length_app, HA2. unfold R2. rewrite !length_app, length_replicate. simpl. lia. }
  split; [exact Hout|]. split; [exact Hlen|]. split; [done|].
  rewrite Hlen.
  assert (HJr : 0 <= Z.of_nat J < UINT32_MOD) by (unfold UINT32_MOD; lia).
  assert (HBr : 0 <= Z.of_nat B < UINT32_MOD) by (unfold UINT32_MOD; lia).
  assert (HTr : 0 <= Z.of_nat T < UINT32_MOD) by (unfold UINT32_MOD; lia).
  split; [|split; [|split]].
  - rewrite Hout. change (take 4 (drop 8 _)) with (le32_bytes (Z.of_nat T)).
    by apply le_decode_le32.
  - rewrite Hout. change (take 4 (drop 12 _)) with (le32_bytes (Z.of_nat J)).
    by apply le_decode_le32.
  - rewrite drop_app_length. change (take 4 _) with (le32_bytes (Z.of_nat B)).
    by apply le_decode_le32.
  - done.
Qed.

Variable EncodeMeshToBuffer : DracoEncoder -> DracoMesh -> option (list byte).
Variable serialize : list string -> list string -> nat -> GltfModel -> Z -> list byte.

(** C1: a run with outputBinary that assembles its model and whose output
    stays below 2^32 bytes writes, on a fresh stream, the magic [glTF], the
    version 2, the total length, the length of the padded JSON chunk, the
    tag [JSON], the JSON text, spaces up to a multiple of 4, the length of
    the padded BIN chunk, the tag [BIN] and a zero byte, the binary buffer
    and zero bytes up to a multiple of 4.  The three lengths are multiples
    of 4 and are read back, little-endian, at offsets 8, 12 and at the BIN
    sub-header; the total length is the size of the file. *)
Theorem glb_container_layout raw materialModels options unassigned rootScene st :
  outputBinary options = true ->
  assemble to_uint32 EncodeMeshToBuffer raw materialModels options unassigned new_State
    = Some (rootScene, st) ->
  let json := document_json serialize options rootScene (gltf st) in
  let bin := binary (gltf st) in
  let pj := pad4 (length json) in
  let pb := pad4 (length bin) in
  let J := (length json + pj)%nat in
  let B := (length bin + pb)%nat in
  let T := (28 + J + B)%nat in
  Z.of_nat T < UINT32_MOD ->
  exists out,
    Raw2Gltf to_uint32 EncodeMeshToBuffer serialize fresh_stream raw materialModels options
      unassigned
      = Some (out, st) /\
    file out =
      bytes_of_string "glTF" ++ [x02; x00; x00; x00] ++ le32_bytes (Z.of_nat T)
      ++ le32_bytes (Z.of_nat J) ++ bytes_of_string "JSON"
      ++ json ++ replicate pj " "%byte
      ++ le32_bytes (Z.of_nat B) ++ bytes_of_string "BIN" ++ [x00]
      ++ bin ++ replicate pb x00 /\
    length (file out) = T /\
    (T mod 4 = 0 /\ J mod 4 = 0 /\ B mod 4 = 0)%nat /\
    le_decode (take 4 (drop 8 (file out))) = Z.of_nat (length (file out)) /\
    le_decode (take 4 (drop 12 (file out))) = Z.of_nat J /\
    le_decode (take 4 (drop (20 + J) (file out))) = Z.of_nat B /\
    ppos out = length (file out).
Proof.
  intros Hbin Hrun json bin pj pb J B T HT.
  destruct (finish_glb_layout json bin HT) as (out & Hout & Hrest).
  exists out. split; [|exact Hrest].
  unfold Raw2Gltf. rewrite Hrun. cbn [mbind option_bind]. unfold emit. rewrite Hbin.
  fold json bin. rewrite Hout. reflexivity.
Qed.

End ContainerProofs.

#[local] Arguments pad_to : simpl never.
#[local] Arguments size_of : simpl never.
#[local] Arguments gl_write_array : simpl never.

(** * Reasoning about runs *)

(** [post m s Q]: if [m] runs from [s] without abort, its result and final
    state satisfy [Q]. *)
Definition post {A} (m : M A) (s : State) (Q : A -> State -> Prop) : Prop :=
  forall x s', m s = Some (x, s') -> Q x s'.

Lemma post_ret {A} (x : A) s (Q : A -> State -> Prop) : Q x s -> post (mret x) s Q.
Proof. intros H y s' E. injection E as <- <-. exact H. Qed.

Lemma post_bind {A B} (m : M A) (f : A -> M B) s (Q : B -> State -> Prop) :
  post m s (fun x s1 => post (f x) s1 Q) -> post (m ≫= f) s Q.
Proof.
  intros H y s' E. unfold mbind, M_bind in E.
  destruct (m s) as [[x s1]|] eqn:Em; [|discriminate]. unfold post in H.
  exact (H x s1 Em y s' E).
Qed.

Lemma post_weaken {A} (m : M A) s (Q Q' : A -> State -> Prop) :
  post m s Q -> (forall x s', Q x s' -> Q' x s') -> post m s Q'.
Proof. intros H HQ x s' E. apply HQ, H, E. Qed.

Lemma post_abort {A} s (Q : A -> State -> Prop) : post abort s Q.
Proof. intros x s' E. discriminate. Qed.

Lemma post_deref {A} (o : option A) s (Q : A -> State -> Prop) :
  (forall x, o = Some x -> Q x s) -> post (deref o) s Q.
Proof. intros H. destruct o; simpl; [apply post_ret; auto | apply post_abort]. Qed.

Lemma post_assert (b : bool) s (Q : unit -> State -> Prop) :
  (b = true -> Q tt s) -> post (assert b) s Q.
Proof. intros H. destruct b; simpl; [apply post_ret; auto | apply post_abort]. Qed.

Lemma post_get_model s (Q : GltfModel -> State -> Prop) :
  Q (gltf s) s -> post get_model s Q.
Proof. intros H x s' E. injection E as <- <-. exact H. Qed.

Lemma post_modify f s (Q : unit -> State -> Prop) :
  Q tt (set_gltf (f (gltf s)) s) -> post (modify f) s Q.
Proof. intros H x s' E. injection E as <- <-. exact H. Qed.

Lemma post_for_each {A} (I : State -> Prop) (xs : list A) (body : A -> M unit) :
  (forall x s, x ∈ xs -> I s -> post (body x) s (fun _ s' => I s')) ->
  forall s, I s -> post (for_each xs body) s (fun _ s' => I s').
Proof.
  induction xs as [|x xs IH]; intros Hb s Hs; simpl.
  - by apply post_ret.
  - apply post_bind. eapply post_weaken; [apply Hb; [left|done]|].
    intros [] s1 H1. apply IH; [|done]. intros y s2 Hy. apply Hb. by right.
Qed.

Lemma post_for_fold {A L} (I : L -> State -> Prop) (xs : list A)
    (body : A -> L -> M L) :
  (forall x l s, x ∈ xs -> I l s -> post (body x l) s I) ->
  forall l s, I l s -> post (for_fold xs body l) s I.
Proof.
  induction xs as [|x xs IH]; intros Hb l s Hs; simpl.
  - by apply post_ret.
  - apply post_bind. eapply post_weaken; [apply Hb; [left|done]|].
    intros l1 s1 H1. apply IH; [|done]. intros y l2 s2 Hy. apply Hb. by right.
Qed.

Lemma hold_length `{Holdable T} (x : T) (l : list T) :
  hold x l = (stamp (length l) x, l ++ [stamp (length l) x]).
Proof. reflexivity. Qed.

Lemma post_run {A} (m : M A) s x s1 (Q : A -> State -> Prop) :
  m s = Some (x, s1) -> Q x s1 -> post m s Q.
Proof. intros E H y s' E'. rewrite E in E'. injection E' as <- <-. exact H. Qed.

Lemma post_intro {A} (m : M A) s (Q : A -> State -> Prop) :
  post m s Q -> forall x s', m s = Some (x, s') -> Q x s'.
Proof. auto. Qed.

(** a primitive that cannot abort *)
Ltac post_prim := eapply post_run; [reflexivity|].

(** one step of symbolic execution on a goal [post m s Q] *)
Ltac post_step :=
  lazymatch goal with
  | |- post (mbind _ _) _ _ => apply post_bind
  | |- post (mret _) _ _ => apply post_ret
  | |- post abort _ _ => apply post_abort
  | |- post (deref _) _ _ => apply post_deref; intros ? ?
  | |- post (assert _) _ _ => apply post_assert; intros ?
  | |- post get_model _ _ => apply post_get_model
  | |- post (modify _) _ _ => apply post_modify
  | |- post (printf _) _ _ => post_prim
  | |- post (tb_record _) _ _ => post_prim
  | |- post tb_get_simple _ _ => post_prim
  | |- post tb_get_combined _ _ => post_prim
  | |- post (tb_put_simple _) _ _ => post_prim
  | |- post (tb_put_combined _) _ _ => post_prim
  | |- post (let '(_, _) := hold ?x ?l in _) _ _ =>
      rewrite (hold_length x l); cbv iota beta
  | |- post (if ?b then _ else _) _ _ => destruct b eqn:?
  | |- post (match ?o with Some _ => _ | None => _ end) _ _ => destruct o eqn:?
  end.





#[local] Arguments pad_to : simpl never.
#[local] Arguments size_of : simpl never.
#[local] Arguments gl_write_array : simpl never.

Ltac unfold_setters :=
  unfold mret, M_ret, set_gltf, set_nodes, set_animations, set_accessors,
    set_bufferViews, set_meshes, set_materials, set_textures, set_skins,
    set_cameras, set_lights, set_scenes, set_binary; cbn.

(** ** What the buffer operations leave alone *)

(** the parts of the state that no buffer or accessor operation touches *)
Definition others (s : State) :=
  (nodes (gltf s), animations (gltf s), materials (gltf s), textures (gltf s),
   skins (gltf s), cameras (gltf s), lights (gltf s), scenes (gltf s),
   simpleByIndex s, combinedByKey s, tb_calls s, printed s).

Lemma pad_to_aligned b : (size_of (pad_to 4 b)) mod 4 = 0.
Proof.
  unfold pad_to, size_of. rewrite length_app, length_replicate, Nat2Z.inj_add.
  rewrite Z2Nat.id by (apply Z.mod_pos_bound; lia).
  Z.div_mod_to_equations; lia.
Qed.

Lemma pad_to_idem b : pad_to 4 (pad_to 4 b) = pad_to 4 b.
Proof.
  unfold pad_to at 1. replace ((- size_of (pad_to 4 b)) mod 4) with 0.
  - simpl. by rewrite app_nil_r.
  - pose proof (pad_to_aligned b). Z.div_mod_to_equations; lia.
Qed.

Lemma max_ct_size c : Z.max 4 (ct_size c) = 4.
Proof. by destruct c. Qed.

Lemma lookup_snoc {A} (l : list A) (x : A) : (l ++ [x]) !! length l = Some x.
Proof. by rewrite lookup_app_r, Nat.sub_diag. Qed.

Lemma insert_snoc {A} (l : list A) (x y : A) : <[length l := y]> (l ++ [x]) = l ++ [y].
Proof. rewrite insert_app_r_alt by done. by rewrite Nat.sub_diag. Qed.

(** the state after a sequence of buffer operations: new accessors, new
    views and new bytes, everything else as before *)
Definition upd_buf (accs : list AccessorData) (views : list BufferViewData)
    (bin : list byte) (s : State) : State :=
  set_gltf (set_accessors accs (set_bufferViews views (set_binary bin (gltf s)))) s.

Lemma upd_buf_accessors a v b s : accessors (gltf (upd_buf a v b s)) = a.
Proof. reflexivity. Qed.
Lemma upd_buf_bufferViews a v b s : bufferViews (gltf (upd_buf a v b s)) = v.
Proof. reflexivity. Qed.
Lemma upd_buf_binary a v b s : binary (gltf (upd_buf a v b s)) = b.
Proof. reflexivity. Qed.
Lemma upd_buf_others a v b s : others (upd_buf a v b s) = others s.
Proof. reflexivity. Qed.
Lemma upd_buf_meshes a v b s : meshes (gltf (upd_buf a v b s)) = meshes (gltf s).
Proof. reflexivity. Qed.
Lemma upd_buf_nodes a v b s : nodes (gltf (upd_buf a v b s)) = nodes (gltf s).
Proof. reflexivity. Qed.
Lemma upd_buf_upd_buf a v b a' v' b' s :
  upd_buf a v b (upd_buf a' v' b' s) = upd_buf a v b s.
Proof. reflexivity. Qed.

#[local] Arguments upd_buf : simpl never.

Create Rewrite HintDb buf.
#[local] Hint Rewrite upd_buf_accessors upd_buf_bufferViews upd_buf_binary
  upd_buf_others upd_buf_meshes upd_buf_nodes upd_buf_upd_buf : buf.

Lemma GetAlignedBufferView_run t s :
  let g := gltf s in
  GetAlignedBufferView t s =
  Some (length (bufferViews g),
        upd_buf (accessors g)
          (bufferViews g ++
             [{| bv_ix := length (bufferViews g);
                 bv_byteOffset := size_of (pad_to 4 (binary g));
                 bv_byteLength := 0; bv_target := t |}])
          (pad_to 4 (binary g)) s).
Proof. reflexivity. Qed.

Lemma appendAsBinaryArray_run `{GLWritable T} v (data : list T) ty s bv :
  let g := gltf s in
  bufferViews g !! v = Some bv ->
  appendAsBinaryArray v data ty s =
  Some (size_of (pad_to 4 (binary g)) - bv_byteOffset bv,
        upd_buf (accessors g)
          (<[v := {| bv_ix := bv_ix bv; bv_byteOffset := bv_byteOffset bv;
                     bv_byteLength :=
                       size_of (pad_to 4 (binary g) ++ gl_write_array ty data)
                       - bv_byteOffset bv;
                     bv_target := bv_target bv |}]> (bufferViews g))
          (pad_to 4 (binary g) ++ gl_write_array ty data) s).
Proof.
  intros g Hv. unfold appendAsBinaryArray, appendAligned. rewrite max_ct_size.
  unfold mbind, M_bind, get_model. fold g. rewrite Hv. reflexivity.
Qed.

Lemma hold_accessor_run a s :
  let g := gltf s in
  hold_accessor a s =
  Some (length (accessors g),
        upd_buf (accessors g ++ [stamp (length (accessors g)) a])
          (bufferViews g) (binary g) s).
Proof. reflexivity. Qed.

Lemma update_accessor_run ix f s a :
  let g := gltf s in
  accessors g !! ix = Some a ->
  update_accessor ix f s =
  Some (tt, upd_buf (<[ix := f a]> (accessors g)) (bufferViews g) (binary g) s).
Proof.
  intros g Ha. unfold update_accessor, mbind, M_bind, get_model. fold g.
  rewrite Ha. reflexivity.
Qed.

(** a bind whose first action is known *)
Lemma bind_run {A B} (m : M A) (f : A -> M B) s x s1 :
  m s = Some (x, s1) -> (m ≫= f) s = f x s1.
Proof. intros E. unfold mbind, M_bind. by rewrite E. Qed.

Lemma size_of_app a b : size_of (a ++ b) = size_of a + size_of b.
Proof. unfold size_of. rewrite length_app. lia. Qed.

(** a fresh view filled with one array (lines 695-697, 704-705, 718-721) *)
Lemma fresh_view_run `{GLWritable T} t (data : list T) ty s :
  let g := gltf s in
  (v ← GetAlignedBufferView t; CopyToBufferView v data ty ;; mret v) s =
  Some (length (bufferViews g),
        upd_buf (accessors g)
          (bufferViews g ++
             [{| bv_ix := length (bufferViews g);
                 bv_byteOffset := size_of (pad_to 4 (binary g));
                 bv_byteLength := size_of (gl_write_array ty data);
                 bv_target := t |}])
          (pad_to 4 (binary g) ++ gl_write_array ty data) s).
Proof.
  intros g. erewrite bind_run by apply GetAlignedBufferView_run.
  unfold CopyToBufferView.
  erewrite bind_run.
  2:{ erewrite bind_run; [reflexivity|].
      apply appendAsBinaryArray_run. autorewrite with buf. apply lookup_snoc. }
  autorewrite with buf. cbn [bv_ix bv_byteOffset bv_target].
  rewrite pad_to_idem, insert_snoc, size_of_app.
  fold g. replace (size_of (pad_to 4 (binary g)) + size_of (gl_write_array ty data)
             - size_of (pad_to 4 (binary g))) with (size_of (gl_write_array ty data)) by lia.
  reflexivity.
Qed.

(** a fresh view with one accessor over it (lines 528-532, 753-770) *)
Lemma fresh_accessor_run `{GLWritable T} t ty (src : list T) name s :
  let g := gltf s in
  (view ← GetAlignedBufferView t; AddAccessorWithView view ty src name) s =
  Some (length (accessors g),
        upd_buf
          (accessors g ++
             [set_acc_layout 0 (Z.of_nat (length src))
                (stamp (length (accessors g))
                   (new_AccessorData (Z.of_nat (length (bufferViews g))) ty name))])
          (bufferViews g ++
             [{| bv_ix := length (bufferViews g);
                 bv_byteOffset := size_of (pad_to 4 (binary g));
                 bv_byteLength := size_of (gl_write_array ty src);
                 bv_target := t |}])
          (pad_to 4 (binary g) ++ gl_write_array ty src) s).
Proof.
  intros g. erewrite bind_run by apply GetAlignedBufferView_run.
  unfold AddAccessorWithView.
  erewrite bind_run by apply hold_accessor_run.
  autorewrite with buf.
  erewrite bind_run.
  2:{ apply appendAsBinaryArray_run. autorewrite with buf. apply lookup_snoc. }
  autorewrite with buf. cbn [bv_ix bv_byteOffset bv_target].
  erewrite bind_run.
  2:{ apply update_accessor_run. autorewrite with buf. apply lookup_snoc. }
  autorewrite with buf.
  rewrite pad_to_idem, !insert_snoc, size_of_app. fold g.
  replace (size_of (pad_to 4 (binary g)) - size_of (pad_to 4 (binary g))) with 0 by lia.
  replace (size_of (pad_to 4 (binary g)) + size_of (gl_write_array ty src)
             - size_of (pad_to 4 (binary g))) with (size_of (gl_write_array ty src)) by lia.
  reflexivity.
Qed.

Lemma AddAccessorAndView_run `{GLWritable T} ty (src : list T) s :
  let g := gltf s in
  AddAccessorAndView ty src s =
  Some (length (accessors g),
        upd_buf
          (accessors g ++
             [set_acc_layout 0 (Z.of_nat (length src))
                (stamp (length (accessors g))
                   (new_AccessorData (Z.of_nat (length (bufferViews g))) ty ""))])
          (bufferViews g ++
             [{| bv_ix := length (bufferViews g);
                 bv_byteOffset := size_of (pad_to 4 (binary g));
                 bv_byteLength := size_of (gl_write_array ty src);
                 bv_target := match componentType ty with
                              | CT_FLOAT => GL_ARRAY_NONE
                              | _ => GL_ELEMENT_ARRAY_BUFFER
                              end |}])
          (pad_to 4 (binary g) ++ gl_write_array ty src) s).
Proof. intros g. unfold AddAccessorAndView. apply fresh_accessor_run. Qed.

(** * The order of floats *)

Lemma flt_irrefl x : flt x x = false.
Proof.
  unfold flt, SFltb, SFcompare. destruct x as [[]|[]| |[] m e]; try done.
  - rewrite Z.compare_refl. change (PosDef.Pos.compare_cont Eq m m) with (Pos.compare m m).
    by rewrite Pos.compare_refl.
  - rewrite Z.compare_refl. change (PosDef.Pos.compare_cont Eq m m) with (Pos.compare m m).
    by rewrite Pos.compare_refl.
Qed.

Lemma flt_trans x y z : flt x y = true -> flt y z = true -> flt x z = true.
Proof.
  unfold flt, SFltb, SFcompare.
  destruct x as [[]|[]| |[] m1 e1], y as [[]|[]| |[] m2 e2], z as [[]|[]| |[] m3 e3];
    try done.
  all: change PosDef.Pos.compare_cont with Pos.compare_cont; fold (Pos.compare m1 m2);
    fold (Pos.compare m2 m3); fold (Pos.compare m1 m3).
  all: destruct (Z.compare_spec e1 e2), (Z.compare_spec e2 e3), (Z.compare_spec e1 e3);
    try done; try lia.
  all: destruct (Pos.compare_spec m1 m2), (Pos.compare_spec m2 m3),
         (Pos.compare_spec m1 m3); simpl; try done; try lia.
Qed.

Lemma flt_asym x y : flt x y = true -> flt y x = false.
Proof.
  intros H. destruct (flt y x) eqn:E; [|done].
  pose proof (flt_trans _ _ _ H E) as Hxx. by rewrite flt_irrefl in Hxx.
Qed.

(** [min_element] returns a sample that no sample is below *)
Lemma fold_min_spec l : forall x,
  let m := fold_left (fun smallest y => if flt y smallest then y else smallest) l x in
  m ∈ x :: l /\ forall t, t ∈ x :: l -> flt t m = false.
Proof.
  induction l as [|y l IH] using rev_ind; intros x; simpl.
  - split; [left|]. intros t Ht. apply list_elem_of_singleton in Ht as ->. apply flt_irrefl.
  - rewrite fold_left_app. simpl. destruct (IH x) as [Hin Hlow].
    set (m := fold_left _ l x) in *.
    destruct (flt y m) eqn:E.
    + split; [rewrite app_comm_cons; apply elem_of_app; right; left|]. intros t Ht.
      rewrite app_comm_cons in Ht. apply elem_of_app in Ht as [Ht|Ht].
      * destruct (flt t y) eqn:Ety; [|done].
        pose proof (flt_trans _ _ _ Ety E) as Hc. by rewrite Hlow in Hc.
      * apply list_elem_of_singleton in Ht as ->. apply flt_irrefl.
    + split; [rewrite app_comm_cons; apply elem_of_app; by left|]. intros t Ht.
      rewrite app_comm_cons in Ht. apply elem_of_app in Ht as [Ht|Ht]; [by apply Hlow|].
      by apply list_elem_of_singleton in Ht as ->.
Qed.

Lemma fold_max_spec l : forall x,
  let m := fold_left (fun largest y => if flt largest y then y else largest) l x in
  m ∈ x :: l /\ forall t, t ∈ x :: l -> flt m t = false.
Proof.
  induction l as [|y l IH] using rev_ind; intros x; simpl.
  - split; [left|]. intros t Ht. apply list_elem_of_singleton in Ht as ->. apply flt_irrefl.
  - rewrite fold_left_app. simpl. destruct (IH x) as [Hin Hup].
    set (m := fold_left _ l x) in *.
    destruct (flt m y) eqn:E.
    + split; [rewrite app_comm_cons; apply elem_of_app; right; left|]. intros t Ht.
      rewrite app_comm_cons in Ht. apply elem_of_app in Ht as [Ht|Ht].
      * destruct (flt y t) eqn:Eyt; [|done].
        pose proof (flt_trans _ _ _ E Eyt) as Hc. by rewrite Hup in Hc.
      * apply list_elem_of_singleton in Ht as ->. apply flt_irrefl.
    + split; [rewrite app_comm_cons; apply elem_of_app; by left|]. intros t Ht.
      rewrite app_comm_cons in Ht. apply elem_of_app in Ht as [Ht|Ht]; [by apply Hup|].
      by apply list_elem_of_singleton in Ht as ->.
Qed.

Lemma min_element_spec l m :
  min_element l = Some m -> m ∈ l /\ forall t, t ∈ l -> flt t m = false.
Proof.
  destruct l as [|x l]; [done|]. intros [= <-]. apply fold_min_spec.
Qed.

Lemma max_element_spec l m :
  max_element l = Some m -> m ∈ l /\ forall t, t ∈ l -> flt m t = false.
Proof.
  destruct l as [|x l]; [done|]. intros [= <-]. apply fold_max_spec.
Qed.

(** strictly increasing samples *)
Fixpoint increasing (l : list float) : Prop :=
  match l with
  | [] => True
  | x :: l' => match l' with [] => True | y :: _ => flt x y = true end /\ increasing l'
  end.

Lemma increasing_head x l t : increasing (x :: l) -> t ∈ l -> flt x t = true.
Proof.
  revert x. induction l as [|y l IH]; intros x [Hxy Hinc] Ht; [by apply elem_of_nil in Ht|].
  apply elem_of_cons in Ht as [->|Ht]; [done|].
  eapply flt_trans; [exact Hxy|]. by apply IH.
Qed.

Lemma min_element_increasing l :
  increasing l -> min_element l = head l.
Proof.
  destruct l as [|x l]; [done|]. intros Hinc. simpl. f_equal.
  assert (Hall : forall t, t ∈ l -> flt t x = false).
  { intros t Ht. apply flt_asym. by eapply increasing_head. }
  clear Hinc. induction l as [|y l IH]; [done|]. simpl.
  rewrite Hall by left. apply IH. intros t Ht. apply Hall. by right.
Qed.

Lemma max_element_increasing l :
  increasing l -> max_element l = last l.
Proof.
  destruct l as [|x l]; [done|]. simpl max_element.
  revert x. induction l as [|y l IH]; intros x Hinc; [done|].
  simpl fold_left. destruct Hinc as [Hxy Hinc]. rewrite Hxy.
  rewrite IH by done. reflexivity.
Qed.

(** * Animations *)

(** what a channel leaves of an animation under construction: the
    accessors that exist stay as they are, the animations keep their
    names and time accessors *)
Definition anim_id (a : AnimationData) := (anim_ix a, anim_name a, anim_timeAccessor a).

Record anim_ext (s s' : State) : Prop := {
  ae_accs : accessors (gltf s) `prefix_of` accessors (gltf s');
  ae_anims : anim_id <$> animations (gltf s') = anim_id <$> animations (gltf s);
  ae_nodes : nodes (gltf s') = nodes (gltf s);
  ae_cameras : cameras (gltf s') = cameras (gltf s);
  ae_printed : printed s' = printed s
}.

Lemma anim_ext_refl s : anim_ext s s.
Proof. by split. Qed.

Lemma anim_ext_trans s1 s2 s3 : anim_ext s1 s2 -> anim_ext s2 s3 -> anim_ext s1 s3.
Proof.
  intros [] []. split; try congruence. by etrans.
Qed.

Lemma AddNodeChannel_post aDat nDat acc path s :
  post (AddNodeChannel aDat nDat acc path) s (fun _ s' => anim_ext s s').
Proof.
  unfold AddNodeChannel. repeat post_step. split; try done. cbn.
  rewrite list_fmap_insert. cbn. apply list_insert_id.
  rewrite list_lookup_fmap. by rewrite H.
Qed.

Lemma add_channel_post `{GLWritable T} aDat nDat ty (src : list T) path s :
  post (acc ← AddAccessorAndView ty src; AddNodeChannel aDat nDat acc path) s
       (fun _ s' => anim_ext s s').
Proof.
  apply post_bind. eapply post_run; [apply AddAccessorAndView_run|].
  eapply post_weaken; [apply AddNodeChannel_post|].
  intros ? s' Hs'. eapply anim_ext_trans; [|exact Hs'].
  split; try done. autorewrite with buf. by apply prefix_app_r.
Qed.

Lemma cond_channel_post (b : bool) (m : M unit) s :
  (forall s, post m s (fun _ s' => anim_ext s s')) ->
  post (if b then m else mret tt) s (fun _ s' => anim_ext s s').
Proof. intros Hm. destruct b; [apply Hm | apply post_ret, anim_ext_refl]. Qed.

Lemma channel_step_post raw nodesById aDat channel s :
  post (channel_step raw nodesById aDat channel) s (fun _ s' => anim_ext s s').
Proof.
  unfold channel_step, require.
  post_step. post_step. post_step. post_step.
  post_step.
  eapply post_weaken; [apply cond_channel_post; intros; apply add_channel_post|].
  intros ? s1 H1. post_step.
  eapply post_weaken; [apply cond_channel_post; intros; apply add_channel_post|].
  intros ? s2 H2. post_step.
  eapply post_weaken; [apply cond_channel_post; intros; apply add_channel_post|].
  intros ? s3 H3.
  eapply post_weaken; [apply cond_channel_post; intros; apply add_channel_post|].
  intros ? s4 H4. cbv beta in *. eauto using anim_ext_trans.
Qed.

Lemma channels_post raw nodesById aDat channels s :
  post (for_each channels (channel_step raw nodesById aDat)) s
       (fun _ s' => anim_ext s s').
Proof.
  apply (post_for_each (fun s' => anim_ext s s')); [|apply anim_ext_refl].
  intros c s1 _ H1. eapply post_weaken; [apply channel_step_post|].
  intros ? s2 H2. cbv beta in *. eauto using anim_ext_trans.
Qed.

(** the run of an animation with channels, up to its channel loop *)
Lemma animation_step_channels raw nodesById animation s :
  is_empty (ra_channels animation) = false ->
  animation_step raw nodesById animation s =
  (let g := gltf s in
   lo ← min_element (ra_times animation);
   hi ← max_element (ra_times animation);
   let time := set_acc_bounds [lo] [hi]
                 (set_acc_layout 0 (Z.of_nat (length (ra_times animation)))
                    (stamp (length (accessors g))
                       (new_AccessorData (Z.of_nat (length (bufferViews g))) GLT_FLOAT ""))) in
   for_each (ra_channels animation)
     (channel_step raw nodesById (length (animations g)))
     (set_gltf
        (set_animations
           (animations g ++
              [{| anim_ix := length (animations g); anim_name := ra_name animation;
                  anim_timeAccessor := length (accessors g); anim_channels := [] |}])
           (gltf (upd_buf (accessors g ++ [time])
                    (bufferViews g ++
                       [{| bv_ix := length (bufferViews g);
                           bv_byteOffset := size_of (pad_to 4 (binary g));
                           bv_byteLength := size_of (gl_write_array GLT_FLOAT (ra_times animation));
                           bv_target := GL_ARRAY_NONE |}])
                    (pad_to 4 (binary g) ++ gl_write_array GLT_FLOAT (ra_times animation)) s)))
        s)).
Proof.
  intros Hch. unfold animation_step. rewrite Hch.
  erewrite bind_run by apply AddAccessorAndView_run.
  destruct (min_element (ra_times animation)) as [lo|] eqn:Elo; [|done].
  destruct (max_element (ra_times animation)) as [hi|] eqn:Ehi; [|done].
  cbn [deref mbind option_bind]. 
  erewrite (bind_run (mret lo)) by reflexivity.
  erewrite (bind_run (mret hi)) by reflexivity.
  erewrite bind_run.
  2:{ apply update_accessor_run. autorewrite with buf. apply lookup_snoc. }
  autorewrite with buf. rewrite insert_snoc.
  erewrite bind_run by reflexivity.
  reflexivity.
Qed.

Lemma prefix_lookup_Some' {A} (l1 l2 : list A) i x :
  l1 `prefix_of` l2 -> l1 !! i = Some x -> l2 !! i = Some x.
Proof. intros [k ->] H. by apply lookup_app_l_Some. Qed.

(** C6 (amended): an animation with channels gets one animation entity and
    one time accessor, a fresh accessor of type SCALAR float over the time
    samples; its min is a least and its max a greatest sample, which are
    the first and the last sample when the samples strictly increase. *)
Theorem animation_time_accessor raw nodesById animation s s' :
  is_empty (ra_channels animation) = false ->
  animation_step raw nodesById animation s = Some (tt, s') ->
  exists ad acc lo hi,
    length (animations (gltf s')) = S (length (animations (gltf s))) /\
    animations (gltf s') !! length (animations (gltf s)) = Some ad /\
    anim_name ad = ra_name animation /\
    anim_timeAccessor ad = length (accessors (gltf s)) /\
    accessors (gltf s') !! anim_timeAccessor ad = Some acc /\
    acc_type acc = GLT_FLOAT /\
    acc_count acc = Z.of_nat (length (ra_times animation)) /\
    acc_sparse acc = false /\
    acc_min acc = [lo] /\ acc_max acc = [hi] /\
    lo ∈ ra_times animation /\ hi ∈ ra_times animation /\
    (forall t, t ∈ ra_times animation -> flt t lo = false /\ flt hi t = false) /\
    (increasing (ra_times animation) ->
       head (ra_times animation) = Some lo /\ last (ra_times animation) = Some hi).
Proof.
  intros Hch Hrun. rewrite animation_step_channels in Hrun by done.
  cbv zeta in Hrun.
  destruct (min_element (ra_times animation)) as [lo|] eqn:Elo; [|done].
  destruct (max_element (ra_times animation)) as [hi|] eqn:Ehi; [|done].
  cbn [mbind option_bind] in Hrun.
  apply channels_post in Hrun. destruct Hrun as [Haccs Hanims _ _ _].
  cbn in Haccs, Hanims. autorewrite with buf in Haccs.
  rewrite fmap_app in Hanims. cbn in Hanims.
  assert (Hlen : length (animations (gltf s')) = S (length (animations (gltf s)))).
  { apply (f_equal length) in Hanims.
    rewrite length_fmap, length_app, length_fmap in Hanims. simpl in Hanims. lia. }
  assert (Had : exists ad, animations (gltf s') !! length (animations (gltf s)) = Some ad /\
                           anim_id ad = (length (animations (gltf s)), ra_name animation,
                                         length (accessors (gltf s)))).
  { apply (f_equal (fun l => l !! length (animations (gltf s)))) in Hanims.
    rewrite list_lookup_fmap in Hanims.
    rewrite lookup_app_r in Hanims by (rewrite length_fmap; lia).
    rewrite length_fmap, Nat.sub_diag in Hanims. simpl in Hanims.
    destruct (animations (gltf s') !! _) as [ad|]; [|done].
    exists ad. split; [done|]. injection Hanims as H1 H2 H3. unfold anim_id. congruence. }
  destruct Had as (ad & Had & Hid). injection Hid as _ Hname Htime.
  apply min_element_spec in Elo as Hlo. apply max_element_spec in Ehi as Hhi.
  eexists ad, _, lo, hi. split; [done|]. split; [done|]. split; [done|].
  split; [done|]. split.
  { rewrite Htime. eapply prefix_lookup_Some'; [exact Haccs|]. apply lookup_snoc. }
  do 5 (split; [done|]). destruct Hlo as [Hlo1 Hlo2], Hhi as [Hhi1 Hhi2].
  split; [done|]. split; [done|]. split; [by auto|].
  intros Hinc. split.
  - rewrite <- Elo. by rewrite min_element_increasing.
  - rewrite <- Ehi. by rewrite max_element_increasing.
Qed.

(** * Cameras *)

Definition camera_warning (cam : RawCamera) : string :=
  ("Warning: Camera node id " ++ print_lu (rc_nodeId cam) ++ " does not exist." ++ nl)%string.

(** the diagnostics of the camera loop: one line per camera without node *)
Definition camera_warnings (nodesById : gmap Z nat) (cams : list RawCamera) : list string :=
  flat_map (fun cam => match nodesById !! rc_nodeId cam with
                       | None => [camera_warning cam]
                       | Some _ => []
                       end) cams.

(** the cameras that nodes may point to after the loop over [cams], which
    started with [base] cameras held: a camera they pointed to before
    ([old]), or one of [cams] whose node exists *)
Definition camera_ok (nodesById : gmap Z nat) (old : Z -> Prop) (base : nat)
    (cams : list RawCamera) (n : NodeData) : Prop :=
  old (nd_camera n) \/
  exists j cam, nd_camera n = Z.of_nat (base + j) /\ cams !! j = Some cam /\
                is_Some (nodesById !! rc_nodeId cam).

Lemma camera_step_run nodesById cam s s' :
  camera_step nodesById cam s = Some (tt, s') ->
  length (cameras (gltf s')) = S (length (cameras (gltf s))) /\
  match nodesById !! rc_nodeId cam with
  | None => nodes (gltf s') = nodes (gltf s) /\
            printed s' = printed s ++ [camera_warning cam]
  | Some node => exists n, nodes (gltf s) !! node = Some n /\
        nodes (gltf s') = <[node := SetCamera (Z.of_nat (length (cameras (gltf s)))) n]> (nodes (gltf s)) /\
        printed s' = printed s
  end.
Proof.
  unfold camera_step. unfold hold_camera.
  intros H. unfold mbind at 1, M_bind at 1 in H. cbn in H.
  destruct (nodesById !! rc_nodeId cam) as [node|] eqn:E.
  - unfold update_node, mbind, M_bind, get_model in H. cbn in H.
    destruct (nodes (gltf s) !! node) as [n|] eqn:En; [|done]. cbn in H.
    injection H as <-. cbn. rewrite length_app. simpl. split; [lia|].
    exists n. split; [done|]. split; [|done].
    destruct (rc_mode cam); reflexivity.
  - cbn in H. injection H as <-. cbn. rewrite length_app. simpl. split; [lia|].
    split; [done|]. reflexivity.
Qed.

Lemma cameras_loop nodesById cams : forall (old : Z -> Prop) s s',
  for_each cams (camera_step nodesById) s = Some (tt, s') ->
  Forall (fun n => old (nd_camera n)) (nodes (gltf s)) ->
  length (cameras (gltf s')) = (length (cameras (gltf s)) + length cams)%nat /\
  printed s' = printed s ++ camera_warnings nodesById cams /\
  Forall (camera_ok nodesById old (length (cameras (gltf s))) cams) (nodes (gltf s')).
Proof.
  induction cams as [|cam cams IH]; intros old s s' Hrun Hold.
  - injection Hrun as <-. split; [simpl; lia|]. split; [by rewrite app_nil_r|].
    eapply Forall_impl; [exact Hold|]. intros n Hn. by left.
  - simpl in Hrun. unfold mbind, M_bind in Hrun.
    destruct (camera_step nodesById cam s) as [[[] s1]|] eqn:E1; [|done].
    apply camera_step_run in E1 as [Hlen1 Hstep].
    set (old1 := fun c => old c \/
                   (c = Z.of_nat (length (cameras (gltf s))) /\
                    is_Some (nodesById !! rc_nodeId cam))).
    assert (Hold1 : Forall (fun n => old1 (nd_camera n)) (nodes (gltf s1))).
    { destruct (nodesById !! rc_nodeId cam) as [node|] eqn:E.
      - destruct Hstep as (n0 & Hn0 & -> & _). apply Forall_insert.
        + eapply Forall_impl; [exact Hold|]. intros n Hn. by left.
        + right. split; [done|]. by eexists.
      - destruct Hstep as [-> _]. eapply Forall_impl; [exact Hold|].
        intros n Hn. by left. }
    destruct (IH old1 s1 s' Hrun Hold1) as (Hlen & Hpr & Hok).
    split; [simpl; lia|]. split.
    { rewrite Hpr. simpl. destruct (nodesById !! rc_nodeId cam).
      - destruct Hstep as (n0 & _ & _ & Hp). by rewrite Hp.
      - destruct Hstep as [_ Hp]. by rewrite Hp, <- app_assoc. }
    eapply Forall_impl; [exact Hok|].
    intros n [[Hn|[Hn Hsome]]|(j & c & Hj & Hc & Hsome)].
    + by left.
    + right. exists 0%nat, cam. split; [lia|]. done.
    + right. exists (S j), c. split; [lia|]. done.
Qed.

(** C7 (amended): an animation without channels is skipped with the line
    "Animation '<name>' has no channels, skipped" and leaves the model as
    it was; every camera whose node id is unknown is reported by a line
    that starts with "Warning:", is still held as a camera entity, and no
    node points to it. *)
Theorem skipped_constructs :
  (forall raw nodesById animation s,
     is_empty (ra_channels animation) = true ->
     exists s',
       animation_step raw nodesById animation s = Some (tt, s') /\
       gltf s' = gltf s /\
       printed s' =
         printed s ++ [("Animation '" ++ ra_name animation
                        ++ "' has no channels, skipped" ++ nl)%string]) /\
  (forall raw nodesById s s',
     build_cameras raw nodesById s = Some (tt, s') ->
     Forall (fun n => nd_camera n = -1) (nodes (gltf s)) ->
     length (cameras (gltf s')) =
       (length (cameras (gltf s)) + length (raw_cameras raw))%nat /\
     printed s' = printed s ++ camera_warnings nodesById (raw_cameras raw) /\
     forall k cam,
       raw_cameras raw !! k = Some cam ->
       nodesById !! rc_nodeId cam = None ->
       String.prefix "Warning:" (camera_warning cam) = true /\
       camera_warning cam ∈ printed s' /\
       Forall (fun n => nd_camera n <> Z.of_nat (length (cameras (gltf s)) + k))
              (nodes (gltf s'))).
Proof.
  split.
  - intros raw nodesById animation s Hempty. unfold animation_step. rewrite Hempty.
    eexists. split; [reflexivity|]. done.
  - intros raw nodesById s s' Hrun Hold. unfold build_cameras in Hrun.
    apply (cameras_loop _ _ (fun c => c = -1)) in Hrun as (Hlen & Hpr & Hok); [|done].
    split; [done|]. split; [done|]. intros k cam Hk Hnone.
    split; [reflexivity|]. split.
    + rewrite Hpr. apply elem_of_app. right. unfold camera_warnings.
      apply list_elem_of_In, in_flat_map. exists cam. split.
      * apply list_elem_of_In. by eapply list_elem_of_lookup_2.
      * rewrite Hnone. by left.
    + eapply Forall_impl; [exact Hok|].
      intros n [Hn|(j & c & Hj & Hc & Hsome)] Heq.
      * lia.
      * assert (j = k) as -> by lia. rewrite Hk in Hc. injection Hc as <-.
        rewrite Hnone in Hsome. by destruct Hsome.
Qed.

(** * Materials *)

Definition is_combine (c : TBCall) : bool :=
  match c with CallCombine _ _ _ _ _ => true | CallSimple _ _ _ => false end.

(** the [combine] calls among the calls of the texture builder *)
Definition combine_calls (cs : list TBCall) : list TBCall := List.filter is_combine cs.

Lemma combine_calls_app a b : combine_calls (a ++ b) = combine_calls a ++ combine_calls b.
Proof. apply List.filter_app. Qed.

(** a run that only made [simple] calls and held no material *)
Record simple_ext (s s' : State) : Prop := {
  se_calls : exists cs, tb_calls s' = tb_calls s ++ cs /\ combine_calls cs = [];
  se_materials : materials (gltf s') = materials (gltf s)
}.

Lemma simple_ext_refl s : simple_ext s s.
Proof. split; [|done]. exists []. by rewrite app_nil_r. Qed.

Lemma simple_ext_trans s1 s2 s3 : simple_ext s1 s2 -> simple_ext s2 s3 -> simple_ext s1 s3.
Proof.
  intros [(c1 & E1 & F1) M1] [(c2 & E2 & F2) M2]. split; [|congruence].
  exists (c1 ++ c2). rewrite E2, E1, <- app_assoc. split; [done|].
  by rewrite combine_calls_app, F1, F2.
Qed.

Lemma tb_record_simple ix tag r s :
  post (tb_record (CallSimple ix tag r)) s (fun _ s' => simple_ext s s').
Proof.
  post_prim. split; [|done]. by exists [CallSimple ix tag r].
Qed.

Lemma simple_ext_calls s s' c :
  tb_calls s' = tb_calls s ++ [c] -> is_combine c = false ->
  materials (gltf s') = materials (gltf s) -> simple_ext s s'.
Proof. intros E Hc Hm. split; [|done]. exists [c]. split; [done|]. simpl. by rewrite Hc. Qed.

Lemma tb_simple_post raw ix tag s :
  post (tb_simple raw ix tag) s (fun _ s' => simple_ext s s').
Proof.
  unfold tb_simple, hold_texture. destruct (ix <? 0).
  - repeat post_step. by eapply simple_ext_calls.
  - repeat post_step; by eapply simple_ext_calls.
Qed.

Lemma simpleTex_post raw material usage s :
  post (simpleTex raw material usage) s (fun _ s' => simple_ext s s').
Proof.
  unfold simpleTex. destruct (0 <=? rm_textures material usage).
  - apply tb_simple_post.
  - apply post_ret, simple_ext_refl.
Qed.

Lemma texturesAreSame_post raw material a b s :
  post (texturesAreSame raw material a b) s (fun _ s' => s' = s).
Proof. unfold texturesAreSame. by repeat post_step. Qed.

Lemma source_locations_post raw ixs s :
  post (source_locations raw ixs) s (fun _ s' => s' = s).
Proof.
  revert s. induction ixs as [|ix ixs IH]; intros s; simpl; [by post_step|].
  post_step. unfold source_location. destruct (ix <? 0).
  - post_step. post_step. eapply post_weaken; [apply IH|].
    intros ? ? ->. by post_step.
  - post_step. post_step. post_step. post_step.
    eapply post_weaken; [apply IH|]. intros ? ? ->. by post_step.
Qed.

(** the contract of [combine]: one call recorded; a texture is returned
    unless all source indices are negative *)
Lemma tb_combine_post raw ixs tag f srgb s :
  post (tb_combine raw ixs tag f srgb) s (fun r s' =>
    tb_calls s' = tb_calls s ++ [CallCombine ixs tag f srgb r] /\
    materials (gltf s') = materials (gltf s) /\
    (r = None <-> forallb (fun ix => ix <? 0) ixs = true)).
Proof.
  unfold tb_combine, hold_texture. destruct (forallb (fun ix => ix <? 0) ixs) eqn:Eneg.
  - repeat post_step. done.
  - post_step. eapply post_weaken; [apply source_locations_post|].
    intros locs ? ->. repeat post_step; (split; [done|]; split; [done|]; split; done).
Qed.

(** the pass-through case of lines 279-284: the three maps are present and
    name the same file, compared without case *)
Definition pass_through (raw : RawModel) (material : RawMaterial) : Prop :=
  exists tm tr to,
    at_index (raw_textures raw) (rm_textures material RAW_TEXTURE_USAGE_METALLIC) = Some tm /\
    at_index (raw_textures raw) (rm_textures material RAW_TEXTURE_USAGE_ROUGHNESS) = Some tr /\
    at_index (raw_textures raw) (rm_textures material RAW_TEXTURE_USAGE_OCCLUSION) = Some to /\
    CompareNoCase_eq (rt_fileLocation tm) (rt_fileLocation tr) = true /\
    CompareNoCase_eq (rt_fileLocation tm) (rt_fileLocation to) = true.

Lemma texturesAreSame_spec raw material a b s :
  post (texturesAreSame raw material a b) s (fun r s' =>
    s' = s /\
    exists ta tb,
      at_index (raw_textures raw) (rm_textures material a) = Some ta /\
      at_index (raw_textures raw) (rm_textures material b) = Some tb /\
      r = CompareNoCase_eq (rt_fileLocation ta) (rt_fileLocation tb)).
Proof. unfold texturesAreSame. repeat post_step. split; [done|]. eauto. Qed.

Lemma at_index_Some_inj {A} (l : list A) i x y :
  at_index l i = Some x -> at_index l i = Some y -> x = y.
Proof. congruence. Qed.

(** what lines 257-368 do for a material that needs a combined map *)
Lemma pbr_from_met_rough_post raw material props s :
  rm_info material = MetRoughProps props ->
  let occ := rm_textures material RAW_TEXTURE_USAGE_OCCLUSION in
  let rough := rm_textures material RAW_TEXTURE_USAGE_ROUGHNESS in
  let metal := rm_textures material RAW_TEXTURE_USAGE_METALLIC in
  0 <= occ \/ 0 <= rough \/ 0 <= metal ->
  ~ pass_through raw material ->
  post (pbr_from_met_rough raw material) s (fun loc s' =>
    exists t calls pbr,
      tb_calls s' = tb_calls s ++ calls /\
      combine_calls calls =
        [CallCombine [occ; rough; metal] "ao_met_rough"
           (ao_met_rough_merger (0 <=? occ) (0 <=? rough) (0 <=? metal) props)
           false (Some t)] /\
      materials (gltf s') = materials (gltf s) /\
      loc_occlusionTexture loc = Some t /\
      loc_pbrMetRough loc = Some pbr /\ metRoughTexture pbr = Some t /\
      pbr_metallic pbr = mr_metallic props /\ pbr_roughness pbr = mr_roughness props /\
      is_Some (loc_emissiveFactor loc) /\ is_Some (loc_emissiveIntensity loc)).
Proof.
  intros Hinfo occ rough metal Hany Hnot.
  unfold pbr_from_met_rough. rewrite Hinfo. simpl as_met_rough.
  post_step. post_step. injection H as <-. post_step. fold occ rough metal.
  (* isPassThroughTexture is false *)
  apply (post_weaken _ _ (fun b s' => s' = s /\ b = false)).
  { destruct (_ && _ && _) eqn:Eall; cbv iota; [|post_step; auto].
    post_step. eapply post_weaken; [apply texturesAreSame_spec|].
    intros same1 ? (-> & tm & tr & Hm & Hr & ->).
    destruct (CompareNoCase_eq _ _) eqn:E1; cbv iota; [|post_step; auto].
    eapply post_weaken; [apply texturesAreSame_spec|].
    intros same2 ? (-> & tm' & to & Hm' & Ho & ->). split; [done|].
    destruct (CompareNoCase_eq (rt_fileLocation tm') _) eqn:E2; [|done].
    exfalso. apply Hnot. exists tm, tr, to.
    assert (tm' = tm) as -> by (by eapply at_index_Some_inj). done. }
  intros b ? [-> ->].
  assert (Hneg : negb ((0 <=? metal) || (0 <=? rough) || (0 <=? occ)) = false).
  { apply negb_false_iff. rewrite !orb_true_iff, !Z.leb_le. tauto. }
  rewrite Hneg. post_step.
  eapply post_weaken; [apply tb_combine_post|].
  intros r s1 (Hcalls & Hmat & Hr). post_step.
  eapply post_weaken; [apply simpleTex_post|].
  intros base s2 [(cs & Hcs & Hfilter) Hmat2]. post_step.
  destruct r as [t|].
  2:{ exfalso. destruct Hr as [Hr _]. specialize (Hr eq_refl). simpl in Hr.
      rewrite !andb_true_iff, !Z.ltb_lt in Hr. lia. }
  exists t, ([CallCombine [occ; rough; metal] "ao_met_rough"
               (ao_met_rough_merger (0 <=? occ) (0 <=? rough) (0 <=? metal) props)
               false (Some t)] ++ cs).
  eexists. split.
  { rewrite Hcs, Hcalls. by rewrite <- app_assoc. }
  split. { rewrite combine_calls_app, Hfilter. done. }
  split; [congruence|]. cbn. repeat split; eauto.
Qed.

(** the pixel the specification's combiner produces from three input pixels *)
Definition orm_pixel (hasOcc hasRough hasMetal : bool) (props : RawMetRoughMatProps)
    (p0 p1 p2 : pixel) : pixel :=
  let occlusion := if hasOcc then px_R p0 else f1 in
  let roughness := fmul (px_G p1) (if hasRough then f1 else mr_roughness props) in
  let metallic := fmul (px_B p2) (if hasMetal then f1 else mr_metallic props) in
  (occlusion,
   if mr_invertRoughnessMap props then fsub f1 roughness else roughness,
   metallic, f1).

(** C3: with metallic-roughness output on and unlit output off, a PBR
    material with at least one of the three maps that is not the
    pass-through case makes exactly one [combine] call, with tag
    "ao_met_rough", the three source indices and srgb = false; its combiner
    maps three pixels to (occlusion, roughness, metallic, 1); the texture
    the call returns is both the metallic-roughness texture and the
    occlusion texture of the material. *)
Theorem ao_met_rough_combined raw options unassigned material props materialsById s byId' s' :
  usePBRMetRough options = true ->
  useKHRMatUnlit options = false ->
  rm_info material = MetRoughProps props ->
  let occ := rm_textures material RAW_TEXTURE_USAGE_OCCLUSION in
  let rough := rm_textures material RAW_TEXTURE_USAGE_ROUGHNESS in
  let metal := rm_textures material RAW_TEXTURE_USAGE_METALLIC in
  0 <= occ \/ 0 <= rough \/ 0 <= metal ->
  ~ pass_through raw material ->
  material_step raw options unassigned material materialsById s = Some (byId', s') ->
  exists t f calls m pbr,
    tb_calls s' = tb_calls s ++ calls /\
    combine_calls calls = [CallCombine [occ; rough; metal] "ao_met_rough" f false (Some t)] /\
    (forall p0 p1 p2,
       f [p0; p1; p2] = Some (orm_pixel (0 <=? occ) (0 <=? rough) (0 <=? metal) props p0 p1 p2)) /\
    materials (gltf s') = materials (gltf s) ++ [m] /\
    byId' !! rm_id material = Some (length (materials (gltf s))) /\
    occlusionTexture m = Some t /\
    pbrMetallicRoughness m = Some pbr /\ metRoughTexture pbr = Some t.
Proof.
  intros Hpbr Hunlit Hinfo occ rough metal Hany Hnot Hrun.
  revert byId' s' Hrun. apply post_intro.
  unfold material_step. rewrite Hpbr, Hunlit. unfold shadingModel. rewrite Hinfo.
  post_step. eapply post_weaken; [apply simpleTex_post|].
  intros normalTex s1 [(c1 & Hc1 & Hf1) Hm1].
  post_step. eapply post_weaken; [apply simpleTex_post|].
  intros emissiveTex s2 [(c2 & Hc2 & Hf2) Hm2].
  post_step. eapply post_weaken; [by apply pbr_from_met_rough_post|].
  intros loc s3 (t & c3 & pbr & Hc3 & Hf3 & Hm3 & Hocc & Hloc & Hmr & _ & _ & [ef Hef] & [ei Hei]).
  post_step. post_step. post_step. rewrite Hocc. post_step. post_step.
  rewrite Hef, Hei. cbv zeta. cbn [default].
  unfold hold_material. repeat post_step.
  exists t, (ao_met_rough_merger (0 <=? occ) (0 <=? rough) (0 <=? metal) props),
    (c1 ++ c2 ++ c3).
  eexists _, pbr. cbn.
  split. { rewrite Hc3, Hc2, Hc1. by rewrite <- !app_assoc. }
  split. { rewrite !combine_calls_app, Hf1, Hf2, Hf3. done. }
  split. { intros p0 p1 p2. unfold ao_met_rough_merger, orm_pixel.
           destruct (0 <=? occ); reflexivity. }
  split. { rewrite Hm3, Hm2, Hm1. reflexivity. }
  split. { rewrite Hm3, Hm2, Hm1. apply lookup_insert_eq. }
  done.
Qed.

(** the binary32 values of the constants of lines 380, 413 and 414 *)
Example metallic_04 : f32_bits (f32_lit 2 5) = 1053609165. (* 0x3ECCCCCD *)
Proof. reflexivity. Qed.
Example metallic_02 : f32_bits (f32_lit 1 5) = 1045220557. (* 0x3E4CCCCD *)
Proof. reflexivity. Qed.
Example roughness_08 : f32_bits (f32_lit 4 5) = 1061997773. (* 0x3F4CCCCD *)
Proof. reflexivity. Qed.

(** what the specification says of the metallic-roughness block [pbr] of a
    traditional material, given the [combine] calls [cc] its translation
    made *)
Definition traditional_result (model : RawShadingModel) (props : RawTraditionalMatProps)
    (shininessTex : Z) (cc : list TBCall) (pbr : PBRMetallicRoughness) : Prop :=
  match model with
  | RAW_SHADING_MODEL_BLINN | RAW_SHADING_MODEL_PHONG =>
      if 0 <=? shininessTex
      then
        exists t f,
          cc = [CallCombine [shininessTex] "ao_met_rough" f false (Some t)] /\
          (forall p, f [p] =
             Some (f0, getRoughness (fmul (tr_shininess props) (px_R p)),
                   f32_lit 2 5, f1)) /\
          metRoughTexture pbr = Some t /\
          pbr_metallic pbr = f1 /\ pbr_roughness pbr = f1
      else
        metRoughTexture pbr = None /\
        pbr_metallic pbr = f32_lit 2 5 /\
        pbr_roughness pbr = sqrtf (fdiv f2 (fadd f2 (tr_shininess props)))
  | RAW_SHADING_MODEL_OTHER =>
      cc = [] /\ metRoughTexture pbr = None /\
      pbr_metallic pbr = f32_lit 1 5 /\ pbr_roughness pbr = f32_lit 4 5
  | RAW_SHADING_MODEL_PBR_MET_ROUGH => False
  end.

Lemma blinn_phong_post raw material model props s :
  rm_info material = TraditionalProps model props ->
  model = RAW_SHADING_MODEL_BLINN \/ model = RAW_SHADING_MODEL_PHONG ->
  post
    (let metallic := f32_lit 2 5 in
     aoMetRoughTex ← tb_combine raw [rm_textures material RAW_TEXTURE_USAGE_SHININESS]
                       "ao_met_rough" (shininess_merger props metallic) false;
     match aoMetRoughTex with
     | Some _ => mret (aoMetRoughTex, f1, f1)
     | None => mret (aoMetRoughTex, metallic, getRoughness (tr_shininess props))
     end) s
    (fun '(tex, metallic, roughness) s' =>
       exists calls,
         tb_calls s' = tb_calls s ++ calls /\
         materials (gltf s') = materials (gltf s) /\
         forall base,
           traditional_result model props
             (rm_textures material RAW_TEXTURE_USAGE_SHININESS) (combine_calls calls)
             {| baseColorTexture := base; metRoughTexture := tex;
                baseColorFactor := tr_diffuseFactor props;
                pbr_metallic := metallic; pbr_roughness := roughness |}).
Proof.
  intros Hinfo Hmodel. cbv zeta. post_step.
  eapply post_weaken; [apply tb_combine_post|].
  intros r s3 (Hc3 & Hm3 & Hr).
  assert (Hcase : traditional_result model props = traditional_result RAW_SHADING_MODEL_BLINN props)
    by (by destruct Hmodel as [-> | ->]).
  destruct r as [t|]; post_step; eexists; (split; [exact Hc3|]); (split; [done|]);
    intros base; rewrite Hcase; unfold traditional_result;
    destruct (0 <=? rm_textures material RAW_TEXTURE_USAGE_SHININESS) eqn:Eshin.
  - exists t, (shininess_merger props (f32_lit 2 5)). done.
  - exfalso. destruct Hr as [_ Hr]. simpl in Hr.
    apply Z.leb_gt, Z.ltb_lt in Eshin. rewrite Eshin in Hr. by specialize (Hr eq_refl).
  - exfalso. destruct Hr as [Hr _]. specialize (Hr eq_refl). simpl in Hr.
    apply Z.leb_le in Eshin. rewrite andb_true_r in Hr. apply Z.ltb_lt in Hr. lia.
  - done.
Qed.

Lemma pbr_from_traditional_post raw material model props s :
  rm_info material = TraditionalProps model props ->
  model <> RAW_SHADING_MODEL_PBR_MET_ROUGH ->
  post (pbr_from_traditional raw material) s (fun loc s' =>
    exists calls pbr,
      tb_calls s' = tb_calls s ++ calls /\
      materials (gltf s') = materials (gltf s) /\
      loc_pbrMetRough loc = Some pbr /\ loc_occlusionTexture loc = None /\
      is_Some (loc_emissiveFactor loc) /\ is_Some (loc_emissiveIntensity loc) /\
      traditional_result model props
        (rm_textures material RAW_TEXTURE_USAGE_SHININESS) (combine_calls calls) pbr).
Proof.
  intros Hinfo Hmodel. unfold pbr_from_traditional, shadingModel. rewrite Hinfo.
  simpl as_traditional. post_step. post_step. injection H as <-. post_step.
  apply (post_weaken _ _ (fun '(tex, metallic, roughness) s' =>
       exists calls,
         tb_calls s' = tb_calls s ++ calls /\
         materials (gltf s') = materials (gltf s) /\
         forall base,
           traditional_result model props
             (rm_textures material RAW_TEXTURE_USAGE_SHININESS) (combine_calls calls)
             {| baseColorTexture := base; metRoughTexture := tex;
                baseColorFactor := tr_diffuseFactor props;
                pbr_metallic := metallic; pbr_roughness := roughness |})).
  { destruct model; [done| | |].
    - eapply blinn_phong_post; eauto.
    - eapply blinn_phong_post; eauto.
    - post_step. exists []. rewrite app_nil_r. done. }
  intros [[tex metallic] roughness] s3 (c3 & Hc3 & Hm3 & Hres).
  post_step. eapply post_weaken; [apply simpleTex_post|].
  intros baseTex s4 [(c4 & Hc4 & Hf4) Hm4]. post_step.
  exists (c3 ++ c4). eexists. split; [by rewrite Hc4, Hc3, <- app_assoc|].
  split; [congruence|]. cbn. split; [reflexivity|]. split; [done|].
  split; [by eexists|]. split; [by eexists|].
  rewrite combine_calls_app, Hf4, app_nil_r. apply Hres.
Qed.

(** C5: a traditional material under metallic-roughness output.  Blinn and
    Phong: without shininess texture, metallic 0.4 and roughness
    sqrt(2 / (2 + shininess)), which is 0.5 at shininess 6; with one, the
    one combined texture has the pixel (0, getRoughness(shininess * R),
    0.4, 1) and both factors are 1.  Other models: metallic 0.2, roughness
    0.8 and no combined texture. *)
Theorem traditional_to_pbr raw options unassigned material model props materialsById s byId' s' :
  usePBRMetRough options = true ->
  useKHRMatUnlit options = false ->
  rm_info material = TraditionalProps model props ->
  material_step raw options unassigned material materialsById s = Some (byId', s') ->
  getRoughness (f32_of_Z 6) = f32_lit 1 2 /\
  exists m pbr calls,
    materials (gltf s') = materials (gltf s) ++ [m] /\
    pbrMetallicRoughness m = Some pbr /\
    tb_calls s' = tb_calls s ++ calls /\
    traditional_result model props
      (rm_textures material RAW_TEXTURE_USAGE_SHININESS) (combine_calls calls) pbr.
Proof.
  intros Hpbr Hunlit Hinfo Hrun. split; [reflexivity|].
  revert byId' s' Hrun. apply post_intro.
  unfold material_step. rewrite Hpbr, Hunlit.
  post_step. eapply post_weaken; [apply simpleTex_post|].
  intros normalTex s1 [(c1 & Hc1 & Hf1) Hm1].
  post_step. eapply post_weaken; [apply simpleTex_post|].
  intros emissiveTex s2 [(c2 & Hc2 & Hf2) Hm2].
  post_step.
  assert (Hdec : model = RAW_SHADING_MODEL_PBR_MET_ROUGH \/ model <> RAW_SHADING_MODEL_PBR_MET_ROUGH)
    by (destruct model; auto).
  destruct Hdec as [->|Hmodel].
  { (* the downcast of line 264 is not defined on these properties *)
    unfold shadingModel. rewrite Hinfo.
    unfold pbr_from_met_rough. rewrite Hinfo. simpl. post_step. apply post_abort. }
  apply (post_weaken _ _ (fun loc s' =>
    exists calls pbr,
      tb_calls s' = tb_calls s2 ++ calls /\
      materials (gltf s') = materials (gltf s2) /\
      loc_pbrMetRough loc = Some pbr /\ loc_occlusionTexture loc = None /\
      is_Some (loc_emissiveFactor loc) /\ is_Some (loc_emissiveIntensity loc) /\
      traditional_result model props
        (rm_textures material RAW_TEXTURE_USAGE_SHININESS) (combine_calls calls) pbr)).
  { unfold shadingModel. rewrite Hinfo.
    destruct model; [done| | |]; by eapply pbr_from_traditional_post. }
  intros loc s3 (c3 & pbr & Hc3 & Hm3 & Hloc & Hocc & [ef Hef] & [ei Hei] & Hres).
  post_step. post_step. post_step. rewrite Hocc.
  eapply post_weaken; [apply simpleTex_post|].
  intros occTex s5 [(c5 & Hc5 & Hf5) Hm5].
  rewrite Hef, Hei. cbv zeta. cbn [default].
  unfold hold_material. repeat post_step. cbn.
  eexists _, pbr, (c1 ++ c2 ++ c3 ++ c5).
  split; [by rewrite Hm5, Hm3, Hm2, Hm1|]. split; [done|].
  split; [by rewrite Hc5, Hc3, Hc2, Hc1, <- !app_assoc|].
  by rewrite !combine_calls_app, Hf1, Hf2, Hf5, app_nil_r.
Qed.

(** * Primitives and morph targets *)

(** the accessors the channel code builds *)
Definition plain_acc (ix view : nat) (ty : GLType) (n : nat) (name : string)
  : AccessorData :=
  set_acc_layout 0 (Z.of_nat n) (stamp ix (new_AccessorData (Z.of_nat view) ty name)).

Definition sparse_acc (ix : nat) (base : AccessorData) (indexView : nat)
    (indexType : GLType) (dataView : nat) (ty : GLType) (n : Z) (name : string)
  : AccessorData :=
  {| acc_ix := ix; acc_bufferView := acc_bufferView base; acc_type := ty;
     acc_byteOffset := acc_byteOffset base; acc_count := acc_count base;
     acc_min := []; acc_max := []; acc_name := name; acc_sparse := true;
     sparseIdxCount := n; sparseIdxBufferView := Z.of_nat indexView;
     sparseIdxBufferViewType := glType (componentType indexType);
     sparseDataBufferView := Z.of_nat dataView |}.

(** the view a fresh aligned view becomes once [bytes] are copied into it *)
Definition filled_view (ix : nat) (bin : list byte) (bytes : list byte)
    (target : GL_ArrayType) : BufferViewData :=
  {| bv_ix := ix; bv_byteOffset := size_of (pad_to 4 bin);
     bv_byteLength := size_of bytes; bv_target := target |}.

(** [s'] is [s] with accessors, views and bytes appended *)
Definition appended (s s' : State) (na : list AccessorData) (nv : list BufferViewData)
    (nb : list byte) : Prop :=
  s' = upd_buf (accessors (gltf s) ++ na) (bufferViews (gltf s) ++ nv)
               (binary (gltf s) ++ nb) s.

Lemma appended_refl s : appended s s [] [] [].
Proof.
  unfold appended. rewrite !app_nil_r. unfold upd_buf. destruct s as [[] ? ? ? ?].
  reflexivity.
Qed.

Lemma appended_trans s1 s2 s3 na nv nb na' nv' nb' :
  appended s1 s2 na nv nb -> appended s2 s3 na' nv' nb' ->
  appended s1 s3 (na ++ na') (nv ++ nv') (nb ++ nb').
Proof.
  unfold appended. intros -> ->. autorewrite with buf. by rewrite !app_assoc.
Qed.

Lemma pad_to_app b : pad_to 4 b = b ++ replicate (Z.to_nat ((- size_of b) mod 4)) x00.
Proof. reflexivity. Qed.

Lemma fresh_view_appended `{GLWritable T} t (data : list T) ty s :
  exists nb,
    (v ← GetAlignedBufferView t; CopyToBufferView v data ty ;; mret v) s =
    Some (length (bufferViews (gltf s)),
          upd_buf (accessors (gltf s))
            (bufferViews (gltf s) ++
               [filled_view (length (bufferViews (gltf s))) (binary (gltf s))
                  (gl_write_array ty data) t])
            (binary (gltf s) ++ nb) s) /\
    nb = replicate (Z.to_nat ((- size_of (binary (gltf s))) mod 4)) x00
         ++ gl_write_array ty data.
Proof.
  eexists. split; [|reflexivity]. rewrite fresh_view_run. cbv zeta.
  rewrite pad_to_app at 2. by rewrite <- app_assoc.
Qed.

Lemma AddSparseAccessor_run base iv it dv ty name s b viv :
  let g := gltf s in
  accessors g !! base = Some b ->
  bufferViews g !! iv = Some viv ->
  is_Some (bufferViews g !! dv) ->
  AddSparseAccessor base iv it dv ty name s =
  Some (length (accessors g),
        upd_buf (accessors g ++
                   [sparse_acc (length (accessors g)) b iv it dv ty
                      (bv_byteLength viv / byteStride it) name])
          (bufferViews g) (binary g) s).
Proof.
  intros g Hb Hiv [vdv Hdv]. unfold AddSparseAccessor.
  unfold mbind at 1, M_bind at 1, get_model. fold g. rewrite Hb.
  unfold mbind at 1, M_bind at 1. cbn [deref mret M_ret].
  rewrite Hiv, Hdv. unfold mbind, M_bind. cbn [deref mret M_ret].
  rewrite hold_accessor_run. reflexivity.
Qed.

Lemma sparse_with_view_run `{GLWritable T} base iv it ty (values : list T) name s b :
  let g := gltf s in
  accessors g !! base = Some b ->
  is_Some (bufferViews g !! iv) ->
  (view ← GetAlignedBufferView GL_ARRAY_NONE;
   AddSparseAccessorWithView base iv it view ty values name) s =
  Some (length (accessors g),
        upd_buf (accessors g ++
                   [sparse_acc (length (accessors g)) b iv it (length (bufferViews g)) ty
                      (Z.of_nat (length values)) name])
          (bufferViews g ++
             [filled_view (length (bufferViews g)) (binary g)
                (gl_write_array ty values) GL_ARRAY_NONE])
          (pad_to 4 (binary g) ++ gl_write_array ty values) s).
Proof.
  intros g Hb [viv Hiv]. erewrite bind_run by apply GetAlignedBufferView_run.
  unfold AddSparseAccessorWithView, CopyToBufferView.
  erewrite bind_run.
  2:{ erewrite bind_run; [reflexivity|].
      apply appendAsBinaryArray_run. autorewrite with buf. apply lookup_snoc. }
  autorewrite with buf. cbn [bv_ix bv_byteOffset bv_target].
  rewrite pad_to_idem, insert_snoc, size_of_app. fold g.
  unfold mbind at 1, M_bind at 1, get_model. autorewrite with buf. rewrite Hb.
  unfold mbind at 1, M_bind at 1. cbn [deref mret M_ret].
  rewrite (lookup_app_l_Some _ _ _ _ Hiv).
  unfold mbind, M_bind. cbn [deref mret M_ret].
  rewrite hold_accessor_run. autorewrite with buf. cbv zeta. autorewrite with buf.
  unfold filled_view.
  replace (size_of (pad_to 4 (binary g)) + size_of (gl_write_array ty values)
             - size_of (pad_to 4 (binary g))) with (size_of (gl_write_array ty values)) by lia.
  reflexivity.
Qed.

(** the bytes a view covers *)
Definition view_bytes (v : BufferViewData) (bin : list byte) : list byte :=
  take (Z.to_nat (bv_byteLength v)) (drop (Z.to_nat (bv_byteOffset v)) bin).

(** the view lies inside the buffer *)
Definition view_inside (v : BufferViewData) (bin : list byte) : Prop :=
  0 <= bv_byteOffset v /\ 0 <= bv_byteLength v /\
  bv_byteOffset v + bv_byteLength v <= size_of bin.

Lemma view_bytes_app v bin more :
  view_inside v bin -> view_bytes v (bin ++ more) = view_bytes v bin.
Proof.
  intros (H0 & H1 & H2). unfold view_bytes, size_of in *.
  rewrite drop_app_le by lia. rewrite take_app_le; [done|].
  rewrite length_drop. lia.
Qed.

Lemma view_inside_app v bin more : view_inside v bin -> view_inside v (bin ++ more).
Proof.
  intros (H0 & H1 & H2). repeat split; try done. rewrite size_of_app.
  unfold size_of in *. lia.
Qed.

Lemma size_of_nonneg b : 0 <= size_of b.
Proof. unfold size_of. lia. Qed.

Lemma filled_view_bytes ix bin bytes t more :
  view_bytes (filled_view ix bin bytes t) (pad_to 4 bin ++ bytes ++ more) = bytes /\
  view_inside (filled_view ix bin bytes t) (pad_to 4 bin ++ bytes).
Proof.
  unfold view_bytes, view_inside, filled_view. cbn. split.
  - unfold size_of. rewrite !Nat2Z.id. rewrite drop_app_length. by rewrite take_app_length.
  - pose proof (size_of_nonneg (pad_to 4 bin)). pose proof (size_of_nonneg bytes).
    rewrite size_of_app. lia.
Qed.

Definition index_type (useLongIndices : bool) : GLType :=
  if useLongIndices then GLT_UINT else GLT_USHORT.

(** the dummy views of a surface, once created: a single zero index and a
    single zero Vec3, distinct views that lie inside the buffer *)
Record dummy_inv (useLongIndices : bool) (di dv : option nat) (s : State) : Prop := {
  di_idx : forall i, di = Some i ->
    exists v, bufferViews (gltf s) !! i = Some v /\
              bv_byteLength v = byteStride (index_type useLongIndices) /\
              view_inside v (binary (gltf s)) /\
              view_bytes v (binary (gltf s)) =
                replicate (Z.to_nat (byteStride (index_type useLongIndices))) x00;
  di_data : forall i, dv = Some i ->
    exists v, bufferViews (gltf s) !! i = Some v /\
              bv_byteLength v = 12 /\
              view_inside v (binary (gltf s)) /\
              view_bytes v (binary (gltf s)) = replicate 12 x00;
  di_distinct : forall i j, di = Some i -> dv = Some j -> i <> j
}.

Lemma dummy_inv_appended ul di dv s s' na nv nb :
  dummy_inv ul di dv s -> appended s s' na nv nb -> dummy_inv ul di dv s'.
Proof.
  intros [Hi Hd Hne] ->. split; autorewrite with buf.
  - intros i Hdi. destruct (Hi i Hdi) as (v & Hv & Hlen & Hin & Hbytes).
    exists v. split; [by apply lookup_app_l_Some|]. split; [done|].
    split; [by apply view_inside_app|]. by rewrite view_bytes_app.
  - intros i Hdv. destruct (Hd i Hdv) as (v & Hv & Hlen & Hin & Hbytes).
    exists v. split; [by apply lookup_app_l_Some|]. split; [done|].
    split; [by apply view_inside_app|]. by rewrite view_bytes_app.
  - done.
Qed.

Lemma write_zero_index ul :
  gl_write_array (index_type ul) [0] =
  replicate (Z.to_nat (byteStride (index_type ul))) x00.
Proof. by destruct ul. Qed.


(** lines 691-698 and 700-706: a dummy view is created when there is none *)
Lemma ensure_view_post `{GLWritable T} (o : option nat) (data : list T) ty s :
  post (match o with
        | Some v => mret v
        | None => v ← GetAlignedBufferView GL_ARRAY_NONE;
                  CopyToBufferView v data ty ;; mret v
        end) s
    (fun v s' =>
       match o with
       | Some v0 => v = v0 /\ appended s s' [] [] []
       | None =>
           v = length (bufferViews (gltf s)) /\
           exists nb,
             appended s s' []
               [filled_view (length (bufferViews (gltf s))) (binary (gltf s))
                  (gl_write_array ty data) GL_ARRAY_NONE] nb /\
             binary (gltf s) ++ nb = pad_to 4 (binary (gltf s)) ++ gl_write_array ty data
       end).
Proof.
  destruct o as [v0|].
  - post_step. split; [done|]. apply appended_refl.
  - destruct (fresh_view_appended GL_ARRAY_NONE data ty s) as (nb & Hrun & Hnb).
    eapply post_run; [exact Hrun|]. split; [done|]. exists nb. split.
    + unfold appended. by rewrite app_nil_r.
    + rewrite Hnb, pad_to_app. by rewrite <- app_assoc.
Qed.

(** line 703 appends through the view itself *)
Lemma append_as_copy `{GLWritable T} (v : nat) (data : list T) ty s :
  (appendAsBinaryArray v data ty ;; mret v) s = (CopyToBufferView v data ty ;; mret v) s.
Proof.
  unfold CopyToBufferView, mbind, M_bind.
  by destruct (appendAsBinaryArray v data ty s) as [[? ?]|].
Qed.

Lemma ensure_data_view_post `{GLWritable T} (o : option nat) (data : list T) ty s :
  post (match o with
        | Some v => mret v
        | None => v ← GetAlignedBufferView GL_ARRAY_NONE;
                  appendAsBinaryArray v data ty ;; mret v
        end) s
    (fun v s' =>
       match o with
       | Some v0 => v = v0 /\ appended s s' [] [] []
       | None =>
           v = length (bufferViews (gltf s)) /\
           exists nb,
             appended s s' []
               [filled_view (length (bufferViews (gltf s))) (binary (gltf s))
                  (gl_write_array ty data) GL_ARRAY_NONE] nb /\
             binary (gltf s) ++ nb = pad_to 4 (binary (gltf s)) ++ gl_write_array ty data
       end).
Proof.
  intros x s' E. apply (ensure_view_post o data ty s x s').
  destruct o as [v0|]; [exact E|].
  unfold mbind at 1, M_bind at 1. unfold mbind at 1, M_bind at 1 in E.
  destruct (GetAlignedBufferView GL_ARRAY_NONE s) as [[v s1]|]; [|done].
  by rewrite <- append_as_copy.
Qed.

Lemma byteStride_index ul : byteStride (index_type ul) = if ul then 4 else 2.
Proof. by destruct ul. Qed.

Lemma dummy_idx_fresh ul s nb :
  binary (gltf s) ++ nb = pad_to 4 (binary (gltf s)) ++ gl_write_array (index_type ul) [0] ->
  let v := filled_view (length (bufferViews (gltf s))) (binary (gltf s))
             (gl_write_array (index_type ul) [0]) GL_ARRAY_NONE in
  bv_byteLength v = byteStride (index_type ul) /\
  view_inside v (binary (gltf s) ++ nb) /\
  view_bytes v (binary (gltf s) ++ nb) =
    replicate (Z.to_nat (byteStride (index_type ul))) x00.
Proof.
  intros -> v.
  destruct (filled_view_bytes (length (bufferViews (gltf s))) (binary (gltf s))
              (gl_write_array (index_type ul) [0]) GL_ARRAY_NONE []) as [Hb Hin].
  rewrite app_nil_r in Hb. split; [by destruct ul|]. split; [done|].
  fold v in Hb. rewrite Hb. apply write_zero_index.
Qed.

Lemma dummy_data_fresh s nb :
  binary (gltf s) ++ nb = pad_to 4 (binary (gltf s)) ++ gl_write_array GLT_VEC3F [Vec3f_zero] ->
  let v := filled_view (length (bufferViews (gltf s))) (binary (gltf s))
             (gl_write_array GLT_VEC3F [Vec3f_zero]) GL_ARRAY_NONE in
  bv_byteLength v = 12 /\
  view_inside v (binary (gltf s) ++ nb) /\
  view_bytes v (binary (gltf s) ++ nb) = replicate 12 x00.
Proof.
  intros -> v.
  destruct (filled_view_bytes (length (bufferViews (gltf s))) (binary (gltf s))
              (gl_write_array GLT_VEC3F [Vec3f_zero]) GL_ARRAY_NONE []) as [Hb Hin].
  rewrite app_nil_r in Hb. split; [done|]. split; [done|].
  fold v in Hb. by rewrite Hb.
Qed.

(** the dummy views after the two creation steps of an empty channel *)
Lemma ensure_dummies_post ul di dv s :
  dummy_inv ul di dv s ->
  post (idxView ← match di with
                  | Some v => mret v
                  | None => v ← GetAlignedBufferView GL_ARRAY_NONE;
                            CopyToBufferView v [0] (index_type ul) ;; mret v
                  end;
        dataView ← match dv with
                   | Some v => mret v
                   | None => v ← GetAlignedBufferView GL_ARRAY_NONE;
                             appendAsBinaryArray v [Vec3f_zero] GLT_VEC3F ;; mret v
                   end;
        mret (idxView, dataView)) s
    (fun '(iv, dvw) s' =>
       exists nv nb, appended s s' [] nv nb /\
         dummy_inv ul (Some iv) (Some dvw) s' /\
         (forall i, di = Some i -> iv = i) /\ (forall j, dv = Some j -> dvw = j) /\
         (di = None -> length (bufferViews (gltf s)) <= iv)%nat /\
         (dv = None -> length (bufferViews (gltf s)) <= dvw)%nat).
Proof.
  intros Hinv. post_step.
  eapply post_weaken; [apply ensure_view_post|]. intros iv s1 H1.
  post_step. eapply post_weaken; [apply ensure_data_view_post|]. intros dvw s2 H2.
  post_step.
  assert (Hstep1 : exists nv1 nb1, appended s s1 [] nv1 nb1 /\
            dummy_inv ul (Some iv) dv s1 /\ (forall i, di = Some i -> iv = i) /\
            (di = None -> iv = length (bufferViews (gltf s))) /\
            (iv < length (bufferViews (gltf s1)))%nat).
  { destruct di as [i|].
    - destruct H1 as [-> Happ]. exists [], []. split; [done|].
      split; [by eapply dummy_inv_appended|]. split; [by intros ? [= ->]|].
      split; [done|]. destruct Hinv as [Hi _ _]. destruct (Hi i eq_refl) as (v & Hv & _).
      rewrite Happ. autorewrite with buf. rewrite app_nil_r. by eapply lookup_lt_Some.
    - destruct H1 as [-> (nb & Happ & Hbin)]. eexists _, nb. split; [exact Happ|].
      split; [|split; [done|split; [done|]]].
      2:{ rewrite Happ. autorewrite with buf. rewrite length_app. simpl. lia. }
      pose proof (dummy_inv_appended _ _ _ _ _ _ _ _ Hinv Happ) as [_ Hd _].
      destruct (dummy_idx_fresh ul s nb Hbin) as (Hlen & Hin & Hbytes).
      rewrite Happ in *. autorewrite with buf in *.
      split.
      + intros i [= <-]. eexists. autorewrite with buf.
        split; [apply lookup_snoc|]. done.
      + done.
      + intros i j [= <-] Hj. destruct (Hd j Hj) as (v & Hv & _).
        destruct Hinv as [_ Hd0 _]. destruct (Hd0 j Hj) as (v0 & Hv0 & _).
        apply lookup_lt_Some in Hv0. lia. }
  destruct Hstep1 as (nv1 & nb1 & Happ1 & Hinv1 & Hsame1 & Hnew1 & Hlt1).
  assert (Hlen1 : (length (bufferViews (gltf s)) <= length (bufferViews (gltf s1)))%nat).
  { rewrite Happ1. autorewrite with buf. rewrite length_app. lia. }
  destruct dv as [j|].
  - destruct H2 as [-> Happ2]. exists nv1, nb1.
    pose proof (appended_trans _ _ _ _ _ _ _ _ _ Happ1 Happ2) as Happ.
    rewrite !app_nil_r in Happ. split; [done|].
    split; [by eapply dummy_inv_appended|]. split; [done|]. split; [by intros ? [= ->]|].
    split; [intros Hn; rewrite (Hnew1 Hn); lia|done].
  - destruct H2 as [-> (nb & Happ2 & Hbin)]. 
    pose proof (appended_trans _ _ _ _ _ _ _ _ _ Happ1 Happ2) as Happ.
    rewrite !app_nil_r in Happ. eexists _, _. split; [exact Happ|].
    split; [|split; [done|split; [done|split; [intros Hn; rewrite (Hnew1 Hn); lia|lia]]]].
    pose proof (dummy_inv_appended _ _ _ _ _ _ _ _ Hinv1 Happ2) as [Hi _ _].
    destruct (dummy_data_fresh s1 nb Hbin) as (Hlen & Hin & Hbytes).
    rewrite Happ2 in *. autorewrite with buf in *.
    split.
    + done.
    + intros i [= <-]. eexists. autorewrite with buf.
      split; [apply lookup_snoc|]. done.
    + intros i j [= <-] [= <-]. lia.
Qed.

Lemma post_bind2 {A B C} (m1 : M A) (m2 : A -> M B) (k : A -> B -> M C) s
    (P : A * B -> State -> Prop) (Q : C -> State -> Prop) :
  post (x ← m1; y ← m2 x; mret (x, y)) s P ->
  (forall x y s', P (x, y) s' -> post (k x y) s' Q) ->
  post (x ← m1; y ← m2 x; k x y) s Q.
Proof.
  intros H1 H2 z s' E. unfold post, mbind, M_bind in *.
  destruct (m1 s) as [[x s1]|] eqn:E1; [|done].
  destruct (m2 x s1) as [[y s2]|] eqn:E2; [|done].
  eapply H2; [|exact E]. apply H1. reflexivity.
Qed.

(** lines 689-715: the accessor of a channel that modifies no vertex *)
Lemma empty_channel_post ul base b channel p di dv s :
  accessors (gltf s) !! base = Some b ->
  dummy_inv ul di dv s ->
  post (empty_channel ul (Some base) channel
          {| primitive := p; dummyIdxView := di; dummyDataView := dv |}) s
    (fun '(pAcc, iv, dvw) s' =>
       exists nv nb,
         appended s s'
           [sparse_acc (length (accessors (gltf s))) b iv (index_type ul) dvw GLT_VEC3F 1
              (bc_name channel)] nv nb /\
         pAcc = length (accessors (gltf s)) /\
         dummy_inv ul (Some iv) (Some dvw) s' /\
         (forall i, di = Some i -> iv = i) /\ (forall j, dv = Some j -> dvw = j) /\
         (di = None -> length (bufferViews (gltf s)) <= iv)%nat /\
         (dv = None -> length (bufferViews (gltf s)) <= dvw)%nat).
Proof.
  intros Hb Hinv. unfold empty_channel. cbn [dummyIdxView dummyDataView].
  fold (index_type ul).
  eapply post_bind2; [by apply ensure_dummies_post|].
  intros iv dvw s1 (nv & nb & Happ & Hinv1 & Hsi & Hsd & Hni & Hnd).
  post_step. post_step. injection H as <-. post_step.
  destruct Hinv1 as [Hi Hd Hne].
  destruct (Hi iv eq_refl) as (vi & Hvi & Hlen & Hin & Hbytes).
  destruct (Hd dvw eq_refl) as (vd & Hvd & _).
  assert (Hb1 : accessors (gltf s1) !! base = Some b).
  { rewrite Happ. autorewrite with buf. by rewrite app_nil_r. }
  eapply post_run; [by eapply AddSparseAccessor_run|].
  post_step.
  assert (Haccs : accessors (gltf s1) = accessors (gltf s)).
  { rewrite Happ. autorewrite with buf. by rewrite app_nil_r. }
  exists nv, nb. rewrite Haccs. split.
  { rewrite Hlen. replace (byteStride (index_type ul) / byteStride (index_type ul)) with 1
      by (by destruct ul).
    unfold appended. rewrite Happ. autorewrite with buf. reflexivity. }
  split; [done|]. split; [|done].
  split; autorewrite with buf; assumption.
Qed.

(** what the sparse accessors of one channel have in common *)
Definition sparse_over (indexView : nat) (ul : bool) (d : ChannelData) (a : AccessorData)
  : Prop :=
  acc_sparse a = true /\
  sparseIdxBufferView a = Z.of_nat indexView /\
  sparseIdxBufferViewType a = glType (componentType (index_type ul)) /\
  exists n, (n = length (positions d) \/ n = length (normals d) \/
             n = length (tangents d)) /\
            n <> 0%nat /\ sparseIdxCount a = Z.of_nat n.

Lemma sparse_acc_over ix b iv ul dvw ty n name d :
  n <> 0%nat ->
  n = length (positions d) \/ n = length (normals d) \/ n = length (tangents d) ->
  sparse_over iv ul d (sparse_acc ix b iv (index_type ul) dvw ty (Z.of_nat n) name).
Proof. intros Hn Hd. repeat split. by exists n. Qed.

Ltac over_tac :=
  apply sparse_acc_over;
  [ first [ by destruct (positions _) | by destruct (normals _) | by destruct (tangents _) ]
  | auto ].

Lemma is_empty_false {A} (l : list A) : is_empty l = false <-> l <> [].
Proof. by destruct l. Qed.

Lemma is_empty_true {A} (l : list A) : is_empty l = true <-> l = [].
Proof. by destruct l. Qed.

Lemma length_pos {A} (l : list A) : l <> [] -> 1 <= Z.of_nat (length l).
Proof. destruct l; [done|]. simpl. lia. Qed.

Lemma sparse_with_view_post `{GLWritable T} base iv it ty (values : list T) name s
    (Q : nat -> State -> Prop) :
  is_Some (bufferViews (gltf s) !! iv) ->
  (forall b nb,
     accessors (gltf s) !! base = Some b ->
     Q (length (accessors (gltf s)))
       (upd_buf (accessors (gltf s) ++
                   [sparse_acc (length (accessors (gltf s))) b iv it
                      (length (bufferViews (gltf s))) ty
                      (Z.of_nat (length values)) name])
          (bufferViews (gltf s) ++
             [filled_view (length (bufferViews (gltf s))) (binary (gltf s))
                (gl_write_array ty values) GL_ARRAY_NONE])
          (binary (gltf s) ++ nb) s)) ->
  post (view ← GetAlignedBufferView GL_ARRAY_NONE;
        AddSparseAccessorWithView base iv it view ty values name) s Q.
Proof.
  intros Hiv HQ. destruct (accessors (gltf s) !! base) as [b|] eqn:Hb.
  - eapply post_run; [by eapply sparse_with_view_run|].
    rewrite pad_to_app, <- app_assoc. by apply HQ.
  - post_step. eapply post_run; [apply GetAlignedBufferView_run|].
    unfold AddSparseAccessorWithView, CopyToBufferView. post_step. post_step.
    eapply post_run.
    { apply appendAsBinaryArray_run. autorewrite with buf. apply lookup_snoc. }
    post_step. post_step. post_step. post_step. apply post_deref. intros b Hb'.
    autorewrite with buf in Hb'. congruence.
Qed.

Lemma post_bind_assoc {A B C} (m1 : M A) (m2 : A -> M B) (k : B -> M C) s
    (Q : C -> State -> Prop) :
  post (m1 ≫= m2) s (fun y s' => post (k y) s' Q) ->
  post (x ← m1; y ← m2 x; k y) s Q.
Proof.
  intros H z s' E. unfold post, mbind, M_bind in *.
  destruct (m1 s) as [[x s1]|] eqn:E1; [|done].
  destruct (m2 x s1) as [[y s2]|] eqn:E2; [|done].
  eapply H; [|exact E]. done.
Qed.

(** lines 731-750: the sparse accessor of the normals or of the tangents
    of a channel, over the base accessor [nAccBase] *)
Lemma opt_sparse_post `{GLWritable T} nAccBase iv ul ty (vals : list T) name s :
  is_Some (bufferViews (gltf s) !! iv) ->
  post (if negb (is_empty vals)
        then base ← deref nAccBase;
             view ← GetAlignedBufferView GL_ARRAY_NONE;
             a ← AddSparseAccessorWithView base iv (index_type ul) view ty vals name;
             mret (Some a)
        else mret None) s
    (fun r s' =>
       (vals = [] /\ r = None /\ s' = s) \/
       (vals <> [] /\
        exists nbi nbacc nb,
          nAccBase = Some nbi /\ accessors (gltf s) !! nbi = Some nbacc /\
          r = Some (length (accessors (gltf s))) /\
          s' = upd_buf (accessors (gltf s) ++
                          [sparse_acc (length (accessors (gltf s))) nbacc iv (index_type ul)
                             (length (bufferViews (gltf s))) ty
                             (Z.of_nat (length vals)) name])
                 (bufferViews (gltf s) ++
                    [filled_view (length (bufferViews (gltf s))) (binary (gltf s))
                       (gl_write_array ty vals) GL_ARRAY_NONE])
                 (binary (gltf s) ++ nb) s)).
Proof.
  intros Hiv. destruct (is_empty vals) eqn:E; cbn [negb].
  - apply is_empty_true in E. post_step. by left.
  - apply is_empty_false in E. post_step. apply post_deref. intros x ->.
    apply post_bind_assoc. apply sparse_with_view_post; [done|].
    intros b nb Hb. post_step. right. split; [done|]. by exists x, b, nb.
Qed.


Lemma fresh_view_post `{GLWritable T} {C} t (data : list T) ty s (k : nat -> M C)
    (Q : C -> State -> Prop) :
  (forall nb,
     post (k (length (bufferViews (gltf s))))
       (upd_buf (accessors (gltf s))
          (bufferViews (gltf s) ++
             [filled_view (length (bufferViews (gltf s))) (binary (gltf s))
                (gl_write_array ty data) t])
          (binary (gltf s) ++ nb) s) Q) ->
  post (v ← GetAlignedBufferView t; CopyToBufferView v data ty ;; k v) s Q.
Proof.
  intros Hk. destruct (fresh_view_appended t data ty s) as (nb & Hrun & _).
  intros z s' E. apply (Hk nb z s'). revert Hrun E.
  unfold CopyToBufferView, mbind, M_bind.
  destruct (GetAlignedBufferView t s) as [[v s1]|]; [|done].
  destruct (appendAsBinaryArray v data ty s1) as [[? s2]|]; [|done].
  cbn. by intros [= -> ->].
Qed.

Ltac acc_eq :=
  simpl; f_equal; unfold sparse_acc; f_equal; first [reflexivity | lia].

(** lines 716-751 *)
Lemma sparse_channel_post ul base b nAccBase channel d s :
  accessors (gltf s) !! base = Some b ->
  (forall nbi, nAccBase = Some nbi -> is_Some (accessors (gltf s) !! nbi)) ->
  positions d <> [] ->
  post (sparse_channel ul (Some base) nAccBase channel d) s
    (fun '(pAcc, nAcc, tAcc) s' =>
       let A := accessors (gltf s) in
       let iv := length (bufferViews (gltf s)) in
       exists na nv nb,
         appended s s' na nv nb /\
         nv !! 0%nat =
           Some (filled_view iv (binary (gltf s))
                   (gl_write_array (index_type ul) (sparseIndices d)) GL_ARRAY_NONE) /\
         pAcc = length A /\
         (A ++ na) !! pAcc =
           Some (sparse_acc pAcc b iv (index_type ul) (S iv) GLT_VEC3F
                   (Z.of_nat (length (positions d))) (bc_name channel)) /\
         Forall (sparse_over iv ul d) na /\
         (normals d = [] -> nAcc = None) /\
         (normals d <> [] ->
            exists nbi nbacc a dvw,
              nAccBase = Some nbi /\ A !! nbi = Some nbacc /\ nAcc = Some a /\
              (A ++ na) !! a =
                Some (sparse_acc a nbacc iv (index_type ul) dvw GLT_VEC3F
                        (Z.of_nat (length (normals d))) (bc_name channel))) /\
         (tangents d = [] -> tAcc = None) /\
         (tangents d <> [] ->
            exists nbi nbacc a dvw,
              nAccBase = Some nbi /\ A !! nbi = Some nbacc /\ tAcc = Some a /\
              (A ++ na) !! a =
                Some (sparse_acc a nbacc iv (index_type ul) dvw GLT_VEC4F
                        (Z.of_nat (length (tangents d))) (bc_name channel)))).
Proof.
  intros Hb Hnb_ok Hpos. unfold sparse_channel. fold (index_type ul).
  set (A := accessors (gltf s)) in *. set (V := bufferViews (gltf s)).
  (* the index view *)
  apply fresh_view_post. intros nb0. fold A V.
  post_step. apply post_deref. intros base' [= <-].
  (* the positions *)
  apply post_bind_assoc. apply sparse_with_view_post.
  { autorewrite with buf. rewrite lookup_snoc. by eexists. }
  autorewrite with buf. intros b' nb1 Hb'.
  assert (b' = b) as -> by congruence.
  rewrite length_app. cbn [length].
  replace (length V + 1)%nat with (S (length V)) by lia.
  set (pacc := sparse_acc (length A) b (length V) (index_type ul) (S (length V)) GLT_VEC3F
                 (Z.of_nat (length (positions d))) (bc_name channel)).
  assert (Hp_ok : sparse_over (length V) ul d pacc).
  { unfold pacc. over_tac. }
  (* the normals *)
  post_step. eapply post_weaken.
  { apply opt_sparse_post. autorewrite with buf.
    rewrite lookup_app_l by (rewrite length_app; simpl; lia).
    rewrite lookup_snoc. by eexists. }
  intros nAcc s2 Hn. cbv beta in Hn. autorewrite with buf in Hn.
  post_step. eapply post_weaken.
  { apply opt_sparse_post with (iv := length V).
    destruct Hn as [(_ & _ & ->)|(_ & ? & ? & ? & _ & _ & _ & ->)]; autorewrite with buf.
    - rewrite lookup_app_l by (rewrite length_app; simpl; lia).
      rewrite lookup_snoc. by eexists.
    - rewrite <- !app_assoc. rewrite lookup_app_r by lia. rewrite Nat.sub_diag.
      by eexists. }
  intros tAcc s3 Ht. cbv beta in Ht.
  post_step.
  destruct Hn as [(Hn0 & -> & ->)|(Hn0 & nbi & nbacc & nb2 & -> & Hnb & -> & ->)];
    autorewrite with buf in Ht;
    destruct Ht as [(Ht0 & -> & ->)|(Ht0 & tbi & tbacc & nb3 & Htb & Htacc & -> & ->)];
    autorewrite with buf.
  - eexists [pacc], _, _. split.
    { unfold appended. fold A V. rewrite <- !app_assoc. reflexivity. }
    split; [reflexivity|]. split; [done|]. split; [apply lookup_snoc|]. split; [by constructor|]. done.
  - eexists [pacc; _], _, _. split.
    { unfold appended. fold A V.
      rewrite <- !app_assoc. cbn [app]. reflexivity. }
    split; [reflexivity|]. split; [done|]. split; [by rewrite lookup_app_r, Nat.sub_diag|].
    split. { constructor; [done|]. constructor; [|done]. over_tac. }
    split; [done|]. split; [done|]. split; [done|]. intros _.
    subst nAccBase.
    rewrite lookup_app_l in Htacc by (apply lookup_lt_is_Some_1; by apply Hnb_ok).
    eexists tbi, tbacc, _, _. split; [done|]. split; [done|]. split; [done|].
    rewrite length_app. cbn [length].
    rewrite lookup_app_r by lia.
    replace (length A + 1 - length A)%nat with 1%nat by lia. acc_eq.
  - eexists [pacc; _], _, _. split.
    { unfold appended. fold A V.
      rewrite <- !app_assoc. cbn [app]. reflexivity. }
    split; [reflexivity|]. split; [done|]. split; [by rewrite lookup_app_r, Nat.sub_diag|].
    split. { constructor; [done|]. constructor; [|done]. over_tac. }
    split; [done|]. split; [|done]. intros _.
    rewrite lookup_app_l in Hnb by (apply lookup_lt_is_Some_1; by apply Hnb_ok).
    eexists nbi, nbacc, _, _. split; [done|]. split; [done|]. split; [done|].
    rewrite length_app. cbn [length].
    rewrite lookup_app_r by lia.
    replace (length A + 1 - length A)%nat with 1%nat by lia. acc_eq.
  - eexists [pacc; _; _], _, _. split.
    { unfold appended. fold A V.
      rewrite <- !app_assoc. cbn [app]. reflexivity. }
    split; [reflexivity|]. split; [done|]. split; [by rewrite lookup_app_r, Nat.sub_diag|].
    split. { constructor; [done|]. constructor; [|constructor; [|done]];
             over_tac. }
    split; [done|].
    rewrite lookup_app_l in Hnb by (apply lookup_lt_is_Some_1; by apply Hnb_ok).
    injection Htb as <-.
    rewrite <- app_assoc in Htacc.
    rewrite lookup_app_l in Htacc by (by eapply lookup_lt_Some).
    assert (tbacc = nbacc) as -> by congruence.
    split.
    { intros _. eexists nbi, nbacc, _, _. split; [done|]. split; [done|]. split; [done|].
      rewrite length_app. cbn [length]. rewrite lookup_app_r by lia.
      replace (length A + 1 - length A)%nat with 1%nat by lia. acc_eq. }
    split; [done|].
    intros _. eexists nbi, nbacc, _, _. split; [done|]. split; [done|]. split; [done|].
    rewrite !length_app. cbn [length]. rewrite lookup_app_r by lia.
    replace (length A + 1 + 1 - length A)%nat with 2%nat by lia. acc_eq.
Qed.

Lemma fresh_accessor_post `{GLWritable T} {C} t ty (src : list T) name s (k : nat -> M C)
    (Q : C -> State -> Prop) :
  (forall nb,
     post (k (length (accessors (gltf s))))
       (upd_buf
          (accessors (gltf s) ++
             [plain_acc (length (accessors (gltf s))) (length (bufferViews (gltf s)))
                ty (length src) name])
          (bufferViews (gltf s) ++
             [filled_view (length (bufferViews (gltf s))) (binary (gltf s))
                (gl_write_array ty src) t])
          (binary (gltf s) ++ nb) s) Q) ->
  post (view ← GetAlignedBufferView t;
        a ← AddAccessorWithView view ty src name; k a) s Q.
Proof.
  intros Hk. apply post_bind_assoc. eapply post_run; [apply fresh_accessor_run|].
  cbv zeta. rewrite pad_to_app, <- app_assoc. apply Hk.
Qed.

(** lines 758-771: the accessor of the normals or of the tangents of a
    channel when sparse accessors are off *)
Lemma opt_dense_post `{GLWritable T} ty (vals : list T) name (other : option nat) s :
  post (if negb (is_empty vals)
        then view ← GetAlignedBufferView GL_ARRAY_BUFFER;
             a ← AddAccessorWithView view ty vals name;
             mret (Some a)
        else mret other) s
    (fun r s' =>
       (vals = [] /\ r = other /\ s' = s) \/
       (vals <> [] /\
        exists nb,
          r = Some (length (accessors (gltf s))) /\
          s' = upd_buf
                 (accessors (gltf s) ++
                    [plain_acc (length (accessors (gltf s)))
                       (length (bufferViews (gltf s))) ty (length vals) name])
                 (bufferViews (gltf s) ++
                    [filled_view (length (bufferViews (gltf s))) (binary (gltf s))
                       (gl_write_array ty vals) GL_ARRAY_BUFFER])
                 (binary (gltf s) ++ nb) s)).
Proof.
  destruct (is_empty vals) eqn:E; cbn [negb].
  - apply is_empty_true in E. post_step. by left.
  - apply is_empty_false in E. apply fresh_accessor_post. intros nb. post_step.
    right. split; [done|]. by exists nb.
Qed.

(** lines 752-772 *)
Lemma dense_channel_post channel d s :
  post (dense_channel channel d) s
    (fun '(pAcc, nAcc, tAcc) s' =>
       let A := accessors (gltf s) in
       exists na nv nb,
         appended s s' na nv nb /\
         pAcc = length A /\ tAcc = None /\
         (exists v, (A ++ na) !! pAcc =
                      Some (plain_acc pAcc v GLT_VEC3F (length (positions d))
                              (bc_name channel))) /\
         Forall (fun a => acc_sparse a = false) na /\
         (tangents d <> [] ->
            exists a v, nAcc = Some a /\
              (A ++ na) !! a =
                Some (plain_acc a v GLT_VEC4F (length (tangents d)) (bc_name channel))) /\
         (tangents d = [] -> normals d <> [] ->
            exists a v, nAcc = Some a /\
              (A ++ na) !! a =
                Some (plain_acc a v GLT_VEC3F (length (normals d)) (bc_name channel))) /\
         (tangents d = [] -> normals d = [] -> nAcc = None) /\
         (tangents d <> [] -> normals d <> [] ->
            exists n v, nAcc <> Some n /\
              (A ++ na) !! n =
                Some (plain_acc n v GLT_VEC3F (length (normals d)) (bc_name channel)))).
Proof.
  unfold dense_channel. set (A := accessors (gltf s)). set (V := bufferViews (gltf s)).
  apply fresh_accessor_post. intros nb0. fold A V.
  set (pacc := plain_acc (length A) (length V) GLT_VEC3F (length (positions d))
                 (bc_name channel)).
  post_step. eapply post_weaken; [apply opt_dense_post|].
  intros nAcc s2 Hn. cbv beta in Hn. autorewrite with buf in Hn.
  post_step. eapply post_weaken; [apply opt_dense_post|].
  intros nAcc' s3 Ht. cbv beta in Ht.
  post_step.
  destruct Hn as [(Hn0 & -> & ->)|(Hn0 & nb2 & -> & ->)];
    autorewrite with buf in Ht;
    destruct Ht as [(Ht0 & -> & ->)|(Ht0 & nb3 & -> & ->)];
    autorewrite with buf.
  - eexists [pacc], _, _. split.
    { unfold appended. fold A V. rewrite <- ?app_assoc. reflexivity. }
    split; [done|]. split; [done|]. split; [eexists; apply lookup_snoc|].
    split; [by constructor|]. done.
  - eexists [pacc; _], _, _. split.
    { unfold appended. fold A V. rewrite <- ?app_assoc. cbn [app]. reflexivity. }
    split; [done|]. split; [done|].
    split; [eexists; by rewrite lookup_app_r, Nat.sub_diag|].
    split; [by repeat constructor|].
    split; [|done]. intros _. eexists _, _. split; [done|].
    rewrite length_app. cbn [length]. rewrite lookup_app_r by lia.
    replace (length A + 1 - length A)%nat with 1%nat by lia. reflexivity.
  - eexists [pacc; _], _, _. split.
    { unfold appended. fold A V. rewrite <- ?app_assoc. cbn [app]. reflexivity. }
    split; [done|]. split; [done|].
    split; [eexists; by rewrite lookup_app_r, Nat.sub_diag|].
    split; [by repeat constructor|].
    split; [done|]. split; [|done]. intros _ _. eexists _, _. split; [done|].
    rewrite length_app. cbn [length]. rewrite lookup_app_r by lia.
    replace (length A + 1 - length A)%nat with 1%nat by lia. reflexivity.
  - eexists [pacc; _; _], _, _. split.
    { unfold appended. fold A V. rewrite <- ?app_assoc. cbn [app]. reflexivity. }
    split; [done|]. split; [done|].
    split; [eexists; by rewrite lookup_app_r, Nat.sub_diag|].
    split; [by repeat constructor|].
    split.
    { intros _. eexists _, _. split; [done|].
      rewrite !length_app. cbn [length]. rewrite lookup_app_r by lia.
      replace (length A + 1 + 1 - length A)%nat with 2%nat by lia.
      simpl. f_equal. f_equal. lia. }
    split; [done|]. split; [done|].
    intros _ _. exists (length A + 1)%nat. eexists. split.
    { rewrite !length_app. cbn [length]. intros [= E]. lia. }
    rewrite lookup_app_r by lia.
    replace (length A + 1 - length A)%nat with 1%nat by lia.
    simpl. f_equal. f_equal. rewrite length_app. simpl. lia.
Qed.

(** two accessors that differ at most in their bounds *)
Definition same_but_bounds (a a' : AccessorData) : Prop :=
  set_acc_bounds [] [] a = set_acc_bounds [] [] a'.

(** the accessor at index [i] is [x], up to its bounds *)
Definition looks (L : list AccessorData) (i : nat) (x : AccessorData) : Prop :=
  exists a, L !! i = Some a /\ same_but_bounds a x.

Lemma same_but_bounds_refl a : same_but_bounds a a.
Proof. done. Qed.

Lemma same_but_bounds_set lo hi a : same_but_bounds (set_acc_bounds lo hi a) a.
Proof. done. Qed.

Lemma bounds_update_appended s s1 na nv nb x lo hi :
  appended s s1 na nv nb ->
  na !! 0%nat = Some x ->
  update_accessor (length (accessors (gltf s))) (set_acc_bounds lo hi) s1 =
  Some (tt, upd_buf (accessors (gltf s) ++ <[0%nat := set_acc_bounds lo hi x]> na)
              (bufferViews (gltf s) ++ nv) (binary (gltf s) ++ nb) s).
Proof.
  intros -> Hx. erewrite update_accessor_run.
  2:{ autorewrite with buf. rewrite lookup_app_r by lia. by rewrite Nat.sub_diag. }
  autorewrite with buf. rewrite insert_app_r_alt by lia. by rewrite Nat.sub_diag.
Qed.

Lemma looks_after_bounds (A na : list AccessorData) x lo hi a acc :
  na !! 0%nat = Some x ->
  (A ++ na) !! a = Some acc ->
  looks (A ++ <[0%nat := set_acc_bounds lo hi x]> na) a acc.
Proof.
  intros Hx Ha. destruct (decide (a = length A)) as [->|Hne].
  - rewrite lookup_app_r, Nat.sub_diag in Ha by lia.
    assert (acc = x) as -> by congruence.
    exists (set_acc_bounds lo hi x). split; [|done].
    rewrite lookup_app_r, Nat.sub_diag by lia.
    apply list_lookup_insert_eq. by eapply lookup_lt_Some.
  - exists acc. split; [|done].
    destruct (decide (a < length A)%nat).
    + rewrite lookup_app_l in * by done. done.
    + rewrite lookup_app_r in * by lia. rewrite list_lookup_insert_ne by lia. done.
Qed.

Lemma Forall_after_bounds (P : AccessorData -> Prop) (na : list AccessorData) x lo hi :
  (forall a, P a -> P (set_acc_bounds lo hi a)) ->
  na !! 0%nat = Some x -> Forall P na ->
  Forall P (<[0%nat := set_acc_bounds lo hi x]> na).
Proof.
  intros HP Hx Hall. apply Forall_insert; [done|]. apply HP.
  eapply Forall_lookup_1; eauto.
Qed.

(** the lists a channel collects have one entry per sparse vertex *)
Lemma collect_vertices_lengths options channel k vs : forall d d',
  collect_vertices options channel k vs d = Some d' ->
  length (positions d) = length (sparseIndices d) ->
  length (positions d') = length (sparseIndices d').
Proof.
  induction vs as [|[jj v] vs IH]; intros d d' H Hlen; simpl in H.
  - by injection H as <-.
  - destruct (rv_blends v !! k) as [bv|]; [|done]. simpl in H.
    eapply IH; [exact H|]. simpl.
    destruct (if flt f0 _ then true else _); rewrite ?length_app; simpl; lia.
Qed.

Lemma collect_channel_positions options sm channel k d :
  collect_channel options sm channel k = Some d ->
  sparseIndices d <> [] -> positions d <> [].
Proof.
  intros H Hne. apply collect_vertices_lengths in H; [|done].
  destruct (positions d); [|done]. destruct (sparseIndices d); done.
Qed.

Lemma collect_vertices_normals options channel k vs : forall d d',
  collect_vertices options channel k vs d = Some d' ->
  (normals d = [] \/ length (normals d) = length (sparseIndices d)) /\
  (tangents d = [] \/ length (tangents d) = length (sparseIndices d)) ->
  (useBlendShapeNormals options && bc_hasNormals channel = false -> normals d = []) /\
  (useBlendShapeNormals options && bc_hasNormals channel = true ->
     length (normals d) = length (sparseIndices d)) /\
  (useBlendShapeTangents options && bc_hasTangents channel = false -> tangents d = []) /\
  (useBlendShapeTangents options && bc_hasTangents channel = true ->
     length (tangents d) = length (sparseIndices d)) ->
  (normals d' = [] \/ length (normals d') = length (sparseIndices d')) /\
  (tangents d' = [] \/ length (tangents d') = length (sparseIndices d')).
Proof.
  induction vs as [|[jj v] vs IH]; intros d d' H Hlen Hflag; simpl in H.
  - by injection H as <-.
  - destruct (rv_blends v !! k) as [bv|]; [|done]. simpl in H.
    destruct Hflag as (Hn0 & Hn1 & Ht0 & Ht1).
    eapply IH; [exact H| |]; cbn [normals tangents sparseIndices];
      destruct (if flt f0 _ then true else _); cbn [andb];
      destruct (useBlendShapeNormals options && bc_hasNormals channel);
      destruct (useBlendShapeTangents options && bc_hasTangents channel);
      rewrite ?length_app; cbn [length];
      repeat split; intros; try done; auto;
      rewrite ?Hn0, ?Ht0 by done; rewrite ?Hn1, ?Ht1 by done; auto;
      try (destruct (normals d); done); try (destruct (tangents d); done).
Qed.

Lemma collect_channel_counts options sm channel k d :
  collect_channel options sm channel k = Some d ->
  length (positions d) = length (sparseIndices d) /\
  (normals d = [] \/ length (normals d) = length (sparseIndices d)) /\
  (tangents d = [] \/ length (tangents d) = length (sparseIndices d)).
Proof.
  intros H. split; [by eapply collect_vertices_lengths|].
  eapply collect_vertices_normals; [exact H|by auto|]. by cbn.
Qed.

Lemma index_array_size ul (l : list Z) :
  size_of (gl_write_array (index_type ul) l) =
  Z.of_nat (length l) * byteStride (index_type ul).
Proof.
  unfold size_of, gl_write_array. induction l as [|x l IH].
  - reflexivity.
  - cbn [map concat]. rewrite length_app, Nat2Z.inj_add, IH. cbn [length].
    rewrite byteStride_index. destruct ul; cbn; lia.
Qed.

(** a sparse accessor of a surface with index width [ul]: the type code
    of its indices, and an index view that holds [sparseIdxCount] indices
    of that width *)
Definition sparse_ok (ul : bool) (V : list BufferViewData) (a : AccessorData) : Prop :=
  acc_sparse a = true ->
  sparseIdxBufferViewType a = glType (componentType (index_type ul)) /\
  1 <= sparseIdxCount a /\
  exists iv v, sparseIdxBufferView a = Z.of_nat iv /\ V !! iv = Some v /\
    bv_byteLength v = sparseIdxCount a * byteStride (index_type ul).

Lemma sparse_ok_bounds ul V lo hi a : sparse_ok ul V a -> sparse_ok ul V (set_acc_bounds lo hi a).
Proof. done. Qed.

Lemma sparse_ok_app ul V V' a : sparse_ok ul V a -> sparse_ok ul (V ++ V') a.
Proof.
  intros H Hs. destruct (H Hs) as (Ht & Hc & iv & v & Hi & Hv & Hl).
  split; [done|]. split; [done|]. exists iv, v. split; [done|].
  split; [by apply lookup_app_l_Some|done].
Qed.

Lemma sparse_over_ok ul V nv bin d a :
  length (positions d) = length (sparseIndices d) ->
  (normals d = [] \/ length (normals d) = length (sparseIndices d)) ->
  (tangents d = [] \/ length (tangents d) = length (sparseIndices d)) ->
  nv !! 0%nat = Some (filled_view (length V) bin
                        (gl_write_array (index_type ul) (sparseIndices d)) GL_ARRAY_NONE) ->
  sparse_over (length V) ul d a -> sparse_ok ul (V ++ nv) a.
Proof.
  intros Hp Hn Ht Hnv (Hs & Hiv & Hty & n & Hcase & Hn0 & Hc) _.
  split; [done|]. split; [lia|].
  eexists (length V), _. split; [done|]. split.
  { rewrite lookup_app_r, Nat.sub_diag by lia. exact Hnv. }
  cbn [bv_byteLength filled_view]. rewrite index_array_size, Hc. f_equal. f_equal.
  destruct Hcase as [-> | [-> | ->]]; [done| |].
  - destruct Hn as [E|E]; [|done]. by rewrite E in Hn0.
  - destruct Ht as [E|E]; [|done]. by rewrite E in Hn0.
Qed.

(** what the target of one channel is, in a model with accessors [L] and
    dummy views [di], [dv] *)
Definition target_spec (options : GltfOptions) (ul : bool) (b : AccessorData)
    (nbase : option AccessorData) (L : list AccessorData) (di dv : option nat)
    (channel : RawBlendChannel) (d : ChannelData)
    (t : nat * option nat * option nat) : Prop :=
  let '(pAcc, nAcc, tAcc) := t in
  let name := bc_name channel in
  (disableSparseBlendShapes options = true ->
     tAcc = None /\
     (exists v, looks L pAcc (plain_acc pAcc v GLT_VEC3F (length (positions d)) name)) /\
     (tangents d <> [] ->
        exists a v, nAcc = Some a /\
          looks L a (plain_acc a v GLT_VEC4F (length (tangents d)) name)) /\
     (tangents d = [] -> normals d <> [] ->
        exists a v, nAcc = Some a /\
          looks L a (plain_acc a v GLT_VEC3F (length (normals d)) name)) /\
     (tangents d = [] -> normals d = [] -> nAcc = None) /\
     (tangents d <> [] -> normals d <> [] ->
        exists n v, nAcc <> Some n /\
          looks L n (plain_acc n v GLT_VEC3F (length (normals d)) name))) /\
  (disableSparseBlendShapes options = false -> sparseIndices d = [] ->
     nAcc = None /\ tAcc = None /\
     exists iv dvw, di = Some iv /\ dv = Some dvw /\
       looks L pAcc (sparse_acc pAcc b iv (index_type ul) dvw GLT_VEC3F 1 name)) /\
  (disableSparseBlendShapes options = false -> sparseIndices d <> [] ->
     (exists iv dvw,
        looks L pAcc (sparse_acc pAcc b iv (index_type ul) dvw GLT_VEC3F
                        (Z.of_nat (length (positions d))) name)) /\
     (normals d = [] -> nAcc = None) /\
     (normals d <> [] ->
        exists nbacc a iv dvw, nbase = Some nbacc /\ nAcc = Some a /\
          looks L a (sparse_acc a nbacc iv (index_type ul) dvw GLT_VEC3F
                       (Z.of_nat (length (normals d))) name)) /\
     (tangents d = [] -> tAcc = None) /\
     (tangents d <> [] ->
        exists nbacc a iv dvw, nbase = Some nbacc /\ tAcc = Some a /\
          looks L a (sparse_acc a nbacc iv (index_type ul) dvw GLT_VEC4F
                       (Z.of_nat (length (tangents d))) name))).

Lemma looks_here (L : list AccessorData) i x : L !! i = Some x -> looks L i x.
Proof. intros H. by exists x. Qed.

Lemma looks_app (L L' : list AccessorData) i x : looks L i x -> looks (L ++ L') i x.
Proof. intros (a & Ha & Hs). exists a. split; [by apply lookup_app_l_Some|done]. Qed.

(** without a base position accessor the sparse paths dereference a null
    pointer *)
Lemma empty_channel_no_base ul channel loc s Q :
  post (empty_channel ul None channel loc) s Q.
Proof.
  unfold empty_channel. apply post_bind. intros iv s1 _. apply post_bind.
  intros dvw s2 _. apply post_bind. apply post_deref. intros x H. discriminate.
Qed.

Lemma sparse_channel_no_base ul nAccBase channel d s Q :
  post (sparse_channel ul None nAccBase channel d) s Q.
Proof.
  unfold sparse_channel. apply post_bind. intros iv s1 _. apply post_bind.
  intros u s2 _. apply post_bind. apply post_deref. intros x H. discriminate.
Qed.

(** one iteration of the channel loop (lines 640-777) *)
Lemma channel_target_post options sm ul pAccBase b nAccBase k channel p di dv s :
  (forall base, pAccBase = Some base -> accessors (gltf s) !! base = Some b) ->
  (forall nbi, nAccBase = Some nbi -> is_Some (accessors (gltf s) !! nbi)) ->
  dummy_inv ul di dv s ->
  post (channel_target options sm ul pAccBase nAccBase (k, channel)
          {| primitive := p; dummyIdxView := di; dummyDataView := dv |}) s
    (fun loc' s' =>
       let A := accessors (gltf s) in
       let V := bufferViews (gltf s) in
       exists d na nv nb pAcc nAcc tAcc,
         collect_channel options sm channel k = Some d /\
         appended s s' na nv nb /\
         primitive loc' = AddTarget pAcc nAcc tAcc p /\
         dummy_inv ul (dummyIdxView loc') (dummyDataView loc') s' /\
         (forall i, di = Some i -> dummyIdxView loc' = Some i) /\
         (forall j, dv = Some j -> dummyDataView loc' = Some j) /\
         (forall i, dummyIdxView loc' = Some i -> di = Some i \/ (length V <= i)%nat) /\
         (forall j, dummyDataView loc' = Some j -> dv = Some j \/ (length V <= j)%nat) /\
         (disableSparseBlendShapes options = true \/ sparseIndices d <> [] ->
            dummyIdxView loc' = di /\ dummyDataView loc' = dv) /\
         (disableSparseBlendShapes options = false -> is_Some pAccBase) /\
         Forall (sparse_ok ul (V ++ nv)) na /\
         target_spec options ul b (nAccBase ≫= (A !!.)) (A ++ na)
           (dummyIdxView loc') (dummyDataView loc') channel d (pAcc, nAcc, tAcc)).
Proof.
  intros Hb Hnb Hinv. unfold channel_target. cbn [primitive dummyIdxView dummyDataView].
  apply post_bind. apply post_deref. intros d Hd.
  destruct (collect_channel_counts _ _ _ _ _ Hd) as (Hcp & Hcn & Hct).
  apply post_bind.
  destruct (disableSparseBlendShapes options) eqn:Hdis; cbn [negb].
  - (* dense *)
    apply post_bind. eapply post_weaken; [apply dense_channel_post|].
    intros [[pAcc nAcc] tAcc] s1
      (na & nv & nb & Happ & -> & -> & (v & Hp) & Hplain & Hnt & Hnn & Hn0 & Hrep).
    cbv beta iota. apply post_ret.
    assert (Hx : na !! 0%nat = Some (plain_acc (length (accessors (gltf s))) v GLT_VEC3F
                                 (length (positions d)) (bc_name channel))).
    { rewrite lookup_app_r, Nat.sub_diag in Hp by lia. done. }
    apply post_bind. eapply post_run; [by eapply bounds_update_appended|].
    apply post_ret. cbn [primitive dummyIdxView dummyDataView].
    eexists d, _, nv, nb, _, nAcc, None.
    split; [done|]. split; [reflexivity|]. split; [reflexivity|].
    split. { eapply dummy_inv_appended; [exact Hinv|reflexivity]. }
    split; [done|]. split; [done|]. split; [auto|]. split; [auto|]. split; [done|].
    split; [intros; congruence|].
    split.
    { apply Forall_after_bounds; [apply sparse_ok_bounds|done|].
      eapply Forall_impl; [exact Hplain|]. intros a Ha Hs. congruence. }
    split; [|split; intros; congruence].
    intros _. split; [done|].
    split. { exists v. by eapply looks_after_bounds. }
    split. { intros H. destruct (Hnt H) as (a & v' & -> & Ha).
             exists a, v'. split; [done|]. by eapply looks_after_bounds. }
    split. { intros H H'. destruct (Hnn H H') as (a & v' & -> & Ha).
             exists a, v'. split; [done|]. by eapply looks_after_bounds. }
    split; [done|].
    intros H H'. destruct (Hrep H H') as (n & v' & Hne & Ha).
    exists n, v'. split; [done|]. by eapply looks_after_bounds.
  - destruct (length (sparseIndices d) =? 0)%nat eqn:Hlen.
    + (* no modified vertex *)
      apply Nat.eqb_eq in Hlen. apply length_zero_iff_nil in Hlen.
      destruct pAccBase as [base|]; [|apply post_bind, empty_channel_no_base].
      specialize (Hb base eq_refl).
      apply post_bind. eapply post_weaken; [by eapply empty_channel_post|].
      intros [[pAcc iv] dvw] s1
        (nv & nb & Happ & -> & Hinv1 & Hsi & Hsd & Hni & Hnd).
      cbv beta iota. apply post_ret.
      apply post_bind. eapply post_run; [by eapply bounds_update_appended|].
      apply post_ret. cbn [primitive dummyIdxView dummyDataView].
      eexists d, _, nv, nb, _, None, None.
      split; [done|]. split; [reflexivity|]. split; [reflexivity|].
      split.
      { destruct Hinv1 as [H1 H2 H3]. rewrite Happ in H1, H2.
        autorewrite with buf in H1, H2. split; autorewrite with buf; done. }
      split. { intros i Hi. by rewrite (Hsi i Hi). }
      split. { intros i Hi. by rewrite (Hsd i Hi). }
      split. { intros i [= <-]. destruct di as [i|]; [left; by rewrite (Hsi i)|right; auto]. }
      split. { intros i [= <-]. destruct dv as [i|]; [left; by rewrite (Hsd i)|right; auto]. }
      split. { intros [?|?]; done. }
      split; [by eexists|].
      split.
      { constructor; [|done]. intros _. split; [done|]. split; [done|].
        destruct Hinv1 as [H1 _ _]. destruct (H1 iv eq_refl) as (vw & Hvw & Hl & _).
        rewrite Happ in Hvw. autorewrite with buf in Hvw.
        exists iv, vw. split; [done|]. split; [done|]. cbn. lia. }
      split; [intros; congruence|]. split; [|intros; congruence].
      intros _ _. split; [done|]. split; [done|]. exists iv, dvw.
      split; [done|]. split; [done|]. eexists. split; [apply lookup_snoc|done].
    + (* modified vertices, sparse *)
      apply Nat.eqb_neq in Hlen.
      assert (Hsp : sparseIndices d <> []) by (by destruct (sparseIndices d)).
      destruct pAccBase as [base|]; [|apply post_bind, sparse_channel_no_base].
      specialize (Hb base eq_refl).
      apply post_bind. eapply post_weaken.
      { eapply sparse_channel_post; [exact Hb|exact Hnb|].
        by eapply collect_channel_positions. }
      intros [[pAcc nAcc] tAcc] s1
        (na & nv & nb & Happ & Hnv & -> & Hp & Hover & Hn0 & Hn1 & Ht0 & Ht1).
      cbv beta iota. apply post_ret.
      assert (Hx : na !! 0%nat = Some (sparse_acc (length (accessors (gltf s))) b
                     (length (bufferViews (gltf s))) (index_type ul)
                     (S (length (bufferViews (gltf s)))) GLT_VEC3F
                     (Z.of_nat (length (positions d))) (bc_name channel))).
      { rewrite lookup_app_r, Nat.sub_diag in Hp by lia. done. }
      apply post_bind. eapply post_run; [by eapply bounds_update_appended|].
      apply post_ret. cbn [primitive dummyIdxView dummyDataView].
      eexists d, _, nv, nb, _, nAcc, tAcc.
      split; [done|]. split; [reflexivity|]. split; [reflexivity|].
      split. { eapply dummy_inv_appended; [exact Hinv|reflexivity]. }
      split; [done|]. split; [done|]. split; [auto|]. split; [auto|]. split; [done|].
      split; [by eexists|].
      split.
      { apply Forall_after_bounds; [apply sparse_ok_bounds|done|].
        eapply Forall_impl; [exact Hover|]. intros a Ha.
        by eapply sparse_over_ok. }
      split; [intros; congruence|]. split; [intros; congruence|].
      intros _ _.
      split. { eexists _, _. by eapply looks_after_bounds. }
      split; [done|].
      split. { intros H. destruct (Hn1 H) as (nbi & nbacc & a & dvw & -> & Hnbi & -> & Ha).
               eexists nbacc, a, _, dvw. split; [by cbn|]. split; [done|].
               by eapply looks_after_bounds. }
      split; [done|].
      intros H. destruct (Ht1 H) as (nbi & nbacc & a & dvw & -> & Hnbi & -> & Ha).
      eexists nbacc, a, _, dvw. split; [by cbn|]. split; [done|].
      by eapply looks_after_bounds.
Qed.

(** the primitive with more morph targets *)
Definition add_targets (ts : list (nat * option nat * option nat)) (p : PrimitiveData)
  : PrimitiveData :=
  {| pr_indices := pr_indices p; pr_material := pr_material p;
     pr_attributes := pr_attributes p;
     pr_targets := pr_targets p ++ ts;
     pr_dracoMesh := pr_dracoMesh p; pr_dracoBufferView := pr_dracoBufferView p |}.

Lemma add_targets_nil p : add_targets [] p = p.
Proof. destruct p. unfold add_targets. cbn. by rewrite app_nil_r. Qed.

Lemma add_targets_app ts ts' p :
  add_targets ts' (add_targets ts p) = add_targets (ts ++ ts') p.
Proof. unfold add_targets. cbn. by rewrite app_assoc. Qed.

Lemma AddTarget_add a n t p : AddTarget a n t p = add_targets [(a, n, t)] p.
Proof. reflexivity. Qed.

Lemma target_spec_mono options ul b nbase L L' di dv di' dv' channel d t :
  (forall i, di = Some i -> di' = Some i) ->
  (forall i, dv = Some i -> dv' = Some i) ->
  target_spec options ul b nbase L di dv channel d t ->
  target_spec options ul b nbase (L ++ L') di' dv' channel d t.
Proof.
  intros Hdi Hdv. destruct t as [[pAcc nAcc] tAcc]. unfold target_spec.
  intros (Hdense & Hempty & Hsparse). split; [|split].
  - intros Hd. destruct (Hdense Hd) as (-> & (v & Hp) & Ht & Hn & H0 & Hr).
    split; [done|]. split; [exists v; by apply looks_app|].
    split. { intros H. destruct (Ht H) as (a & v' & -> & Ha).
             exists a, v'. split; [done|by apply looks_app]. }
    split. { intros H H'. destruct (Hn H H') as (a & v' & -> & Ha).
             exists a, v'. split; [done|by apply looks_app]. }
    split; [done|].
    intros H H'. destruct (Hr H H') as (n & v' & Hne & Ha).
    exists n, v'. split; [done|by apply looks_app].
  - intros Hd He. destruct (Hempty Hd He) as (-> & -> & iv & dvw & Hi & Hv & Hp).
    split; [done|]. split; [done|]. exists iv, dvw.
    split; [by apply Hdi|]. split; [by apply Hdv|]. by apply looks_app.
  - intros Hd He.
    destruct (Hsparse Hd He) as ((iv & dvw & Hp) & Hn0 & Hn1 & Ht0 & Ht1).
    split. { exists iv, dvw. by apply looks_app. }
    split; [done|].
    split. { intros H. destruct (Hn1 H) as (nbacc & a & iv' & dvw' & -> & -> & Ha).
             exists nbacc, a, iv', dvw'. split; [done|]. split; [done|by apply looks_app]. }
    split; [done|].
    intros H. destruct (Ht1 H) as (nbacc & a & iv' & dvw' & -> & -> & Ha).
    exists nbacc, a, iv', dvw'. split; [done|]. split; [done|by apply looks_app].
Qed.

Lemma base_lookup_app (A na : list AccessorData) (nAccBase : option nat) :
  (forall nbi, nAccBase = Some nbi -> is_Some (A !! nbi)) ->
  nAccBase ≫= ((A ++ na) !!.) = nAccBase ≫= (A !!.).
Proof.
  intros H. destruct nAccBase as [nbi|]; [|done]. cbn.
  destruct (H nbi eq_refl) as [x Hx]. rewrite Hx. by apply lookup_app_l_Some.
Qed.

(** the channel loop of a surface (lines 640-777), from channel [k0] on *)
Lemma channels_loop_post options sm ul pAccBase b nAccBase : forall cs k0 p di dv s,
  (forall base, pAccBase = Some base -> accessors (gltf s) !! base = Some b) ->
  (forall nbi, nAccBase = Some nbi -> is_Some (accessors (gltf s) !! nbi)) ->
  dummy_inv ul di dv s ->
  post (for_fold (zip (seq k0 (length cs)) cs)
          (channel_target options sm ul pAccBase nAccBase)
          {| primitive := p; dummyIdxView := di; dummyDataView := dv |}) s
    (fun loc' s' =>
       let A := accessors (gltf s) in
       let V := bufferViews (gltf s) in
       exists na nv nb ts,
         appended s s' na nv nb /\
         primitive loc' = add_targets ts p /\
         dummy_inv ul (dummyIdxView loc') (dummyDataView loc') s' /\
         (forall i, di = Some i -> dummyIdxView loc' = Some i) /\
         (forall j, dv = Some j -> dummyDataView loc' = Some j) /\
         (forall i, dummyIdxView loc' = Some i -> di = Some i \/ (length V <= i)%nat) /\
         (forall j, dummyDataView loc' = Some j -> dv = Some j \/ (length V <= j)%nat) /\
         (disableSparseBlendShapes options = false -> cs <> [] -> is_Some pAccBase) /\
         Forall (sparse_ok ul (V ++ nv)) na /\
         length ts = length cs /\
         (forall j channel t, cs !! j = Some channel -> ts !! j = Some t ->
            exists d, collect_channel options sm channel (k0 + j) = Some d /\
              target_spec options ul b (nAccBase ≫= (A !!.)) (A ++ na)
                (dummyIdxView loc') (dummyDataView loc') channel d t) /\
         ((disableSparseBlendShapes options = true \/
           forall j channel d, cs !! j = Some channel ->
             collect_channel options sm channel (k0 + j) = Some d ->
             sparseIndices d <> []) ->
          dummyIdxView loc' = di /\ dummyDataView loc' = dv)).
Proof.
  induction cs as [|c cs IH]; intros k0 p di dv s Hb Hnb Hinv.
  - cbn. apply post_ret. exists [], [], [], []. cbn.
    split; [apply appended_refl|]. split; [by rewrite add_targets_nil|].
    split; [done|]. split; [done|]. split; [done|]. split; [auto|]. split; [auto|].
    split; [done|].
    split; [done|]. split; [done|]. split; [|done]. intros j channel t H. done.
  - cbn [length seq zip zip_with for_fold]. apply post_bind.
    eapply post_weaken; [by apply channel_target_post|].
    intros [p1 di1 dv1] s1
      (d & na & nv & nb & pAcc & nAcc & tAcc & Hd & Happ & Hp1 & Hinv1 & Hdi & Hdv
         & Hdi' & Hdv' & Hkeep & Hbase & Hok & Hspec).
    cbn [primitive dummyIdxView dummyDataView] in *. subst p1.
    assert (HA : accessors (gltf s1) = accessors (gltf s) ++ na)
      by (rewrite Happ; by autorewrite with buf).
    assert (HV : bufferViews (gltf s1) = bufferViews (gltf s) ++ nv)
      by (rewrite Happ; by autorewrite with buf).
    eapply post_weaken.
    { apply IH; [| |exact Hinv1].
      - intros base H. rewrite HA. apply lookup_app_l_Some. by apply Hb.
      - intros nbi H. rewrite HA. destruct (Hnb nbi H) as [x Hx]. exists x.
        by apply lookup_app_l_Some. }
    intros loc' s'
      (na' & nv' & nb' & ts & Happ' & Hp' & Hinv' & Hdi2 & Hdv2 & Hdi2' & Hdv2' & _ & Hok'
         & Hlen & Hts & Hkeep').
    cbv zeta. rewrite HA, HV in *. rewrite base_lookup_app in Hts by done.
    exists (na ++ na'), (nv ++ nv'), (nb ++ nb'), ((pAcc, nAcc, tAcc) :: ts).
    split; [by eapply appended_trans|].
    split. { rewrite Hp', AddTarget_add, add_targets_app. done. }
    split; [done|]. split; [auto|]. split; [auto|].
    split.
    { intros i Hi. destruct (Hdi2' i Hi) as [H|H].
      - destruct (Hdi' i H); auto.
      - right. rewrite length_app in H. lia. }
    split.
    { intros i Hi. destruct (Hdv2' i Hi) as [H|H].
      - destruct (Hdv' i H); auto.
      - right. rewrite length_app in H. lia. }
    split; [auto|].
    split.
    { apply Forall_app. split.
      - eapply Forall_impl; [exact Hok|]. intros a Ha.
        rewrite app_assoc. by apply sparse_ok_app.
      - by rewrite app_assoc. }
    split; [cbn; lia|].
    split.
    { intros [|j] channel t Hc Ht; cbn in Hc, Ht.
      - injection Hc as <-. injection Ht as <-. exists d.
        rewrite Nat.add_0_r. split; [done|]. rewrite app_assoc.
        by eapply target_spec_mono.
      - destruct (Hts j channel t Hc Ht) as (d' & Hd' & Hs').
        exists d'. rewrite <- Nat.add_succ_comm. split; [done|].
        by rewrite app_assoc. }
    intros Hall.
    assert (di1 = di /\ dv1 = dv) as [-> ->].
    { apply Hkeep. destruct Hall as [?|Hall]; [by left|right].
      apply (Hall 0%nat c d); [done|by rewrite Nat.add_0_r]. }
    apply Hkeep'. destruct Hall as [?|Hall]; [by left|right].
    intros j channel d' Hc Hd'. apply (Hall (S j) channel d'); [done|].
    by rewrite Nat.add_succ_comm in Hd'.
Qed.

(** ** The surface loop *)

Definition plain (a : AccessorData) : Prop := acc_sparse a = false.

(** what building the indices and the attributes of a primitive does:
    plain accessors, views and bytes are appended, attributes are added *)
Definition attr_ext (s : State) (p : PrimitiveData) (s' : State) (p' : PrimitiveData)
  : Prop :=
  exists na nv nb more,
    appended s s' na nv nb /\ Forall plain na /\
    pr_indices p' = pr_indices p /\ pr_targets p' = pr_targets p /\
    pr_attributes p' = pr_attributes p ++ more /\
    Forall (fun na => is_Some (accessors (gltf s') !! na.2)) more.

Lemma attr_ext_refl s p : attr_ext s p s p.
Proof.
  exists [], [], [], []. split; [apply appended_refl|]. rewrite app_nil_r. done.
Qed.

Lemma appended_accessors s s' na nv nb :
  appended s s' na nv nb -> accessors (gltf s') = accessors (gltf s) ++ na.
Proof. intros ->. by autorewrite with buf. Qed.

Lemma appended_views s s' na nv nb :
  appended s s' na nv nb -> bufferViews (gltf s') = bufferViews (gltf s) ++ nv.
Proof. intros ->. by autorewrite with buf. Qed.

Lemma appended_binary s s' na nv nb :
  appended s s' na nv nb -> binary (gltf s') = binary (gltf s) ++ nb.
Proof. intros ->. by autorewrite with buf. Qed.

Lemma appended_meshes s s' na nv nb :
  appended s s' na nv nb -> meshes (gltf s') = meshes (gltf s).
Proof. intros ->. by autorewrite with buf. Qed.

Lemma attr_ext_trans s1 p1 s2 p2 s3 p3 :
  attr_ext s1 p1 s2 p2 -> attr_ext s2 p2 s3 p3 -> attr_ext s1 p1 s3 p3.
Proof.
  intros (na & nv & nb & more & Happ & Hpl & Hi & Ht & Ha & Hm)
         (na' & nv' & nb' & more' & Happ' & Hpl' & Hi' & Ht' & Ha' & Hm').
  exists (na ++ na'), (nv ++ nv'), (nb ++ nb'), (more ++ more').
  split; [by eapply appended_trans|]. split; [by apply Forall_app|].
  split; [congruence|]. split; [congruence|].
  split; [by rewrite Ha', Ha, app_assoc|].
  apply Forall_app. split; [|done].
  eapply Forall_impl; [exact Hm|]. intros [n a] [x Hx]. cbn in *.
  rewrite (appended_accessors _ _ _ _ _ Happ'). exists x. by apply lookup_app_l_Some.
Qed.

Lemma attr_ext_is_Some s p s' p' a :
  attr_ext s p s' p' -> is_Some (accessors (gltf s) !! a) ->
  is_Some (accessors (gltf s') !! a).
Proof.
  intros (na & nv & nb & more & Happ & _) [x Hx].
  rewrite (appended_accessors _ _ _ _ _ Happ). exists x. by apply lookup_app_l_Some.
Qed.

Lemma attr_ext_lookup s p s' p' a x :
  attr_ext s p s' p' -> accessors (gltf s) !! a = Some x ->
  accessors (gltf s') !! a = Some x.
Proof.
  intros (na & nv & nb & more & Happ & _) Hx.
  rewrite (appended_accessors _ _ _ _ _ Happ). by apply lookup_app_l_Some.
Qed.

Lemma attr_ext_attr s p s' p' na :
  attr_ext s p s' p' -> na ∈ pr_attributes p -> na ∈ pr_attributes p'.
Proof.
  intros (? & ? & ? & more & _ & _ & _ & _ & -> & _) H. apply elem_of_app. by left.
Qed.

Lemma dummy_inv_ext ul di dv s s' :
  bufferViews (gltf s') = bufferViews (gltf s) ->
  binary (gltf s') = binary (gltf s) ->
  dummy_inv ul di dv s -> dummy_inv ul di dv s'.
Proof. intros HV HB [H1 H2 H3]. split; rewrite ?HV, ?HB; done. Qed.

Lemma plain_sparse_ok ul V a : plain a -> sparse_ok ul V a.
Proof. intros H Hs. unfold plain in H. congruence. Qed.

(** what one iteration of the surface loop (lines 475-817) leaves behind:
    the new primitive [p] of mesh [mesh], its index accessor [iacc], the
    base accessors [b] of POSITION and [nbase] of NORMAL, the dummy views
    [di] and [dv], and the targets of the blend channels *)
Definition surface_post (options : GltfOptions) (sm : RawModel) (s : State)
    (m' : gmap Z nat) (s' : State) : Prop :=
  let ul := decide_long_indices options sm in
  exists rawSurface na nv nb mesh md old p iacc b nbase di dv,
    raw_surfaces sm = [rawSurface] /\
    accessors (gltf s') = accessors (gltf s) ++ na /\
    bufferViews (gltf s') = bufferViews (gltf s) ++ nv /\
    binary (gltf s') = binary (gltf s) ++ nb /\
    m' !! rs_id rawSurface = Some mesh /\
    meshes (gltf s') !! mesh = Some md /\
    mesh_primitives md = old ++ [p] /\
    (forall k, k <> mesh -> meshes (gltf s') !! k = meshes (gltf s) !! k) /\
    (forall md0, meshes (gltf s) !! mesh = Some md0 -> mesh_primitives md0 = old) /\
    (meshes (gltf s) !! mesh = None -> old = []) /\
    accessors (gltf s') !! pr_indices p = Some iacc /\
    (length (accessors (gltf s)) <= pr_indices p)%nat /\
    acc_type iacc = index_type ul /\
    Forall (sparse_ok ul (bufferViews (gltf s'))) na /\
    (disableSparseBlendShapes options = false -> rs_blendChannels rawSurface <> [] ->
       exists bi, ("POSITION", bi) ∈ pr_attributes p /\
                  accessors (gltf s') !! bi = Some b) /\
    (forall nbacc, nbase = Some nbacc ->
       exists ni, ("NORMAL", ni) ∈ pr_attributes p /\
                  accessors (gltf s') !! ni = Some nbacc /\
                  acc_type nbacc = GLT_VEC3F) /\
    dummy_inv ul di dv s' /\
    (forall i, di = Some i -> (length (bufferViews (gltf s)) <= i)%nat) /\
    (forall i, dv = Some i -> (length (bufferViews (gltf s)) <= i)%nat) /\
    length (pr_targets p) = length (rs_blendChannels rawSurface) /\
    (forall j channel t,
       rs_blendChannels rawSurface !! j = Some channel -> pr_targets p !! j = Some t ->
       exists d, collect_channel options sm channel j = Some d /\
                 target_spec options ul b nbase (accessors (gltf s')) di dv channel d t) /\
    ((disableSparseBlendShapes options = true \/
      forall j channel d, rs_blendChannels rawSurface !! j = Some channel ->
        collect_channel options sm channel j = Some d -> sparseIndices d <> []) ->
     di = None /\ dv = None).

Section Surfaces.

Variable to_uint32 : Z -> option Z.
Variable EncodeMeshToBuffer : DracoEncoder -> DracoMesh -> option (list byte).

(** an attribute of the primitive: one plain accessor of the attribute's
    type, named in the primitive *)
Lemma AddAttributeToPrimitive_post `{GLWritable T} sm p (attrDef : AttributeDefinition T) s :
  post (AddAttributeToPrimitive to_uint32 sm p attrDef) s
    (fun '(a, p') s' =>
       attr_ext s p s' p' /\
       a = length (accessors (gltf s)) /\
       (gltfName attrDef, a) ∈ pr_attributes p' /\
       exists acc, accessors (gltf s') !! a = Some acc /\ plain acc /\
                   acc_type acc = attr_glType attrDef).
Proof.
  unfold AddAttributeToPrimitive. apply post_bind, post_deref. intros arr Harr.
  assert (Hplain : forall (q : PrimitiveData) (nb : list byte),
    post (bufferView ← GetAlignedBufferView GL_ARRAY_BUFFER;
          accessor ← AddAccessorWithView bufferView (attr_glType attrDef) arr "";
          mret (accessor, AddAttrib (gltfName attrDef) accessor p)) s
      (fun '(a, p') s' =>
         attr_ext s p s' p' /\ a = length (accessors (gltf s)) /\
         (gltfName attrDef, a) ∈ pr_attributes p' /\
         exists acc, accessors (gltf s') !! a = Some acc /\ plain acc /\
                     acc_type acc = attr_glType attrDef)).
  { intros _ _. apply fresh_accessor_post. intros nb. apply post_ret.
    split.
    { eexists [_], _, _, [_]. split; [reflexivity|]. split; [by constructor|].
      split; [done|]. split; [done|]. split; [reflexivity|].
      constructor; [|done]. cbn. autorewrite with buf. rewrite lookup_snoc. by eexists. }
    split; [done|]. split; [cbn; apply elem_of_app; right; by left|].
    autorewrite with buf. rewrite lookup_snoc. by eexists. }
  destruct (dracoAttribute attrDef) as [da|]; [|by apply (Hplain p [])].
  destruct (pr_dracoMesh p) as [dm|] eqn:Hdm; [|by apply (Hplain p [])].
  apply post_bind, post_deref. intros count Hcount.
  apply post_bind. eapply post_run; [apply hold_accessor_run|]. cbv zeta.
  apply post_bind. eapply post_run.
  { apply update_accessor_run. autorewrite with buf. apply lookup_snoc. }
  autorewrite with buf. rewrite insert_snoc. apply post_ret.
  split.
  { eexists [_], [], [], [_]. split; [unfold appended; by rewrite !app_nil_r|].
    split; [by constructor|]. split; [done|]. split; [done|]. split; [reflexivity|].
    constructor; [|done]. cbn. autorewrite with buf. rewrite lookup_snoc. by eexists. }
  split; [done|]. split; [cbn; apply elem_of_app; right; by left|].
  autorewrite with buf. rewrite lookup_snoc. by eexists.
Qed.

Lemma opt_attr_post `{GLWritable T} (c : bool) sm p (attrDef : AttributeDefinition T) s :
  post (if c
        then '(_, p) ← AddAttributeToPrimitive to_uint32 sm p attrDef; mret p
        else mret p) s
    (fun p' s' => attr_ext s p s' p').
Proof.
  destruct c; [|apply post_ret, attr_ext_refl].
  apply post_bind. eapply post_weaken; [apply AddAttributeToPrimitive_post|].
  intros [a p'] s' (Hext & _). by apply post_ret.
Qed.

Lemma opt_base_post `{GLWritable T} (c : bool) sm p (attrDef : AttributeDefinition T) s :
  post (if c
        then '(a, p) ← AddAttributeToPrimitive to_uint32 sm p attrDef; mret (Some a, p)
        else mret (None, p)) s
    (fun '(o, p') s' =>
       attr_ext s p s' p' /\
       forall i, o = Some i ->
         (gltfName attrDef, i) ∈ pr_attributes p' /\
         exists acc, accessors (gltf s') !! i = Some acc /\
                     acc_type acc = attr_glType attrDef).
Proof.
  destruct c; [|apply post_ret; split; [apply attr_ext_refl|done]].
  apply post_bind. eapply post_weaken; [apply AddAttributeToPrimitive_post|].
  intros [a p'] s' (Hext & _ & Hin & acc & Hacc & _ & Hty). apply post_ret.
  split; [done|]. intros i [= <-]. split; [done|by eexists].
Qed.

(** the bounds of an accessor that exists are set in place *)
Lemma bounds_post a lo hi s p s1 p1 (Q : unit -> State -> Prop) :
  attr_ext s p s1 p1 ->
  (length (accessors (gltf s)) <= a)%nat ->
  (forall s2, attr_ext s p s2 p1 ->
              (forall i, is_Some (accessors (gltf s1) !! i) ->
                         is_Some (accessors (gltf s2) !! i)) ->
              Q tt s2) ->
  post (update_accessor a (set_acc_bounds lo hi)) s1 Q.
Proof.
  intros (na & nv & nb & more & Happ & Hpl & Hi & Ht & Ha & Hm) Hle HQ.
  destruct (accessors (gltf s1) !! a) as [x|] eqn:Hx.
  2:{ unfold update_accessor. apply post_bind, post_get_model.
      apply post_bind, post_deref. congruence. }
  eapply post_run; [by apply update_accessor_run|].
  pose proof (appended_accessors _ _ _ _ _ Happ) as HA.
  assert (Hst : upd_buf (<[a:=set_acc_bounds lo hi x]> (accessors (gltf s1)))
                  (bufferViews (gltf s1)) (binary (gltf s1)) s1 =
                upd_buf (accessors (gltf s) ++
                           <[(a - length (accessors (gltf s)))%nat :=
                               set_acc_bounds lo hi x]> na)
                  (bufferViews (gltf s) ++ nv) (binary (gltf s) ++ nb) s).
  { rewrite Happ. autorewrite with buf. by rewrite insert_app_r_alt by lia. }
  rewrite Hst. apply HQ.
  - eexists _, nv, nb, more. split; [reflexivity|].
    split.
    { apply Forall_insert; [done|]. rewrite HA, lookup_app_r in Hx by lia.
      eapply Forall_lookup_1 in Hpl; [|exact Hx]. exact Hpl. }
    split; [done|]. split; [done|]. split; [done|].
    eapply Forall_impl; [exact Hm|]. intros [n i] [y Hy]. cbn in *.
    autorewrite with buf. apply lookup_lt_is_Some.
    apply lookup_lt_Some in Hy. rewrite HA in Hy.
    rewrite length_app, length_insert. by rewrite length_app in Hy.
  - intros i [y Hy]. autorewrite with buf. apply lookup_lt_is_Some.
    apply lookup_lt_Some in Hy. rewrite HA in Hy.
    rewrite length_app, length_insert. by rewrite length_app in Hy.
Qed.

(** lines 550-637 *)
Lemma surface_attributes_post sm rawSurface p s :
  post (surface_attributes to_uint32 sm rawSurface p) s
    (fun '(base, p') s' =>
       attr_ext s p s' p' /\
       (forall i, pAccBase base = Some i ->
          ("POSITION", i) ∈ pr_attributes p' /\ is_Some (accessors (gltf s') !! i)) /\
       (forall i, nAccBase base = Some i ->
          ("NORMAL", i) ∈ pr_attributes p' /\
          exists acc, accessors (gltf s') !! i = Some acc /\ acc_type acc = GLT_VEC3F) /\
       (forall i, tAccBase base = Some i ->
          ("TANGENT", i) ∈ pr_attributes p' /\
          exists acc, accessors (gltf s') !! i = Some acc /\ acc_type acc = GLT_VEC4F)).
Proof.
  unfold surface_attributes.
  (* POSITION *)
  apply post_bind.
  apply post_weaken with (Q := fun '(o, p1) s1 =>
       attr_ext s p s1 p1 /\
       forall i, o = Some i ->
         ("POSITION", i) ∈ pr_attributes p1 /\ is_Some (accessors (gltf s1) !! i)).
  { destruct (has_attribute sm RAW_VERTEX_ATTRIBUTE_POSITION).
    - apply post_bind. eapply post_weaken; [apply AddAttributeToPrimitive_post|].
      intros [a p1] s1 (Hext & -> & Hin & acc & Hacc & _).
      apply post_bind. eapply bounds_post; [exact Hext|done|].
      intros s2 Hext2 Hkeep. apply post_ret. split; [done|].
      intros i [= <-]. split; [done|]. apply Hkeep. by eexists.
    - apply post_ret. split; [apply attr_ext_refl|done]. }
  intros [pB p1] s1 (Hext1 & HpB).
  (* NORMAL *)
  apply post_bind. eapply post_weaken; [apply opt_base_post|].
  intros [nB p2] s2 (Hext2 & HnB).
  (* TANGENT *)
  apply post_bind. eapply post_weaken; [apply opt_base_post|].
  intros [tB p3] s3 (Hext3 & HtB).
  (* COLOR_0, TEXCOORD_0, TEXCOORD_1 *)
  apply post_bind. eapply post_weaken; [apply opt_attr_post|]. intros p4 s4 Hext4.
  apply post_bind. eapply post_weaken; [apply opt_attr_post|]. intros p5 s5 Hext5.
  apply post_bind. eapply post_weaken; [apply opt_attr_post|]. intros p6 s6 Hext6.
  (* JOINTS_n, WEIGHTS_n *)
  apply post_bind.
  apply post_weaken with (Q := fun p7 s7 => attr_ext s6 p6 s7 p7).
  { destruct (has_attribute sm RAW_VERTEX_ATTRIBUTE_JOINT_INDICES);
      [|apply post_ret, attr_ext_refl].
    apply post_for_fold with (I := fun p7 s7 => attr_ext s6 p6 s7 p7);
      [|apply attr_ext_refl].
    intros k q sq _ Hq. apply post_bind.
    eapply post_weaken; [apply AddAttributeToPrimitive_post|].
    intros [a q'] sq' (Hext & _). apply post_ret. by eapply attr_ext_trans. }
  intros p7 s7 Hext7.
  apply post_bind.
  apply post_weaken with (Q := fun p8 s8 => attr_ext s7 p7 s8 p8).
  { destruct (has_attribute sm RAW_VERTEX_ATTRIBUTE_JOINT_WEIGHTS);
      [|apply post_ret, attr_ext_refl].
    apply post_for_fold with (I := fun p8 s8 => attr_ext s7 p7 s8 p8);
      [|apply attr_ext_refl].
    intros k q sq _ Hq. apply post_bind.
    eapply post_weaken; [apply AddAttributeToPrimitive_post|].
    intros [a q'] sq' (Hext & _). apply post_ret. by eapply attr_ext_trans. }
  intros p8 s8 Hext8. apply post_ret. cbn [pAccBase nAccBase tAccBase].
  assert (H38 : attr_ext s3 p3 s8 p8).
  { cbv beta in *.
    eapply attr_ext_trans; [exact Hext4|]. eapply attr_ext_trans; [exact Hext5|].
    eapply attr_ext_trans; [exact Hext6|]. by eapply attr_ext_trans. }
  assert (H28 : attr_ext s2 p2 s8 p8) by (by eapply attr_ext_trans).
  assert (H18 : attr_ext s1 p1 s8 p8) by (by eapply attr_ext_trans).
  split; [by eapply attr_ext_trans|].
  split. { intros i Hi. destruct (HpB i Hi). split;
           [by eapply (attr_ext_attr _ _ _ _ _ H18)|by eapply (attr_ext_is_Some _ _ _ _ _ H18)]. }
  split. { intros i Hi. destruct (HnB i Hi) as (Hin & acc & Hacc & Hty). split;
           [by eapply (attr_ext_attr _ _ _ _ _ H28)|].
           exists acc. split; [by eapply (attr_ext_lookup _ _ _ _ _ _ H28)|done]. }
  intros i Hi. destruct (HtB i Hi) as (Hin & acc & Hacc & Hty). split;
    [by eapply (attr_ext_attr _ _ _ _ _ H38)|].
  exists acc. split; [by eapply (attr_ext_lookup _ _ _ _ _ _ H38)|done].
Qed.

(** lines 506-534 *)
Lemma surface_indices_post options sm ul mData s :
  post (surface_indices to_uint32 options sm ul mData) s
    (fun p s' =>
       exists na nv nb iacc,
         appended s s' na nv nb /\ Forall plain na /\
         pr_indices p = length (accessors (gltf s)) /\
         accessors (gltf s') !! pr_indices p = Some iacc /\
         acc_type iacc = index_type ul /\
         pr_targets p = [] /\ pr_attributes p = [] /\ pr_material p = mData).
Proof.
  unfold surface_indices. fold (index_type ul).
  destruct (draco_enabled (draco options)).
  - apply post_bind. eapply post_run; [apply hold_accessor_run|]. cbv zeta.
    apply post_bind, post_deref. intros count Hcount.
    apply post_bind. eapply post_run.
    { apply update_accessor_run. autorewrite with buf. apply lookup_snoc. }
    autorewrite with buf. rewrite insert_snoc. apply post_ret.
    eexists [_], [], [], _. split; [unfold appended; by rewrite !app_nil_r|].
    split; [by constructor|]. split; [done|]. autorewrite with buf.
    split; [apply lookup_snoc|]. done.
  - apply fresh_accessor_post. intros nb. apply post_ret.
    eexists [_], [_], nb, _. split; [reflexivity|].
    split; [by constructor|]. split; [done|]. autorewrite with buf.
    split; [apply lookup_snoc|]. done.
Qed.

(** lines 779-815 *)
Lemma surface_compress_post options p s :
  post (surface_compress to_uint32 EncodeMeshToBuffer options p) s
    (fun p' s' =>
       exists nv nb,
         appended s s' [] nv nb /\
         pr_indices p' = pr_indices p /\ pr_targets p' = pr_targets p /\
         pr_attributes p' = pr_attributes p).
Proof.
  unfold surface_compress. destruct (draco_enabled (draco options)).
  - apply post_bind, post_deref. intros dm Hdm.
    apply post_bind, post_deref. intros buf Hbuf.
    apply post_bind, post_deref. intros size Hsize.
    apply post_bind. unfold AddRawBufferView.
    apply post_bind, post_get_model. rewrite hold_length. cbv iota beta.
    apply post_bind, post_modify. apply post_ret. apply post_ret.
    eexists [_], _. split; [|done].
    unfold appended, upd_buf. rewrite app_nil_r.
    destruct s as [[] ? ? ? ?]. reflexivity.
  - apply post_ret. exists [], []. split; [apply appended_refl|done].
Qed.

(** the mesh of the surface: the one its id already has, or a new one *)
Lemma surface_mesh_post (meshBySurfaceId : gmap Z nat) rawSurface s :
  post (match meshBySurfaceId !! rs_id rawSurface with
        | Some m => mret (m, meshBySurfaceId)
        | None =>
            let defaultDeforms := map bc_defaultDeform (rs_blendChannels rawSurface) in
            m ← hold_mesh {| mesh_ix := 0; mesh_name := rs_name rawSurface;
                             mesh_weights := defaultDeforms; mesh_primitives := [] |};
            mret (m, <[rs_id rawSurface := m]> meshBySurfaceId)
        end) s
    (fun '(mesh, m') s1 =>
       accessors (gltf s1) = accessors (gltf s) /\
       bufferViews (gltf s1) = bufferViews (gltf s) /\
       binary (gltf s1) = binary (gltf s) /\
       m' !! rs_id rawSurface = Some mesh /\
       (forall k, k <> mesh -> meshes (gltf s1) !! k = meshes (gltf s) !! k) /\
       ((meshes (gltf s1) = meshes (gltf s)) \/
        (meshes (gltf s) !! mesh = None /\
         exists md, meshes (gltf s1) !! mesh = Some md /\ mesh_primitives md = []))).
Proof.
  destruct (meshBySurfaceId !! rs_id rawSurface) as [m|] eqn:Hm.
  - apply post_ret. repeat split; auto.
  - cbv zeta. apply post_bind. unfold hold_mesh.
    apply post_bind, post_get_model. rewrite hold_length. cbv iota beta.
    apply post_bind, post_modify. apply post_ret. apply post_ret.
    cbn [stamp mesh_ix gltf set_gltf set_meshes accessors bufferViews binary meshes].
    split; [done|]. split; [done|]. split; [done|].
    split; [by rewrite lookup_insert_eq|].
    split.
    { intros k Hk. cbn in Hk. cbn. destruct (decide (k < length (meshes (gltf s)))%nat).
      - by rewrite lookup_app_l.
      - rewrite !lookup_ge_None_2; [done|lia|rewrite length_app; cbn; lia]. }
    right. cbn. split; [by apply lookup_ge_None_2|].
    eexists. split; [apply lookup_snoc|done].
Qed.

(** one surface model (lines 475-817) *)
Lemma surface_step_post options materialsById sm meshBySurfaceId s :
  post (surface_step to_uint32 EncodeMeshToBuffer options materialsById sm meshBySurfaceId) s
    (fun m' s' => surface_post options sm s m' s').
Proof.
  unfold surface_step. set (ul := decide_long_indices options sm).
  apply post_bind, post_assert. intros Hone%Nat.eqb_eq.
  apply post_bind, post_deref. intros rawSurface Hraw.
  assert (Hsurf : raw_surfaces sm = [rawSurface]).
  { destruct (raw_surfaces sm) as [|x [|y l]]; try done. cbn in Hraw. congruence. }
  apply post_bind, post_deref. intros triangle0 _.
  apply post_bind, post_deref. intros rawMaterial _.
  apply post_bind. unfold require. apply post_deref. intros mData _.
  apply post_bind. eapply post_weaken; [apply surface_mesh_post|].
  intros [mesh m'] s1 (HA1 & HV1 & HB1 & Hm' & Hother & Hmesh).
  (* the indices *)
  apply post_bind. eapply post_weaken; [apply surface_indices_post|].
  intros p2 s2 (na2 & nv2 & nb2 & iacc & Happ2 & Hpl2 & Hix & Hiacc & Hty & Htg2 & _).
  (* the attributes *)
  apply post_bind. eapply post_weaken; [apply surface_attributes_post|].
  intros [base p3] s3
    ((na3 & nv3 & nb3 & more & Happ3 & Hpl3 & Hix3 & Htg3 & Hat3 & _) & HpB & HnB & _).
  (* the blend channels *)
  apply post_bind.
  assert (Hb : exists b, forall i, pAccBase base = Some i ->
                           accessors (gltf s3) !! i = Some b).
  { destruct (pAccBase base) as [i|].
    - destruct (HpB i eq_refl) as [_ [b Hb]]. exists b. congruence.
    - exists iacc. done. }
  destruct Hb as [b Hb].
  eapply post_weaken.
  { eapply (channels_loop_post options sm ul (pAccBase base) b (nAccBase base)
              (rs_blendChannels rawSurface) 0%nat p3 None None s3); [exact Hb| |].
    - intros i Hi. destruct (HnB i Hi) as (_ & acc & Hacc & _). by eexists.
    - split; intros; discriminate. }
  intros loc s4
    (na4 & nv4 & nb4 & ts & Happ4 & Hp4 & Hinv4 & _ & _ & Hdi & Hdv & Hpb & Hok4
       & Hlen & Hts & Hlazy).
  (* compression, and the primitive joins its mesh *)
  apply post_bind. eapply post_weaken; [apply surface_compress_post|].
  intros p5 s5 (nv5 & nb5 & Happ5 & Hix5 & Htg5 & Hat5).
  apply post_bind. unfold AddPrimitive. apply post_bind, post_get_model.
  apply post_bind, post_deref. intros md0 Hmd0. apply post_modify. apply post_ret.
  (* the accessors, views and bytes from [s] on *)
  pose proof (appended_accessors _ _ _ _ _ Happ2) as E2.
  pose proof (appended_accessors _ _ _ _ _ Happ3) as E3.
  pose proof (appended_accessors _ _ _ _ _ Happ4) as E4.
  pose proof (appended_accessors _ _ _ _ _ Happ5) as E5.
  pose proof (appended_views _ _ _ _ _ Happ2) as F2.
  pose proof (appended_views _ _ _ _ _ Happ3) as F3.
  pose proof (appended_views _ _ _ _ _ Happ4) as F4.
  pose proof (appended_views _ _ _ _ _ Happ5) as F5.
  pose proof (appended_binary _ _ _ _ _ Happ2) as G2.
  pose proof (appended_binary _ _ _ _ _ Happ3) as G3.
  pose proof (appended_binary _ _ _ _ _ Happ4) as G4.
  pose proof (appended_binary _ _ _ _ _ Happ5) as G5.
  pose proof (appended_meshes _ _ _ _ _ Happ2) as M2.
  pose proof (appended_meshes _ _ _ _ _ Happ3) as M3.
  pose proof (appended_meshes _ _ _ _ _ Happ4) as M4.
  pose proof (appended_meshes _ _ _ _ _ Happ5) as M5.
  rewrite app_nil_r in E5.
  assert (HA : accessors (gltf s5) = accessors (gltf s) ++ (na2 ++ na3 ++ na4)).
  { rewrite E5, E4, E3, E2, HA1. by rewrite <- !app_assoc. }
  assert (HV : bufferViews (gltf s5) = bufferViews (gltf s) ++ (nv2 ++ nv3 ++ nv4 ++ nv5)).
  { rewrite F5, F4, F3, F2, HV1. by rewrite <- !app_assoc. }
  assert (HB : binary (gltf s5) = binary (gltf s) ++ (nb2 ++ nb3 ++ nb4 ++ nb5)).
  { rewrite G5, G4, G3, G2, HB1. by rewrite <- !app_assoc. }
  assert (HM : meshes (gltf s5) = meshes (gltf s1)) by congruence.
  set (md := {| mesh_ix := mesh_ix md0; mesh_name := mesh_name md0;
                mesh_weights := mesh_weights md0;
                mesh_primitives := mesh_primitives md0 ++ [p5] |}).
  unfold surface_post. fold ul.
  exists rawSurface, (na2 ++ na3 ++ na4), (nv2 ++ nv3 ++ nv4 ++ nv5),
    (nb2 ++ nb3 ++ nb4 ++ nb5), mesh, md, (mesh_primitives md0), p5, iacc, b,
    (nAccBase base ≫= (accessors (gltf s3) !!.)), (dummyIdxView loc), (dummyDataView loc).
  cbn [gltf set_gltf set_meshes accessors bufferViews binary meshes].
  split; [done|]. split; [done|]. split; [done|]. split; [done|]. split; [done|].
  split. { apply list_lookup_insert_eq. by eapply lookup_lt_Some. }
  split; [done|].
  split. { intros k Hk. rewrite list_lookup_insert_ne by done. rewrite HM. by apply Hother. }
  split.
  { intros md1 Hmd1. rewrite HM in Hmd0.
    destruct Hmesh as [Hsame|(Hnone & _)]; [|congruence].
    rewrite Hsame in Hmd0. congruence. }
  split.
  { intros Hnone. rewrite HM in Hmd0.
    destruct Hmesh as [Hsame|(_ & md1 & Hmd1 & Hnil)]; [|congruence].
    rewrite Hsame in Hmd0. congruence. }
  assert (Hix25 : pr_indices p5 = pr_indices p2).
  { rewrite Hix5, Hp4. cbn. done. }
  split.
  { rewrite Hix25, E5, E4, E3. by do 2 apply lookup_app_l_Some. }
  split. { rewrite Hix25, Hix, HA1. done. }
  split; [done|].
  split.
  { rewrite HV. apply Forall_app. split; [|apply Forall_app; split].
    - eapply Forall_impl; [exact Hpl2|]. intros a. apply plain_sparse_ok.
    - eapply Forall_impl; [exact Hpl3|]. intros a. apply plain_sparse_ok.
    - eapply Forall_impl; [exact Hok4|]. intros a Ha.
      rewrite F3, F2, HV1, <- !app_assoc in Ha.
      replace (bufferViews (gltf s) ++ nv2 ++ nv3 ++ nv4 ++ nv5)
        with ((bufferViews (gltf s) ++ nv2 ++ nv3 ++ nv4) ++ nv5)
        by (by rewrite <- !app_assoc).
      by apply sparse_ok_app. }
  assert (Hat35 : pr_attributes p5 = pr_attributes p3).
  { rewrite Hat5, Hp4. done. }
  split.
  { intros Hdis Hcs. destruct (Hpb Hdis Hcs) as [bi Hbi].
    exists bi. rewrite Hat35. destruct (HpB bi Hbi) as [Hin _].
    split; [done|]. rewrite E5, E4. apply lookup_app_l_Some. by apply Hb. }
  split.
  { intros nbacc Hnb. destruct (nAccBase base) as [ni|]; [|done]. cbn in Hnb.
    exists ni. rewrite Hat35. destruct (HnB ni eq_refl) as (Hin & acc & Hacc & Hacty).
    split; [done|]. split; [|congruence]. rewrite E5, E4. by apply lookup_app_l_Some. }
  split.
  { eapply dummy_inv_ext with (s := s5); [done|done|].
    eapply dummy_inv_appended; [exact Hinv4|exact Happ5]. }
  split.
  { intros i Hi. destruct (Hdi i Hi) as [?|Hle]; [done|].
    rewrite F3, F2, HV1, !length_app in Hle. lia. }
  split.
  { intros i Hi. destruct (Hdv i Hi) as [?|Hle]; [done|].
    rewrite F3, F2, HV1, !length_app in Hle. lia. }
  assert (Htg : pr_targets p5 = ts).
  { rewrite Htg5, Hp4. cbn. by rewrite Htg3, Htg2. }
  split; [by rewrite Htg|].
  split.
  { intros j channel t Hc Ht. rewrite Htg in Ht.
    destruct (Hts j channel t Hc Ht) as (d & Hd & Hspec). exists d.
    split; [done|]. by rewrite E5, E4. }
  exact Hlazy.
Qed.

End Surfaces.

Lemma looks_inv (L : list AccessorData) k x a :
  looks L k x -> L !! k = Some a -> same_but_bounds a x.
Proof. intros (a' & Ha' & Hs) Ha. congruence. Qed.

Lemma same_but_bounds_fields a x :
  same_but_bounds a x ->
  acc_bufferView a = acc_bufferView x /\ acc_type a = acc_type x /\
  acc_byteOffset a = acc_byteOffset x /\ acc_count a = acc_count x /\
  acc_name a = acc_name x /\ acc_sparse a = acc_sparse x /\
  sparseIdxCount a = sparseIdxCount x /\
  sparseIdxBufferView a = sparseIdxBufferView x /\
  sparseIdxBufferViewType a = sparseIdxBufferViewType x /\
  sparseDataBufferView a = sparseDataBufferView x.
Proof.
  unfold same_but_bounds. intros H.
  split; [exact (f_equal acc_bufferView H)|].
  split; [exact (f_equal acc_type H)|].
  split; [exact (f_equal acc_byteOffset H)|].
  split; [exact (f_equal acc_count H)|].
  split; [exact (f_equal acc_name H)|].
  split; [exact (f_equal acc_sparse H)|].
  split; [exact (f_equal sparseIdxCount H)|].
  split; [exact (f_equal sparseIdxBufferView H)|].
  split; [exact (f_equal sparseIdxBufferViewType H)|].
  exact (f_equal sparseDataBufferView H).
Qed.

Lemma looks_sparse_type (L : list AccessorData) k a ix b iv ul dvw ty n name :
  looks L k (sparse_acc ix b iv (index_type ul) dvw ty n name) ->
  L !! k = Some a ->
  sparseIdxBufferViewType a = glType (componentType (index_type ul)).
Proof.
  intros Hl Ha. apply (looks_inv _ _ _ _ Hl) in Ha.
  apply same_but_bounds_fields in Ha. tauto.
Qed.

Lemma looks_plain (L : list AccessorData) k a ix v ty n name :
  looks L k (plain_acc ix v ty n name) -> L !! k = Some a -> acc_sparse a = false.
Proof.
  intros Hl Ha. apply (looks_inv _ _ _ _ Hl) in Ha.
  apply same_but_bounds_fields in Ha. tauto.
Qed.

Lemma nil_or_not {A} (l : list A) : l = [] \/ l <> [].
Proof. destruct l; [by left|by right]. Qed.

(** the sparse accessors a target names carry the index type of the surface *)
Lemma target_sparse_type options ul b nbase L di dv channel d pAcc nAcc tAcc k a :
  target_spec options ul b nbase L di dv channel d (pAcc, nAcc, tAcc) ->
  k = pAcc \/ nAcc = Some k \/ tAcc = Some k ->
  L !! k = Some a -> acc_sparse a = true ->
  sparseIdxBufferViewType a = glType (componentType (index_type ul)).
Proof.
  intros (Hdense & Hempty & Hsparse) Hk Ha Hsp.
  destruct (disableSparseBlendShapes options) eqn:Hdis.
  - destruct (Hdense eq_refl) as (-> & (v & Hp) & Ht & Hn & H0 & _).
    assert (acc_sparse a = false); [|congruence].
    destruct Hk as [->|[Hk|Hk]]; [by eapply looks_plain| |done].
    destruct (nil_or_not (tangents d)) as [Et|Et].
    + destruct (nil_or_not (normals d)) as [En|En].
      * rewrite (H0 Et En) in Hk. done.
      * destruct (Hn Et En) as (a' & v' & E & Hl). rewrite E in Hk.
        injection Hk as ->. by eapply looks_plain.
    + destruct (Ht Et) as (a' & v' & E & Hl). rewrite E in Hk.
      injection Hk as ->. by eapply looks_plain.
  - destruct (nil_or_not (sparseIndices d)) as [Es|Es].
    + destruct (Hempty eq_refl Es) as (-> & -> & iv & dvw & _ & _ & Hl).
      destruct Hk as [->|[Hk|Hk]]; [|done|done]. by eapply looks_sparse_type.
    + destruct (Hsparse eq_refl Es) as ((iv & dvw & Hl) & Hn0 & Hn1 & Ht0 & Ht1).
      destruct Hk as [->|[Hk|Hk]]; [by eapply looks_sparse_type| |].
      * destruct (nil_or_not (normals d)) as [En|En].
        { rewrite (Hn0 En) in Hk. done. }
        destruct (Hn1 En) as (nbacc & a' & iv' & dvw' & _ & E & Hl').
        rewrite E in Hk. injection Hk as ->. by eapply looks_sparse_type.
      * destruct (nil_or_not (tangents d)) as [Et|Et].
        { rewrite (Ht0 Et) in Hk. done. }
        destruct (Ht1 Et) as (nbacc & a' & iv' & dvw' & _ & E & Hl').
        rewrite E in Hk. injection Hk as ->. by eapply looks_sparse_type.
Qed.

Lemma decide_long_indices_spec options sm :
  decide_long_indices options sm = true <->
  useLongIndices options = ALWAYS \/
  (useLongIndices options = AUTO /\ 65535 < GetVertexCount sm).
Proof.
  unfold decide_long_indices. destruct (useLongIndices options).
  - split; [done|]. intros [?|[? _]]; done.
  - rewrite Z.ltb_lt. split; [by right|]. intros [?|[_ ?]]; done.
  - split; [by left|done].
Qed.

(** all morph targets of all primitives have a null tangent accessor *)
Definition null_tangents (g : GltfModel) : Prop :=
  forall md p t, md ∈ meshes g -> p ∈ mesh_primitives md -> t ∈ pr_targets p ->
                 t.2 = None.

Section SurfaceTheorems.

Variable to_uint32 : Z -> option Z.
Variable EncodeMeshToBuffer : DracoEncoder -> DracoMesh -> option (list byte).

(** C4: the index accessor of the primitive a surface model yields has
    component type UNSIGNED_INT exactly when useLongIndices is ALWAYS, or
    AUTO with more than 65535 vertices in this surface model, and
    UNSIGNED_SHORT otherwise; every sparse accessor created for the surface,
    and every sparse accessor a morph target of the primitive names, records
    that component type for its indices, and its index view holds
    [sparseIdxCount] indices of that width. *)
Theorem index_width options materialsById sm meshBySurfaceId s m' s' :
  surface_step to_uint32 EncodeMeshToBuffer options materialsById sm meshBySurfaceId s
    = Some (m', s') ->
  exists mesh md old p iacc,
    meshes (gltf s') !! mesh = Some md /\
    mesh_primitives md = old ++ [p] /\
    accessors (gltf s') !! pr_indices p = Some iacc /\
    (length (accessors (gltf s)) <= pr_indices p)%nat /\
    gl_count (acc_type iacc) = 1%nat /\
    (componentType (acc_type iacc) = CT_UINT <->
       useLongIndices options = ALWAYS \/
       (useLongIndices options = AUTO /\ 65535 < GetVertexCount sm)) /\
    (componentType (acc_type iacc) = CT_USHORT <->
       ~ (useLongIndices options = ALWAYS \/
          (useLongIndices options = AUTO /\ 65535 < GetVertexCount sm))) /\
    (forall k a,
       (length (accessors (gltf s)) <= k)%nat ->
       accessors (gltf s') !! k = Some a -> acc_sparse a = true ->
       sparseIdxBufferViewType a = glType (componentType (acc_type iacc)) /\
       exists iv v,
         sparseIdxBufferView a = Z.of_nat iv /\
         bufferViews (gltf s') !! iv = Some v /\
         bv_byteLength v = sparseIdxCount a * ct_size (componentType (acc_type iacc))) /\
    (forall j pAcc nAcc tAcc k a,
       pr_targets p !! j = Some (pAcc, nAcc, tAcc) ->
       k = pAcc \/ nAcc = Some k \/ tAcc = Some k ->
       accessors (gltf s') !! k = Some a -> acc_sparse a = true ->
       sparseIdxBufferViewType a = glType (componentType (acc_type iacc))).
Proof.
  intros Hrun. apply surface_step_post in Hrun.
  destruct Hrun as (rawSurface & na & nv & nb & mesh & md & old & p & iacc & b & nbase
    & di & dv & Hsurf & HA & HV & HB & Hm' & Hmd & Hprims & _ & _ & _ & Hiacc & Hnew
    & Hty & Hok & _ & _ & _ & _ & _ & Hlen & Hts & _).
  exists mesh, md, old, p, iacc.
  split; [done|]. split; [done|]. split; [done|]. split; [done|].
  rewrite Hty. pose proof (decide_long_indices_spec options sm) as Hdec.
  split; [by destruct (decide_long_indices options sm)|].
  split.
  { rewrite <- Hdec. destruct (decide_long_indices options sm); cbn; split; done. }
  split.
  { rewrite <- Hdec. destruct (decide_long_indices options sm); cbn; split; done. }
  split.
  - intros k a Hk Ha Hsp. rewrite HA, lookup_app_r in Ha by done.
    eapply Forall_lookup_1 in Hok; [|exact Ha].
    destruct (Hok Hsp) as (Ht & _ & iv & v & Hiv & Hv & Hl).
    split; [done|]. exists iv, v. split; [done|]. split; [done|].
    rewrite Hl, byteStride_index. by destruct (decide_long_indices options sm).
  - intros j pAcc nAcc tAcc k a Ht Hk Ha Hsp.
    destruct (lookup_lt_is_Some_2 (rs_blendChannels rawSurface) j) as [channel Hc].
    { rewrite <- Hlen. by eapply lookup_lt_Some. }
    destruct (Hts j channel _ Hc Ht) as (d & Hd & Hspec).
    by eapply target_sparse_type.
Qed.


(** C8: with sparse blend shapes enabled, a blend channel with modified
    vertices and collected tangents gets a tangent accessor that is sparse,
    of type VEC4, with one substituted element per collected tangent, and
    whose bufferView, byteOffset and count are those of the accessor of the
    NORMAL attribute of the primitive, an accessor of type VEC3. *)
Theorem sparse_tangent_over_normal_base options materialsById sm meshBySurfaceId s m' s' :
  surface_step to_uint32 EncodeMeshToBuffer options materialsById sm meshBySurfaceId s
    = Some (m', s') ->
  disableSparseBlendShapes options = false ->
  exists rawSurface mesh md old p,
    raw_surfaces sm = [rawSurface] /\
    meshes (gltf s') !! mesh = Some md /\
    mesh_primitives md = old ++ [p] /\
    forall j channel d,
      rs_blendChannels rawSurface !! j = Some channel ->
      collect_channel options sm channel j = Some d ->
      sparseIndices d <> [] -> tangents d <> [] ->
      exists pAcc nAcc ta tacc ni nbacc,
        pr_targets p !! j = Some (pAcc, nAcc, Some ta) /\
        accessors (gltf s') !! ta = Some tacc /\
        ("NORMAL", ni) ∈ pr_attributes p /\
        accessors (gltf s') !! ni = Some nbacc /\
        acc_type nbacc = GLT_VEC3F /\
        acc_sparse tacc = true /\
        acc_type tacc = GLT_VEC4F /\
        acc_bufferView tacc = acc_bufferView nbacc /\
        acc_byteOffset tacc = acc_byteOffset nbacc /\
        acc_count tacc = acc_count nbacc /\
        sparseIdxCount tacc = Z.of_nat (length (tangents d)).
Proof.
  intros Hrun Hdis. apply surface_step_post in Hrun.
  destruct Hrun as (rawSurface & na & nv & nb & mesh & md & old & p & iacc & b & nbase
    & di & dv & Hsurf & HA & HV & HB & Hm' & Hmd & Hprims & _ & _ & _ & Hiacc & Hnew
    & Hty & Hok & Hpos & Hnorm & Hinv & Hdi & Hdv & Hlen & Hts & Hlazy).
  exists rawSurface, mesh, md, old, p.
  split; [done|]. split; [done|]. split; [done|].
  intros j channel d Hc Hd Hs Htan.
  destruct (lookup_lt_is_Some_2 (pr_targets p) j) as [[[pAcc nAcc] tAcc] Ht].
  { rewrite Hlen. by eapply lookup_lt_Some. }
  destruct (Hts j channel _ Hc Ht) as (d' & Hd' & _ & _ & Hsparse).
  assert (d' = d) as -> by congruence.
  destruct (Hsparse Hdis Hs) as (_ & _ & _ & _ & Ht1).
  destruct (Ht1 Htan) as (nbacc & ta & iv & dvw & Hnb & -> & tacc & Htacc & Hsame).
  destruct (Hnorm nbacc Hnb) as (ni & Hni & Hnbacc & Hnty).
  apply same_but_bounds_fields in Hsame. cbn in Hsame.
  exists pAcc, nAcc, ta, tacc, ni, nbacc. tauto.
Qed.

(** C9: when disableSparseBlendShapes is set, a surface model keeps the
    tangent accessor of every morph target of every primitive null, and in
    the primitive it adds, the target of a channel with collected tangents
    has the plain VEC4 accessor of the tangents in its normal slot; if
    normals were collected as well, their plain VEC3 accessor was created
    for the channel but the target does not name it. *)
Theorem dense_targets options materialsById sm meshBySurfaceId s m' s' :
  surface_step to_uint32 EncodeMeshToBuffer options materialsById sm meshBySurfaceId s
    = Some (m', s') ->
  disableSparseBlendShapes options = true ->
  (null_tangents (gltf s) -> null_tangents (gltf s')) /\
  exists rawSurface mesh md old p,
    raw_surfaces sm = [rawSurface] /\
    meshes (gltf s') !! mesh = Some md /\
    mesh_primitives md = old ++ [p] /\
    length (pr_targets p) = length (rs_blendChannels rawSurface) /\
    (forall t, t ∈ pr_targets p -> t.2 = None) /\
    forall j channel d,
      rs_blendChannels rawSurface !! j = Some channel ->
      collect_channel options sm channel j = Some d ->
      tangents d <> [] ->
      exists pAcc a tacc,
        pr_targets p !! j = Some (pAcc, Some a, None) /\
        accessors (gltf s') !! a = Some tacc /\
        acc_sparse tacc = false /\
        acc_type tacc = GLT_VEC4F /\
        acc_count tacc = Z.of_nat (length (tangents d)) /\
        (normals d <> [] ->
           exists n nacc,
             n <> a /\
             accessors (gltf s') !! n = Some nacc /\
             acc_sparse nacc = false /\
             acc_type nacc = GLT_VEC3F /\
             acc_count nacc = Z.of_nat (length (normals d)) /\
             acc_name nacc = bc_name channel).
Proof.
  intros Hrun Hdis. apply surface_step_post in Hrun.
  destruct Hrun as (rawSurface & na & nv & nb & mesh & md & old & p & iacc & b & nbase
    & di & dv & Hsurf & HA & HV & HB & Hm' & Hmd & Hprims & Hother & Hold & Hold0
    & Hiacc & Hnew & Hty & Hok & Hpos & Hnorm & Hinv & Hdi & Hdv & Hlen & Hts & Hlazy).
  assert (Hnull : forall t, t ∈ pr_targets p -> t.2 = None).
  { intros [[pAcc nAcc] tAcc] Hin. apply list_elem_of_lookup in Hin as [j Ht].
    destruct (lookup_lt_is_Some_2 (rs_blendChannels rawSurface) j) as [channel Hc].
    { rewrite <- Hlen. by eapply lookup_lt_Some. }
    destruct (Hts j channel _ Hc Ht) as (d & Hd & Hdense & _).
    by destruct (Hdense Hdis) as (-> & _). }
  split.
  { intros Hbefore md1 p1 t Hmd1 Hp1 Ht.
    apply list_elem_of_lookup in Hmd1 as [k Hk].
    destruct (decide (k = mesh)) as [->|Hne].
    - assert (md1 = md) as -> by congruence.
      rewrite Hprims in Hp1. apply elem_of_app in Hp1 as [Hp1|Hp1].
      + destruct (meshes (gltf s) !! mesh) as [md0|] eqn:Hmd0.
        * apply (Hbefore md0 p1 t); [by eapply list_elem_of_lookup_2| |done].
          by rewrite (Hold md0 eq_refl).
        * rewrite (Hold0 eq_refl) in Hp1. by apply elem_of_nil in Hp1.
      + apply list_elem_of_singleton in Hp1 as ->. by apply Hnull.
    - rewrite (Hother k Hne) in Hk.
      apply (Hbefore md1 p1 t); [by eapply list_elem_of_lookup_2|done|done]. }
  exists rawSurface, mesh, md, old, p.
  split; [done|]. split; [done|]. split; [done|]. split; [done|]. split; [done|].
  intros j channel d Hc Hd Htan.
  destruct (lookup_lt_is_Some_2 (pr_targets p) j) as [[[pAcc nAcc] tAcc] Ht].
  { rewrite Hlen. by eapply lookup_lt_Some. }
  destruct (Hts j channel _ Hc Ht) as (d' & Hd' & Hdense & _).
  assert (d' = d) as -> by congruence.
  destruct (Hdense Hdis) as (-> & _ & Htg & _ & _ & Hrep).
  destruct (Htg Htan) as (a & v & -> & tacc & Htacc & Hsame).
  apply same_but_bounds_fields in Hsame. cbn in Hsame.
  exists pAcc, a, tacc. split; [done|]. split; [done|].
  split; [tauto|]. split; [tauto|]. split; [tauto|].
  intros Hn. destruct (Hrep Htan Hn) as (n & v' & Hne & nacc & Hnacc & Hsame').
  apply same_but_bounds_fields in Hsame'. cbn in Hsame'.
  exists n, nacc. split; [congruence|]. tauto.
Qed.

End SurfaceTheorems.

(** * What a stage leaves alone *)

Section Respects.

(** [R s s']: a relation between the state before and the state after,
    transitive, and indifferent to what is outside the model *)
Variable R : State -> State -> Prop.
Hypothesis R_trans : forall s1 s2 s3, R s1 s2 -> R s2 s3 -> R s1 s3.
Hypothesis R_gltf : forall s s', gltf s' = gltf s -> R s s'.

Definition respects {A} (m : M A) : Prop := forall s, post m s (fun _ s' => R s s').

Lemma respects_ret {A} (x : A) : respects (mret x).
Proof. intros s. apply post_ret. by apply R_gltf. Qed.

Lemma respects_bind {A B} (m : M A) (f : A -> M B) :
  respects m -> (forall x, respects (f x)) -> respects (m ≫= f).
Proof.
  intros Hm Hf s. apply post_bind. eapply post_weaken; [apply Hm|].
  intros x s1 H1. eapply post_weaken; [apply Hf|]. intros y s2 H2.
  cbv beta in *. eapply R_trans; eassumption.
Qed.

Lemma respects_abort {A} : respects (@abort A).
Proof. intros s. apply post_abort. Qed.

Lemma respects_deref {A} (o : option A) : respects (deref o).
Proof. destruct o; [apply respects_ret|apply respects_abort]. Qed.

Lemma respects_assert b : respects (assert b).
Proof. destruct b; [apply respects_ret|apply respects_abort]. Qed.

Lemma respects_get_model : respects get_model.
Proof. intros s. apply post_get_model. by apply R_gltf. Qed.

Lemma respects_same {A} (m : M A) :
  (forall s x s', m s = Some (x, s') -> gltf s' = gltf s) -> respects m.
Proof. intros H s x s' E. apply R_gltf. by eapply H. Qed.

Lemma respects_modify f :
  (forall s, R s (set_gltf (f (gltf s)) s)) -> respects (modify f).
Proof. intros H s. apply post_modify, H. Qed.

Lemma respects_for_each {A} (xs : list A) (body : A -> M unit) :
  (forall x, respects (body x)) -> respects (for_each xs body).
Proof.
  intros Hb. induction xs as [|x xs IH]; cbn [for_each].
  - apply respects_ret.
  - apply respects_bind; [apply Hb|]. intros _. apply IH.
Qed.

Lemma respects_for_fold {A L} (xs : list A) (body : A -> L -> M L) :
  (forall x l, respects (body x l)) -> forall l, respects (for_fold xs body l).
Proof.
  intros Hb. induction xs as [|x xs IH]; intros l; cbn [for_fold].
  - apply respects_ret.
  - apply respects_bind; [apply Hb|]. intros l'. apply IH.
Qed.

Lemma respects_post {A} (m : M A) s (Q : A -> State -> Prop) :
  respects m -> (forall x s', R s s' -> Q x s') -> post m s Q.
Proof. intros Hm HQ. eapply post_weaken; [apply Hm|]. exact HQ. Qed.

End Respects.

Create HintDb respects.

Ltac head_of t := lazymatch t with ?f _ => head_of f | _ => t end.

(** one step of the proof that a stage respects [R]; [tr] and [gl] are the
    proofs of transitivity and of indifference, [md] solves the goals
    [R s (set_gltf (f (gltf s)) s)] *)
Ltac respects_step tr gl md :=
  cbv beta zeta;
  lazymatch goal with
  | |- respects _ (mret _) => apply (respects_ret _ gl)
  | |- respects _ (mbind _ _) => apply (respects_bind _ tr); [|intros ?]
  | |- respects _ abort => apply respects_abort
  | |- respects _ (deref _) => apply (respects_deref _ gl)
  | |- respects _ (assert _) => apply (respects_assert _ gl)
  | |- respects _ get_model => apply (respects_get_model _ gl)
  | |- respects _ (printf _) =>
      apply (respects_same _ gl); intros ? ? ? [= _ <-]; reflexivity
  | |- respects _ (tb_record _) =>
      apply (respects_same _ gl); intros ? ? ? [= _ <-]; reflexivity
  | |- respects _ tb_get_simple => apply (respects_same _ gl); intros ? ? ? [= _ <-]; reflexivity
  | |- respects _ tb_get_combined => apply (respects_same _ gl); intros ? ? ? [= _ <-]; reflexivity
  | |- respects _ (tb_put_simple _) =>
      apply (respects_same _ gl); intros ? ? ? [= _ <-]; reflexivity
  | |- respects _ (tb_put_combined _) =>
      apply (respects_same _ gl); intros ? ? ? [= _ <-]; reflexivity
  | |- respects _ (modify _) => apply respects_modify; intros ?; md
  | |- respects _ (for_each _ _) => apply (respects_for_each _ tr gl); intros ?
  | |- respects _ (for_fold _ _ _) => apply (respects_for_fold _ tr gl); intros ? ?
  | |- respects _ (if ?b then _ else _) => destruct b
  | |- respects _ (match ?x with _ => _ end) => destruct x
  | |- respects _ ?m =>
      first [ solve [eauto with respects]
            | let h := head_of m in unfold h ]
  end.

Ltac respects_tac tr gl md := repeat (respects_step tr gl md).

(** ** The nodes, the lights and the meshes are left alone *)

Definition keeps_links (s s' : State) : Prop :=
  nodes (gltf s') = nodes (gltf s) /\ lights (gltf s') = lights (gltf s) /\
  meshes (gltf s') = meshes (gltf s).

Lemma keeps_links_trans s1 s2 s3 :
  keeps_links s1 s2 -> keeps_links s2 s3 -> keeps_links s1 s3.
Proof. intros (? & ? & ?) (? & ? & ?). repeat split; congruence. Qed.

Lemma keeps_links_gltf s s' : gltf s' = gltf s -> keeps_links s s'.
Proof. intros H. unfold keeps_links. by rewrite H. Qed.

Ltac links_tac := respects_tac keeps_links_trans keeps_links_gltf ltac:(by repeat split).

Lemma build_animations_links raw nodesById :
  respects keeps_links (build_animations raw nodesById).
Proof. links_tac. Qed.

Lemma build_materials_links raw options unassigned :
  respects keeps_links (build_materials raw options unassigned).
Proof. links_tac. Qed.

(** * The nodes and what they point to *)

(** what a node is, apart from its children, skin, camera and properties *)
Definition node_view (n : NodeData) :=
  (nd_ix n, nd_name n, nd_translation n, nd_rotation n, nd_scale n, nd_isJoint n,
   nd_mesh n, nd_light n).

(** the node of raw node [node], held at [i], before any assignment *)
Definition raw_view (i : nat) (node : RawNode) :=
  (i, rn_name node, rn_translation node, rn_rotation node, rn_scale node,
   rn_isJoint node, -1, -1).

Fixpoint raw_views (k : nat) (l : list RawNode) :=
  match l with
  | [] => []
  | node :: r => raw_view k node :: raw_views (S k) r
  end.

Lemma raw_views_length k l : length (raw_views k l) = length l.
Proof. revert k. induction l as [|x l IH]; intros k; cbn; [done|]. by rewrite IH. Qed.

Lemma raw_views_lookup l : forall k i node,
  l !! i = Some node -> raw_views k l !! i = Some (raw_view (k + i) node).
Proof.
  induction l as [|x l IH]; intros k [|i] node H; try done.
  - cbn in *. injection H as <-. by rewrite Nat.add_0_r.
  - cbn [raw_views]. rewrite lookup_cons. rewrite (IH (S k) i node H).
    by rewrite Nat.add_succ_comm.
Qed.

(** the views of the nodes, the lights and the meshes are left alone *)
Definition keeps_views (s s' : State) : Prop :=
  map node_view (nodes (gltf s')) = map node_view (nodes (gltf s)) /\
  lights (gltf s') = lights (gltf s) /\ meshes (gltf s') = meshes (gltf s).

Lemma keeps_views_trans s1 s2 s3 :
  keeps_views s1 s2 -> keeps_views s2 s3 -> keeps_views s1 s3.
Proof. intros (? & ? & ?) (? & ? & ?). repeat split; congruence. Qed.

Lemma keeps_views_gltf s s' : gltf s' = gltf s -> keeps_views s s'.
Proof. intros H. unfold keeps_views. by rewrite H. Qed.

Lemma keeps_links_views s s' : keeps_links s s' -> keeps_views s s'.
Proof. intros (H & ? & ?). unfold keeps_views. by rewrite H. Qed.

Lemma update_node_views ix f :
  (forall n, node_view (f n) = node_view n) ->
  respects keeps_views (update_node ix f).
Proof.
  intros Hf s. unfold update_node. apply post_bind, post_get_model.
  apply post_bind, post_deref. intros n Hn. apply post_modify.
  split; [|done]. cbn. rewrite list_fmap_insert, Hf.
  apply list_insert_id. by rewrite list_lookup_fmap, Hn.
Qed.

Lemma update_node_props ix p : respects keeps_views (update_node ix (set_userProperties p)).
Proof. by apply update_node_views. Qed.
Lemma update_node_child ix c : respects keeps_views (update_node ix (AddChildNode c)).
Proof. by apply update_node_views. Qed.
Lemma update_node_camera ix c : respects keeps_views (update_node ix (SetCamera c)).
Proof. by apply update_node_views. Qed.
Lemma update_node_skin ix c : respects keeps_views (update_node ix (SetSkin c)).
Proof. by apply update_node_views. Qed.

#[local] Hint Resolve update_node_props update_node_child update_node_camera
  update_node_skin : respects.

Ltac views_tac := respects_tac keeps_views_trans keeps_views_gltf ltac:(by repeat split).

(** lines 132-150: each raw node is held after the nodes held so far *)
Lemma node_step_post raw options node nodesById s :
  post (node_step raw options node nodesById) s
    (fun _ s' =>
       map node_view (nodes (gltf s')) =
         map node_view (nodes (gltf s)) ++ [raw_view (length (nodes (gltf s))) node] /\
       lights (gltf s') = lights (gltf s) /\ meshes (gltf s') = meshes (gltf s)).
Proof.
  unfold node_step. apply post_bind, post_get_model. rewrite hold_length.
  cbv iota beta. apply post_bind, post_modify.
  set (s1 := set_gltf _ s).
  assert (H1 : map node_view (nodes (gltf s1)) =
                 map node_view (nodes (gltf s)) ++ [raw_view (length (nodes (gltf s))) node]).
  { unfold s1. cbn. by rewrite map_app. }
  assert (Hrest : forall (m : M (gmap Z nat)), respects keeps_views m ->
            post m s1 (fun _ s' =>
              map node_view (nodes (gltf s')) =
                map node_view (nodes (gltf s)) ++ [raw_view (length (nodes (gltf s))) node] /\
              lights (gltf s') = lights (gltf s) /\ meshes (gltf s') = meshes (gltf s))).
  { intros m Hm. eapply post_weaken; [apply Hm|].
    intros x s' (Hv & Hl & Hmesh). rewrite Hv, Hl, Hmesh. by rewrite H1. }
  apply Hrest. views_tac.
Qed.

Lemma build_nodes_post raw options : forall l nodesById s,
  post (for_fold l (node_step raw options) nodesById) s
    (fun _ s' =>
       map node_view (nodes (gltf s')) =
         map node_view (nodes (gltf s)) ++ raw_views (length (nodes (gltf s))) l /\
       lights (gltf s') = lights (gltf s) /\ meshes (gltf s') = meshes (gltf s)).
Proof.
  induction l as [|node l IH]; intros nodesById s; cbn [for_fold raw_views].
  - apply post_ret. by rewrite app_nil_r.
  - apply post_bind. eapply post_weaken; [apply node_step_post|].
    intros nbi s1 (Hv & Hl & Hm). eapply post_weaken; [apply IH|].
    intros nbi' s' (Hv' & Hl' & Hm'). rewrite Hv', Hl', Hm'.
    split; [|by split].
    assert (Hlen : length (nodes (gltf s1)) = S (length (nodes (gltf s)))).
    { apply (f_equal length) in Hv. rewrite length_app, !length_map in Hv.
      cbn in Hv. lia. }
    rewrite Hlen, Hv, <- app_assoc. done.
Qed.

(** every mesh carries the index the holder gave it *)
Definition mesh_aligned (l : list MeshData) : Prop :=
  forall k md, l !! k = Some md -> mesh_ix md = k.

(** the nodes and the lights are left alone, the meshes stay aligned *)
Definition keeps_nodes (s s' : State) : Prop :=
  nodes (gltf s') = nodes (gltf s) /\ lights (gltf s') = lights (gltf s) /\
  (mesh_aligned (meshes (gltf s)) -> mesh_aligned (meshes (gltf s'))).

Lemma keeps_nodes_trans s1 s2 s3 :
  keeps_nodes s1 s2 -> keeps_nodes s2 s3 -> keeps_nodes s1 s3.
Proof. intros (? & ? & ?) (? & ? & ?). repeat split; [congruence|congruence|auto]. Qed.

Lemma keeps_nodes_gltf s s' : gltf s' = gltf s -> keeps_nodes s s'.
Proof. intros H. unfold keeps_nodes. by rewrite H. Qed.

Lemma hold_mesh_nodes m : respects keeps_nodes (hold_mesh m).
Proof.
  intros s. unfold hold_mesh. apply post_bind, post_get_model. rewrite hold_length.
  cbv iota beta. apply post_bind, post_modify. apply post_ret.
  split; [done|]. split; [done|]. cbn. intros Hal k md Hk.
  destruct (decide (k < length (meshes (gltf s)))%nat).
  - rewrite lookup_app_l in Hk by done. by apply Hal.
  - rewrite lookup_app_r in Hk by lia.
    destruct (k - length (meshes (gltf s)))%nat as [|?] eqn:E; [|done].
    cbn in Hk. injection Hk as <-. cbn. lia.
Qed.

Lemma AddPrimitive_nodes mesh p : respects keeps_nodes (AddPrimitive mesh p).
Proof.
  intros s. unfold AddPrimitive. apply post_bind, post_get_model.
  apply post_bind, post_deref. intros m Hm. apply post_modify.
  split; [done|]. split; [done|]. cbn. intros Hal k md Hk.
  destruct (decide (k = mesh)) as [->|Hne].
  - rewrite list_lookup_insert_eq in Hk by (by eapply lookup_lt_Some).
    injection Hk as <-. cbn. by apply Hal.
  - rewrite list_lookup_insert_ne in Hk by done. by apply Hal.
Qed.

#[local] Hint Resolve hold_mesh_nodes AddPrimitive_nodes : respects.

Ltac nodes_tac := respects_tac keeps_nodes_trans keeps_nodes_gltf ltac:(by repeat split).

(** a loop over the raw nodes and their indices whose iteration [i] assigns
    only to node [i] of the holder *)
Lemma indexed_loop (body : nat * RawNode -> M unit) (F : State -> State -> Prop)
    (Inv : State -> Prop) (P : nat -> RawNode -> NodeData -> NodeData -> Prop) :
  (forall s, F s s) ->
  (forall s1 s2 s3, F s1 s2 -> F s2 s3 -> F s1 s3) ->
  (forall s s', F s s' -> Inv s -> Inv s') ->
  (forall i node s, Inv s ->
     post (body (i, node)) s
       (fun _ s' =>
          F s s' /\ length (nodes (gltf s')) = length (nodes (gltf s)) /\
          (forall j, j <> i -> nodes (gltf s') !! j = nodes (gltf s) !! j) /\
          exists nd nd', nodes (gltf s) !! i = Some nd /\
                         nodes (gltf s') !! i = Some nd' /\ P i node nd nd')) ->
  forall l k s, Inv s ->
    post (for_each (zip (seq k (length l)) l) body) s
      (fun _ s' =>
         F s s' /\ length (nodes (gltf s')) = length (nodes (gltf s)) /\
         (forall j, (j < k \/ k + length l <= j)%nat ->
                    nodes (gltf s') !! j = nodes (gltf s) !! j) /\
         (forall j node, l !! j = Some node ->
            exists nd nd', nodes (gltf s) !! (k + j)%nat = Some nd /\
                           nodes (gltf s') !! (k + j)%nat = Some nd' /\
                           P (k + j)%nat node nd nd')).
Proof.
  intros Frefl Ftrans Finv Hbody. induction l as [|x l IH]; intros k s Hinv.
  - cbn. apply post_ret. split; [done|]. split; [done|]. split; [done|].
    intros j node H. done.
  - cbn [length seq zip zip_with for_each]. apply post_bind.
    eapply post_weaken; [by apply Hbody|].
    intros [] s1 (HF1 & Hlen1 & Hoth1 & nd & nd1 & Hnd & Hnd1 & HP).
    eapply post_weaken; [apply (IH (S k) s1); by eapply Finv|].
    intros [] s' (HF' & Hlen' & Hoth' & Hall').
    split; [by eapply Ftrans|]. split; [congruence|].
    split.
    { intros j Hj. rewrite Hoth' by (cbn in Hj; lia). apply Hoth1. cbn in Hj. lia. }
    intros [|j] node Hj; cbn in Hj.
    + injection Hj as <-. rewrite Nat.add_0_r. exists nd, nd1.
      split; [done|]. split; [|done]. rewrite Hoth' by lia. done.
    + destruct (Hall' j node Hj) as (nd2 & nd2' & Hnd2 & Hnd2' & HP2).
      rewrite <- Nat.add_succ_comm. exists nd2, nd2'.
      split; [|done]. rewrite <- Hoth1 by lia. done.
Qed.

(** only node [i] is assigned to, and its view is kept *)
Definition touches (i : nat) (s s' : State) : Prop :=
  lights (gltf s') = lights (gltf s) /\ meshes (gltf s') = meshes (gltf s) /\
  length (nodes (gltf s')) = length (nodes (gltf s)) /\
  (forall j, j <> i -> nodes (gltf s') !! j = nodes (gltf s) !! j) /\
  (forall nd, nodes (gltf s) !! i = Some nd ->
     exists nd', nodes (gltf s') !! i = Some nd' /\ node_view nd' = node_view nd).

Lemma touches_trans i s1 s2 s3 : touches i s1 s2 -> touches i s2 s3 -> touches i s1 s3.
Proof.
  intros (Hl & Hm & Hlen & Ho & Hi) (Hl' & Hm' & Hlen' & Ho' & Hi').
  split; [congruence|]. split; [congruence|]. split; [congruence|].
  split. { intros j Hj. rewrite Ho' by done. by apply Ho. }
  intros nd Hnd. destruct (Hi nd Hnd) as (nd1 & Hnd1 & Hv1).
  destruct (Hi' nd1 Hnd1) as (nd2 & Hnd2 & Hv2). exists nd2. split; [done|congruence].
Qed.

Lemma touches_gltf i s s' : gltf s' = gltf s -> touches i s s'.
Proof.
  intros H. unfold touches. rewrite H. repeat split; try done.
  intros nd Hnd. by exists nd.
Qed.

Lemma touches_same i s s' :
  nodes (gltf s') = nodes (gltf s) -> lights (gltf s') = lights (gltf s) ->
  meshes (gltf s') = meshes (gltf s) -> touches i s s'.
Proof.
  intros Hn Hl Hm. unfold touches. rewrite Hn, Hl, Hm. repeat split; try done.
  intros nd Hnd. by exists nd.
Qed.

Lemma update_node_touches i f :
  (forall n, node_view (f n) = node_view n) -> respects (touches i) (update_node i f).
Proof.
  intros Hf s. unfold update_node. apply post_bind, post_get_model.
  apply post_bind, post_deref. intros n Hn. apply post_modify.
  unfold touches. cbn [gltf set_gltf set_nodes nodes lights meshes].
  split; [done|]. split; [done|]. split; [by rewrite length_insert|].
  split. { intros j Hj. by rewrite list_lookup_insert_ne. }
  intros nd Hnd. exists (f n).
  split; [apply list_lookup_insert_eq; by eapply lookup_lt_Some|]. rewrite Hf. congruence.
Qed.

Lemma update_node_skin_touches i c : respects (touches i) (update_node i (SetSkin c)).
Proof. by apply update_node_touches. Qed.

Lemma joint_indexes_touches i nodesById ids :
  respects (touches i) (joint_indexes nodesById ids).
Proof.
  induction ids as [|id ids IH]; cbn [joint_indexes].
  - apply (respects_ret _ (touches_gltf i)).
  - respects_tac (touches_trans i) (touches_gltf i) ltac:(apply touches_same; reflexivity).
Qed.

#[local] Hint Resolve update_node_skin_touches joint_indexes_touches : respects.

Ltac touches_tac i :=
  respects_tac (touches_trans i) (touches_gltf i)
    ltac:(apply touches_same; reflexivity).

Section Stages.

Variable to_uint32 : Z -> option Z.
Variable EncodeMeshToBuffer : DracoEncoder -> DracoMesh -> option (list byte).

Lemma build_surfaces_nodes options materialsById materialModels :
  respects keeps_nodes
    (build_surfaces to_uint32 EncodeMeshToBuffer options materialsById materialModels).
Proof. nodes_tac. Qed.

(** what the assignment of meshes makes of node [i] (lines 823-834) *)
Definition mesh_assigned (raw : RawModel) (meshBySurfaceId : gmap Z nat)
    (Ms : list MeshData) (node : RawNode) (nd nd' : NodeData) : Prop :=
  (nd_ix nd', nd_name nd', nd_translation nd', nd_rotation nd', nd_scale nd',
   nd_isJoint nd', nd_light nd') =
  (nd_ix nd, nd_name nd, nd_translation nd, nd_rotation nd, nd_scale nd,
   nd_isJoint nd, nd_light nd) /\
  (0 < rn_surfaceId node ->
     exists rawSurface m md,
       at_index (raw_surfaces raw) (GetSurfaceById raw (rn_surfaceId node))
         = Some rawSurface /\
       meshBySurfaceId !! rs_id rawSurface = Some m /\
       Ms !! m = Some md /\ nd_mesh nd' = Z.of_nat (mesh_ix md)) /\
  (rn_surfaceId node <= 0 -> nd_mesh nd' = nd_mesh nd).

Lemma assign_mesh_step_post raw nodesById meshBySurfaceId Ms i node s :
  meshes (gltf s) = Ms ->
  post (assign_mesh_step raw nodesById meshBySurfaceId (i, node)) s
    (fun _ s' =>
       (lights (gltf s') = lights (gltf s) /\ meshes (gltf s') = meshes (gltf s)) /\
       length (nodes (gltf s')) = length (nodes (gltf s)) /\
       (forall j, j <> i -> nodes (gltf s') !! j = nodes (gltf s) !! j) /\
       exists nd nd', nodes (gltf s) !! i = Some nd /\
                      nodes (gltf s') !! i = Some nd' /\
                      mesh_assigned raw meshBySurfaceId Ms node nd nd').
Proof.
  intros HMs. unfold assign_mesh_step. apply post_bind, post_get_model.
  apply post_bind, post_deref. intros nd Hnd. cbv zeta.
  destruct (0 <? rn_surfaceId node) eqn:Hsurf.
  2:{ apply post_ret. split; [done|]. split; [done|]. split; [done|].
      exists nd, nd. split; [done|]. split; [done|].
      apply Z.ltb_ge in Hsurf. split; [done|]. split; [lia|done]. }
  apply Z.ltb_lt in Hsurf.
  apply post_bind, post_deref. intros rawSurface Hrs.
  apply post_bind. unfold require. apply post_deref. intros m Hm.
  apply post_bind, post_get_model. apply post_bind, post_deref. intros md Hmd.
  apply post_bind. unfold update_node at 1. apply post_bind, post_get_model.
  apply post_bind, post_deref. intros nd0 Hnd0. apply post_modify.
  assert (nd0 = nd) as -> by congruence.
  set (s1 := set_gltf _ s).
  assert (H1 : nodes (gltf s1) !! i = Some (SetMesh (Z.of_nat (mesh_ix md)) nd)).
  { unfold s1. cbn [gltf set_gltf set_nodes nodes].
    apply list_lookup_insert_eq. by eapply lookup_lt_Some. }
  assert (Hrest : forall (mm : M unit), respects (touches i) mm ->
            post mm s1 (fun _ s' =>
       (lights (gltf s') = lights (gltf s) /\ meshes (gltf s') = meshes (gltf s)) /\
       length (nodes (gltf s')) = length (nodes (gltf s)) /\
       (forall j, j <> i -> nodes (gltf s') !! j = nodes (gltf s) !! j) /\
       exists nd nd', nodes (gltf s) !! i = Some nd /\
                      nodes (gltf s') !! i = Some nd' /\
                      mesh_assigned raw meshBySurfaceId Ms node nd nd')).
  { intros mm Hmm. eapply post_weaken; [apply Hmm|].
    intros [] s' (Hl & Hme & Hlen & Ho & Hi).
    split; [split; [by rewrite Hl|by rewrite Hme]|].
    split; [rewrite Hlen; unfold s1; cbn [gltf set_gltf set_nodes nodes];
            by rewrite length_insert|].
    split. { intros j Hj. rewrite Ho by done. unfold s1.
             cbn [gltf set_gltf set_nodes nodes].
             by rewrite list_lookup_insert_ne. }
    destruct (Hi _ H1) as (nd' & Hnd' & Hv). exists nd, nd'.
    split; [done|]. split; [done|].
    unfold node_view in Hv. cbn in Hv. injection Hv as E1 E2 E3 E4 E5 E6 E7 E8.
    split; [congruence|]. split; [|lia].
    intros _. exists rawSurface, m, md. rewrite <- HMs. done. }
  apply Hrest. touches_tac i.
Qed.

Lemma assign_meshes_post raw nodesById meshBySurfaceId Ms s :
  meshes (gltf s) = Ms ->
  post (assign_meshes raw nodesById meshBySurfaceId) s
    (fun _ s' =>
       (lights (gltf s') = lights (gltf s) /\ meshes (gltf s') = meshes (gltf s)) /\
       length (nodes (gltf s')) = length (nodes (gltf s)) /\
       forall i node, raw_nodes raw !! i = Some node ->
         exists nd nd', nodes (gltf s) !! i = Some nd /\
                        nodes (gltf s') !! i = Some nd' /\
                        mesh_assigned raw meshBySurfaceId Ms node nd nd').
Proof.
  intros HMs. unfold assign_meshes, indexed. eapply post_weaken.
  { apply (indexed_loop _
             (fun s s' => lights (gltf s') = lights (gltf s) /\
                          meshes (gltf s') = meshes (gltf s))
             (fun s => meshes (gltf s) = Ms)
             (fun _ => mesh_assigned raw meshBySurfaceId Ms)); [done| | | |exact HMs].
    - intros s1 s2 s3 [? ?] [? ?]. split; congruence.
    - intros s1 s2 [_ H] H1. congruence.
    - intros i node s1 H1. by apply assign_mesh_step_post. }
  intros [] s' (HF & Hlen & _ & Hall). split; [done|]. split; [done|].
  intros i node Hi. apply (Hall i node Hi).
Qed.

Lemma build_extra_skins_views raw : respects keeps_views (build_extra_skins raw).
Proof. views_tac. Qed.

Lemma build_cameras_views raw nodesById : respects keeps_views (build_cameras raw nodesById).
Proof. views_tac. Qed.

(** the light of raw light [light], held at [k] *)
Definition light_of (k : nat) (light : RawLight) : LightData :=
  {| light_ix := k; light_name := rl_name light;
     light_type := match rl_type light with
                   | RAW_LIGHT_TYPE_DIRECTIONAL => Directional
                   | RAW_LIGHT_TYPE_POINT => Point
                   | RAW_LIGHT_TYPE_SPOT => Spot
                   end;
     light_color := rl_color light;
     light_intensity := fdiv (rl_intensity light) (f32_of_Z 100);
     light_innerConeAngle := rl_innerConeAngle light;
     light_outerConeAngle := rl_outerConeAngle light |}.

Fixpoint lights_of (k : nat) (l : list RawLight) : list LightData :=
  match l with
  | [] => []
  | light :: r => light_of k light :: lights_of (S k) r
  end.

Lemma lights_of_length k l : length (lights_of k l) = length l.
Proof. revert k. induction l as [|x l IH]; intros k; cbn; [done|]. by rewrite IH. Qed.

Lemma lights_of_lookup l : forall k i light,
  l !! i = Some light -> lights_of k l !! i = Some (light_of (k + i) light).
Proof.
  induction l as [|x l IH]; intros k [|i] light H; try done.
  - cbn in *. injection H as <-. by rewrite Nat.add_0_r.
  - cbn [lights_of]. rewrite lookup_cons. rewrite (IH (S k) i light H).
    by rewrite Nat.add_succ_comm.
Qed.

(** lines 914-935: the lights are held in the order of the raw lights *)
Lemma hold_lights_post : forall l s,
  post (for_each l light_step) s
    (fun _ s' =>
       lights (gltf s') = lights (gltf s) ++ lights_of (length (lights (gltf s))) l /\
       nodes (gltf s') = nodes (gltf s) /\ meshes (gltf s') = meshes (gltf s)).
Proof.
  induction l as [|light l IH]; intros s; cbn [for_each lights_of].
  - apply post_ret. by rewrite app_nil_r.
  - apply post_bind. unfold light_step, hold_light.
    apply post_bind. apply post_bind, post_get_model. rewrite hold_length.
    cbv iota beta. apply post_bind, post_modify. apply post_ret. apply post_ret.
    eapply post_weaken; [apply IH|]. intros [] s' (Hl & Hn & Hm).
    rewrite Hl, Hn, Hm. cbn [gltf set_gltf set_lights lights nodes meshes].
    split; [|done]. rewrite length_app, <- app_assoc. cbn [length app].
    by rewrite Nat.add_1_r.
Qed.

(** what the attachment of lights makes of node [i] (lines 938-946) *)
Definition light_attached (node : RawNode) (nd nd' : NodeData) : Prop :=
  (nd_ix nd', nd_name nd', nd_translation nd', nd_rotation nd', nd_scale nd',
   nd_isJoint nd', nd_mesh nd') =
  (nd_ix nd, nd_name nd, nd_translation nd, nd_rotation nd, nd_scale nd,
   nd_isJoint nd, nd_mesh nd) /\
  (0 <= rn_lightIx node -> nd_light nd' = rn_lightIx node) /\
  (rn_lightIx node < 0 -> nd_light nd' = nd_light nd).

Lemma attach_light_step_post i node s :
  post (attach_light_step (i, node)) s
    (fun _ s' =>
       (lights (gltf s') = lights (gltf s) /\ meshes (gltf s') = meshes (gltf s)) /\
       length (nodes (gltf s')) = length (nodes (gltf s)) /\
       (forall j, j <> i -> nodes (gltf s') !! j = nodes (gltf s) !! j) /\
       exists nd nd', nodes (gltf s) !! i = Some nd /\
                      nodes (gltf s') !! i = Some nd' /\ light_attached node nd nd').
Proof.
  unfold attach_light_step. apply post_bind, post_get_model.
  apply post_bind, post_deref. intros nd Hnd.
  destruct (0 <=? rn_lightIx node) eqn:Hl.
  - apply Z.leb_le in Hl. unfold update_node. apply post_bind, post_get_model.
    apply post_bind, post_deref. intros nd0 Hnd0. apply post_modify.
    assert (nd0 = nd) as -> by congruence.
    cbn [gltf set_gltf set_nodes nodes lights meshes].
    split; [done|]. split; [by rewrite length_insert|].
    split. { intros j Hj. by rewrite list_lookup_insert_ne. }
    exists nd, (SetLight (rn_lightIx node) nd). split; [done|].
    split; [apply list_lookup_insert_eq; by eapply lookup_lt_Some|].
    split; [done|]. split; [done|lia].
  - apply Z.leb_gt in Hl. apply post_ret. split; [done|]. split; [done|].
    split; [done|]. exists nd, nd. split; [done|]. split; [done|].
    split; [done|]. split; [lia|done].
Qed.

Lemma attach_lights_post raw s :
  post (for_each (indexed (raw_nodes raw)) attach_light_step) s
    (fun _ s' =>
       (lights (gltf s') = lights (gltf s) /\ meshes (gltf s') = meshes (gltf s)) /\
       length (nodes (gltf s')) = length (nodes (gltf s)) /\
       forall i node, raw_nodes raw !! i = Some node ->
         exists nd nd', nodes (gltf s) !! i = Some nd /\
                        nodes (gltf s') !! i = Some nd' /\ light_attached node nd nd').
Proof.
  unfold indexed. eapply post_weaken.
  { apply (indexed_loop _
             (fun s s' => lights (gltf s') = lights (gltf s) /\
                          meshes (gltf s') = meshes (gltf s))
             (fun _ => True) (fun _ => light_attached)); [done| |done| |done].
    - intros s1 s2 s3 [? ?] [? ?]. split; congruence.
    - intros i node s1 _. apply attach_light_step_post. }
  intros [] s' (HF & Hlen & _ & Hall). split; [done|]. split; [done|].
  intros i node Hi. apply (Hall i node Hi).
Qed.

Lemma finish_views nodesById raw :
  respects keeps_views
    (rootNode ← node_ix_by_id nodesById (raw_rootNodeId raw);
     hold_scene {| scene_ix := 0; scene_name := DEFAULT_SCENE_NAME;
                   scene_root := rootNode |}).
Proof. views_tac. Qed.


Lemma views_lookup (l l' : list NodeData) i nd :
  map node_view l' = map node_view l -> l !! i = Some nd ->
  exists nd', l' !! i = Some nd' /\ node_view nd' = node_view nd.
Proof.
  intros Hv Hnd. apply (f_equal (fun x => x !! i)) in Hv.
  rewrite !list_lookup_fmap, Hnd in Hv. cbn in Hv.
  destruct (l' !! i) as [nd'|]; [|done]. cbn in Hv. exists nd'.
  split; [done|congruence].
Qed.

End Stages.

(** * Runs on the sample inputs *)

(** a run that returns, read back from its result *)
Definition is_some_b {A} (o : option A) : bool :=
  match o with Some _ => true | None => false end.

Lemma run_result {A} (d : A) (o : option A) :
  is_some_b o = true -> o = Some (default d o).
Proof. by destruct o. Qed.

Lemma run_pair {A B} (d : A * B) (o : option (A * B)) :
  is_some_b o = true -> o = Some ((default d o).1, (default d o).2).
Proof. destruct o as [[a b]|]; [done|discriminate]. Qed.

Lemma run_unit {B} (d : unit * B) (o : option (unit * B)) :
  is_some_b o = true -> o = Some (tt, (default d o).2).
Proof. destruct o as [[[] b]|]; [done|discriminate]. Qed.

Definition no_channel : ChannelData :=
  {| shapeBounds := None; positions := []; normals := []; tangents := [];
     sparseIndices := [] |}.

Definition no_target : RawBlendChannel :=
  {| bc_name := ""; bc_defaultDeform := f0; bc_hasNormals := false;
     bc_hasTangents := false |}.

(** the assembly of the sample model, one surface of it with the given
    options, its nodes alone, and the data of its blend channel [k] *)
Abbreviation ex_assembled :=
  (assemble ex_to_uint32 ex_encode ex_raw [ex_raw] ex_options ex_unassigned new_State).

Abbreviation ex_surface_run options :=
  (surface_step ex_to_uint32 ex_encode options {[7 := 0%nat]} ex_raw ∅ new_State).

Abbreviation ex_nodes_run := (build_nodes ex_raw ex_options new_State).

Abbreviation ex_target k := (rs_blendChannels ex_surface !! k%nat).

Abbreviation ex_channel options k :=
  (collect_channel options ex_raw (default no_target (ex_target k)) k%nat).

Lemma ex_to_uint32_fits n : 0 <= n < UINT32_MAX -> ex_to_uint32 n = Some n.
Proof.
  intros H. unfold ex_to_uint32, UINT32_MAX, UINT32_MOD in *.
  destruct (Z.ltb_spec n (2 ^ 32 - 1)); [done|lia].
Qed.

Lemma ex_assembled_returns : is_some_b ex_assembled = true.
Proof. vm_compute. reflexivity. Qed.

Lemma ex_surface_returns : is_some_b (ex_surface_run ex_options) = true.
Proof. vm_compute. reflexivity. Qed.

Lemma ex_dense_returns : is_some_b (ex_surface_run ex_options_dense) = true.
Proof. vm_compute. reflexivity. Qed.

(** the sample model is written as a file of 292 bytes *)
Lemma glb_container_layout_witness :
  exists out,
    Raw2Gltf ex_to_uint32 ex_encode ex_serialize fresh_stream ex_raw [ex_raw] ex_options
      ex_unassigned
      = Some (out, (default (0%nat, new_State) ex_assembled).2) /\
    length (file out) = 292%nat.
Proof.
  destruct (glb_container_layout ex_to_uint32 ex_to_uint32_fits ex_encode ex_serialize
              ex_raw [ex_raw] ex_options ex_unassigned _ _ eq_refl
              (run_pair (0%nat, new_State) ex_assembled ex_assembled_returns))
    as (out & Hout & _ & Hlen & _).
  { vm_compute. reflexivity. }
  exists out. split; [exact Hout|]. rewrite Hlen. vm_compute. reflexivity.
Defined.


(** the index accessor of the sample surface, three vertices under AUTO,
    has unsigned short components *)
Lemma index_width_witness :
  exists mesh md old p iacc,
    meshes (gltf (default (∅, new_State) (ex_surface_run ex_options)).2) !! mesh
      = Some md /\
    mesh_primitives md = old ++ [p] /\
    accessors (gltf (default (∅, new_State) (ex_surface_run ex_options)).2)
      !! pr_indices p = Some iacc /\
    componentType (acc_type iacc) = CT_USHORT.
Proof.
  destruct (index_width ex_to_uint32 ex_encode ex_options _ ex_raw _ _ _ _
              (run_pair (∅, new_State) (ex_surface_run ex_options) ex_surface_returns))
    as (mesh & md & old & p & iacc & Hmd & Hold & Hiacc & _ & _ & _ & Hshort & _).
  exists mesh, md, old, p, iacc. split; [exact Hmd|]. split; [exact Hold|].
  split; [exact Hiacc|]. apply Hshort. intros [Hc|[_ Hc]].
  - discriminate Hc.
  - vm_compute in Hc. discriminate Hc.
Defined.

(** the first channel of the sample surface modifies two vertices and
    carries tangents: its tangent accessor is a sparse VEC4 accessor *)
Lemma sparse_tangent_over_normal_base_witness :
  exists ta tacc nbacc,
    accessors (gltf (default (∅, new_State) (ex_surface_run ex_options)).2) !! ta
      = Some tacc /\
    acc_type tacc = GLT_VEC4F /\ acc_type nbacc = GLT_VEC3F /\
    acc_bufferView tacc = acc_bufferView nbacc /\
    sparseIdxCount tacc = 2.
Proof.
  destruct (sparse_tangent_over_normal_base ex_to_uint32 ex_encode ex_options _ ex_raw
              _ _ _ _
              (run_pair (∅, new_State) (ex_surface_run ex_options) ex_surface_returns)
              eq_refl)
    as (rawSurface & mesh & md & old & p & Hsurf & _ & _ & Hall).
  injection Hsurf as <-.
  assert (Ht : is_some_b (ex_target 0) = true) by (vm_compute; reflexivity).
  assert (Hd : is_some_b (ex_channel ex_options 0) = true) by (vm_compute; reflexivity).
  destruct (Hall 0%nat _ _ (run_result no_target _ Ht) (run_result no_channel _ Hd))
    as (pAcc & nAcc & ta & tacc & ni & nbacc & _ & Htacc & _ & _ & Hnty & _ & Hty & Hbv
          & _ & _ & Hn).
  { intros E. vm_compute in E. discriminate E. }
  { intros E. vm_compute in E. discriminate E. }
  exists ta, tacc, nbacc. split; [exact Htacc|]. split; [exact Hty|].
  split; [exact Hnty|]. split; [exact Hbv|]. rewrite Hn. vm_compute. reflexivity.
Defined.

(** with sparse blend shapes off, the first target of the sample surface
    has the accessor of the tangents in its normal slot *)
Lemma dense_targets_witness :
  exists a tacc,
    accessors (gltf (default (∅, new_State) (ex_surface_run ex_options_dense)).2) !! a
      = Some tacc /\
    acc_type tacc = GLT_VEC4F /\ acc_count tacc = 3.
Proof.
  destruct (dense_targets ex_to_uint32 ex_encode ex_options_dense _ ex_raw _ _ _ _
              (run_pair (∅, new_State) (ex_surface_run ex_options_dense) ex_dense_returns)
              eq_refl)
    as (_ & rawSurface & mesh & md & old & p & Hsurf & _ & _ & _ & _ & Hall).
  injection Hsurf as <-.
  assert (Ht : is_some_b (ex_target 0) = true) by (vm_compute; reflexivity).
  assert (Hd : is_some_b (ex_channel ex_options_dense 0) = true)
    by (vm_compute; reflexivity).
  destruct (Hall 0%nat _ _ (run_result no_target _ Ht) (run_result no_channel _ Hd))
    as (pAcc & a & tacc & _ & Htacc & _ & Hty & Hn & _).
  { intros E. vm_compute in E. discriminate E. }
  exists a, tacc. split; [exact Htacc|]. split; [exact Hty|].
  rewrite Hn. vm_compute. reflexivity.
Defined.

Abbreviation ex_pbr_run :=
  (material_step ex_raw_pbr ex_options (ex_unassigned 0) ex_pbr_material ∅ new_State).

Abbreviation ex_blinn_run := (material_step ex_raw ex_options (ex_unassigned 0) ex_material ∅ new_State).

Abbreviation ex_animation_run :=
  (animation_step ex_raw (default (∅, new_State) ex_nodes_run).1 ex_reversed_animation
     (default (∅, new_State) ex_nodes_run).2).

Abbreviation ex_cameras_run := (build_cameras ex_raw ∅ new_State).

(** the sample material with an occlusion map gets one texture, its
    occlusion texture and its metallic-roughness texture *)
Lemma ao_met_rough_combined_witness :
  exists t m pbr,
    materials (gltf (default (∅, new_State) ex_pbr_run).2) = [m] /\
    occlusionTexture m = Some t /\
    pbrMetallicRoughness m = Some pbr /\ metRoughTexture pbr = Some t.
Proof.
  assert (Hrun : is_some_b ex_pbr_run = true) by (vm_compute; reflexivity).
  destruct (ao_met_rough_combined ex_raw_pbr ex_options (ex_unassigned 0) ex_pbr_material _ ∅ new_State
              (default (∅, new_State) ex_pbr_run).1 (default (∅, new_State) ex_pbr_run).2
              eq_refl eq_refl eq_refl)
    as (t & f & calls & m & pbr & _ & _ & _ & Hm & _ & Hocc & Hpbr & Hmr).
  { left. vm_compute. discriminate. }
  { intros (tm & tr & to & Hmetal & _). vm_compute in Hmetal. discriminate Hmetal. }
  { exact (run_pair (∅, new_State) ex_pbr_run Hrun). }
  exists t, m, pbr. split; [exact Hm|]. split; [exact Hocc|]. split; [exact Hpbr|exact Hmr].
Defined.

(** the sample Blinn material of shininess 6 gets one material entity *)
Lemma traditional_to_pbr_witness :
  exists m pbr,
    materials (gltf (default (∅, new_State) ex_blinn_run).2) = [m] /\
    pbrMetallicRoughness m = Some pbr /\
    pbr_metallic pbr = f32_lit 2 5 /\ pbr_roughness pbr = f32_lit 1 2.
Proof.
  assert (Hrun : is_some_b ex_blinn_run = true) by (vm_compute; reflexivity).
  destruct (traditional_to_pbr ex_raw ex_options (ex_unassigned 0) ex_material _ _ ∅ new_State _ _
              eq_refl eq_refl eq_refl (run_pair (∅, new_State) ex_blinn_run Hrun))
    as (_ & m & pbr & calls & Hm & Hpbr & _ & Hres).
  exists m, pbr. split; [exact Hm|]. split; [exact Hpbr|].
  destruct Hres as (_ & Hmet & Hrough). split; [exact Hmet|].
  rewrite Hrough. vm_compute. reflexivity.
Defined.

(** the time accessor of the animation whose samples decrease *)
Lemma animation_time_accessor_witness :
  exists acc lo hi,
    accessors (gltf (default (tt, new_State) ex_animation_run).2) !! 0%nat = Some acc /\
    acc_type acc = GLT_FLOAT /\ acc_min acc = [lo] /\ acc_max acc = [hi] /\
    lo ∈ ra_times ex_reversed_animation /\ hi ∈ ra_times ex_reversed_animation.
Proof.
  assert (Hrun : is_some_b ex_animation_run = true) by (vm_compute; reflexivity).
  destruct (animation_time_accessor ex_raw _ ex_reversed_animation _ _ eq_refl
              (run_unit (tt, new_State) ex_animation_run Hrun))
    as (ad & acc & lo & hi & _ & _ & _ & Htime & Hacc & Hty & _ & _ & Hmin & Hmax
          & Hlo & Hhi & _).
  exists acc, lo, hi. rewrite Htime in Hacc.
  split; [exact Hacc|]. split; [exact Hty|]. split; [exact Hmin|].
  split; [exact Hmax|]. split; [exact Hlo|exact Hhi].
Defined.

(** the animation without channels and the camera of an unknown node of
    the sample model *)
Lemma skipped_constructs_witness :
  (exists s', animation_step ex_raw ∅ ex_empty_animation new_State = Some (tt, s') /\
              gltf s' = gltf new_State) /\
  length (cameras (gltf (default (tt, new_State) ex_cameras_run).2)) = 1%nat.
Proof.
  assert (Hrun : is_some_b ex_cameras_run = true) by (vm_compute; reflexivity).
  split.
  - destruct (proj1 skipped_constructs ex_raw ∅ ex_empty_animation new_State eq_refl)
      as (s' & Hs' & Hg & _).
    exists s'. split; [exact Hs'|exact Hg].
  - destruct (proj2 skipped_constructs ex_raw ∅ new_State _
                (run_unit (tt, new_State) ex_cameras_run Hrun) (List.Forall_nil _))
      as (Hlen & _).
    exact Hlen.
Defined.

(** C6 as stated, refuted: the samples of [ex_reversed_animation] are 2
    and 1; the min of its time accessor is 1, which is not the first
    sample, and its max is 2, which is not the last. *)
Lemma time_bounds_counterexample :
  is_empty (ra_channels ex_reversed_animation) = false /\
  head (ra_times ex_reversed_animation) = Some f2 /\
  last (ra_times ex_reversed_animation) = Some f1 /\
  acc_min <$> ex_time_accessor = Some [f1] /\
  acc_max <$> ex_time_accessor = Some [f2] /\
  f1 <> f2.
Proof.
  split; [reflexivity|]. split; [reflexivity|]. split; [reflexivity|].
  split; [vm_compute; reflexivity|]. split; [vm_compute; reflexivity|].
  intros E. vm_compute in E. discriminate E.
Qed.

(** C7 as stated, refuted: the line that reports the animation without
    channels does not start with "Warning:". *)
Lemma skip_line_counterexample :
  exists s',
    is_empty (ra_channels ex_empty_animation) = true /\
    animation_step ex_raw ∅ ex_empty_animation new_State = Some (tt, s') /\
    printed s' = [("Animation 'empty' has no channels, skipped" ++ nl)%string] /\
    Forall (fun line => String.prefix "Warning:" line = false) (printed s').
Proof.
  eexists. split; [reflexivity|]. split; [reflexivity|]. split; [reflexivity|].
  repeat constructor.
Qed.

(** * Further properties of the stages *)
(** * Further properties of the assembler *)

(** ** The index array (lines 68-77) *)

Lemma index_triples_length (l : list RawTriangle) :
  length (flat_map (fun t => let '(a, b, c) := verts t in [u32 a; u32 b; u32 c]) l)
  = (3 * length l)%nat.
Proof.
  induction l as [|t l IH]; [done|]. cbn [flat_map length].
  rewrite length_app, IH. destruct (verts t) as [[a b] c]. cbn. lia.
Qed.

Lemma index_triples_lookup (l : list RawTriangle) : forall i t,
  l !! i = Some t ->
  let ix := flat_map (fun t => let '(a, b, c) := verts t in [u32 a; u32 b; u32 c]) l in
  ix !! (3 * i)%nat = Some (u32 (verts t).1.1) /\
  ix !! (3 * i + 1)%nat = Some (u32 (verts t).1.2) /\
  ix !! (3 * i + 2)%nat = Some (u32 (verts t).2).
Proof.
  induction l as [|t0 l IH]; intros i t Hi; [done|]. cbn [flat_map].
  destruct i as [|i].
  - cbn in Hi. injection Hi as ->. destruct (verts t) as [[a b] c]. done.
  - cbn in Hi. destruct (IH i t Hi) as (H0 & H1 & H2).
    destruct (verts t0) as [[a0 b0] c0].
    replace (3 * S i)%nat with (S (S (S (3 * i)))) by lia.
    cbn [app Nat.add]. rewrite !lookup_cons. cbn [Nat.add]. auto.
Qed.

(** X1: the index array of a model has three entries per triangle, the
    vertices of triangle [i] at the positions [3i], [3i+1] and [3i+2], each
    converted to an unsigned 32-bit integer. *)
Theorem index_array_layout (raw : RawModel) :
  length (getIndexArray raw) = (3 * length (raw_triangles raw))%nat /\
  Forall (fun x => 0 <= x < UINT32_MOD) (getIndexArray raw) /\
  forall i t, raw_triangles raw !! i = Some t ->
    getIndexArray raw !! (3 * i)%nat = Some (u32 (verts t).1.1) /\
    getIndexArray raw !! (3 * i + 1)%nat = Some (u32 (verts t).1.2) /\
    getIndexArray raw !! (3 * i + 2)%nat = Some (u32 (verts t).2).
Proof.
  unfold getIndexArray. split; [apply index_triples_length|]. split.
  - apply Forall_forall. intros x Hx. apply list_elem_of_In, in_flat_map in Hx.
    destruct Hx as (t & _ & Hx). destruct (verts t) as [[a b] c].
    assert (Hm : forall n, 0 <= u32 n < UINT32_MOD)
      by (intros n; apply Z.mod_pos_bound; reflexivity).
    cbn in Hx. destruct Hx as [<-|[<-|[<-|[]]]]; apply Hm.
  - intros i t Hi. by apply index_triples_lookup.
Qed.

(** ** The nodes and the map of nodes by id (lines 132-150) *)

Definition with_nodes (l : list NodeData) (s : State) : State :=
  set_gltf (set_nodes l (gltf s)) s.

Lemma with_nodes_same s : with_nodes (nodes (gltf s)) s = s.
Proof. by destruct s as [[] ? ? ? ?]. Qed.

Lemma bind_unfold {A B} (m : M A) (f : A -> M B) s :
  (m ≫= f) s = match m s with Some (x, s') => f x s' | None => None end.
Proof. reflexivity. Qed.

Lemma update_node_run ix f s n :
  nodes (gltf s) !! ix = Some n ->
  update_node ix f s = Some (tt, with_nodes (<[ix := f n]> (nodes (gltf s))) s).
Proof.
  intros H. unfold update_node, mbind, M_bind, get_model. rewrite H. reflexivity.
Qed.

(** the children a node has after the loop of lines 143-147 *)
Definition add_children (cs : list Z) (n : NodeData) : NodeData :=
  foldl (fun n c => AddChildNode c n) n cs.

Lemma add_children_fields cs : forall n,
  nd_children (add_children cs n) = nd_children n ++ cs /\
  node_view (add_children cs n) = node_view n /\
  nd_skin (add_children cs n) = nd_skin n /\
  nd_camera (add_children cs n) = nd_camera n /\
  nd_userProperties (add_children cs n) = nd_userProperties n.
Proof.
  induction cs as [|c cs IH]; intros n; cbn [add_children foldl].
  - by rewrite app_nil_r.
  - destruct (IH (AddChildNode c n)) as (H1 & H2 & H3 & H4 & H5).
    unfold add_children in *. rewrite H1, H2, H3, H4, H5. cbn.
    by rewrite <- app_assoc.
Qed.

Lemma children_loop_run raw ids : forall L0 n s,
  nodes (gltf s) = L0 ++ [n] ->
  for_each ids (fun childId =>
     let childIx := GetNodeById raw childId in
     assert (0 <=? childIx) ;; update_node (length L0) (AddChildNode childIx)) s
  = if forallb (fun c => 0 <=? GetNodeById raw c) ids
    then Some (tt, with_nodes (L0 ++ [add_children (map (GetNodeById raw) ids) n]) s)
    else None.
Proof.
  induction ids as [|c ids IH]; intros L0 n s Hn; cbn [for_each forallb map].
  - cbn. by rewrite <- Hn, with_nodes_same.
  - cbv zeta. destruct (0 <=? GetNodeById raw c) eqn:Hc; cbn [andb].
    + erewrite bind_run.
      2:{ erewrite bind_run by reflexivity. apply update_node_run.
          rewrite Hn. apply lookup_snoc. }
      rewrite Hn, insert_snoc.
      rewrite (IH L0 (AddChildNode (GetNodeById raw c) n)) by reflexivity.
      destruct (forallb _ ids); reflexivity.
    + reflexivity.
Qed.

(** the node that lines 136-147 hold for raw node [node] at position [i] *)
Definition held_node (raw : RawModel) (options : GltfOptions) (i : nat) (node : RawNode)
  : NodeData :=
  add_children (map (GetNodeById raw) (rn_childIds node))
    ((if enableUserProperties options
      then set_userProperties (rn_userProperties node) else fun n => n)
       (stamp i (new_NodeData (rn_name node) (rn_translation node) (rn_rotation node)
                   (rn_scale node) (rn_isJoint node)))).

Definition children_resolve (raw : RawModel) (node : RawNode) : bool :=
  forallb (fun c => 0 <=? GetNodeById raw c) (rn_childIds node).

Lemma node_step_run raw options node nodesById s :
  node_step raw options node nodesById s =
  if children_resolve raw node
  then Some (map_insert_new (rn_id node) (length (nodes (gltf s))) nodesById,
             with_nodes (nodes (gltf s) ++ [held_node raw options (length (nodes (gltf s))) node]) s)
  else None.
Proof.
  unfold node_step. erewrite bind_run by reflexivity. rewrite hold_length.
  cbv iota beta. erewrite bind_run by reflexivity.
  set (n0 := stamp _ _). set (L0 := nodes (gltf s)).
  set (s1 := set_gltf _ s).
  assert (H1 : nodes (gltf s1) = L0 ++ [n0]) by reflexivity.
  unfold children_resolve, held_node. fold n0.
  change (nd_ix n0) with (length L0).
  destruct (enableUserProperties options).
  - erewrite bind_run.
    2:{ apply update_node_run. rewrite H1. apply lookup_snoc. }
    rewrite H1, insert_snoc.
    rewrite bind_unfold.
    rewrite (children_loop_run raw _ L0 (set_userProperties (rn_userProperties node) n0))
      by reflexivity.
    destruct (forallb _ _); reflexivity.
  - erewrite bind_run by reflexivity.
    rewrite bind_unfold.
    rewrite (children_loop_run raw _ L0 n0) by reflexivity.
    destruct (forallb _ _); reflexivity.
Qed.

Fixpoint held_nodes (raw : RawModel) (options : GltfOptions) (k : nat) (l : list RawNode)
  : list NodeData :=
  match l with
  | [] => []
  | node :: r => held_node raw options k node :: held_nodes raw options (S k) r
  end.

(** the map after [nodesById.insert] for the nodes of [l], held from [k] on *)
Fixpoint ids_from (k : nat) (l : list RawNode) (m : gmap Z nat) : gmap Z nat :=
  match l with
  | [] => m
  | node :: r => ids_from (S k) r (map_insert_new (rn_id node) k m)
  end.

Lemma held_nodes_lookup raw options l : forall k i node,
  l !! i = Some node ->
  held_nodes raw options k l !! i = Some (held_node raw options (k + i) node).
Proof.
  induction l as [|x l IH]; intros k [|i] node H; try done.
  - cbn in *. injection H as <-. by rewrite Nat.add_0_r.
  - cbn [held_nodes]. rewrite lookup_cons. rewrite (IH (S k) i node H).
    by rewrite Nat.add_succ_comm.
Qed.

Lemma held_nodes_length raw options k l : length (held_nodes raw options k l) = length l.
Proof. revert k. induction l as [|x l IH]; intros k; cbn; [done|]. by rewrite IH. Qed.

Lemma nodes_loop_run raw options l : forall nodesById s,
  for_fold l (node_step raw options) nodesById s =
  if forallb (children_resolve raw) l
  then Some (ids_from (length (nodes (gltf s))) l nodesById,
             with_nodes (nodes (gltf s)
                         ++ held_nodes raw options (length (nodes (gltf s))) l) s)
  else None.
Proof.
  induction l as [|node l IH]; intros nodesById s; cbn [for_fold forallb held_nodes ids_from].
  - cbn. by rewrite app_nil_r, with_nodes_same.
  - rewrite bind_unfold, node_step_run.
    destruct (children_resolve raw node); cbn [andb]; [|done].
    rewrite IH. destruct (forallb _ l); [|done].
    cbn [gltf with_nodes set_gltf set_nodes nodes].
    rewrite length_app, Nat.add_1_r, <- app_assoc. reflexivity.
Qed.

(** [insert] keeps the first node of an id *)
Lemma ids_from_lookup l : forall k m id p,
  ids_from k l m !! id = Some p <->
  m !! id = Some p \/
  (m !! id = None /\
   exists i node, p = (k + i)%nat /\ l !! i = Some node /\ rn_id node = id /\
     forall j node', (j < i)%nat -> l !! j = Some node' -> rn_id node' <> id).
Proof.
  induction l as [|node l IH]; intros k m id p; cbn [ids_from].
  - split; [by left|]. intros [H|(_ & i & n & _ & H & _)]; done.
  - rewrite IH. unfold map_insert_new.
    destruct (decide (rn_id node = id)) as [Heq|Hne].
    + destruct (m !! rn_id node) as [q|] eqn:Hm.
      * rewrite <- Heq, Hm. split.
        -- intros [H|[H _]]; [by left|done].
        -- intros [H|[H _]]; [by left|done].
      * rewrite <- Heq, Hm, lookup_insert_eq. split.
        -- intros [[= <-]|[H _]]; [|done]. right. split; [done|].
           exists 0%nat, node. split; [lia|]. split; [done|]. split; [done|]. lia.
        -- intros [H|(_ & i & n & -> & Hi & Hid & Hfirst)]; [done|]. left.
           destruct i as [|i]; [f_equal; lia|].
           exfalso. apply (Hfirst 0%nat node); [lia|done|done].
    + assert (Hm1 : (match m !! rn_id node with
                     | Some _ => m
                     | None => <[rn_id node:=k]> m
                     end) !! id = m !! id).
      { destruct (m !! rn_id node); [done|]. by rewrite lookup_insert_ne. }
      rewrite Hm1. split.
      * intros [H|(H & i & n & -> & Hi & Hid & Hfirst)]; [by left|]. right.
        split; [done|]. exists (S i), n. split; [lia|]. split; [done|]. split; [done|].
        intros [|j] n' Hj Hn'; cbn in Hn'; [congruence|]. apply (Hfirst j); [lia|done].
      * intros [H|(H & i & n & -> & Hi & Hid & Hfirst)]; [by left|]. right.
        split; [done|]. destruct i as [|i]; [cbn in Hi; congruence|].
        exists i, n. split; [lia|]. split; [done|]. split; [done|].
        intros j n' Hj Hn'. apply (Hfirst (S j)); [lia|done].
Qed.

(** X2: the loop over the nodes returns a map that sends an id to the
    holder index of the first raw node of that id, and holds for raw node
    [i] a node whose children are the raw indices of its child ids, none
    negative, whose user properties are those of the raw node when user
    properties are enabled and none otherwise, and which has no skin and
    no camera yet. *)
Theorem nodes_by_id_first_node raw options s nodesById s' :
  build_nodes raw options s = Some (nodesById, s') ->
  let base := length (nodes (gltf s)) in
  (forall id p, nodesById !! id = Some p <->
     exists i node, p = (base + i)%nat /\ raw_nodes raw !! i = Some node /\
       rn_id node = id /\
       forall j node', (j < i)%nat -> raw_nodes raw !! j = Some node' ->
                       rn_id node' <> id) /\
  (forall i node, raw_nodes raw !! i = Some node ->
     exists nd, nodes (gltf s') !! (base + i)%nat = Some nd /\
       nd_children nd = map (GetNodeById raw) (rn_childIds node) /\
       Forall (fun c => 0 <= c) (nd_children nd) /\
       nd_userProperties nd =
         (if enableUserProperties options then rn_userProperties node else []) /\
       nd_skin nd = -1 /\ nd_camera nd = -1).
Proof.
  intros Hrun base. unfold build_nodes in Hrun. rewrite nodes_loop_run in Hrun.
  destruct (forallb (children_resolve raw) (raw_nodes raw)) eqn:Hres; [|done].
  injection Hrun as <- <-. fold base. split.
  - intros id p. rewrite ids_from_lookup. rewrite lookup_empty. split.
    + intros [H|[_ H]]; [done|exact H].
    + intros H. right. by split.
  - intros i node Hi. exists (held_node raw options (base + i) node).
    split.
    { cbn [gltf with_nodes set_gltf set_nodes nodes].
      rewrite lookup_app_r by (unfold base; lia).
      replace (base + i - length (nodes (gltf s)))%nat with i by (unfold base; lia).
      by apply held_nodes_lookup. }
    unfold held_node.
    destruct (add_children_fields (map (GetNodeById raw) (rn_childIds node))
                ((if enableUserProperties options
                  then set_userProperties (rn_userProperties node) else fun n => n)
                   (stamp (base + i)
                      (new_NodeData (rn_name node) (rn_translation node)
                         (rn_rotation node) (rn_scale node) (rn_isJoint node)))))
      as (Hc & _ & Hs & Hcam & Hu).
    rewrite Hc, Hs, Hcam, Hu.
    assert (Hok : Forall (fun c => 0 <= c) (map (GetNodeById raw) (rn_childIds node))).
    { rewrite forallb_forall in Hres.
      assert (Hn : children_resolve raw node = true).
      { apply Hres, list_elem_of_In. by eapply list_elem_of_lookup_2. }
      unfold children_resolve in Hn. rewrite forallb_forall in Hn.
      apply Forall_forall. intros c Hc'. apply list_elem_of_In, in_map_iff in Hc'.
      destruct Hc' as (c0 & <- & Hc0). apply Z.leb_le. by apply Hn. }
    destruct (enableUserProperties options); cbn; done.
Qed.

(** X3: the loop over the nodes returns exactly when every child id of
    every raw node names a node; a child id that names none fails the
    assertion of line 145. *)
Theorem nodes_abort_on_unknown_child raw options s :
  is_Some (build_nodes raw options s) <->
  forall node c, node ∈ raw_nodes raw -> c ∈ rn_childIds node -> 0 <= GetNodeById raw c.
Proof.
  unfold build_nodes. rewrite nodes_loop_run.
  destruct (forallb (children_resolve raw) (raw_nodes raw)) eqn:Hres.
  - split; [|by eexists]. intros _ node c Hnode Hc.
    rewrite forallb_forall in Hres. apply list_elem_of_In, Hres in Hnode.
    unfold children_resolve in Hnode. rewrite forallb_forall in Hnode.
    apply Z.leb_le, Hnode. by apply list_elem_of_In.
  - split; [by intros [? ?]|]. intros H. exfalso.
    assert (Hall : forallb (children_resolve raw) (raw_nodes raw) = true); [|congruence].
    apply forallb_forall. intros node Hnode. apply forallb_forall. intros c Hc.
    apply Z.leb_le. apply (H node c); by apply list_elem_of_In.
Qed.

(** ** The materials and the map of materials by id (lines 231-473) *)

Definition keeps_materials (s s' : State) : Prop :=
  materials (gltf s') = materials (gltf s).

Lemma keeps_materials_trans s1 s2 s3 :
  keeps_materials s1 s2 -> keeps_materials s2 s3 -> keeps_materials s1 s3.
Proof. unfold keeps_materials. congruence. Qed.

Lemma keeps_materials_gltf s s' : gltf s' = gltf s -> keeps_materials s s'.
Proof. intros H. unfold keeps_materials. by rewrite H. Qed.

Ltac materials_tac :=
  respects_tac keeps_materials_trans keeps_materials_gltf ltac:(reflexivity).

Lemma source_locations_materials raw ixs :
  respects keeps_materials (source_locations raw ixs).
Proof.
  intros s. eapply post_weaken; [apply source_locations_post|].
  intros ? ? ->. reflexivity.
Qed.

#[local] Hint Resolve source_locations_materials : respects.

Lemma simpleTex_materials raw material usage :
  respects keeps_materials (simpleTex raw material usage).
Proof. materials_tac. Qed.

Lemma pbr_from_met_rough_materials raw material :
  respects keeps_materials (pbr_from_met_rough raw material).
Proof. materials_tac. Qed.

Lemma pbr_from_traditional_materials raw material :
  respects keeps_materials (pbr_from_traditional raw material).
Proof. materials_tac. Qed.

Lemma unlit_base_materials raw material :
  respects keeps_materials (unlit_base raw material).
Proof. materials_tac. Qed.

(** what the material held for [material] at position [k] takes from the
    raw material and the options alone and, with metallic-roughness output
    disabled, from the unassigned locals *)
Definition held_as (options : GltfOptions) (unassigned : Unassigned) (k : nat)
    (material : RawMaterial) (m : MaterialData) : Prop :=
  mat_ix m = k /\ mat_name m = rm_name material /\
  mat_isTransparent m =
    match rm_type material with
    | RAW_MATERIAL_TYPE_TRANSPARENT | RAW_MATERIAL_TYPE_SKINNED_TRANSPARENT => true
    | _ => false
    end /\
  mat_isDoubleSided m = rm_isDoubleSided material /\
  mat_shadingModel m = shadingModel (rm_info material) /\
  khrCmnUnlitMat m = useKHRMatUnlit options /\
  mat_userProperties m =
    (if enableUserProperties options then rm_userProperties material else []) /\
  (usePBRMetRough options = false ->
     mat_emissiveFactor m =
       vec3_scale (if useKHRMatUnlit options then Vec3f_zero
                   else un_emissiveFactor unassigned)
                  (un_emissiveIntensity unassigned) /\
     (useKHRMatUnlit options = false -> pbrMetallicRoughness m = None)).

Lemma material_step_held raw options unassigned material materialsById s :
  post (material_step raw options unassigned material materialsById) s
    (fun byId' s' =>
       exists m, materials (gltf s') = materials (gltf s) ++ [m] /\
         byId' = <[rm_id material := length (materials (gltf s))]> materialsById /\
         held_as options unassigned (length (materials (gltf s))) material m).
Proof.
  unfold material_step.
  apply post_bind. eapply post_weaken; [apply simpleTex_materials|].
  intros normalTex s1 H1.
  apply post_bind. eapply post_weaken; [apply simpleTex_materials|].
  intros emissiveTex s2 H2.
  apply post_bind.
  apply post_weaken with
    (Q := fun loc s3 =>
            keeps_materials s2 s3 /\
            (usePBRMetRough options = false ->
               loc_pbrMetRough loc = None /\ loc_emissiveFactor loc = None /\
               loc_emissiveIntensity loc = None)).
  { destruct (usePBRMetRough options).
    - eapply post_weaken with (Q := fun _ s3 => keeps_materials s2 s3); [|done].
      destruct (shadingModel (rm_info material));
        first [apply pbr_from_met_rough_materials | apply pbr_from_traditional_materials].
    - apply post_ret. done. }
  intros loc s3 [H3 Hoff].
  apply post_bind.
  apply post_weaken with
    (Q := fun '(_, _, ef, pbr, khr) s4 =>
            keeps_materials s3 s4 /\ khr = useKHRMatUnlit options /\
            ef = (if useKHRMatUnlit options then Some Vec3f_zero
                  else loc_emissiveFactor loc) /\
            (useKHRMatUnlit options = false -> pbr = loc_pbrMetRough loc)).
  { destruct (useKHRMatUnlit options).
    - apply post_bind. eapply post_weaken; [apply unlit_base_materials|].
      intros base s4 H4. apply post_ret. done.
    - apply post_ret. done. }
  intros [[[[normalTex' emissiveTex'] emissiveFactor] pbr] khr] s4 (H4 & -> & -> & Hpbr).
  apply post_bind.
  apply post_weaken with (Q := fun _ s5 => keeps_materials s4 s5).
  { destruct (loc_occlusionTexture loc).
    - apply post_ret. reflexivity.
    - apply simpleTex_materials. }
  intros occlusionTex s5 H5. cbv zeta.
  unfold hold_material. apply post_bind. apply post_bind, post_get_model.
  rewrite hold_length. cbv iota beta. apply post_bind, post_modify. apply post_ret.
  apply post_ret. cbn [gltf set_gltf set_materials materials stamp material_holdable mat_ix].
  unfold keeps_materials in *.
  assert (E : materials (gltf s5) = materials (gltf s)) by congruence.
  rewrite E. eexists. split; [reflexivity|]. split; [reflexivity|].
  unfold held_as. cbn. do 7 (split; [done|]).
  intros Hpbroff. destruct (Hoff Hpbroff) as (Hl1 & Hl2 & Hl3). rewrite Hl2, Hl3.
  split; [by destruct (useKHRMatUnlit options)|].
  intros Hunlit. by rewrite (Hpbr Hunlit).
Qed.

(** the map after [materialsById[id] = mData] for the materials of [l],
    held from [k] on *)
Fixpoint mat_ids_from (k : nat) (l : list RawMaterial) (m : gmap Z nat) : gmap Z nat :=
  match l with
  | [] => m
  | x :: r => mat_ids_from (S k) r (<[rm_id x := k]> m)
  end.

(** the assignment overwrites: the last material of an id stays *)
Lemma mat_ids_from_lookup l : forall k m id p,
  mat_ids_from k l m !! id = Some p <->
  (exists i x, p = (k + i)%nat /\ l !! i = Some x /\ rm_id x = id /\
     forall j x', (i < j)%nat -> l !! j = Some x' -> rm_id x' <> id) \/
  (m !! id = Some p /\ forall x, x ∈ l -> rm_id x <> id).
Proof.
  induction l as [|x0 l IH]; intros k m id p; cbn [mat_ids_from].
  - split.
    + intros H. right. split; [done|]. intros x Hx. by apply elem_of_nil in Hx.
    + intros [(i & x & _ & H & _)|[H _]]; done.
  - rewrite IH. split.
    + intros [(i & x & -> & Hi & Hid & Hlast)|[Hm Hno]].
      * left. exists (S i), x. split; [lia|]. split; [done|]. split; [done|].
        intros [|j] x' Hj Hx'; [lia|]. cbn in Hx'. apply (Hlast j); [lia|done].
      * destruct (decide (rm_id x0 = id)) as [Heq|Hne].
        -- left. rewrite Heq, lookup_insert_eq in Hm. injection Hm as <-.
           exists 0%nat, x0. split; [lia|]. split; [done|]. split; [done|].
           intros [|j] x' Hj Hx'; [lia|]. cbn in Hx'. apply Hno.
           by eapply list_elem_of_lookup_2.
        -- right. rewrite lookup_insert_ne in Hm by done. split; [done|].
           intros x Hx. apply elem_of_cons in Hx as [->|Hx]; [done|by apply Hno].
    + intros [(i & x & -> & Hi & Hid & Hlast)|[Hm Hno]].
      * destruct i as [|i].
        -- cbn in Hi. injection Hi as ->. right. rewrite Hid, lookup_insert_eq.
           split; [f_equal; lia|]. intros x' Hx'.
           apply list_elem_of_lookup_1 in Hx' as [j Hj].
           apply (Hlast (S j)); [lia|done].
        -- left. exists i, x. split; [lia|]. split; [done|]. split; [done|].
           intros j x' Hj Hx'. apply (Hlast (S j)); [lia|done].
      * right. assert (Hne : rm_id x0 <> id) by (apply Hno; left).
        rewrite lookup_insert_ne by done. split; [done|].
        intros x Hx. apply Hno. by right.
Qed.

Lemma materials_loop raw options unassigned l : forall k byId s,
  post (for_fold (zip (seq k (length l)) l)
          (fun im materialsById =>
             let '(materialIndex, material) := im in
             material_step raw options (unassigned materialIndex) material materialsById)
          byId) s
    (fun byId' s' =>
       exists ms, materials (gltf s') = materials (gltf s) ++ ms /\
         length ms = length l /\
         byId' = mat_ids_from (length (materials (gltf s))) l byId /\
         forall i material, l !! i = Some material ->
           exists m, ms !! i = Some m /\
                     held_as options (unassigned (k + i)%nat)
                       (length (materials (gltf s)) + i) material m).
Proof.
  induction l as [|x l IH]; intros k byId s;
    cbn [length seq zip zip_with for_fold mat_ids_from].
  - apply post_ret. exists []. rewrite app_nil_r. done.
  - apply post_bind. eapply post_weaken; [apply material_step_held|].
    intros byId1 s1 (m & Hm & -> & Hheld).
    eapply post_weaken; [apply IH|].
    intros byId' s' (ms & Hms & Hlen & -> & Hall).
    assert (Hl1 : length (materials (gltf s1)) = S (length (materials (gltf s))))
      by (rewrite Hm, length_app; cbn; lia).
    exists (m :: ms). split; [by rewrite Hms, Hm, <- app_assoc|].
    split; [cbn; by rewrite Hlen|]. split; [by rewrite Hl1|].
    intros [|i] material Hi; cbn in Hi.
    + injection Hi as <-. exists m. split; [done|]. by rewrite !Nat.add_0_r.
    + destruct (Hall i material Hi) as (m' & Hm' & Hheld').
      exists m'. split; [done|]. rewrite Hl1 in Hheld'.
      by rewrite <- !Nat.add_succ_comm.
Qed.

(** X4: the loop over the materials holds one material per raw material,
    in order, whether metallic-roughness output is enabled or not; the
    material at position [i] carries its holder index, the name, the
    double-sided flag and the shading model of raw material [i], is
    transparent exactly for the two transparent material types, is unlit
    exactly when useKHRMatUnlit is set, and has the user properties of the
    raw material when these are enabled; the map by id sends an id to the
    last raw material of that id.  With metallic-roughness output disabled
    nothing is assigned to the emissive intensity, and without unlit
    output nothing to the emissive factor either: the emissive factor of
    the material is the product of what these locals hold, with zero for
    the factor under unlit output; without unlit output the material has
    no metallic-roughness block. *)
Theorem materials_by_id_last_material raw options unassigned s byId s' :
  build_materials raw options unassigned s = Some (byId, s') ->
  let base := length (materials (gltf s)) in
  length (materials (gltf s')) = (base + length (raw_materials raw))%nat /\
  (forall id p, byId !! id = Some p <->
     exists i material, p = (base + i)%nat /\ raw_materials raw !! i = Some material /\
       rm_id material = id /\
       forall j material', (i < j)%nat -> raw_materials raw !! j = Some material' ->
                           rm_id material' <> id) /\
  (forall i material, raw_materials raw !! i = Some material ->
     exists m, materials (gltf s') !! (base + i)%nat = Some m /\
       mat_ix m = (base + i)%nat /\ mat_name m = rm_name material /\
       mat_isTransparent m =
         match rm_type material with
         | RAW_MATERIAL_TYPE_TRANSPARENT | RAW_MATERIAL_TYPE_SKINNED_TRANSPARENT => true
         | _ => false
         end /\
       mat_isDoubleSided m = rm_isDoubleSided material /\
       mat_shadingModel m = shadingModel (rm_info material) /\
       khrCmnUnlitMat m = useKHRMatUnlit options /\
       mat_userProperties m =
         (if enableUserProperties options then rm_userProperties material else []) /\
       (usePBRMetRough options = false ->
          mat_emissiveFactor m =
            vec3_scale (if useKHRMatUnlit options then Vec3f_zero
                        else un_emissiveFactor (unassigned i))
                       (un_emissiveIntensity (unassigned i)) /\
          (useKHRMatUnlit options = false -> pbrMetallicRoughness m = None))).
Proof.
  intros Hrun base. revert byId s' Hrun. apply post_intro.
  unfold build_materials, indexed.
  eapply post_weaken; [apply materials_loop|].
  intros byId s' (ms & Hms & Hlen & -> & Hall). fold base in Hall |- *.
  split; [by rewrite Hms, length_app, Hlen|]. split.
  - intros id p. rewrite mat_ids_from_lookup. split.
    + intros [H|[H _]]; [exact H|by rewrite lookup_empty in H].
    + intros H. by left.
  - intros i material Hi. destruct (Hall i material Hi) as (m & Hm & Hheld).
    exists m. split; [|exact Hheld].
    rewrite Hms, lookup_app_r by (unfold base; lia).
    replace (base + i - length (materials (gltf s)))%nat with i by (unfold base; lia).
    done.
Qed.

(** ** Unlit materials, and materials that need no combined map *)

(** [post] for a stage that keeps the materials *)
Ltac keep_materials :=
  lazymatch goal with
  | |- post ?m ?s _ =>
      let H := fresh in
      assert (H : respects keeps_materials m) by materials_tac;
      eapply post_weaken; [apply H|]; clear H
  end.

Lemma tb_simple_calls raw ix tag s :
  post (tb_simple raw ix tag) s (fun r s' =>
    tb_calls s' = tb_calls s ++ [CallSimple ix tag r] /\
    materials (gltf s') = materials (gltf s)).
Proof.
  unfold tb_simple, hold_texture. destruct (ix <? 0); repeat post_step; done.
Qed.

(** the lambda of lines 240-244: no texture for a negative index, and one
    [simple] call otherwise *)
Lemma simpleTex_calls raw material usage s :
  post (simpleTex raw material usage) s (fun r s' =>
    let ix := rm_textures material usage in
    tb_calls s' = tb_calls s ++ (if 0 <=? ix then [CallSimple ix "simple" r] else []) /\
    (ix < 0 -> r = None) /\
    materials (gltf s') = materials (gltf s)).
Proof.
  unfold simpleTex. destruct (0 <=? rm_textures material usage) eqn:E.
  - eapply post_weaken; [apply tb_simple_calls|]. intros r s' [Hc Hm].
    split; [done|]. split; [|done]. apply Z.leb_le in E. lia.
  - apply post_ret. rewrite app_nil_r. done.
Qed.

Definition diffuse_factor (info : RawMatProps) : Vec4f :=
  match info with
  | MetRoughProps p => mr_diffuseFactor p
  | TraditionalProps _ p => tr_diffuseFactor p
  end.

Definition emissive_intensity (info : RawMatProps) : float :=
  match info with
  | MetRoughProps p => mr_emissiveIntensity p
  | TraditionalProps _ _ => f1
  end.

(** the usage of the base colour texture: albedo for a metallic-roughness
    material, diffuse otherwise *)
Definition base_usage (info : RawMatProps) : RawTextureUsage :=
  match shadingModel info with
  | RAW_SHADING_MODEL_PBR_MET_ROUGH => RAW_TEXTURE_USAGE_ALBEDO
  | _ => RAW_TEXTURE_USAGE_DIFFUSE
  end.

Lemma unlit_base_post raw material s :
  post (unlit_base raw material) s (fun pbr s' =>
    keeps_materials s s' /\
    metRoughTexture pbr = None /\ pbr_metallic pbr = f0 /\ pbr_roughness pbr = f1 /\
    baseColorFactor pbr = diffuse_factor (rm_info material) /\
    (rm_textures material (base_usage (rm_info material)) < 0 ->
       baseColorTexture pbr = None)).
Proof.
  unfold unlit_base, base_usage.
  destruct (shadingModel (rm_info material)) eqn:Hsm.
  all: apply post_bind, post_deref; intros props Hprops.
  all: apply post_bind; eapply post_weaken; [apply simpleTex_calls|].
  all: intros base s' (_ & Hneg & Hm); apply post_ret.
  all: split; [exact Hm|]; cbn.
  all: destruct (rm_info material); cbn in Hprops; try discriminate.
  all: injection Hprops as ->; done.
Qed.

(** the emissive intensity the branches of lines 257-421 leave *)
Lemma loc_block_emissive raw options material s :
  post (if usePBRMetRough options
        then
          match shadingModel (rm_info material) with
          | RAW_SHADING_MODEL_PBR_MET_ROUGH => pbr_from_met_rough raw material
          | _ => pbr_from_traditional raw material
          end
        else mret {| loc_pbrMetRough := None; loc_occlusionTexture := None;
                     loc_emissiveFactor := None; loc_emissiveIntensity := None |}) s
    (fun loc s' =>
       keeps_materials s s' /\
       loc_emissiveIntensity loc =
         (if usePBRMetRough options then Some (emissive_intensity (rm_info material))
          else None)).
Proof.
  destruct (usePBRMetRough options); [|by apply post_ret].
  assert (Hrough : post (pbr_from_met_rough raw material) s
    (fun loc s' =>
       keeps_materials s s' /\
       loc_emissiveIntensity loc = Some (emissive_intensity (rm_info material)))).
  { unfold pbr_from_met_rough. apply post_bind, post_deref. intros props Hprops.
    cbv zeta. apply post_bind. keep_materials. intros pass s1 H1.
    apply post_bind. keep_materials. intros ao s2 H2.
    apply post_bind. keep_materials. intros base s3 H3. apply post_ret.
    split; [unfold keeps_materials in *; congruence|]. cbn.
    destruct (rm_info material); cbn in Hprops; [|discriminate].
    by injection Hprops as ->. }
  assert (Htrad : post (pbr_from_traditional raw material) s
    (fun loc s' =>
       keeps_materials s s' /\
       loc_emissiveIntensity loc = Some (emissive_intensity (rm_info material)))).
  { unfold pbr_from_traditional. apply post_bind, post_deref. intros props Hprops.
    apply post_bind. keep_materials. intros [[ao metallic] roughness] s1 H1.
    apply post_bind. keep_materials. intros base s2 H2. apply post_ret.
    split; [unfold keeps_materials in *; congruence|]. cbn.
    destruct (rm_info material); cbn in Hprops; [discriminate|]. done. }
  destruct (shadingModel (rm_info material)); done.
Qed.

(** X5: with useKHRMatUnlit set, with or without metallic-roughness
    output, the material that is held is unlit, has no normal and no
    emissive texture, and a metallic-roughness block without texture, with
    metallic 0, roughness 1 and the diffuse factor of the raw material;
    its base colour texture is null when the raw material has no albedo
    (metallic-roughness) or diffuse (traditional) texture.  Its emissive
    factor is zero times the emissive intensity: the intensity of the raw
    material under metallic-roughness output, where the product is zero
    for a traditional material, and what the unassigned local holds
    otherwise. *)
Theorem unlit_material raw options unassigned material materialsById s byId' s' :
  useKHRMatUnlit options = true ->
  material_step raw options unassigned material materialsById s = Some (byId', s') ->
  exists m pbr,
    materials (gltf s') = materials (gltf s) ++ [m] /\
    khrCmnUnlitMat m = true /\
    normalTexture m = None /\ emissiveTexture m = None /\
    pbrMetallicRoughness m = Some pbr /\
    metRoughTexture pbr = None /\ pbr_metallic pbr = f0 /\ pbr_roughness pbr = f1 /\
    baseColorFactor pbr = diffuse_factor (rm_info material) /\
    (rm_textures material (base_usage (rm_info material)) < 0 ->
       baseColorTexture pbr = None) /\
    mat_emissiveFactor m =
      vec3_scale Vec3f_zero
        (if usePBRMetRough options then emissive_intensity (rm_info material)
         else un_emissiveIntensity unassigned) /\
    (usePBRMetRough options = true ->
     forall model props, rm_info material = TraditionalProps model props ->
       mat_emissiveFactor m = Vec3f_zero).
Proof.
  intros Hunlit. revert byId' s'. apply post_intro. unfold material_step.
  rewrite Hunlit.
  apply post_bind. eapply post_weaken; [apply simpleTex_materials|].
  intros normalTex s1 H1.
  apply post_bind. eapply post_weaken; [apply simpleTex_materials|].
  intros emissiveTex s2 H2.
  apply post_bind. eapply post_weaken; [apply loc_block_emissive|].
  intros loc s3 [H3 Hei].
  apply post_bind. apply post_bind. eapply post_weaken; [apply unlit_base_post|].
  intros pbr s4 (H4 & Hmr & Hmet & Hro & Hbf & Hbt). apply post_ret.
  apply post_bind.
  apply post_weaken with (Q := fun _ s5 => keeps_materials s4 s5).
  { destruct (loc_occlusionTexture loc).
    - apply post_ret. reflexivity.
    - apply simpleTex_materials. }
  intros occlusionTex s5 H5. cbv zeta. rewrite Hei.
  unfold hold_material. apply post_bind. apply post_bind, post_get_model.
  rewrite hold_length. cbv iota beta. apply post_bind, post_modify. apply post_ret.
  apply post_ret. cbn [gltf set_gltf set_materials materials stamp material_holdable].
  unfold keeps_materials in *.
  assert (E : materials (gltf s5) = materials (gltf s)) by congruence.
  rewrite E. eexists _, pbr. split; [reflexivity|]. cbn.
  do 9 (split; [done|]). split; [by destruct (usePBRMetRough options)|].
  intros -> model props ->. reflexivity.
Qed.

Lemma combine_calls_simpleTex ix (r : option nat) :
  combine_calls (if 0 <=? ix then [CallSimple ix "simple" r] else []) = [].
Proof. by destruct (0 <=? ix). Qed.

(** lines 257-368 for a material without any of the three maps, or with
    the same file in all three *)
Lemma pbr_from_met_rough_simple raw material props s :
  rm_info material = MetRoughProps props ->
  let occ := rm_textures material RAW_TEXTURE_USAGE_OCCLUSION in
  let rough := rm_textures material RAW_TEXTURE_USAGE_ROUGHNESS in
  let metal := rm_textures material RAW_TEXTURE_USAGE_METALLIC in
  (occ < 0 /\ rough < 0 /\ metal < 0) \/ pass_through raw material ->
  post (pbr_from_met_rough raw material) s (fun loc s' =>
    exists calls ao base,
      tb_calls s' = tb_calls s ++ calls /\ combine_calls calls = [] /\
      materials (gltf s') = materials (gltf s) /\
      loc = {| loc_pbrMetRough :=
                 Some {| baseColorTexture := base; metRoughTexture := ao;
                         baseColorFactor := mr_diffuseFactor props;
                         pbr_metallic := mr_metallic props;
                         pbr_roughness := mr_roughness props |};
               loc_occlusionTexture := ao;
               loc_emissiveFactor := Some (mr_emissiveFactor props);
               loc_emissiveIntensity := Some (mr_emissiveIntensity props) |} /\
      (occ < 0 /\ rough < 0 /\ metal < 0 -> ao = None) /\
      (pass_through raw material -> CallSimple metal "simple" ao ∈ calls)).
Proof.
  intros Hinfo occ rough metal Hcase.
  unfold pbr_from_met_rough. rewrite Hinfo. simpl as_met_rough.
  post_step. post_step. injection H as <-. post_step. fold occ rough metal.
  apply (post_weaken _ _ (fun b s' =>
           s' = s /\ (occ < 0 /\ rough < 0 /\ metal < 0 -> b = false) /\
           (pass_through raw material -> b = true /\ 0 <= metal))).
  { destruct Hcase as [(Ho & Hr & Hm)|Hpass].
    - assert ((0 <=? occ) = false) as -> by (apply Z.leb_gt; lia). cbn.
      post_step. split; [done|]. split; [done|].
      intros (tm & tr & to & Hmetal & _). unfold at_index in Hmetal. fold metal in Hmetal.
      destruct (metal <? 0) eqn:E; [done|]. apply Z.ltb_ge in E. lia.
    - destruct Hpass as (tm & tr & to & Hmetal & Hrough & Hocc & Hs1 & Hs2).
      assert (Hge : forall l i (x : RawTexture), at_index l i = Some x -> 0 <= i).
      { intros l i x Hx. unfold at_index in Hx. destruct (i <? 0) eqn:E; [done|].
        by apply Z.ltb_ge in E. }
      apply Hge in Hmetal as Hm0. apply Hge in Hrough as Hr0. apply Hge in Hocc as Ho0.
      fold metal in Hm0. fold rough in Hr0. fold occ in Ho0.
      assert ((0 <=? occ) = true) as -> by (by apply Z.leb_le).
      assert ((0 <=? rough) = true) as -> by (by apply Z.leb_le).
      assert ((0 <=? metal) = true) as -> by (by apply Z.leb_le). cbn.
      post_step. eapply post_weaken; [apply texturesAreSame_spec|].
      intros same1 ? (-> & ta & tb & Ha & Hb & ->).
      assert (ta = tm) as -> by congruence. assert (tb = tr) as -> by congruence.
      rewrite Hs1. eapply post_weaken; [apply texturesAreSame_spec|].
      intros same2 ? (-> & ta & tb & Ha' & Hb' & ->).
      assert (ta = tm) as -> by congruence. assert (tb = to) as -> by congruence.
      rewrite Hs2. split; [done|]. split; [lia|]. done. }
  intros b ? (-> & Hnone & Hpass).
  post_step.
  apply (post_weaken _ _ (fun ao s' =>
           exists calls, tb_calls s' = tb_calls s ++ calls /\ combine_calls calls = [] /\
             materials (gltf s') = materials (gltf s) /\
             (occ < 0 /\ rough < 0 /\ metal < 0 -> ao = None) /\
             (pass_through raw material -> CallSimple metal "simple" ao ∈ calls))).
  { destruct Hcase as [(Ho & Hr & Hm)|Hp].
    - assert ((0 <=? occ) = false) as -> by (apply Z.leb_gt; lia).
      assert ((0 <=? rough) = false) as -> by (apply Z.leb_gt; lia).
      assert ((0 <=? metal) = false) as -> by (apply Z.leb_gt; lia). cbn.
      post_step. exists []. rewrite app_nil_r. split; [done|]. split; [done|].
      split; [done|]. split; [done|].
      intros Hp. destruct (Hpass Hp). lia.
    - destruct (Hpass Hp) as [-> Hm0].
      assert ((0 <=? metal) = true) as Hmb by (by apply Z.leb_le). rewrite Hmb. cbn.
      eapply post_weaken; [apply simpleTex_calls|].
      intros ao s' (Hc & _ & Hmat). cbv zeta in Hc. fold metal in Hc. rewrite Hmb in Hc.
      exists [CallSimple metal "simple" ao]. split; [done|]. split; [done|].
      split; [done|]. split; [lia|]. intros _. by left. }
  intros ao s1 (c1 & Hc1 & Hf1 & Hm1 & Hno & Hps).
  post_step. eapply post_weaken; [apply simpleTex_calls|].
  intros base s2 (Hc2 & _ & Hm2). post_step.
  eexists (c1 ++ _), ao, base. split; [by rewrite Hc2, Hc1, <- app_assoc|].
  split; [by rewrite combine_calls_app, Hf1, combine_calls_simpleTex|].
  split; [congruence|]. split; [reflexivity|]. split; [done|].
  intros Hp. apply elem_of_app. left. by apply Hps.
Qed.

(** X6: under metallic-roughness output without unlit, a metallic-roughness
    material that has none of the three maps, or the same file (compared
    without case) in all three, makes no [combine] call; its factors are
    those of the raw material and its emissive factor is scaled by the
    emissive intensity.  Without maps it has no metallic-roughness and no
    occlusion texture; in the pass-through case its metallic-roughness
    texture is what the [simple] call for the metallic map returned, and
    is also its occlusion texture. *)
Theorem no_combined_map raw options unassigned material props materialsById s byId' s' :
  usePBRMetRough options = true ->
  useKHRMatUnlit options = false ->
  rm_info material = MetRoughProps props ->
  let occ := rm_textures material RAW_TEXTURE_USAGE_OCCLUSION in
  let rough := rm_textures material RAW_TEXTURE_USAGE_ROUGHNESS in
  let metal := rm_textures material RAW_TEXTURE_USAGE_METALLIC in
  (occ < 0 /\ rough < 0 /\ metal < 0) \/ pass_through raw material ->
  material_step raw options unassigned material materialsById s = Some (byId', s') ->
  exists m pbr calls,
    materials (gltf s') = materials (gltf s) ++ [m] /\
    tb_calls s' = tb_calls s ++ calls /\
    combine_calls calls = [] /\
    pbrMetallicRoughness m = Some pbr /\
    pbr_metallic pbr = mr_metallic props /\ pbr_roughness pbr = mr_roughness props /\
    baseColorFactor pbr = mr_diffuseFactor props /\
    mat_emissiveFactor m =
      vec3_scale (mr_emissiveFactor props) (mr_emissiveIntensity props) /\
    (occ < 0 /\ rough < 0 /\ metal < 0 ->
       metRoughTexture pbr = None /\ occlusionTexture m = None) /\
    (pass_through raw material ->
       CallSimple metal "simple" (metRoughTexture pbr) ∈ calls /\
       (is_Some (metRoughTexture pbr) -> occlusionTexture m = metRoughTexture pbr)).
Proof.
  intros Hpbr Hunlit Hinfo occ rough metal Hcase Hrun.
  revert byId' s' Hrun. apply post_intro.
  unfold material_step. rewrite Hpbr, Hunlit. unfold shadingModel. rewrite Hinfo.
  post_step. eapply post_weaken; [apply simpleTex_calls|].
  intros normalTex s1 (Hc1 & _ & Hm1).
  post_step. eapply post_weaken; [apply simpleTex_calls|].
  intros emissiveTex s2 (Hc2 & _ & Hm2).
  post_step. eapply post_weaken; [by apply pbr_from_met_rough_simple|].
  intros loc s3 (c3 & ao & base & Hc3 & Hf3 & Hm3 & -> & Hno & Hps).
  post_step. post_step. post_step. cbn [loc_occlusionTexture].
  apply (post_weaken _ _ (fun o s' =>
           exists calls, tb_calls s' = tb_calls s3 ++ calls /\ combine_calls calls = [] /\
             materials (gltf s') = materials (gltf s3) /\
             (occ < 0 -> ao = None -> o = None) /\ (is_Some ao -> o = ao))).
  { destruct ao as [t|].
    - post_step. exists []. rewrite app_nil_r. done.
    - eapply post_weaken; [apply simpleTex_calls|].
      intros o s4 (Hc4 & Hneg & Hm4). eexists. split; [exact Hc4|].
      split; [apply combine_calls_simpleTex|]. split; [done|].
      split; [by intros; apply Hneg|]. by intros [? ?]. }
  intros o s4 (c4 & Hc4 & Hf4 & Hm4 & Hon & Hos).
  cbn [loc_emissiveFactor loc_emissiveIntensity loc_pbrMetRough].
  cbv zeta. cbn [default].
  unfold hold_material. repeat post_step. cbn.
  set (ixn := rm_textures material RAW_TEXTURE_USAGE_NORMAL) in *.
  set (ixe := rm_textures material RAW_TEXTURE_USAGE_EMISSIVE) in *.
  eexists _, _, ((if 0 <=? ixn then [CallSimple ixn "simple" normalTex] else [])
                 ++ (if 0 <=? ixe then [CallSimple ixe "simple" emissiveTex] else [])
                 ++ c3 ++ c4).
  split. { rewrite Hm4, Hm3, Hm2, Hm1. reflexivity. }
  split. { rewrite Hc4, Hc3, Hc2, Hc1. by rewrite <- !app_assoc. }
  split. { by rewrite !combine_calls_app, !combine_calls_simpleTex, Hf3, Hf4. }
  cbn. split; [reflexivity|]. split; [done|]. split; [done|]. split; [done|].
  split; [done|]. split.
  - intros Hall. split; [by apply Hno|]. apply Hon; [lia|by apply Hno].
  - intros Hp. split.
    + apply elem_of_app. right. apply elem_of_app. right. apply elem_of_app. left.
      by apply Hps.
    + exact Hos.
Qed.

(** ** The channels of an animation (lines 179-215) *)

(** the node a channel animates: the node the map gives for the id of the
    raw node at the channel's index *)
Definition channel_node (raw : RawModel) (nodesById : gmap Z nat) (channel : RawChannel)
  : option nat :=
  node ← at_index (raw_nodes raw) (ch_nodeIndex channel); nodesById !! rn_id node.

(** the tracks of a channel that are not empty, in the order of lines
    195-214: path, accessor type and number of keys *)
Definition channel_tracks (channel : RawChannel) : list (string * GLType * nat) :=
  (if is_empty (ch_translations channel) then []
   else [("translation"%string, GLT_VEC3F, length (ch_translations channel))])
  ++ (if is_empty (ch_rotations channel) then []
      else [("rotation"%string, GLT_QUATF, length (ch_rotations channel))])
  ++ (if is_empty (ch_scales channel) then []
      else [("scale"%string, GLT_VEC3F, length (ch_scales channel))])
  ++ (if is_empty (ch_weights channel) then []
      else [("weights"%string, GLT_FLOAT, length (ch_weights channel))]).

Definition animation_tracks (raw : RawModel) (nodesById : gmap Z nat)
    (channels : list RawChannel) : list (nat * (string * GLType * nat)) :=
  flat_map (fun ch => match channel_node raw nodesById ch with
                      | Some n => map (pair n) (channel_tracks ch)
                      | None => []
                      end) channels.

Definition with_channels (a : AnimationData) (chs : list (nat * nat * string))
  : AnimationData :=
  {| anim_ix := anim_ix a; anim_name := anim_name a;
     anim_timeAccessor := anim_timeAccessor a; anim_channels := chs |}.

Definition track_accessor (A V : nat) (j : nat) (t : nat * (string * GLType * nat))
  : AccessorData :=
  plain_acc (A + j) (V + j) t.2.1.2 t.2.2 "".

Definition track_channel (A : nat) (j : nat) (t : nat * (string * GLType * nat))
  : nat * nat * string :=
  (t.1, (A + j)%nat, t.2.1.1).

(** the state after the tracks [T] were added to animation [aDat], which
    was [a0] in [s0] *)
Definition tracks_inv (s0 : State) (aDat : nat) (a0 : AnimationData)
    (T : list (nat * (string * GLType * nat))) (s : State) : Prop :=
  let A := length (accessors (gltf s0)) in
  let V := length (bufferViews (gltf s0)) in
  accessors (gltf s) = accessors (gltf s0) ++ imap (track_accessor A V) T /\
  length (bufferViews (gltf s)) = (V + length T)%nat /\
  animations (gltf s) =
    <[aDat := with_channels a0 (imap (track_channel A) T)]> (animations (gltf s0)).

Lemma add_track_inv `{GLWritable T} s0 aDat a0 Tr nDat ty (src : list T) path s :
  (aDat < length (animations (gltf s0)))%nat ->
  tracks_inv s0 aDat a0 Tr s ->
  post (acc ← AddAccessorAndView ty src; AddNodeChannel aDat nDat acc path) s
    (fun _ s' => tracks_inv s0 aDat a0 (Tr ++ [(nDat, (path, ty, length src))]) s').
Proof.
  intros Hlt (Ha & Hv & Han).
  apply post_bind. eapply post_run; [apply AddAccessorAndView_run|]. cbv zeta.
  unfold AddNodeChannel. apply post_bind, post_get_model.
  apply post_bind, post_deref. intros a Hlook. apply post_modify.
  cbn [gltf set_gltf] in Hlook.
  change (animations (gltf (upd_buf ?a ?v ?b s))) with (animations (gltf s)) in Hlook.
  rewrite Han, list_lookup_insert_eq in Hlook by done. injection Hlook as <-.
  unfold tracks_inv. cbn [gltf set_gltf set_animations accessors bufferViews animations].
  autorewrite with buf.
  change (animations (gltf (upd_buf ?a ?v ?b s))) with (animations (gltf s)).
  rewrite !imap_app. cbn [imap]. rewrite !length_app. cbn [length].
  split; [|split].
  - rewrite Ha, <- app_assoc. f_equal. f_equal.
    rewrite length_app, length_imap, Hv, !Nat.add_0_r. reflexivity.
  - rewrite Hv. lia.
  - rewrite Han, list_insert_insert_eq. f_equal.
    unfold with_channels. cbn. f_equal. f_equal. unfold track_channel. cbn.
    rewrite Ha, length_app, length_imap, Nat.add_0_r. reflexivity.
Qed.

Lemma tracks_inv_nil s0 aDat a0 Tr s :
  tracks_inv s0 aDat a0 (Tr ++ []) s -> tracks_inv s0 aDat a0 Tr s.
Proof. by rewrite app_nil_r. Qed.

Lemma channel_step_tracks raw nodesById s0 aDat a0 Tr channel s :
  (aDat < length (animations (gltf s0)))%nat ->
  tracks_inv s0 aDat a0 Tr s ->
  post (channel_step raw nodesById aDat channel) s
    (fun _ s' =>
       exists n, channel_node raw nodesById channel = Some n /\
                 tracks_inv s0 aDat a0 (Tr ++ map (pair n) (channel_tracks channel)) s').
Proof.
  intros Hlt Hinv. unfold channel_step, require.
  apply post_bind, post_deref. intros node Hnode.
  apply post_bind, post_deref. intros n Hn.
  assert (Hstep : forall {T} `{GLWritable T} (src : list T) ty path Tr1 s1,
    tracks_inv s0 aDat a0 Tr1 s1 ->
    post (if negb (is_empty src)
          then acc ← AddAccessorAndView ty src; AddNodeChannel aDat n acc path
          else mret tt) s1
      (fun _ s' => tracks_inv s0 aDat a0
         (Tr1 ++ map (pair n) (if is_empty src then [] else [(path, ty, length src)])) s')).
  { intros T HT src ty path Tr1 s1 H1. destruct (is_empty src); cbn [negb map].
    - apply post_ret. by rewrite app_nil_r.
    - by apply add_track_inv. }
  apply post_bind. eapply post_weaken; [by apply Hstep|]. intros [] s1 H1.
  apply post_bind. eapply post_weaken; [by apply Hstep|]. intros [] s2 H2.
  apply post_bind. eapply post_weaken; [by apply Hstep|]. intros [] s3 H3.
  eapply post_weaken; [by apply Hstep|]. intros [] s4 H4.
  exists n. split.
  - unfold channel_node. rewrite Hnode. exact Hn.
  - unfold channel_tracks. rewrite !map_app, !app_assoc. exact H4.
Qed.

Lemma channels_loop_tracks raw nodesById s0 aDat a0 channels : forall Tr s,
  (aDat < length (animations (gltf s0)))%nat ->
  tracks_inv s0 aDat a0 Tr s ->
  post (for_each channels (channel_step raw nodesById aDat)) s
    (fun _ s' =>
       Forall (fun ch => is_Some (channel_node raw nodesById ch)) channels /\
       tracks_inv s0 aDat a0 (Tr ++ animation_tracks raw nodesById channels) s').
Proof.
  induction channels as [|ch channels IH]; intros Tr s Hlt Hinv;
    cbn [for_each animation_tracks flat_map].
  - apply post_ret. split; [done|]. by rewrite app_nil_r.
  - apply post_bind. eapply post_weaken; [by apply channel_step_tracks|].
    intros [] s1 (n & Hn & H1). eapply post_weaken; [by apply IH|].
    intros [] s' (Hall & H'). split.
    + constructor; [by eexists|done].
    + rewrite Hn. by rewrite app_assoc.
Qed.

(** X7: an animation with channels gets one channel target per non-empty
    track, in the order of the raw channels and, within a channel, in the
    order translation, rotation, scale, weights.  Track [j] is given the
    accessor [j + 1] after the accessors that existed (the time accessor
    is the first), a plain accessor of the type of the track (VEC3, VEC4,
    VEC3, SCALAR) that counts the keys of the track and starts a buffer
    view of its own; every channel's node is found in the map by id. *)
Theorem animation_channels raw nodesById animation s s' :
  is_empty (ra_channels animation) = false ->
  animation_step raw nodesById animation s = Some (tt, s') ->
  let A := length (accessors (gltf s)) in
  let V := length (bufferViews (gltf s)) in
  let tracks := animation_tracks raw nodesById (ra_channels animation) in
  Forall (fun ch => is_Some (channel_node raw nodesById ch)) (ra_channels animation) /\
  exists ad,
    animations (gltf s') = animations (gltf s) ++ [ad] /\
    length (anim_channels ad) = length tracks /\
    length (accessors (gltf s')) = (A + 1 + length tracks)%nat /\
    forall j n path ty cnt, tracks !! j = Some (n, (path, ty, cnt)) ->
      anim_channels ad !! j = Some (n, (A + 1 + j)%nat, path) /\
      exists acc, accessors (gltf s') !! (A + 1 + j)%nat = Some acc /\
        acc_type acc = ty /\ acc_count acc = Z.of_nat cnt /\ acc_sparse acc = false /\
        acc_bufferView acc = Z.of_nat (V + 1 + j) /\ acc_byteOffset acc = 0.
Proof.
  intros Hch Hrun A V tracks. rewrite animation_step_channels in Hrun by done.
  cbv zeta in Hrun.
  destruct (min_element (ra_times animation)) as [lo|] eqn:Elo; [|done].
  destruct (max_element (ra_times animation)) as [hi|] eqn:Ehi; [|done].
  cbn [mbind option_bind] in Hrun.
  set (s0 := set_gltf _ s) in Hrun.
  set (a0 := {| anim_ix := length (animations (gltf s)); anim_name := ra_name animation;
                anim_timeAccessor := length (accessors (gltf s)); anim_channels := [] |}).
  assert (Hlt : (length (animations (gltf s)) < length (animations (gltf s0)))%nat).
  { unfold s0. cbn. rewrite length_app. cbn. lia. }
  assert (Hinv0 : tracks_inv s0 (length (animations (gltf s))) a0 [] s0).
  { unfold tracks_inv. cbv zeta. cbn [imap length]. rewrite app_nil_r, Nat.add_0_r.
    split; [done|]. split; [done|].
    symmetry. apply list_insert_id. unfold s0. cbn. apply lookup_snoc. }
  pose proof (channels_loop_tracks raw nodesById s0 _ a0 (ra_channels animation) [] s0
                Hlt Hinv0 tt s' Hrun) as (Hall & Ha & Hv & Han).
  cbn [app] in Ha, Hv, Han. fold tracks in Ha, Hv, Han.
  assert (HA0 : length (accessors (gltf s0)) = (A + 1)%nat).
  { unfold s0. cbn. autorewrite with buf. rewrite length_app. reflexivity. }
  assert (HV0 : length (bufferViews (gltf s0)) = (V + 1)%nat).
  { unfold s0. cbn. autorewrite with buf. rewrite length_app. reflexivity. }
  rewrite HA0, HV0 in *.
  split; [exact Hall|].
  exists (with_channels a0 (imap (track_channel (A + 1)) tracks)).
  split.
  { rewrite Han. unfold s0. cbn [gltf set_gltf set_animations animations].
    by rewrite insert_snoc. }
  split; [cbn; by rewrite length_imap|].
  split; [rewrite Ha, length_app, length_imap, HA0; reflexivity|].
  intros j n path ty cnt Hj. cbn [with_channels anim_channels].
  split; [by rewrite list_lookup_imap, Hj|].
  exists (track_accessor (A + 1) (V + 1) j (n, (path, ty, cnt))).
  split; [|done].
  rewrite Ha, lookup_app_r by lia. rewrite HA0.
  replace (A + 1 + j - (A + 1))%nat with j by lia.
  by rewrite list_lookup_imap, Hj.
Qed.

(** ** The vertices a blend channel modifies (lines 643-679) *)

(** lines 654-660: a vertex is kept when its position moves, and always
    when sparse blend shapes are disabled *)
Definition is_sparse_vertex (options : GltfOptions) (b : RawBlendVertex) : bool :=
  flt f0 (vec3_Length (bl_position b)) || disableSparseBlendShapes options.

Definition kept_vertices (options : GltfOptions) (j0 : nat) (blends : list RawBlendVertex)
  : list (nat * RawBlendVertex) :=
  List.filter (fun jb => is_sparse_vertex options jb.2) (zip (seq j0 (length blends)) blends).

Lemma collect_vertices_kept options channel k : forall vs j0 d d',
  collect_vertices options channel k (zip (seq j0 (length vs)) vs) d = Some d' ->
  exists blends,
    Forall2 (fun v b => rv_blends v !! k = Some b) vs blends /\
    let kept := kept_vertices options j0 blends in
    sparseIndices d' = sparseIndices d ++ map (fun jb => Z.of_nat jb.1) kept /\
    positions d' = positions d ++ map (fun jb => bl_position jb.2) kept /\
    normals d' = normals d ++
      (if useBlendShapeNormals options && bc_hasNormals channel
       then map (fun jb => bl_normal jb.2) kept else []) /\
    tangents d' = tangents d ++
      (if useBlendShapeTangents options && bc_hasTangents channel
       then map (fun jb => bl_tangent jb.2) kept else []) /\
    shapeBounds d' = foldl (fun b x => AddPoint (bl_position x) b) (shapeBounds d) blends.
Proof.
  induction vs as [|v vs IH]; intros j0 d d' Hrun.
  - cbn in Hrun. injection Hrun as <-. exists []. split; [constructor|].
    cbn. rewrite !app_nil_r.
    destruct (useBlendShapeNormals options && bc_hasNormals channel),
      (useBlendShapeTangents options && bc_hasTangents channel);
      by rewrite !app_nil_r.
  - cbn [length seq zip zip_with collect_vertices] in Hrun.
    destruct (collect_vertex options channel k (j0, v) d) as [d1|] eqn:E1; [|done].
    cbn [mbind option_bind] in Hrun.
    unfold collect_vertex in E1.
    destruct (rv_blends v !! k) as [b|] eqn:Hb; [|done]. cbn [mbind option_bind] in E1.
    injection E1 as <-.
    destruct (IH (S j0) _ d' Hrun) as (blends & Hall & Hidx & Hpos & Hnor & Htan & Hbnd).
    exists (b :: blends). split; [by constructor|].
    cbn [shapeBounds positions normals tangents sparseIndices] in *.
    unfold kept_vertices in *. cbn [length seq zip zip_with List.filter snd].
    fold (is_sparse_vertex options b) in *.
    assert (Hs : (if flt f0 (vec3_Length (bl_position b)) then true
                  else disableSparseBlendShapes options) = is_sparse_vertex options b).
    { unfold is_sparse_vertex. by destruct (flt _ _). }
    rewrite Hs in *. clear Hs.
    rewrite Hidx, Hpos, Hnor, Htan, Hbnd. cbn [foldl].
    destruct (is_sparse_vertex options b); cbn [andb map fst snd];
      destruct (useBlendShapeNormals options && bc_hasNormals channel);
      destruct (useBlendShapeTangents options && bc_hasTangents channel);
      cbn [map fst snd]; rewrite <- ?app_assoc, ?app_nil_r; done.
Qed.

Lemma kept_vertices_sorted options blends : forall j0,
  Forall (fun jb => (j0 <= jb.1 < j0 + length blends)%nat) (kept_vertices options j0 blends) /\
  forall i j x y, (i < j)%nat ->
    kept_vertices options j0 blends !! i = Some x ->
    kept_vertices options j0 blends !! j = Some y -> (x.1 < y.1)%nat.
Proof.
  unfold kept_vertices.
  induction blends as [|b blends IH]; intros j0; cbn [length seq zip zip_with List.filter].
  - split; [constructor|]. intros i j x y _ H. done.
  - destruct (IH (S j0)) as [Hin Hs].
    assert (Hin' : Forall (fun jb : nat * RawBlendVertex =>
                             (j0 <= jb.1 < j0 + S (length blends))%nat)
                     (List.filter (fun jb => is_sparse_vertex options jb.2)
                        (zip (seq (S j0) (length blends)) blends))).
    { eapply Forall_impl; [exact Hin|]. intros jb H. cbn in H. lia. }
    destruct (is_sparse_vertex options (j0, b).2).
    + split; [constructor; [cbn; lia|done]|].
      intros [|i] [|j] x y Hij Hx Hy; try lia; cbn in Hx, Hy.
      * injection Hx as <-. cbn. rewrite Forall_forall in Hin.
        apply list_elem_of_lookup_2, Hin in Hy. lia.
      * apply (Hs i j); [lia|done|done].
    + done.
Qed.

(** X8: the data collected for blend channel [k] of a surface.  The sparse
    indices are the indices of the vertices whose position delta has a
    length above zero, or of all vertices when sparse blend shapes are
    disabled, in strictly increasing order and below the vertex count; the
    positions are the deltas of these vertices; the normals and the
    tangents are those of the same vertices when the option and the
    channel's flag are both set, and empty otherwise; the bounds are
    taken over the deltas of all vertices, kept or not.  A vertex whose
    position does not move is not kept, whatever its normal and tangent
    deltas are. *)
Theorem channel_vertices options sm channel k d :
  collect_channel options sm channel k = Some d ->
  exists blends,
    Forall2 (fun v b => rv_blends v !! k = Some b) (raw_vertices sm) blends /\
    let kept := kept_vertices options 0 blends in
    sparseIndices d = map (fun jb => Z.of_nat jb.1) kept /\
    positions d = map (fun jb => bl_position jb.2) kept /\
    normals d =
      (if useBlendShapeNormals options && bc_hasNormals channel
       then map (fun jb => bl_normal jb.2) kept else []) /\
    tangents d =
      (if useBlendShapeTangents options && bc_hasTangents channel
       then map (fun jb => bl_tangent jb.2) kept else []) /\
    shapeBounds d = foldl (fun b x => AddPoint (bl_position x) b) None blends /\
    (forall i j x y, (i < j)%nat ->
       sparseIndices d !! i = Some x -> sparseIndices d !! j = Some y -> x < y) /\
    Forall (fun i => 0 <= i < GetVertexCount sm) (sparseIndices d) /\
    (disableSparseBlendShapes options = true ->
       sparseIndices d = map Z.of_nat (seq 0 (length (raw_vertices sm)))) /\
    (disableSparseBlendShapes options = false ->
       forall j b, blends !! j = Some b ->
         (Z.of_nat j ∈ sparseIndices d <-> flt f0 (vec3_Length (bl_position b)) = true)).
Proof.
  unfold collect_channel, indexed. intros Hrun.
  destruct (collect_vertices_kept _ _ _ _ _ _ _ Hrun)
    as (blends & Hall & Hidx & Hpos & Hnor & Htan & Hbnd).
  cbn [sparseIndices positions normals tangents shapeBounds app] in *.
  exists blends. split; [done|]. cbv zeta.
  split; [done|]. split; [done|]. split; [done|]. split; [done|]. split; [done|].
  destruct (kept_vertices_sorted options blends 0) as [Hin Hsorted].
  assert (Hlen : length blends = length (raw_vertices sm))
    by (symmetry; by eapply Forall2_length).
  split.
  { intros i j x y Hij Hx Hy. rewrite Hidx in Hx, Hy.
    rewrite list_lookup_fmap in Hx, Hy.
    destruct (kept_vertices options 0 blends !! i) as [jx|] eqn:Ex; [|done].
    destruct (kept_vertices options 0 blends !! j) as [jy|] eqn:Ey; [|done].
    cbn in Hx, Hy. injection Hx as <-. injection Hy as <-.
    pose proof (Hsorted i j jx jy Hij Ex Ey). lia. }
  split.
  { rewrite Hidx. apply Forall_forall. intros x Hx.
    apply list_elem_of_In, in_map_iff in Hx. destruct Hx as (jb & <- & Hjb).
    rewrite Forall_forall in Hin. apply list_elem_of_In, Hin in Hjb.
    unfold GetVertexCount. lia. }
  split.
  { intros Hdis. rewrite Hidx. unfold kept_vertices, is_sparse_vertex. rewrite Hdis.
    rewrite <- Hlen. clear. generalize 0%nat.
    induction blends as [|b blends IH]; intros j0; [done|].
    cbn [length seq zip zip_with List.filter snd map fst].
    rewrite orb_true_r. cbn [map fst]. f_equal. apply IH. }
  intros Hdis j b Hj. rewrite Hidx. unfold kept_vertices, is_sparse_vertex.
  rewrite Hdis. split.
  - intros Hx. apply list_elem_of_In, in_map_iff in Hx.
    destruct Hx as ([j' b'] & Hj' & Hjb). cbn in Hj'. apply Nat2Z.inj in Hj'. subst j'.
    apply filter_In in Hjb as [Hjb Hb']. cbn in Hb'. rewrite orb_false_r in Hb'.
    apply list_elem_of_In, list_elem_of_lookup_1 in Hjb as [i Hi].
    apply lookup_zip_with_Some in Hi as (x & y & [= <- <-] & Hx & Hy).
    apply lookup_seq in Hx as [-> _]. cbn in Hj. congruence.
  - intros Hb. apply list_elem_of_In, in_map_iff. exists (j, b). split; [done|].
    apply filter_In. cbn. rewrite orb_false_r. split; [|done].
    apply list_elem_of_In, list_elem_of_lookup. exists j.
    apply lookup_zip_with_Some. exists j, b. split; [done|]. split; [|done].
    apply lookup_seq. split; [done|]. by eapply lookup_lt_Some.
Qed.

(** ** The primitive of a surface model and its mesh (lines 475-817) *)

Definition keeps_meshes (s s' : State) : Prop := meshes (gltf s') = meshes (gltf s).

Lemma keeps_meshes_trans s1 s2 s3 :
  keeps_meshes s1 s2 -> keeps_meshes s2 s3 -> keeps_meshes s1 s3.
Proof. unfold keeps_meshes. congruence. Qed.

Lemma keeps_meshes_gltf s s' : gltf s' = gltf s -> keeps_meshes s s'.
Proof. intros H. unfold keeps_meshes. by rewrite H. Qed.

Ltac meshes_tac := respects_tac keeps_meshes_trans keeps_meshes_gltf ltac:(reflexivity).

(** [post] for a stage that keeps the meshes *)
Ltac keep_meshes :=
  lazymatch goal with
  | |- post ?m ?s _ =>
      let H := fresh in
      assert (H : respects keeps_meshes m) by meshes_tac;
      eapply post_weaken; [apply H|]; clear H
  end.

(** the attributes named [names] were added to the primitive; its
    material, its indices and its targets stay, and so do the meshes *)
Definition prim_ext (names : list string) (s : State) (p : PrimitiveData)
    (s' : State) (p' : PrimitiveData) : Prop :=
  keeps_meshes s s' /\
  map fst (pr_attributes p') = map fst (pr_attributes p) ++ names /\
  pr_material p' = pr_material p /\ pr_targets p' = pr_targets p /\
  pr_indices p' = pr_indices p.

Lemma prim_ext_refl s p : prim_ext [] s p s p.
Proof. unfold prim_ext, keeps_meshes. by rewrite app_nil_r. Qed.

Lemma prim_ext_trans n1 n2 s p s1 p1 s2 p2 :
  prim_ext n1 s p s1 p1 -> prim_ext n2 s1 p1 s2 p2 -> prim_ext (n1 ++ n2) s p s2 p2.
Proof.
  unfold prim_ext, keeps_meshes. intros (A1 & A2 & A3 & A4 & A5) (B1 & B2 & B3 & B4 & B5).
  split; [congruence|]. split; [by rewrite B2, A2, app_assoc|].
  split; [congruence|]. split; congruence.
Qed.

Lemma prim_ext_state names s p s1 p1 s2 :
  prim_ext names s p s1 p1 -> keeps_meshes s1 s2 -> prim_ext names s p s2 p1.
Proof.
  unfold prim_ext, keeps_meshes. intros (A1 & A2) B. split; [congruence|done].
Qed.

Section PrimitiveProofs.

Variable to_uint32 : Z -> option Z.
Variable EncodeMeshToBuffer : DracoEncoder -> DracoMesh -> option (list byte).

Lemma AddAttributeToPrimitive_names `{GLWritable T} sm p (attrDef : AttributeDefinition T) s :
  post (AddAttributeToPrimitive to_uint32 sm p attrDef) s
    (fun '(_, p') s' => prim_ext [gltfName attrDef] s p s' p').
Proof.
  unfold AddAttributeToPrimitive. apply post_bind, post_deref. intros arr _.
  destruct (dracoAttribute attrDef) as [da|]; [destruct (pr_dracoMesh p) as [dm|]|].
  - apply post_bind, post_deref. intros count _.
    apply post_bind. keep_meshes. intros a s1 H1.
    apply post_bind. keep_meshes. intros [] s2 H2. apply post_ret.
    unfold prim_ext, keeps_meshes in *. cbn. rewrite map_app. split; [congruence|done].
  - apply post_bind. keep_meshes. intros v s1 H1.
    apply post_bind. keep_meshes. intros a s2 H2. apply post_ret.
    unfold prim_ext, keeps_meshes in *. cbn. rewrite map_app. split; [congruence|done].
  - apply post_bind. keep_meshes. intros v s1 H1.
    apply post_bind. keep_meshes. intros a s2 H2. apply post_ret.
    unfold prim_ext, keeps_meshes in *. cbn. rewrite map_app. split; [congruence|done].
Qed.

Lemma opt_attr_names `{GLWritable T} (c : bool) sm p (attrDef : AttributeDefinition T) s :
  post (if c
        then '(_, p) ← AddAttributeToPrimitive to_uint32 sm p attrDef; mret p
        else mret p) s
    (fun p' s' => prim_ext (if c then [gltfName attrDef] else []) s p s' p').
Proof.
  destruct c; [|apply post_ret, prim_ext_refl].
  apply post_bind. eapply post_weaken; [apply AddAttributeToPrimitive_names|].
  intros [a p'] s' Hext. by apply post_ret.
Qed.

Lemma opt_base_names `{GLWritable T} (c : bool) sm p (attrDef : AttributeDefinition T) s :
  post (if c
        then '(a, p) ← AddAttributeToPrimitive to_uint32 sm p attrDef; mret (Some a, p)
        else mret (None, p)) s
    (fun '(_, p') s' => prim_ext (if c then [gltfName attrDef] else []) s p s' p').
Proof.
  destruct c; [|apply post_ret, prim_ext_refl].
  apply post_bind. eapply post_weaken; [apply AddAttributeToPrimitive_names|].
  intros [a p'] s' Hext. by apply post_ret.
Qed.

Lemma attr_loop_names `{GLWritable T} sm (attr : nat -> AttributeDefinition T) ks :
  forall p s,
  post (for_fold ks
          (fun k p => '(_, p) ← AddAttributeToPrimitive to_uint32 sm p (attr k); mret p) p) s
    (fun p' s' => prim_ext (map (fun k => gltfName (attr k)) ks) s p s' p').
Proof.
  induction ks as [|k ks IH]; intros p s; cbn [for_fold map].
  - apply post_ret, prim_ext_refl.
  - apply post_bind. apply post_bind.
    eapply post_weaken; [apply AddAttributeToPrimitive_names|].
    intros [a p1] s1 H1. apply post_ret. eapply post_weaken; [apply IH|].
    intros p2 s2 H2. apply (prim_ext_trans [_] _ _ _ _ _ _ _ H1 H2).
Qed.

(** the names of the attributes of a surface, in the order of lines
    550-637 *)
Definition attribute_names (sm : RawModel) : list string :=
  (if has_attribute sm RAW_VERTEX_ATTRIBUTE_POSITION then ["POSITION"%string] else [])
  ++ (if has_attribute sm RAW_VERTEX_ATTRIBUTE_NORMAL then ["NORMAL"%string] else [])
  ++ (if has_attribute sm RAW_VERTEX_ATTRIBUTE_TANGENT then ["TANGENT"%string] else [])
  ++ (if has_attribute sm RAW_VERTEX_ATTRIBUTE_COLOR then ["COLOR_0"%string] else [])
  ++ (if has_attribute sm RAW_VERTEX_ATTRIBUTE_UV0 then ["TEXCOORD_0"%string] else [])
  ++ (if has_attribute sm RAW_VERTEX_ATTRIBUTE_UV1 then ["TEXCOORD_1"%string] else [])
  ++ (if has_attribute sm RAW_VERTEX_ATTRIBUTE_JOINT_INDICES
      then map (fun k => ("JOINTS_" ++ to_string k)%string)
             (weight_groups (raw_globalWeightCount sm))
      else [])
  ++ (if has_attribute sm RAW_VERTEX_ATTRIBUTE_JOINT_WEIGHTS
      then map (fun k => ("WEIGHTS_" ++ to_string k)%string)
             (weight_groups (raw_globalWeightCount sm))
      else []).

Lemma surface_attributes_names sm rawSurface p s :
  post (surface_attributes to_uint32 sm rawSurface p) s
    (fun '(_, p') s' => prim_ext (attribute_names sm) s p s' p').
Proof.
  unfold surface_attributes, attribute_names.
  apply post_bind.
  apply post_weaken with
    (Q := fun '(_, p1) s1 =>
            prim_ext (if has_attribute sm RAW_VERTEX_ATTRIBUTE_POSITION
                      then ["POSITION"%string] else []) s p s1 p1).
  { destruct (has_attribute sm RAW_VERTEX_ATTRIBUTE_POSITION).
    - apply post_bind. eapply post_weaken; [apply AddAttributeToPrimitive_names|].
      intros [a p1] s1 H1. apply post_bind. keep_meshes. intros [] s2 H2.
      apply post_ret. by eapply prim_ext_state.
    - apply post_ret, prim_ext_refl. }
  intros [pB p1] s1 H1.
  apply post_bind. eapply post_weaken; [apply opt_base_names|]. intros [nB p2] s2 H2.
  apply post_bind. eapply post_weaken; [apply opt_base_names|]. intros [tB p3] s3 H3.
  apply post_bind. eapply post_weaken; [apply opt_attr_names|]. intros p4 s4 H4.
  apply post_bind. eapply post_weaken; [apply opt_attr_names|]. intros p5 s5 H5.
  apply post_bind. eapply post_weaken; [apply opt_attr_names|]. intros p6 s6 H6.
  apply post_bind.
  apply post_weaken with
    (Q := fun p7 s7 =>
            prim_ext (if has_attribute sm RAW_VERTEX_ATTRIBUTE_JOINT_INDICES
                      then map (fun k => ("JOINTS_" ++ to_string k)%string)
                             (weight_groups (raw_globalWeightCount sm))
                      else []) s6 p6 s7 p7).
  { destruct (has_attribute sm RAW_VERTEX_ATTRIBUTE_JOINT_INDICES);
      [|apply post_ret, prim_ext_refl].
    apply (attr_loop_names sm ATTR_JOINTS). }
  intros p7 s7 H7.
  apply post_bind.
  apply post_weaken with
    (Q := fun p8 s8 =>
            prim_ext (if has_attribute sm RAW_VERTEX_ATTRIBUTE_JOINT_WEIGHTS
                      then map (fun k => ("WEIGHTS_" ++ to_string k)%string)
                             (weight_groups (raw_globalWeightCount sm))
                      else []) s7 p7 s8 p8).
  { destruct (has_attribute sm RAW_VERTEX_ATTRIBUTE_JOINT_WEIGHTS);
      [|apply post_ret, prim_ext_refl].
    apply (attr_loop_names sm ATTR_WEIGHTS). }
  intros p8 s8 H8. apply post_ret. cbv beta in *.
  eapply prim_ext_trans; [exact H1|]. eapply prim_ext_trans; [exact H2|].
  eapply prim_ext_trans; [exact H3|]. eapply prim_ext_trans; [exact H4|].
  eapply prim_ext_trans; [exact H5|]. eapply prim_ext_trans; [exact H6|].
  eapply prim_ext_trans; [exact H7|]. exact H8.
Qed.

(** the channel loop adds targets only *)
Lemma channel_target_prim options sm ul pAccBase nAccBase ic loc s :
  post (channel_target options sm ul pAccBase nAccBase ic loc) s
    (fun loc' s' =>
       keeps_meshes s s' /\
       pr_attributes (primitive loc') = pr_attributes (primitive loc) /\
       pr_material (primitive loc') = pr_material (primitive loc) /\
       length (pr_targets (primitive loc')) = S (length (pr_targets (primitive loc)))).
Proof.
  unfold channel_target. destruct ic as [channelIx channel].
  apply post_bind, post_deref. intros d _.
  apply post_bind. keep_meshes. intros [[[[pAcc nAcc] tAcc] idxView] dataView] s1 H1.
  apply post_bind. keep_meshes. intros [] s2 H2. apply post_ret.
  unfold keeps_meshes in *. cbn. rewrite length_app. cbn.
  split; [congruence|]. split; [done|]. split; [done|lia].
Qed.

Lemma channels_loop_prim options sm ul pAccBase nAccBase cs : forall loc s,
  post (for_fold cs (channel_target options sm ul pAccBase nAccBase) loc) s
    (fun loc' s' =>
       keeps_meshes s s' /\
       pr_attributes (primitive loc') = pr_attributes (primitive loc) /\
       pr_material (primitive loc') = pr_material (primitive loc) /\
       length (pr_targets (primitive loc')) =
         (length (pr_targets (primitive loc)) + length cs)%nat).
Proof.
  induction cs as [|c cs IH]; intros loc s; cbn [for_fold].
  - apply post_ret. unfold keeps_meshes. cbn. split; [done|]. split; [done|].
    split; [done|lia].
  - apply post_bind. eapply post_weaken; [apply channel_target_prim|].
    intros loc1 s1 (A1 & A2 & A3 & A4). eapply post_weaken; [apply IH|].
    intros loc2 s2 (B1 & B2 & B3 & B4). unfold keeps_meshes in *.
    split; [congruence|]. split; [congruence|]. split; [congruence|].
    cbn [length]. lia.
Qed.

Lemma surface_compress_prim options p s :
  post (surface_compress to_uint32 EncodeMeshToBuffer options p) s
    (fun p' s' =>
       keeps_meshes s s' /\ pr_attributes p' = pr_attributes p /\
       pr_material p' = pr_material p /\ pr_targets p' = pr_targets p).
Proof.
  unfold surface_compress. destruct (draco_enabled (draco options)).
  - apply post_bind, post_deref. intros dm _.
    apply post_bind, post_deref. intros buf _.
    apply post_bind, post_deref. intros size _.
    apply post_bind. keep_meshes. intros v s1 H1. apply post_ret. done.
  - apply post_ret. done.
Qed.

(** the material of a surface model: the one of its first triangle *)
Definition surface_material (materialsById : gmap Z nat) (sm : RawModel) : option nat :=
  t ← raw_triangles sm !! 0%nat;
  m ← at_index (raw_materials sm) (materialIndex t);
  materialsById !! rm_id m.

Definition add_primitive (md : MeshData) (p : PrimitiveData) : MeshData :=
  {| mesh_ix := mesh_ix md; mesh_name := mesh_name md; mesh_weights := mesh_weights md;
     mesh_primitives := mesh_primitives md ++ [p] |}.

(** the mesh that is held for the first surface model of a surface id *)
Definition new_mesh (k : nat) (rawSurface : RawSurface) (p : PrimitiveData) : MeshData :=
  {| mesh_ix := k; mesh_name := rs_name rawSurface;
     mesh_weights := map bc_defaultDeform (rs_blendChannels rawSurface);
     mesh_primitives := [p] |}.

Lemma surface_step_primitive options materialsById sm meshBySurfaceId s :
  post (surface_step to_uint32 EncodeMeshToBuffer options materialsById sm meshBySurfaceId) s
    (fun m' s' =>
       exists rawSurface mData p,
         raw_surfaces sm = [rawSurface] /\
         surface_material materialsById sm = Some mData /\
         pr_material p = mData /\
         map fst (pr_attributes p) = attribute_names sm /\
         length (pr_targets p) = length (rs_blendChannels rawSurface) /\
         match meshBySurfaceId !! rs_id rawSurface with
         | Some k =>
             m' = meshBySurfaceId /\
             exists md, meshes (gltf s) !! k = Some md /\
                        meshes (gltf s') = <[k := add_primitive md p]> (meshes (gltf s))
         | None =>
             m' = <[rs_id rawSurface := length (meshes (gltf s))]> meshBySurfaceId /\
             meshes (gltf s') =
               meshes (gltf s) ++ [new_mesh (length (meshes (gltf s))) rawSurface p]
         end).
Proof.
  unfold surface_step.
  apply post_bind, post_assert. intros Hone%Nat.eqb_eq.
  apply post_bind, post_deref. intros rawSurface Hraw.
  assert (Hsurf : raw_surfaces sm = [rawSurface]).
  { destruct (raw_surfaces sm) as [|x [|y l]]; try done. cbn in Hraw. congruence. }
  apply post_bind, post_deref. intros triangle0 Htri.
  apply post_bind, post_deref. intros rawMaterial Hmat.
  apply post_bind. unfold require. apply post_deref. intros mData HmData.
  assert (Hsm : surface_material materialsById sm = Some mData).
  { unfold surface_material. rewrite Htri. cbn. rewrite Hmat. cbn. exact HmData. }
  apply post_bind.
  apply post_weaken with
    (Q := fun '(mesh, m') s1 =>
            match meshBySurfaceId !! rs_id rawSurface with
            | Some k => mesh = k /\ m' = meshBySurfaceId /\ s1 = s
            | None =>
                mesh = length (meshes (gltf s)) /\
                m' = <[rs_id rawSurface := length (meshes (gltf s))]> meshBySurfaceId /\
                meshes (gltf s1) =
                  meshes (gltf s) ++
                    [{| mesh_ix := length (meshes (gltf s)); mesh_name := rs_name rawSurface;
                        mesh_weights := map bc_defaultDeform (rs_blendChannels rawSurface);
                        mesh_primitives := [] |}]
            end).
  { destruct (meshBySurfaceId !! rs_id rawSurface) as [k|].
    - apply post_ret. done.
    - cbv zeta. apply post_bind. unfold hold_mesh.
      apply post_bind, post_get_model. rewrite hold_length. cbv iota beta.
      apply post_bind, post_modify. apply post_ret. apply post_ret. done. }
  intros [mesh m'] s1 Hmesh.
  apply post_bind. eapply post_weaken; [apply surface_indices_post|].
  intros p2 s2 (na2 & nv2 & nb2 & iacc & Happ2 & _ & _ & _ & _ & Htg2 & Hat2 & Hmat2).
  apply appended_meshes in Happ2 as M2.
  apply post_bind. eapply post_weaken; [apply surface_attributes_names|].
  intros [base p3] s3 (M3 & Hn3 & Hm3 & Ht3 & _).
  apply post_bind. eapply post_weaken; [apply channels_loop_prim|].
  intros loc s4 (M4 & Hn4 & Hm4 & Ht4). cbn [primitive] in Hn4, Hm4, Ht4.
  apply post_bind. eapply post_weaken; [apply surface_compress_prim|].
  intros p5 s5 (M5 & Hn5 & Hm5 & Ht5).
  apply post_bind. unfold AddPrimitive. apply post_bind, post_get_model.
  apply post_bind, post_deref. intros md0 Hmd0. apply post_modify. apply post_ret.
  unfold keeps_meshes in *.
  assert (HM : meshes (gltf s5) = meshes (gltf s1)) by congruence.
  exists rawSurface, mData, p5. split; [done|]. split; [done|].
  split; [congruence|].
  split. { rewrite Hn5, Hn4, Hn3, Hat2. reflexivity. }
  split. { rewrite Ht5, Ht4, Ht3, Htg2. cbn. unfold indexed.
           rewrite length_zip_with, length_seq. lia. }
  cbn [gltf set_gltf set_meshes meshes]. rewrite HM in *.
  destruct (meshBySurfaceId !! rs_id rawSurface) as [k|].
  - destruct Hmesh as (-> & -> & ->). split; [done|]. exists md0. done.
  - destruct Hmesh as (-> & -> & E1). split; [done|].
    rewrite E1 in *. rewrite lookup_snoc in Hmd0. injection Hmd0 as <-.
    by rewrite insert_snoc.
Qed.

End PrimitiveProofs.

(** ** Meshes are shared by the surface models of one surface id *)

Definition surface_id (sm : RawModel) : option Z := rs_id <$> raw_surfaces sm !! 0%nat.

(** the surface models of surface [id], in order *)
Definition models_of (id : Z) (models : list RawModel) : list RawModel :=
  List.filter (fun sm => bool_decide (surface_id sm = Some id)) models.

Lemma models_of_snoc id L sm :
  models_of id (L ++ [sm]) =
  models_of id L ++ (if bool_decide (surface_id sm = Some id) then [sm] else []).
Proof. unfold models_of. rewrite List.filter_app. reflexivity. Qed.

(** the meshes [ms] held for the surface models [L], and the map [m] of
    their indices by surface id; [base] meshes were held before *)
Definition meshes_inv (materialsById : gmap Z nat) (base : nat) (L : list RawModel)
    (m : gmap Z nat) (ms : list MeshData) : Prop :=
  length ms = size m /\
  (forall id, m !! id = None -> models_of id L = []) /\
  (forall id1 id2 k, m !! id1 = Some k -> m !! id2 = Some k -> id1 = id2) /\
  forall id k, m !! id = Some k ->
    exists md sm0 rs0 rest,
      (base <= k)%nat /\ ms !! (k - base)%nat = Some md /\ mesh_ix md = k /\
      models_of id L = sm0 :: rest /\ raw_surfaces sm0 = [rs0] /\
      mesh_name md = rs_name rs0 /\
      mesh_weights md = map bc_defaultDeform (rs_blendChannels rs0) /\
      map Some (map pr_material (mesh_primitives md))
        = map (surface_material materialsById) (models_of id L).

Lemma meshes_inv_step materialsById base L m ms sm rawSurface p mData :
  meshes_inv materialsById base L m ms ->
  raw_surfaces sm = [rawSurface] ->
  surface_material materialsById sm = Some mData ->
  pr_material p = mData ->
  match m !! rs_id rawSurface with
  | Some k =>
      forall md, ms !! (k - base)%nat = Some md ->
        meshes_inv materialsById base (L ++ [sm]) m (<[(k - base)%nat := add_primitive md p]> ms)
  | None =>
      meshes_inv materialsById base (L ++ [sm])
        (<[rs_id rawSurface := (base + length ms)%nat]> m)
        (ms ++ [new_mesh (base + length ms) rawSurface p])
  end.
Proof.
  intros (Hlen & Hnone & Hinj & Hall) Hsurf Hsm Hp.
  assert (Hid : surface_id sm = Some (rs_id rawSurface)).
  { unfold surface_id. by rewrite Hsurf. }
  assert (Hmodels : forall id, models_of id (L ++ [sm]) =
            models_of id L ++ (if decide (id = rs_id rawSurface) then [sm] else [])).
  { intros id. rewrite models_of_snoc, Hid. destruct (decide (id = rs_id rawSurface)) as [->|Hne].
    - by rewrite bool_decide_eq_true_2.
    - rewrite bool_decide_eq_false_2; [done|]. congruence. }
  destruct (m !! rs_id rawSurface) as [k|] eqn:Hk.
  - intros md Hmd. split; [by rewrite length_insert|]. split.
    { intros id Hn. rewrite Hmodels. destruct (decide (id = rs_id rawSurface)) as [->|Hne];
        [congruence|]. rewrite app_nil_r. by apply Hnone. }
    split; [exact Hinj|].
    intros id k' Hk'. destruct (Hall id k' Hk')
      as (md' & sm0 & rs0 & rest & Hb & Hmd' & Hix & Hmo & Hrs & Hname & Hw & Hmat).
    rewrite Hmodels. destruct (decide (id = rs_id rawSurface)) as [->|Hne].
    + assert (k' = k) as -> by congruence. assert (md' = md) as -> by congruence.
      exists (add_primitive md p), sm0, rs0, (rest ++ [sm]).
      split; [done|]. split; [apply list_lookup_insert_eq; by eapply lookup_lt_Some|].
      split; [done|]. split; [by rewrite Hmo|]. split; [done|]. split; [done|].
      split; [done|]. cbn [add_primitive mesh_primitives].
      rewrite !map_app, Hmat. cbn. by rewrite Hsm, Hp.
    + assert (k' <> k) by (intros ->; apply Hne; by eapply Hinj).
      destruct (Hall _ k Hk) as (_ & _ & _ & _ & Hbk & _).
      exists md', sm0, rs0, rest. split; [done|].
      split; [rewrite list_lookup_insert_ne by lia; done|].
      rewrite app_nil_r. done.
  - assert (Hfresh : forall id k', m !! id = Some k' -> (k' < base + length ms)%nat).
    { intros id k' Hk'. destruct (Hall id k' Hk') as (md' & _ & _ & _ & Hb & Hmd' & _).
      apply lookup_lt_Some in Hmd'. lia. }
    split; [rewrite length_app, map_size_insert_None by done; cbn; lia|]. split.
    { intros id Hn. apply lookup_insert_None in Hn as [Hn Hne].
      rewrite Hmodels. destruct (decide (id = rs_id rawSurface)); [congruence|].
      rewrite app_nil_r. by apply Hnone. }
    split.
    { intros id1 id2 k' H1 H2.
      destruct (decide (id1 = rs_id rawSurface)) as [->|N1],
               (decide (id2 = rs_id rawSurface)) as [->|N2]; [done| | |].
      - rewrite lookup_insert_eq in H1. rewrite lookup_insert_ne in H2 by done.
        injection H1 as <-. apply Hfresh in H2. lia.
      - rewrite lookup_insert_eq in H2. rewrite lookup_insert_ne in H1 by done.
        injection H2 as <-. apply Hfresh in H1. lia.
      - rewrite lookup_insert_ne in H1, H2 by done. by eapply Hinj. }
    intros id k' Hk'. rewrite Hmodels.
    destruct (decide (id = rs_id rawSurface)) as [->|Hne].
    + rewrite lookup_insert_eq in Hk'. injection Hk' as <-.
      rewrite (Hnone _ Hk). cbn [app].
      exists (new_mesh (base + length ms) rawSurface p), sm, rawSurface, [].
      split; [lia|]. split.
      { replace (base + length ms - base)%nat with (length ms) by lia. apply lookup_snoc. }
      split; [done|]. split; [done|]. split; [done|]. split; [done|]. split; [done|].
      cbn. by rewrite Hsm, Hp.
    + rewrite lookup_insert_ne in Hk' by done.
      destruct (Hall id k' Hk')
        as (md' & sm0 & rs0 & rest & Hb & Hmd' & Hix & Hmo & Hrs & Hname & Hw & Hmat).
      exists md', sm0, rs0, rest. split; [done|].
      split; [by apply lookup_app_l_Some|]. rewrite app_nil_r. done.
Qed.

Section MeshProofs.

Variable to_uint32 : Z -> option Z.
Variable EncodeMeshToBuffer : DracoEncoder -> DracoMesh -> option (list byte).

Lemma surfaces_loop_meshes options materialsById old rest : forall L m ms s,
  meshes (gltf s) = old ++ ms ->
  meshes_inv materialsById (length old) L m ms ->
  post (for_fold rest (surface_step to_uint32 EncodeMeshToBuffer options materialsById) m) s
    (fun m' s' =>
       exists ms', meshes (gltf s') = old ++ ms' /\
                   meshes_inv materialsById (length old) (L ++ rest) m' ms').
Proof.
  induction rest as [|sm rest IH]; intros L m ms s Hms Hinv; cbn [for_fold].
  - apply post_ret. exists ms. by rewrite app_nil_r.
  - apply post_bind. eapply post_weaken; [apply surface_step_primitive|].
    intros m1 s1 (rawSurface & mData & p & Hsurf & Hsm & Hp & _ & _ & Hcase).
    pose proof (meshes_inv_step _ _ _ _ _ sm rawSurface p mData Hinv Hsurf Hsm Hp) as Hstep.
    replace (L ++ sm :: rest) with ((L ++ [sm]) ++ rest) by (by rewrite <- app_assoc).
    destruct (m !! rs_id rawSurface) as [k|] eqn:Hk.
    + destruct Hcase as (-> & md & Hmd & Hs1).
      destruct Hinv as (_ & _ & _ & Hall).
      destruct (Hall _ k Hk) as (md' & _ & _ & _ & Hb & Hmd' & _).
      assert (md' = md) as ->.
      { rewrite Hms, lookup_app_r in Hmd by lia. congruence. }
      eapply (IH (L ++ [sm]) m (<[(k - length old)%nat := add_primitive md p]> ms)).
      * rewrite Hs1, Hms. by rewrite insert_app_r_alt by lia.
      * by apply Hstep.
    + destruct Hcase as (-> & Hs1).
      rewrite Hms, length_app in Hs1.
      eapply (IH (L ++ [sm]) _ (ms ++ [new_mesh (length old + length ms) rawSurface p])).
      * rewrite Hs1. by rewrite <- app_assoc.
      * rewrite Hms, length_app. exact Hstep.
Qed.

(** X9: the surface loop holds one mesh per surface id, after the meshes
    that were held, and puts the primitives of all surface models of one
    surface id into the mesh of that id, in the order of the models.  The
    mesh takes its name and its default weights (the default deforms of
    the blend channels) from the first surface model of the id; the
    material of each primitive is the material of the first triangle of
    its surface model. *)
Theorem meshes_by_surface_id options materialsById materialModels s byId s' :
  build_surfaces to_uint32 EncodeMeshToBuffer options materialsById materialModels s
    = Some (byId, s') ->
  let base := length (meshes (gltf s)) in
  exists news,
    meshes (gltf s') = meshes (gltf s) ++ news /\ length news = size byId /\
    (forall id, byId !! id = None -> models_of id materialModels = []) /\
    forall id k, byId !! id = Some k ->
      exists md sm0 rs0 rest,
        meshes (gltf s') !! k = Some md /\ (base <= k)%nat /\ mesh_ix md = k /\
        models_of id materialModels = sm0 :: rest /\ raw_surfaces sm0 = [rs0] /\
        mesh_name md = rs_name rs0 /\
        mesh_weights md = map bc_defaultDeform (rs_blendChannels rs0) /\
        map Some (map pr_material (mesh_primitives md))
          = map (surface_material materialsById) (models_of id materialModels).
Proof.
  intros Hrun base. revert byId s' Hrun. apply post_intro. unfold build_surfaces.
  eapply post_weaken.
  { apply (surfaces_loop_meshes options materialsById (meshes (gltf s)) materialModels
             [] ∅ [] s); [by rewrite app_nil_r|].
    split; [done|]. split; [done|]. split; [intros ? ? ? H; by rewrite lookup_empty in H|].
    intros ? ? H. by rewrite lookup_empty in H. }
  intros byId s' (news & Hms & Hlen & Hnone & _ & Hall). cbn [app] in *.
  exists news. split; [done|]. split; [done|]. split; [done|].
  intros id k Hk. destruct (Hall id k Hk)
    as (md & sm0 & rs0 & rest & Hb & Hmd & Hix & Hmo & Hrs & Hname & Hw & Hmat).
  exists md, sm0, rs0, rest. split.
  { rewrite Hms, lookup_app_r by lia. exact Hmd. }
  done.
Qed.

(** X10: the primitive a surface model adds to its mesh has the attributes
    POSITION, NORMAL, TANGENT, COLOR_0, TEXCOORD_0 and TEXCOORD_1, in this
    order, for the bits of the vertex attributes that are set, followed by
    JOINTS_k and then WEIGHTS_k for k below the number of groups of four
    global weights; it has one target per blend channel and the material
    of the first triangle of the surface model. *)
Theorem primitive_attribute_names options materialsById sm meshBySurfaceId s m' s' :
  surface_step to_uint32 EncodeMeshToBuffer options materialsById sm meshBySurfaceId s
    = Some (m', s') ->
  exists rawSurface mesh md p,
    raw_surfaces sm = [rawSurface] /\
    m' !! rs_id rawSurface = Some mesh /\
    meshes (gltf s') !! mesh = Some md /\
    last (mesh_primitives md) = Some p /\
    map fst (pr_attributes p) = attribute_names sm /\
    length (pr_targets p) = length (rs_blendChannels rawSurface) /\
    surface_material materialsById sm = Some (pr_material p).
Proof.
  revert m' s'. apply post_intro.
  eapply post_weaken; [apply surface_step_primitive|].
  intros m' s' (rawSurface & mData & p & Hsurf & Hsm & Hp & Hnames & Htg & Hcase).
  destruct (meshBySurfaceId !! rs_id rawSurface) as [k|] eqn:Hk.
  - destruct Hcase as (-> & md & Hmd & Hs').
    exists rawSurface, k, (add_primitive md p), p. split; [done|]. split; [done|].
    split; [rewrite Hs'; apply list_lookup_insert_eq; by eapply lookup_lt_Some|].
    split; [cbn; by rewrite last_snoc|]. rewrite Hp. done.
  - destruct Hcase as (-> & Hs').
    exists rawSurface, (length (meshes (gltf s))),
      (new_mesh (length (meshes (gltf s))) rawSurface p), p.
    split; [done|]. split; [by rewrite lookup_insert_eq|].
    split; [rewrite Hs'; apply lookup_snoc|]. split; [done|]. rewrite Hp. done.
Qed.

End MeshProofs.

(** * The alignment of the nodes with the raw nodes *)

Section Alignment.

Variable to_uint32 : Z -> option Z.
Variable EncodeMeshToBuffer : DracoEncoder -> DracoMesh -> option (list byte).

(** C10: after the assembly, the node holder has one node per raw node;
    the node at position [i] carries holder index [i] and the name, the
    translation, the rotation, the scale and the joint flag of raw node
    [i].  Its mesh is the mesh that the surface of raw node [i] has in the
    map of meshes by surface id, or -1 when the raw node has no surface;
    its light is the light index of raw node [i] when lights are enabled
    and the index is not negative, and -1 otherwise.  With lights enabled
    the light at position [k] of the light holder carries index [k] and is
    the light of raw light [k].  The map of meshes by surface id is the
    map that the loop over the surface models returned in this run, after
    the nodes, the animations and the materials: it sends the surface ids
    of the surface models, and no other id, to distinct meshes, all the
    meshes of the holder; the mesh of a surface id carries its own index,
    the name and the default weights of the surface of the first surface
    model of that id, and one primitive per surface model of that id. *)
Theorem node_alignment raw materialModels options unassigned rootScene s' :
  assemble to_uint32 EncodeMeshToBuffer raw materialModels options unassigned new_State
    = Some (rootScene, s') ->
  length (nodes (gltf s')) = length (raw_nodes raw) /\
  (useKHRLightsPunctual options = true ->
     length (lights (gltf s')) = length (raw_lights raw) /\
     forall k light, raw_lights raw !! k = Some light ->
       exists ld, lights (gltf s') !! k = Some ld /\ light_ix ld = k /\
                  light_name ld = rl_name light /\ light_color ld = rl_color light) /\
  exists (nodesById materialsById meshBySurfaceId : gmap Z nat) (s1 s2 s3 s4 : State),
    (build_nodes raw options new_State = Some (nodesById, s1) /\
     build_animations raw nodesById s1 = Some (tt, s2) /\
     build_materials raw options unassigned s2 = Some (materialsById, s3) /\
     build_surfaces to_uint32 EncodeMeshToBuffer options materialsById materialModels s3
       = Some (meshBySurfaceId, s4) /\
     meshes (gltf s') = meshes (gltf s4)) /\
    length (meshes (gltf s')) = size meshBySurfaceId /\
    (forall id, meshBySurfaceId !! id = None -> models_of id materialModels = []) /\
    (forall id1 id2 m, meshBySurfaceId !! id1 = Some m ->
                       meshBySurfaceId !! id2 = Some m -> id1 = id2) /\
    (forall id m, meshBySurfaceId !! id = Some m ->
       exists md sm0 rs0 rest,
         meshes (gltf s') !! m = Some md /\ mesh_ix md = m /\
         models_of id materialModels = sm0 :: rest /\ raw_surfaces sm0 = [rs0] /\
         mesh_name md = rs_name rs0 /\
         mesh_weights md = map bc_defaultDeform (rs_blendChannels rs0) /\
         length (mesh_primitives md) = length (models_of id materialModels)) /\
    forall i node, raw_nodes raw !! i = Some node ->
      exists nd,
        nodes (gltf s') !! i = Some nd /\ nd_ix nd = i /\
        nd_name nd = rn_name node /\ nd_translation nd = rn_translation node /\
        nd_rotation nd = rn_rotation node /\ nd_scale nd = rn_scale node /\
        nd_isJoint nd = rn_isJoint node /\
        (0 < rn_surfaceId node ->
           exists rawSurface m md,
             at_index (raw_surfaces raw) (GetSurfaceById raw (rn_surfaceId node))
               = Some rawSurface /\
             meshBySurfaceId !! rs_id rawSurface = Some m /\
             meshes (gltf s') !! m = Some md /\ mesh_ix md = m /\
             nd_mesh nd = Z.of_nat m) /\
        (rn_surfaceId node <= 0 -> nd_mesh nd = -1) /\
        (useKHRLightsPunctual options = true -> 0 <= rn_lightIx node ->
           nd_light nd = rn_lightIx node) /\
        (useKHRLightsPunctual options = false \/ rn_lightIx node < 0 ->
           nd_light nd = -1).
Proof.
  revert rootScene s'. apply post_intro. unfold assemble.
  (* the nodes *)
  apply post_bind. intros nodesById s1 Hrun1.
  destruct (build_nodes_post raw options _ _ _ _ _ Hrun1) as (Hv1 & Hl1 & Hm1).
  cbn in Hv1, Hl1, Hm1.
  (* animations, materials: no node, light or mesh is touched *)
  apply post_bind. intros [] s2 Hrun2.
  destruct (build_animations_links raw nodesById s1 _ _ Hrun2) as (Hn2 & Hl2 & Hm2).
  apply post_bind. intros materialsById s3 Hrun3.
  destruct (build_materials_links raw options unassigned s2 _ _ Hrun3)
    as (Hn3 & Hl3 & Hm3).
  (* the surfaces: the meshes *)
  apply post_bind. intros meshBySurfaceId s4 Hrun4.
  destruct (build_surfaces_nodes to_uint32 EncodeMeshToBuffer options materialsById
              materialModels s3 _ _ Hrun4) as (Hn4 & Hl4 & Hal4).
  assert (Hnone3 : meshes (gltf s3) = []) by (by rewrite Hm3, Hm2, Hm1).
  assert (Hal : mesh_aligned (meshes (gltf s4))).
  { apply Hal4. rewrite Hnone3. intros k md H. done. }
  (* the map and the meshes of the surface loop *)
  assert (Hmap : meshes_inv materialsById 0 materialModels meshBySurfaceId
                   (meshes (gltf s4))).
  { destruct (surfaces_loop_meshes to_uint32 EncodeMeshToBuffer options materialsById
                [] materialModels [] ∅ [] s3) with (x := meshBySurfaceId) (s' := s4)
      as (ms & Hms & Hinv); [done| |exact Hrun4|by rewrite Hms].
    split; [done|]. split; [done|].
    split; [intros ? ? ? H; by rewrite lookup_empty in H|].
    intros ? ? H. by rewrite lookup_empty in H. }
  destruct Hmap as (Hsize & Hmnone & Hminj & Hmall).
  assert (Hmeshes : forall s : State, meshes (gltf s) = meshes (gltf s4) ->
    (build_nodes raw options new_State = Some (nodesById, s1) /\
     build_animations raw nodesById s1 = Some (tt, s2) /\
     build_materials raw options unassigned s2 = Some (materialsById, s3) /\
     build_surfaces to_uint32 EncodeMeshToBuffer options materialsById materialModels s3
       = Some (meshBySurfaceId, s4) /\
     meshes (gltf s) = meshes (gltf s4)) /\
    length (meshes (gltf s)) = size meshBySurfaceId /\
    (forall id, meshBySurfaceId !! id = None -> models_of id materialModels = []) /\
    (forall id1 id2 m, meshBySurfaceId !! id1 = Some m ->
                       meshBySurfaceId !! id2 = Some m -> id1 = id2) /\
    (forall id m, meshBySurfaceId !! id = Some m ->
       exists md sm0 rs0 rest,
         meshes (gltf s) !! m = Some md /\ mesh_ix md = m /\
         models_of id materialModels = sm0 :: rest /\ raw_surfaces sm0 = [rs0] /\
         mesh_name md = rs_name rs0 /\
         mesh_weights md = map bc_defaultDeform (rs_blendChannels rs0) /\
         length (mesh_primitives md) = length (models_of id materialModels))).
  { intros s Hs. rewrite Hs. split; [done|]. split; [done|]. split; [done|].
    split; [done|]. intros id m Hm.
    destruct (Hmall id m Hm)
      as (md & sm0 & rs0 & rest & _ & Hmd & Hix & Hmo & Hrs & Hname & Hw & Hmat).
    rewrite Nat.sub_0_r in Hmd.
    exists md, sm0, rs0, rest. do 6 (split; [done|]).
    apply (f_equal length) in Hmat. by rewrite !length_map in Hmat. }
  (* the meshes of the nodes *)
  apply post_bind. eapply post_weaken; [by apply assign_meshes_post|].
  intros [] s5 ((Hl5 & Hm5) & Hlen5 & Hall5).
  (* extra skins and cameras *)
  apply post_bind. eapply post_weaken; [apply build_extra_skins_views|].
  intros [] s6 (Hv6 & Hl6 & Hm6).
  apply post_bind. eapply post_weaken; [apply build_cameras_views|].
  intros [] s7 (Hv7 & Hl7 & Hm7).
  assert (Hv4 : map node_view (nodes (gltf s4)) = raw_views 0 (raw_nodes raw)).
  { by rewrite Hn4, Hn3, Hn2. }
  assert (Hlen4 : length (nodes (gltf s4)) = length (raw_nodes raw)).
  { apply (f_equal length) in Hv4. by rewrite length_map, raw_views_length in Hv4. }
  assert (Hlights7 : lights (gltf s7) = []).
  { by rewrite Hl7, Hl6, Hl5, Hl4, Hl3, Hl2, Hl1. }
  assert (Hmeshes7 : meshes (gltf s7) = meshes (gltf s4)) by congruence.
  (* what node [i] is before the lights *)
  assert (Hnode7 : forall i node, raw_nodes raw !! i = Some node ->
    exists nd, nodes (gltf s7) !! i = Some nd /\
      (nd_ix nd, nd_name nd, nd_translation nd, nd_rotation nd, nd_scale nd,
       nd_isJoint nd) =
      (i, rn_name node, rn_translation node, rn_rotation node, rn_scale node,
       rn_isJoint node) /\
      nd_light nd = -1 /\
      (0 < rn_surfaceId node ->
         exists rawSurface m md,
           at_index (raw_surfaces raw) (GetSurfaceById raw (rn_surfaceId node))
             = Some rawSurface /\
           meshBySurfaceId !! rs_id rawSurface = Some m /\
           meshes (gltf s4) !! m = Some md /\ mesh_ix md = m /\
           nd_mesh nd = Z.of_nat m) /\
      (rn_surfaceId node <= 0 -> nd_mesh nd = -1)).
  { intros i node Hi.
    destruct (Hall5 i node Hi) as (nd4 & nd5 & Hnd4 & Hnd5 & Hcore & Hmesh & Hnomesh).
    assert (Hview4 : node_view nd4 = raw_view i node).
    { apply (f_equal (fun x => x !! i)) in Hv4.
      rewrite list_lookup_fmap, Hnd4, (raw_views_lookup _ 0 i node Hi) in Hv4.
      cbn in Hv4. congruence. }
    destruct (views_lookup _ _ i nd5 Hv6 Hnd5) as (nd6 & Hnd6 & Hview6).
    destruct (views_lookup _ _ i nd6 Hv7 Hnd6) as (nd7 & Hnd7 & Hview7).
    exists nd7. split; [done|].
    unfold node_view, raw_view in *.
    injection Hview4 as A1 A2 A3 A4 A5 A6 A7 A8.
    injection Hview6 as B1 B2 B3 B4 B5 B6 B7 B8.
    injection Hview7 as C1 C2 C3 C4 C5 C6 C7 C8.
    injection Hcore as D1 D2 D3 D4 D5 D6 D7.
    split; [by repeat f_equal; congruence|]. split; [congruence|].
    split.
    - intros Hs. destruct (Hmesh Hs) as (rawSurface & m & md & Hrs & Hm & Hmd & Hndm).
      exists rawSurface, m, md. split; [done|]. split; [done|]. split; [done|].
      pose proof (Hal m md Hmd) as Hix. split; [done|]. congruence.
    - intros Hs. rewrite C7, B7, (Hnomesh Hs). done. }
  (* the lights *)
  apply post_bind. unfold build_lights.
  destruct (useKHRLightsPunctual options) eqn:Hopt.
  - apply post_bind. eapply post_weaken; [apply hold_lights_post|].
    intros [] s8 (Hl8 & Hn8 & Hm8). rewrite Hlights7 in Hl8. cbn in Hl8.
    eapply post_weaken; [apply attach_lights_post|].
    intros [] s9 ((Hl9 & Hm9) & Hlen9 & Hall9).
    eapply post_weaken; [apply finish_views|].
    intros root s10 (Hv10 & Hl10 & Hm10).
    split.
    { apply (f_equal length) in Hv10. rewrite !length_map in Hv10.
      rewrite Hv10, Hlen9, Hn8.
      apply (f_equal length) in Hv7, Hv6. rewrite !length_map in Hv7, Hv6.
      congruence. }
    split.
    { intros _. rewrite Hl10, Hl9, Hl8. split; [apply lights_of_length|].
      intros k light Hk. exists (light_of k light).
      split; [by rewrite (lights_of_lookup _ 0 k light Hk)|]. done. }
    exists nodesById, materialsById, meshBySurfaceId, s1, s2, s3, s4.
    assert (Hm' : meshes (gltf s10) = meshes (gltf s4))
      by (by rewrite Hm10, Hm9, Hm8, Hmeshes7).
    destruct (Hmeshes s10 Hm') as (H1 & H2 & H3 & H4 & H5).
    split; [exact H1|]. split; [exact H2|]. split; [exact H3|]. split; [exact H4|].
    split; [exact H5|]. clear H1 H2 H3 H4 H5.
    intros i node Hi.
    destruct (Hnode7 i node Hi) as (nd7 & Hnd7 & Hcore7 & Hlight7 & Hmesh7 & Hnomesh7).
    destruct (Hall9 i node Hi) as (nd8 & nd9 & Hnd8 & Hnd9 & Hcore9 & Hlight9 & Hnolight9).
    rewrite Hn8, Hnd7 in Hnd8. injection Hnd8 as <-.
    destruct (views_lookup _ _ i nd9 Hv10 Hnd9) as (nd & Hnd & Hview).
    exists nd. split; [done|].
    unfold node_view in Hview. injection Hview as A1 A2 A3 A4 A5 A6 A7 A8.
    injection Hcore9 as B1 B2 B3 B4 B5 B6 B7.
    injection Hcore7 as C1 C2 C3 C4 C5 C6.
    split; [congruence|]. split; [congruence|]. split; [congruence|].
    split; [congruence|]. split; [congruence|]. split; [congruence|].
    split.
    { intros Hs. destruct (Hmesh7 Hs) as (rawSurface & m & md & Hrs & Hm & Hmd & Hix & Hndm).
      exists rawSurface, m, md. split; [done|]. split; [done|].
      split; [by rewrite Hm10, Hm9, Hm8, Hmeshes7|]. split; [done|]. congruence. }
    split; [intros Hs; rewrite A7, B7; by apply Hnomesh7|].
    split; [intros _ Hli; rewrite A8; by apply Hlight9|].
    intros [?|Hli]; [done|]. rewrite A8, (Hnolight9 Hli). done.
  - apply post_ret. eapply post_weaken; [apply finish_views|].
    intros root s10 (Hv10 & Hl10 & Hm10).
    split.
    { apply (f_equal length) in Hv10. rewrite !length_map in Hv10. rewrite Hv10.
      apply (f_equal length) in Hv7, Hv6. rewrite !length_map in Hv7, Hv6.
      congruence. }
    split; [done|].
    exists nodesById, materialsById, meshBySurfaceId, s1, s2, s3, s4.
    assert (Hm' : meshes (gltf s10) = meshes (gltf s4)) by (by rewrite Hm10, Hmeshes7).
    destruct (Hmeshes s10 Hm') as (H1 & H2 & H3 & H4 & H5).
    split; [exact H1|]. split; [exact H2|]. split; [exact H3|]. split; [exact H4|].
    split; [exact H5|]. clear H1 H2 H3 H4 H5.
    intros i node Hi.
    destruct (Hnode7 i node Hi) as (nd7 & Hnd7 & Hcore7 & Hlight7 & Hmesh7 & Hnomesh7).
    destruct (views_lookup _ _ i nd7 Hv10 Hnd7) as (nd & Hnd & Hview).
    exists nd. split; [done|].
    unfold node_view in Hview. injection Hview as A1 A2 A3 A4 A5 A6 A7 A8.
    injection Hcore7 as C1 C2 C3 C4 C5 C6.
    split; [congruence|]. split; [congruence|]. split; [congruence|].
    split; [congruence|]. split; [congruence|]. split; [congruence|].
    split.
    { intros Hs. destruct (Hmesh7 Hs) as (rawSurface & m & md & Hrs & Hm & Hmd & Hix & Hndm).
      exists rawSurface, m, md. split; [done|]. split; [done|].
      split; [by rewrite Hm10, Hmeshes7|]. split; [done|]. congruence. }
    split; [intros Hs; rewrite A7; by apply Hnomesh7|].
    split; [done|]. intros _. congruence.
Qed.

End Alignment.

(** ** The extra skins (lines 864-874) *)

(** the indices of the nodes of [l] whose extra skin is [k], in order *)
Definition joints_in (l : list (nat * RawNode)) (k : nat) : list Z :=
  flat_map (fun inode : nat * RawNode =>
              if rn_extraSkinIx inode.2 =? Z.of_nat k then [Z.of_nat inode.1] else []) l.

Lemma joints_in_cons i node l k :
  joints_in ((i, node) :: l) k =
    (if rn_extraSkinIx node =? Z.of_nat k then [Z.of_nat i] else []) ++ joints_in l k.
Proof. reflexivity. Qed.

Lemma extra_joints_loop l : forall buckets s,
  post (for_fold l extra_joint_step buckets) s
    (fun b' s' =>
       s' = s /\ length b' = length buckets /\
       forall k bk, buckets !! k = Some bk -> b' !! k = Some (bk ++ joints_in l k)).
Proof.
  induction l as [|[i node] l IH]; intros buckets s; cbn [for_fold].
  - apply post_ret. split; [done|]. split; [done|]. intros k bk H. cbn. by rewrite app_nil_r.
  - apply post_bind. unfold extra_joint_step at 1.
    destruct (0 <=? rn_extraSkinIx node) eqn:Hix.
    + apply Z.leb_le in Hix.
      apply post_bind, post_deref. intros bucket Hb. apply post_ret.
      eapply post_weaken; [apply IH|]. intros b' s' (-> & Hlen & Hall).
      split; [done|]. split; [by rewrite Hlen, length_insert|].
      unfold at_index in Hb. destruct (rn_extraSkinIx node <? 0) eqn:E; [done|].
      intros k bk Hk. rewrite joints_in_cons.
      destruct (decide (k = Z.to_nat (rn_extraSkinIx node))) as [->|Hne].
      * assert (bk = bucket) as -> by congruence.
        rewrite (Hall _ (bucket ++ [Z.of_nat i])).
        2:{ apply list_lookup_insert_eq. by eapply lookup_lt_Some. }
        rewrite Z2Nat.id by done. rewrite Z.eqb_refl. by rewrite <- app_assoc.
      * rewrite (Hall k bk) by (by rewrite list_lookup_insert_ne).
        assert ((rn_extraSkinIx node =? Z.of_nat k) = false) as ->
          by (apply Z.eqb_neq; lia).
        done.
    + apply Z.leb_gt in Hix. apply post_ret.
      eapply post_weaken; [apply IH|]. intros b' s' (-> & Hlen & Hall).
      split; [done|]. split; [done|]. intros k bk Hk. rewrite joints_in_cons.
      assert ((rn_extraSkinIx node =? Z.of_nat k) = false) as ->
        by (apply Z.eqb_neq; lia).
      by apply Hall.
Qed.

Definition extra_skin (k : nat) (joints : list Z) : SkinData :=
  {| skin_ix := k; skin_joints := joints; skin_inverseBindMatrices := None;
     skin_skeletonRoot := None; skin_isExtraSkin := true |}.

Lemma hold_extra_skins buckets : forall s,
  post (for_each buckets (fun joints =>
          hold_skin {| skin_ix := 0; skin_joints := joints;
                       skin_inverseBindMatrices := None; skin_skeletonRoot := None;
                       skin_isExtraSkin := true |} ;; mret tt)) s
    (fun _ s' =>
       skins (gltf s') =
         skins (gltf s) ++ imap (fun k => extra_skin (length (skins (gltf s)) + k)) buckets /\
       nodes (gltf s') = nodes (gltf s) /\ accessors (gltf s') = accessors (gltf s) /\
       binary (gltf s') = binary (gltf s)).
Proof.
  induction buckets as [|b buckets IH]; intros s; cbn [for_each imap].
  - apply post_ret. by rewrite app_nil_r.
  - apply post_bind. apply post_bind. unfold hold_skin.
    apply post_bind, post_get_model. rewrite hold_length. cbv iota beta.
    apply post_bind, post_modify. apply post_ret. apply post_ret.
    eapply post_weaken; [apply IH|]. intros [] s' (Hs & Hn & Ha & Hb).
    cbn [gltf set_gltf set_skins skins nodes accessors binary] in *.
    split; [|done]. rewrite Hs, <- app_assoc. cbn [app]. f_equal.
    rewrite Nat.add_0_r. f_equal. apply imap_ext. intros k x _. cbn.
    rewrite length_app. cbn. f_equal. lia.
Qed.

(** X11: the loop over the nodes and the loop that follows hold, after the
    skins that exist, one skin per extra skin of the raw model; the skin of
    extra skin [k] is marked as an extra skin, and its joints are the
    indices of the raw nodes whose extra skin index is [k], in increasing
    order.  The nodes, the accessors and the binary buffer are left as they
    are. *)
Theorem extra_skins raw s s' :
  build_extra_skins raw s = Some (tt, s') ->
  let base := length (skins (gltf s)) in
  length (skins (gltf s')) = (base + raw_extraSkinCount raw)%nat /\
  take base (skins (gltf s')) = skins (gltf s) /\
  nodes (gltf s') = nodes (gltf s) /\ accessors (gltf s') = accessors (gltf s) /\
  binary (gltf s') = binary (gltf s) /\
  forall k, (k < raw_extraSkinCount raw)%nat ->
    exists sk, skins (gltf s') !! (base + k)%nat = Some sk /\
      skin_ix sk = (base + k)%nat /\ skin_isExtraSkin sk = true /\
      skin_joints sk = joints_in (indexed (raw_nodes raw)) k.
Proof.
  intros Hrun base. revert s' Hrun.
  assert (Hpost : post (build_extra_skins raw) s (fun _ s' =>
    length (skins (gltf s')) = (base + raw_extraSkinCount raw)%nat /\
    take base (skins (gltf s')) = skins (gltf s) /\
    nodes (gltf s') = nodes (gltf s) /\ accessors (gltf s') = accessors (gltf s) /\
    binary (gltf s') = binary (gltf s) /\
    forall k, (k < raw_extraSkinCount raw)%nat ->
      exists sk, skins (gltf s') !! (base + k)%nat = Some sk /\
        skin_ix sk = (base + k)%nat /\ skin_isExtraSkin sk = true /\
        skin_joints sk = joints_in (indexed (raw_nodes raw)) k)).
  { unfold build_extra_skins. apply post_bind.
    eapply post_weaken; [apply extra_joints_loop|].
    intros buckets ? (-> & Hlen & Hall). rewrite length_replicate in Hlen.
    eapply post_weaken; [apply hold_extra_skins|].
    intros [] s' (Hs & Hn & Ha & Hb). fold base in Hs.
    split; [by rewrite Hs, length_app, length_imap, Hlen|].
    split; [rewrite Hs; by apply take_app_length|].
    split; [done|]. split; [done|]. split; [done|].
    intros k Hk.
    assert (Hbk : buckets !! k = Some (joints_in (indexed (raw_nodes raw)) k)).
    { rewrite (Hall k []); [done|]. by apply lookup_replicate_2. }
    exists (extra_skin (base + k) (joints_in (indexed (raw_nodes raw)) k)).
    split; [|done]. rewrite Hs, lookup_app_r by (unfold base; lia).
    replace (base + k - length (skins (gltf s)))%nat with k by (unfold base; lia).
    by rewrite list_lookup_imap, Hbk. }
  intros s' Hrun. exact (Hpost tt s' Hrun).
Qed.

(** ** The cameras (lines 880-906) *)

(** the camera index of node [p] after the loop over [l], which started
    with [k] cameras held and the node's camera at [c] *)
Fixpoint node_camera (nodesById : gmap Z nat) (l : list RawCamera) (k : nat) (p : nat)
    (c : Z) : Z :=
  match l with
  | [] => c
  | cam :: r =>
      node_camera nodesById r (S k) p
        (if decide (nodesById !! rc_nodeId cam = Some p) then Z.of_nat k else c)
  end.

Lemma node_camera_none nodesById p l : forall k c,
  (forall j cam, l !! j = Some cam -> nodesById !! rc_nodeId cam <> Some p) ->
  node_camera nodesById l k p c = c.
Proof.
  induction l as [|cam l IH]; intros k c Hnone; [done|]. cbn [node_camera].
  rewrite decide_False by (apply (Hnone 0%nat); done).
  apply IH. intros j cam' Hj. by apply (Hnone (S j)).
Qed.

Lemma node_camera_last nodesById p l : forall k c j cam,
  l !! j = Some cam -> nodesById !! rc_nodeId cam = Some p ->
  (forall j' cam', (j < j')%nat -> l !! j' = Some cam' ->
                   nodesById !! rc_nodeId cam' <> Some p) ->
  node_camera nodesById l k p c = Z.of_nat (k + j).
Proof.
  induction l as [|cam0 l IH]; intros k c j cam Hj Hp Hlast; [done|].
  cbn [node_camera]. destruct j as [|j].
  - cbn in Hj. injection Hj as ->. rewrite decide_True by done.
    rewrite node_camera_none; [f_equal; lia|].
    intros j' cam' Hj'. apply (Hlast (S j')); [lia|done].
  - rewrite (IH (S k) _ j cam); [f_equal; lia|done|done|].
    intros j' cam' Hlt Hj'. apply (Hlast (S j')); [lia|done].
Qed.

Lemma SetCamera_same nd : SetCamera (nd_camera nd) nd = nd.
Proof. by destruct nd. Qed.

Definition camera_of (k : nat) (cam : RawCamera) : CameraData :=
  match rc_mode cam with
  | CAMERA_MODE_PERSPECTIVE =>
      {| cam_ix := k; cam_name := rc_name cam; cam_type := "perspective";
         cam_aspectRatio := rc_aspectRatio cam;
         cam_yfov := fmul (rc_fovDegreesY cam) (fdiv M_PI_f (f32_of_Z 180));
         cam_xmag := f0; cam_ymag := f0;
         cam_znear := rc_persp_nearZ cam; cam_zfar := rc_persp_farZ cam |}
  | CAMERA_MODE_ORTHOGRAPHIC =>
      {| cam_ix := k; cam_name := rc_name cam; cam_type := "orthographic";
         cam_aspectRatio := f0; cam_yfov := f0;
         cam_xmag := rc_magX cam; cam_ymag := rc_magY cam;
         cam_znear := rc_ortho_nearZ cam; cam_zfar := rc_ortho_farZ cam |}
  end.

Lemma cameras_loop_nodes nodesById l : forall s,
  post (for_each l (camera_step nodesById)) s
    (fun _ s' =>
       let base := length (cameras (gltf s)) in
       cameras (gltf s') = cameras (gltf s) ++ imap (fun k => camera_of (base + k)) l /\
       length (nodes (gltf s')) = length (nodes (gltf s)) /\
       forall p nd, nodes (gltf s) !! p = Some nd ->
         nodes (gltf s') !! p =
           Some (SetCamera (node_camera nodesById l base p (nd_camera nd)) nd)).
Proof.
  induction l as [|cam l IH]; intros s; cbn [for_each imap node_camera].
  - apply post_ret. cbv zeta. rewrite app_nil_r. split; [done|]. split; [done|].
    intros p nd Hp. by rewrite SetCamera_same.
  - apply post_bind. unfold camera_step, hold_camera.
    apply post_bind. apply post_bind, post_get_model. rewrite hold_length.
    cbv iota beta. apply post_bind, post_modify. apply post_ret.
    set (c := stamp (length (cameras (gltf s))) _).
    assert (Hc : c = camera_of (length (cameras (gltf s))) cam).
    { unfold c, camera_of. by destruct (rc_mode cam). }
    rewrite Hc. clear c Hc.
    assert (Hcam : cam_ix (camera_of (length (cameras (gltf s))) cam)
                   = length (cameras (gltf s))).
    { unfold camera_of. by destruct (rc_mode cam). }
    rewrite Hcam.
    assert (Hshift : forall L : list CameraData,
      L = (cameras (gltf s) ++ [camera_of (length (cameras (gltf s))) cam]) ++
          imap (fun k => camera_of
                  (length (cameras (gltf s)
                           ++ [camera_of (length (cameras (gltf s))) cam]) + k)) l ->
      L = cameras (gltf s) ++
          camera_of (length (cameras (gltf s)) + 0) cam
          :: imap ((fun k => camera_of (length (cameras (gltf s)) + k)) ∘ S) l).
    { intros L ->. rewrite <- app_assoc. cbn [app].
      rewrite Nat.add_0_r. do 2 f_equal. apply imap_ext. intros k x _. cbn.
      rewrite length_app. cbn. f_equal. lia. }
    destruct (nodesById !! rc_nodeId cam) as [node|] eqn:E.
    + unfold update_node. apply post_bind, post_get_model.
      apply post_bind, post_deref. intros n Hn. apply post_modify.
      eapply post_weaken; [apply IH|]. intros [] s' (Hs & Hlen & Hall).
      cbn [gltf set_gltf set_nodes set_cameras nodes cameras] in *.
      cbv zeta. split; [by apply Hshift|].
      split; [by rewrite Hlen, length_insert|].
      intros p nd Hp. rewrite length_app in Hall. cbn [length] in Hall.
      rewrite Nat.add_1_r in Hall.
      destruct (decide (p = node)) as [->|Hne].
      * assert (nd = n) as -> by congruence.
        rewrite decide_True by done.
        rewrite (Hall node (SetCamera (Z.of_nat (length (cameras (gltf s)))) n)).
        2:{ apply list_lookup_insert_eq. by eapply lookup_lt_Some. }
        done.
      * rewrite decide_False by congruence.
        apply Hall. by rewrite list_lookup_insert_ne.
    + post_prim.
      eapply post_weaken; [apply IH|]. intros [] s' (Hs & Hlen & Hall).
      cbn [gltf set_gltf set_nodes set_cameras nodes cameras] in *.
      cbv zeta. split; [by apply Hshift|]. split; [done|].
      intros p nd Hp. rewrite length_app in Hall. cbn [length] in Hall.
      rewrite Nat.add_1_r in Hall.
      rewrite decide_False by congruence. by apply Hall.
Qed.

(** X12: raw camera [k] becomes the camera at position [k] after the
    cameras that exist, with the raw name.  A perspective camera has type
    "perspective", the raw aspect ratio and near and far planes, and the
    vertical field of view in radians, the raw degrees times pi/180 in
    single precision; an orthographic camera has type "orthographic" and
    the raw magnifications and near and far planes.  A node that no raw
    camera names keeps its camera; otherwise it points to the last raw
    camera that names it, and nothing else of a node changes. *)
Theorem camera_entities raw nodesById s s' :
  build_cameras raw nodesById s = Some (tt, s') ->
  let base := length (cameras (gltf s)) in
  length (cameras (gltf s')) = (base + length (raw_cameras raw))%nat /\
  take base (cameras (gltf s')) = cameras (gltf s) /\
  (forall k cam, raw_cameras raw !! k = Some cam ->
     exists c, cameras (gltf s') !! (base + k)%nat = Some c /\
       cam_ix c = (base + k)%nat /\ cam_name c = rc_name cam /\
       match rc_mode cam with
       | CAMERA_MODE_PERSPECTIVE =>
           cam_type c = "perspective"%string /\
           cam_aspectRatio c = rc_aspectRatio cam /\
           cam_yfov c = fmul (rc_fovDegreesY cam) (fdiv M_PI_f (f32_of_Z 180)) /\
           cam_znear c = rc_persp_nearZ cam /\ cam_zfar c = rc_persp_farZ cam
       | CAMERA_MODE_ORTHOGRAPHIC =>
           cam_type c = "orthographic"%string /\
           cam_xmag c = rc_magX cam /\ cam_ymag c = rc_magY cam /\
           cam_znear c = rc_ortho_nearZ cam /\ cam_zfar c = rc_ortho_farZ cam
       end) /\
  length (nodes (gltf s')) = length (nodes (gltf s)) /\
  forall p nd, nodes (gltf s) !! p = Some nd ->
    exists nd', nodes (gltf s') !! p = Some nd' /\
      nd' = SetCamera (nd_camera nd') nd /\
      ((forall k cam, raw_cameras raw !! k = Some cam ->
          nodesById !! rc_nodeId cam <> Some p) -> nd' = nd) /\
      forall k cam, raw_cameras raw !! k = Some cam ->
        nodesById !! rc_nodeId cam = Some p ->
        (forall k' cam', (k < k')%nat -> raw_cameras raw !! k' = Some cam' ->
                         nodesById !! rc_nodeId cam' <> Some p) ->
        nd_camera nd' = Z.of_nat (base + k).
Proof.
  intros Hrun base. unfold build_cameras in Hrun.
  destruct (cameras_loop_nodes nodesById (raw_cameras raw) s tt s' Hrun)
    as (Hs & Hlen & Hall). fold base in Hs, Hall.
  split; [by rewrite Hs, length_app, length_imap|].
  split; [rewrite Hs; by apply take_app_length|].
  split.
  { intros k cam Hk. exists (camera_of (base + k) cam). split.
    - rewrite Hs, lookup_app_r by (unfold base; lia).
      replace (base + k - length (cameras (gltf s)))%nat with k by (unfold base; lia).
      by rewrite list_lookup_imap, Hk.
    - unfold camera_of. by destruct (rc_mode cam). }
  split; [done|].
  intros p nd Hp. eexists. split; [by apply Hall|]. split; [done|]. split.
  - intros Hnone. rewrite node_camera_none by done. apply SetCamera_same.
  - intros k cam Hk Hnode Hlast. cbn [SetCamera nd_camera].
    by apply (node_camera_last _ _ _ _ _ k cam).
Qed.

(** ** The scene (lines 950-951) *)

(** the holder indices of the nodes are left alone *)
Definition keeps_ix (s s' : State) : Prop :=
  map nd_ix (nodes (gltf s')) = map nd_ix (nodes (gltf s)) /\
  scenes (gltf s') = scenes (gltf s).

Lemma keeps_ix_trans s1 s2 s3 : keeps_ix s1 s2 -> keeps_ix s2 s3 -> keeps_ix s1 s3.
Proof. intros [? ?] [? ?]. split; congruence. Qed.

Lemma keeps_ix_gltf s s' : gltf s' = gltf s -> keeps_ix s s'.
Proof. intros H. unfold keeps_ix. by rewrite H. Qed.

Lemma update_node_ix ix f :
  (forall n, nd_ix (f n) = nd_ix n) -> respects keeps_ix (update_node ix f).
Proof.
  intros Hf s. unfold update_node. apply post_bind, post_get_model.
  apply post_bind, post_deref. intros n Hn. apply post_modify.
  split; [|done]. cbn. rewrite list_fmap_insert, Hf.
  apply list_insert_id. by rewrite list_lookup_fmap, Hn.
Qed.

Lemma update_node_ix_mesh ix c : respects keeps_ix (update_node ix (SetMesh c)).
Proof. by apply update_node_ix. Qed.
Lemma update_node_ix_skin ix c : respects keeps_ix (update_node ix (SetSkin c)).
Proof. by apply update_node_ix. Qed.
Lemma update_node_ix_camera ix c : respects keeps_ix (update_node ix (SetCamera c)).
Proof. by apply update_node_ix. Qed.
Lemma update_node_ix_light ix c : respects keeps_ix (update_node ix (SetLight c)).
Proof. by apply update_node_ix. Qed.

#[local] Hint Resolve update_node_ix_mesh update_node_ix_skin update_node_ix_camera
  update_node_ix_light : respects.

Ltac ix_tac := respects_tac keeps_ix_trans keeps_ix_gltf ltac:(by split).

Lemma AddAccessorAndView_ix `{GLWritable T} ty (src : list T) :
  respects keeps_ix (AddAccessorAndView ty src).
Proof. intros s. eapply post_run; [apply AddAccessorAndView_run|]. by split. Qed.

#[local] Hint Resolve AddAccessorAndView_ix : respects.

Lemma joint_indexes_ix nodesById ids : respects keeps_ix (joint_indexes nodesById ids).
Proof. induction ids as [|id ids IH]; cbn [joint_indexes]; ix_tac. Qed.

#[local] Hint Resolve joint_indexes_ix : respects.

Lemma build_animations_ix raw nodesById :
  respects keeps_ix (build_animations raw nodesById).
Proof. ix_tac. Qed.

Lemma build_materials_ix raw options unassigned :
  respects keeps_ix (build_materials raw options unassigned).
Proof. ix_tac. Qed.

Lemma assign_meshes_ix raw nodesById byId :
  respects keeps_ix (assign_meshes raw nodesById byId).
Proof. ix_tac. Qed.

Lemma build_extra_skins_ix raw : respects keeps_ix (build_extra_skins raw).
Proof. ix_tac. Qed.

Lemma build_cameras_ix raw nodesById : respects keeps_ix (build_cameras raw nodesById).
Proof. ix_tac. Qed.

Lemma build_lights_ix raw options : respects keeps_ix (build_lights raw options).
Proof. ix_tac. Qed.

(** position [p] is the first raw node with id [id] *)
Definition first_with_id (raw : RawModel) (id : Z) (p : nat) : Prop :=
  exists node, raw_nodes raw !! p = Some node /\ rn_id node = id /\
    forall j node', (j < p)%nat -> raw_nodes raw !! j = Some node' -> rn_id node' <> id.

Lemma held_nodes_ix raw options l : forall k,
  map nd_ix (held_nodes raw options k l) = seq k (length l).
Proof.
  induction l as [|node l IH]; intros k; cbn [held_nodes map length seq]; [done|].
  rewrite IH. f_equal. unfold held_node.
  match goal with |- nd_ix (add_children ?cs ?n) = _ =>
    destruct (add_children_fields cs n) as (_ & Hv & _) end.
  unfold node_view in Hv. injection Hv as -> _ _ _ _ _ _ _.
  by destruct (enableUserProperties options).
Qed.

Section SceneProofs.

Variable to_uint32 : Z -> option Z.
Variable EncodeMeshToBuffer : DracoEncoder -> DracoMesh -> option (list byte).

Lemma build_surfaces_ix options materialsById materialModels :
  respects keeps_ix
    (build_surfaces to_uint32 EncodeMeshToBuffer options materialsById materialModels).
Proof. ix_tac. Qed.

Lemma assemble_scene raw materialModels options unassigned :
  post (assemble to_uint32 EncodeMeshToBuffer raw materialModels options unassigned)
    new_State
    (fun rootScene s' =>
       rootScene = 0%nat /\
       exists p, first_with_id raw (raw_rootNodeId raw) p /\
         scenes (gltf s') =
           [{| scene_ix := 0; scene_name := "Root Scene"; scene_root := p |}]).
Proof.
  unfold assemble. apply post_bind.
  intros nodesById s1 Hrun1. unfold build_nodes in Hrun1.
  rewrite nodes_loop_run in Hrun1.
  destruct (forallb (children_resolve raw) (raw_nodes raw)); [|done].
  injection Hrun1 as <- <-. cbn [new_State gltf nodes new_GltfModel length app].
  set (s1 := with_nodes _ _).
  assert (Hix1 : map nd_ix (nodes (gltf s1)) = seq 0 (length (raw_nodes raw))).
  { unfold s1. cbn. apply held_nodes_ix. }
  assert (Hsc1 : scenes (gltf s1) = []) by done.
  clearbody s1.
  apply post_bind. eapply post_weaken; [apply build_animations_ix|].
  intros [] s2 H2.
  apply post_bind. eapply post_weaken; [apply build_materials_ix|].
  intros materialsById s3 H3.
  apply post_bind. eapply post_weaken; [apply build_surfaces_ix|].
  intros meshBySurfaceId s4 H4.
  apply post_bind. eapply post_weaken; [apply assign_meshes_ix|].
  intros [] s5 H5.
  apply post_bind. eapply post_weaken; [apply build_extra_skins_ix|].
  intros [] s6 H6.
  apply post_bind. eapply post_weaken; [apply build_cameras_ix|].
  intros [] s7 H7.
  apply post_bind. eapply post_weaken; [apply build_lights_ix|].
  intros [] s8 H8.
  pose proof (keeps_ix_trans _ _ _ H2 (keeps_ix_trans _ _ _ H3 (keeps_ix_trans _ _ _ H4
    (keeps_ix_trans _ _ _ H5 (keeps_ix_trans _ _ _ H6 (keeps_ix_trans _ _ _ H7 H8))))))
    as [Hix8 Hsc8].
  rewrite Hix1 in Hix8. rewrite Hsc1 in Hsc8.
  unfold node_ix_by_id, require.
  apply post_bind. apply post_bind, post_deref. intros ptr Hptr.
  apply post_bind, post_get_model. apply post_bind, post_deref. intros n Hn.
  apply post_ret. unfold hold_scene. apply post_bind, post_get_model.
  rewrite hold_length. cbv iota beta. apply post_bind, post_modify. apply post_ret.
  cbn [gltf set_gltf set_scenes scenes]. rewrite Hsc8. cbn.
  split; [done|].
  apply ids_from_lookup in Hptr as [Hptr|(_ & i & node & -> & Hi & Hid & Hfirst)];
    [done|].
  assert (Hnix : nd_ix n = i).
  { apply (f_equal (fun l => l !! i)) in Hix8.
    rewrite list_lookup_fmap in Hix8. cbn in Hn. rewrite Hn in Hix8. cbn in Hix8.
    rewrite lookup_seq_lt in Hix8 by (by eapply lookup_lt_Some).
    cbn in Hix8. congruence. }
  rewrite Hnix. exists i. split; [|done]. by exists node.
Qed.

(** X13: the assembly returns scene 0, and the scene holder has the single
    scene "Root Scene"; its root is the position, among the raw nodes, of
    the first node that carries the root id of the raw model. *)
Theorem root_scene raw materialModels options unassigned rootScene s' :
  assemble to_uint32 EncodeMeshToBuffer raw materialModels options unassigned new_State
    = Some (rootScene, s') ->
  rootScene = 0%nat /\
  exists p node,
    raw_nodes raw !! p = Some node /\ rn_id node = raw_rootNodeId raw /\
    (forall j node', (j < p)%nat -> raw_nodes raw !! j = Some node' ->
                     rn_id node' <> raw_rootNodeId raw) /\
    scenes (gltf s') =
      [{| scene_ix := 0; scene_name := "Root Scene"; scene_root := p |}].
Proof.
  intros Hrun.
  destruct (assemble_scene raw materialModels options unassigned _ _ Hrun)
    as (H0 & p & (node & Hp & Hid & Hfirst) & Hsc).
  split; [done|]. by exists p, node.
Qed.

(** X14: when no raw node carries the root id of the raw model, as in a
    raw model without nodes, the assembly aborts: nothing is written. *)
Theorem missing_root_aborts serialize gltfOutStream raw materialModels options unassigned :
  Forall (fun node => rn_id node <> raw_rootNodeId raw) (raw_nodes raw) ->
  assemble to_uint32 EncodeMeshToBuffer raw materialModels options unassigned new_State = None /\
  Raw2Gltf to_uint32 EncodeMeshToBuffer serialize gltfOutStream raw materialModels options
    unassigned
    = None.
Proof.
  intros Hno.
  assert (Ha : assemble to_uint32 EncodeMeshToBuffer raw materialModels options unassigned new_State
               = None).
  { destruct (assemble _ _ _ _ _ _ _) as [[rootScene s']|] eqn:Hrun; [|done].
    destruct (assemble_scene raw materialModels options unassigned _ _ Hrun)
      as (_ & p & (node & Hp & Hid & _) & _).
    rewrite Forall_forall in Hno. destruct (Hno node); [|done].
    by eapply list_elem_of_lookup_2. }
  split; [done|]. unfold Raw2Gltf. by rewrite Ha.
Qed.

End SceneProofs.

(** ** The lights (lines 911-947) *)

(** X15: with punctual lights disabled the stage changes nothing.  With
    them enabled, raw light [k] becomes the light at position [k] after the
    lights that exist: the type is mapped name by name, the intensity is
    the raw intensity divided by 100 in single precision, and the name, the
    colour and both cone angles are copied.  A node whose raw light index
    is not negative is given that raw index as it is, whether or not a
    light of that index exists; the other nodes keep their light. *)
Theorem light_entities raw options s s' :
  build_lights raw options s = Some (tt, s') ->
  let base := length (lights (gltf s)) in
  (useKHRLightsPunctual options = false -> s' = s) /\
  (useKHRLightsPunctual options = true ->
     length (lights (gltf s')) = (base + length (raw_lights raw))%nat /\
     take base (lights (gltf s')) = lights (gltf s) /\
     (forall k light, raw_lights raw !! k = Some light ->
        exists ld, lights (gltf s') !! (base + k)%nat = Some ld /\
          light_ix ld = (base + k)%nat /\ light_name ld = rl_name light /\
          light_type ld = match rl_type light with
                          | RAW_LIGHT_TYPE_DIRECTIONAL => Directional
                          | RAW_LIGHT_TYPE_POINT => Point
                          | RAW_LIGHT_TYPE_SPOT => Spot
                          end /\
          light_color ld = rl_color light /\
          light_intensity ld = fdiv (rl_intensity light) (f32_of_Z 100) /\
          light_innerConeAngle ld = rl_innerConeAngle light /\
          light_outerConeAngle ld = rl_outerConeAngle light) /\
     length (nodes (gltf s')) = length (nodes (gltf s)) /\
     forall i node, raw_nodes raw !! i = Some node ->
       exists nd nd', nodes (gltf s) !! i = Some nd /\ nodes (gltf s') !! i = Some nd' /\
         nd' = SetLight (nd_light nd') nd /\
         nd_light nd' = (if 0 <=? rn_lightIx node then rn_lightIx node else nd_light nd)).
Proof.
  intros Hrun base. unfold build_lights in Hrun.
  destruct (useKHRLightsPunctual options).
  - split; [done|]. intros _. revert s' Hrun. refine (post_intro _ _ (fun _ s' => _) _ tt).
    apply post_bind. eapply post_weaken; [apply hold_lights_post|].
    intros [] s1 (Hl1 & Hn1 & _). fold base in Hl1.
    assert (Hloop : forall l k s0,
      post (for_each (zip (seq k (length l)) l) attach_light_step) s0
        (fun _ s' =>
           lights (gltf s') = lights (gltf s0) /\
           length (nodes (gltf s')) = length (nodes (gltf s0)) /\
           (forall j, (j < k)%nat -> nodes (gltf s') !! j = nodes (gltf s0) !! j) /\
           forall i node, l !! i = Some node ->
             exists nd, nodes (gltf s0) !! (k + i)%nat = Some nd /\
               nodes (gltf s') !! (k + i)%nat =
                 Some (if 0 <=? rn_lightIx node then SetLight (rn_lightIx node) nd
                       else nd))).
    { induction l as [|node l IH]; intros k s0; cbn [length seq zip zip_with for_each].
      - apply post_ret. split; [done|]. split; [done|]. split; [done|]. intros i node H.
        done.
      - apply post_bind. unfold attach_light_step at 1.
        apply post_bind, post_get_model. apply post_bind, post_deref. intros nd Hnd.
        assert (Hstep : post (if 0 <=? rn_lightIx node
                              then update_node k (SetLight (rn_lightIx node))
                              else mret tt) s0
                  (fun _ s2 =>
                     lights (gltf s2) = lights (gltf s0) /\
                     nodes (gltf s2) =
                       <[k := if 0 <=? rn_lightIx node
                              then SetLight (rn_lightIx node) nd else nd]>
                         (nodes (gltf s0)))).
        { destruct (0 <=? rn_lightIx node).
          - unfold update_node. apply post_bind, post_get_model.
            apply post_bind, post_deref. intros nd0 Hnd0. apply post_modify.
            assert (nd0 = nd) as -> by congruence. done.
          - apply post_ret. split; [done|]. by rewrite list_insert_id. }
        eapply post_weaken; [exact Hstep|]. intros [] s2 (Hl2 & Hn2).
        eapply post_weaken; [apply IH|]. intros [] s3 (Hl3 & Hlen3 & Hlow3 & Hall3).
        split; [congruence|].
        split; [by rewrite Hlen3, Hn2, length_insert|].
        split.
        { intros j Hj. rewrite Hlow3 by lia. rewrite Hn2.
          apply list_lookup_insert_ne. lia. }
        intros [|i] node' Hi.
        + cbn in Hi. injection Hi as <-. rewrite Nat.add_0_r. exists nd.
          split; [done|]. rewrite Hlow3 by lia. rewrite Hn2.
          apply list_lookup_insert_eq. by eapply lookup_lt_Some.
        + cbn in Hi. destruct (Hall3 i node' Hi) as (nd' & Hnd' & Hres).
          replace (k + S i)%nat with (S k + i)%nat by lia.
          exists nd'. split; [|done]. rewrite Hn2 in Hnd'.
          rewrite list_lookup_insert_ne in Hnd' by lia. done. }
    eapply post_weaken; [apply (Hloop (raw_nodes raw) 0%nat)|].
    intros [] s2 (Hl2 & Hlen2 & _ & Hall2).
    split; [by rewrite Hl2, Hl1, length_app, lights_of_length|].
    split; [rewrite Hl2, Hl1; by apply take_app_length|].
    split.
    { intros k light Hk. exists (light_of (base + k) light). split; [|done].
      rewrite Hl2, Hl1, lookup_app_r by (unfold base; lia).
      replace (base + k - length (lights (gltf s)))%nat with k by (unfold base; lia).
      by apply lights_of_lookup. }
    split; [congruence|].
    intros i node Hi. destruct (Hall2 i node Hi) as (nd & Hnd & Hres).
    cbn in Hnd, Hres. rewrite Hn1 in Hnd. exists nd. eexists.
    split; [done|]. split; [exact Hres|].
    destruct (0 <=? rn_lightIx node); [done|]. split; [by destruct nd|done].
  - injection Hrun as <-. done.
Qed.

(** ** The extensions the document declares (lines 985-1006) *)

Section ExtensionProofs.

Variable to_uint32 : Z -> option Z.
Variable EncodeMeshToBuffer : DracoEncoder -> DracoMesh -> option (list byte).

Lemma assemble_lights raw materialModels options unassigned :
  post (assemble to_uint32 EncodeMeshToBuffer raw materialModels options unassigned)
    new_State
    (fun _ s' =>
       lights (gltf s') =
         if useKHRLightsPunctual options then lights_of 0 (raw_lights raw) else []).
Proof.
  unfold assemble.
  apply post_bind. unfold build_nodes. eapply post_weaken; [apply build_nodes_post|].
  intros nodesById s1 (_ & Hl1 & _). cbn in Hl1.
  apply post_bind. eapply post_weaken; [apply build_animations_links|].
  intros [] s2 (_ & Hl2 & _).
  apply post_bind. eapply post_weaken; [apply build_materials_links|].
  intros materialsById s3 (_ & Hl3 & _).
  apply post_bind. eapply post_weaken; [apply build_surfaces_nodes|].
  intros meshBySurfaceId s4 (_ & Hl4 & _).
  apply post_bind. eapply post_weaken; [by apply assign_meshes_post|].
  intros [] s5 ((Hl5 & _) & _).
  apply post_bind. eapply post_weaken; [apply build_extra_skins_views|].
  intros [] s6 (_ & Hl6 & _).
  apply post_bind. eapply post_weaken; [apply build_cameras_views|].
  intros [] s7 (_ & Hl7 & _).
  assert (Hlights7 : lights (gltf s7) = []) by congruence.
  apply post_bind. unfold build_lights.
  destruct (useKHRLightsPunctual options).
  - apply post_bind. eapply post_weaken; [apply hold_lights_post|].
    intros [] s8 (Hl8 & _). rewrite Hlights7 in Hl8. cbn in Hl8.
    eapply post_weaken; [apply attach_lights_post|].
    intros [] s9 ((Hl9 & _) & _).
    eapply post_weaken; [apply finish_views|].
    intros root s10 (_ & Hl10 & _). congruence.
  - apply post_ret. eapply post_weaken; [apply finish_views|].
    intros root s10 (_ & Hl10 & _). congruence.
Qed.

(** X16: the JSON text of an assembled model is serialized with these
    extension lists, whatever the serializer is.  "KHR_materials_unlit" is
    used exactly when the unlit option is set, even without materials;
    "KHR_lights_punctual" exactly when the lights option is set and the raw
    model has a light; "KHR_draco_mesh_compression" exactly when Draco is
    enabled, and then it is also the one required extension.  The order is
    unlit, lights, Draco, and the indentation is 0 for binary output and 4
    otherwise. *)
Theorem declared_extensions raw materialModels options unassigned rootScene s' :
  assemble to_uint32 EncodeMeshToBuffer raw materialModels options unassigned new_State
    = Some (rootScene, s') ->
  let used :=
    (if useKHRMatUnlit options then ["KHR_materials_unlit"%string] else [])
    ++ (if useKHRLightsPunctual options && negb (is_empty (raw_lights raw))
        then ["KHR_lights_punctual"%string] else [])
    ++ (if draco_enabled (draco options)
        then ["KHR_draco_mesh_compression"%string] else []) in
  let required :=
    if draco_enabled (draco options)
    then ["KHR_draco_mesh_compression"%string] else [] in
  forall serialize : list string -> list string -> nat -> GltfModel -> Z -> list byte,
    document_json serialize options rootScene (gltf s') =
      serialize used required rootScene (gltf s') (if outputBinary options then 0 else 4).
Proof.
  intros Hrun used required serialize.
  pose proof (assemble_lights raw materialModels options unassigned _ _ Hrun) as Hl.
  unfold document_json, used, required. rewrite Hl.
  assert (Hempty : is_empty (if useKHRLightsPunctual options
                             then lights_of 0 (raw_lights raw) else [])
                   = negb (useKHRLightsPunctual options
                           && negb (is_empty (raw_lights raw)))).
  { destruct (useKHRLightsPunctual options); [|done].
    by destruct (raw_lights raw). }
  rewrite Hempty, negb_involutive. reflexivity.
Qed.

End ExtensionProofs.

(** ** The skins of the surfaces (lines 840-859) *)

(** the surface that gives node [node] a skin: the surface of the node when
    it has joints and the node has no skin yet *)
Definition skin_source (raw : RawModel) (node : RawNode) (nd : NodeData)
  : option RawSurface :=
  if 0 <? rn_surfaceId node
  then match at_index (raw_surfaces raw) (GetSurfaceById raw (rn_surfaceId node)) with
       | Some rawSurface =>
           if negb (is_empty (rs_jointIds rawSurface)) && (nd_skin nd =? -1)
           then Some rawSurface else None
       | None => None
       end
  else None.

Definition is_skinned (raw : RawModel) (x : RawNode * NodeData) : bool :=
  match skin_source raw x.1 x.2 with Some _ => true | None => false end.

(** [ix] is the holder index of the node that the map gives for [id];
    [ixs] are the holder indices of the nodes, by position *)
Definition resolves (nodesById : gmap Z nat) (ixs : list nat) (id : Z) (ix : nat) : Prop :=
  exists p, nodesById !! id = Some p /\ ixs !! p = Some ix.

(** skin [sk], held at [k], is the skin of surface [rawSurface] with the
    inverse bind matrices in accessor [a] *)
Definition skin_for (nodesById : gmap Z nat) (ixs : list nat) (k a : nat)
    (rawSurface : RawSurface) (sk : SkinData) : Prop :=
  skin_ix sk = k /\ skin_inverseBindMatrices sk = Some a /\
  Forall2 (fun id j => exists ix, resolves nodesById ixs id ix /\ j = Z.of_nat ix)
          (rs_jointIds rawSurface) (skin_joints sk) /\
  exists ix, resolves nodesById ixs (rs_skeletonRootId rawSurface) ix /\
             skin_skeletonRoot sk = Some ix.

Lemma node_ix_by_id_post nodesById id s :
  post (node_ix_by_id nodesById id) s
    (fun ix s' => s' = s /\ resolves nodesById (map nd_ix (nodes (gltf s))) id ix).
Proof.
  unfold node_ix_by_id, require. apply post_bind, post_deref. intros p Hp.
  apply post_bind, post_get_model. apply post_bind, post_deref. intros n Hn.
  apply post_ret. split; [done|]. exists p. split; [done|].
  by rewrite list_lookup_fmap, Hn.
Qed.

Lemma joint_indexes_post nodesById ids : forall s,
  post (joint_indexes nodesById ids) s
    (fun js s' =>
       s' = s /\
       Forall2 (fun id j => exists ix, resolves nodesById (map nd_ix (nodes (gltf s))) id ix
                                       /\ j = Z.of_nat ix) ids js).
Proof.
  induction ids as [|id ids IH]; intros s; cbn [joint_indexes].
  - apply post_ret. split; [done|constructor].
  - apply post_bind. eapply post_weaken; [apply node_ix_by_id_post|].
    intros ix ? [-> Hix]. apply post_bind. eapply post_weaken; [apply IH|].
    intros js ? [-> Hjs]. apply post_ret. split; [done|].
    constructor; [by exists ix|done].
Qed.

(** the accessor of the inverse bind matrices of [rawSurface] *)
Definition ibm_accessor (A V : nat) (rawSurface : RawSurface) : AccessorData :=
  plain_acc A V GLT_MAT4F (length (rs_inverseBindMatrices rawSurface)) "".

Lemma assign_mesh_step_skin raw nodesById byId i node nd s :
  nodes (gltf s) !! i = Some nd ->
  post (assign_mesh_step raw nodesById byId (i, node)) s
    (fun _ s' =>
       let ixs := map nd_ix (nodes (gltf s)) in
       exists nd',
         nodes (gltf s') = <[i := nd']> (nodes (gltf s)) /\
         nd' = SetSkin (nd_skin nd') (SetMesh (nd_mesh nd') nd) /\
         match skin_source raw node nd with
         | Some rawSurface =>
             exists sk,
               skins (gltf s') = skins (gltf s) ++ [sk] /\
               nd_skin nd' = Z.of_nat (length (skins (gltf s))) /\
               skin_for nodesById ixs (length (skins (gltf s)))
                 (length (accessors (gltf s))) rawSurface sk /\
               accessors (gltf s') =
                 accessors (gltf s) ++
                   [ibm_accessor (length (accessors (gltf s)))
                      (length (bufferViews (gltf s))) rawSurface] /\
               binary (gltf s') =
                 pad_to 4 (binary (gltf s)) ++
                   gl_write_array GLT_MAT4F
                     (map Mat4f_Transpose (rs_inverseBindMatrices rawSurface))
         | None =>
             skins (gltf s') = skins (gltf s) /\ nd_skin nd' = nd_skin nd /\
             accessors (gltf s') = accessors (gltf s) /\
             binary (gltf s') = binary (gltf s)
         end).
Proof.
  intros Hnd. unfold assign_mesh_step, skin_source.
  apply post_bind, post_get_model. apply post_bind, post_deref. intros nd0 _.
  assert (Hsame : nd = SetSkin (nd_skin nd) (SetMesh (nd_mesh nd) nd)) by (by destruct nd).
  destruct (0 <? rn_surfaceId node).
  2:{ apply post_ret. exists nd. split; [by rewrite list_insert_id|]. done. }
  apply post_bind, post_deref. intros rawSurface ->.
  unfold require. apply post_bind, post_deref. intros meshData _.
  apply post_bind, post_get_model. apply post_bind, post_deref. intros m _.
  apply post_bind. unfold update_node at 1.
  apply post_bind, post_get_model. apply post_bind, post_deref. intros nd1 Hnd1.
  assert (nd1 = nd) as -> by congruence. apply post_modify.
  set (n1 := SetMesh (Z.of_nat (mesh_ix m)) nd).
  set (s1 := set_gltf _ s).
  assert (Hn1 : nodes (gltf s1) = <[i := n1]> (nodes (gltf s))) by done.
  assert (Hi1 : nodes (gltf s1) !! i = Some n1).
  { rewrite Hn1. apply list_lookup_insert_eq. by eapply lookup_lt_Some. }
  assert (Hix1 : map nd_ix (nodes (gltf s1)) = map nd_ix (nodes (gltf s))).
  { rewrite Hn1, list_fmap_insert. apply list_insert_id.
    by rewrite list_lookup_fmap, Hnd. }
  assert (Hrest1 : skins (gltf s1) = skins (gltf s) /\
                   accessors (gltf s1) = accessors (gltf s) /\
                   bufferViews (gltf s1) = bufferViews (gltf s) /\
                   binary (gltf s1) = binary (gltf s)) by done.
  destruct Hrest1 as (Hs1 & Ha1 & Hv1 & Hb1).
  clearbody s1.
  destruct (negb (is_empty (rs_jointIds rawSurface))); cbn [andb].
  2:{ apply post_ret. exists n1. split; [done|]. split; [by destruct nd|]. done. }
  apply post_bind, post_get_model. apply post_bind, post_deref. intros n Hn.
  assert (n = n1) as -> by congruence.
  change (nd_skin n1) with (nd_skin nd).
  destruct (nd_skin nd =? -1).
  2:{ apply post_ret. exists n1. split; [done|]. split; [by destruct nd|]. done. }
  apply post_bind. eapply post_weaken; [apply joint_indexes_post|].
  intros js ? [-> Hjs].
  apply post_bind. eapply post_run; [apply AddAccessorAndView_run|]. cbv zeta.
  apply post_bind. eapply post_weaken; [apply node_ix_by_id_post|].
  intros root ? [-> Hroot]. autorewrite with buf in Hroot.
  apply post_bind. unfold hold_skin. apply post_bind, post_get_model.
  rewrite hold_length. cbv iota beta. apply post_bind, post_modify. apply post_ret.
  unfold update_node. apply post_bind, post_get_model.
  apply post_bind, post_deref. intros n2 Hn2. apply post_modify.
  cbn [gltf set_gltf set_skins set_nodes nodes skins accessors binary stamp skin_ix] in *.
  autorewrite with buf in *.
  change (skins (gltf (upd_buf ?a ?v ?b s1))) with (skins (gltf s1)) in *.
  assert (n2 = n1) as -> by congruence.
  rewrite Hn1, Hs1, Ha1, Hv1, Hb1, Hix1 in *.
  eexists. split; [by rewrite list_insert_insert_eq|].
  split; [by destruct nd|].
  eexists. split; [reflexivity|]. split; [done|]. split.
  { split; [done|]. split; [done|]. split; [done|]. by exists root. }
  split; [|done]. unfold ibm_accessor, plain_acc. by rewrite length_map.
Qed.

(** X17: a node whose surface has joints, and which has no skin yet, is
    given a skin of its own, held after the skins that exist.  The joints
    of the skin are the holder indices of the nodes that the map of nodes
    gives for the joint ids of the surface, in their order; the skeleton
    root is resolved in the same way; the inverse bind matrices are one new
    MAT4 accessor that counts the matrices of the surface, and their
    transposes are the bytes appended to the buffer.  Any other node gets
    no skin, and neither accessor nor bytes are added. *)
Theorem surface_skin raw nodesById byId i node nd s s' :
  nodes (gltf s) !! i = Some nd ->
  assign_mesh_step raw nodesById byId (i, node) s = Some (tt, s') ->
  let ixs := map nd_ix (nodes (gltf s)) in
  let k := length (skins (gltf s)) in
  let A := length (accessors (gltf s)) in
  exists nd',
    nodes (gltf s') = <[i := nd']> (nodes (gltf s)) /\
    nd' = SetSkin (nd_skin nd') (SetMesh (nd_mesh nd') nd) /\
    match skin_source raw node nd with
    | Some rawSurface =>
        nd_skin nd' = Z.of_nat k /\
        (exists sk,
           skins (gltf s') = skins (gltf s) ++ [sk] /\
           skin_ix sk = k /\ skin_inverseBindMatrices sk = Some A /\
           Forall2 (fun id j => exists p ix, nodesById !! id = Some p /\
                                             ixs !! p = Some ix /\ j = Z.of_nat ix)
                   (rs_jointIds rawSurface) (skin_joints sk) /\
           exists p ix, nodesById !! rs_skeletonRootId rawSurface = Some p /\
                        ixs !! p = Some ix /\ skin_skeletonRoot sk = Some ix) /\
        (exists acc,
           accessors (gltf s') = accessors (gltf s) ++ [acc] /\
           acc_ix acc = A /\ acc_type acc = GLT_MAT4F /\
           acc_count acc = Z.of_nat (length (rs_inverseBindMatrices rawSurface))) /\
        binary (gltf s') =
          pad_to 4 (binary (gltf s)) ++
            gl_write_array GLT_MAT4F
              (map Mat4f_Transpose (rs_inverseBindMatrices rawSurface))
    | None =>
        skins (gltf s') = skins (gltf s) /\ nd_skin nd' = nd_skin nd /\
        accessors (gltf s') = accessors (gltf s) /\
        binary (gltf s') = binary (gltf s)
    end.
Proof.
  intros Hnd Hrun ixs k A.
  destruct (assign_mesh_step_skin raw nodesById byId i node nd s Hnd tt s' Hrun)
    as (nd' & Hn & Hnd' & Hskin).
  exists nd'. split; [done|]. split; [done|].
  destruct (skin_source raw node nd) as [rawSurface|]; [|done].
  destruct Hskin as (sk & Hs & Hk & (Hix & Hibm & Hj & (root & (p & Hp & Hpix) & Hroot))
                     & Ha & Hb).
  split; [done|]. split.
  { exists sk. split; [done|]. split; [done|]. split; [done|]. split.
    - eapply Forall2_impl; [exact Hj|]. intros id j (ix & (q & Hq & Hqix) & ->).
      by exists q, ix.
    - by exists p, root. }
  split; [|done]. eexists. split; [exact Ha|]. done.
Qed.

(** the number of nodes before position [i] that are given a skin *)
Definition skinned_before (raw : RawModel) (pairs : list (RawNode * NodeData)) (i : nat)
  : nat :=
  length (List.filter (is_skinned raw) (take i pairs)).

Lemma assign_mesh_step_none raw nodesById byId i node s :
  nodes (gltf s) !! i = None ->
  assign_mesh_step raw nodesById byId (i, node) s = None.
Proof.
  intros H. unfold assign_mesh_step. rewrite bind_unfold. cbn.
  rewrite bind_unfold, H. reflexivity.
Qed.

(** node [nd'] of the final state carries the skin of [node], which was
    [nd]: skin [r] when the node is given one *)
Definition skin_assigned (raw : RawModel) (nodesById : gmap Z nat) (ixs : list nat)
    (s' : State) (r : nat) (node : RawNode) (nd nd' : NodeData) : Prop :=
  match skin_source raw node nd with
  | None => nd_skin nd' = nd_skin nd
  | Some rawSurface =>
      nd_skin nd' = Z.of_nat r /\
      exists sk a acc,
        skins (gltf s') !! r = Some sk /\ skin_for nodesById ixs r a rawSurface sk /\
        accessors (gltf s') !! a = Some acc /\ acc_type acc = GLT_MAT4F /\
        acc_count acc = Z.of_nat (length (rs_inverseBindMatrices rawSurface))
  end.

Lemma skins_loop raw nodesById byId ixs : forall l k s,
  map nd_ix (nodes (gltf s)) = ixs ->
  post (for_each (zip (seq k (length l)) l) (assign_mesh_step raw nodesById byId)) s
    (fun _ s' =>
       let pairs := zip l (drop k (nodes (gltf s))) in
       (forall j, (j < k)%nat -> nodes (gltf s') !! j = nodes (gltf s) !! j) /\
       (exists news, skins (gltf s') = skins (gltf s) ++ news /\
                     length news = length (List.filter (is_skinned raw) pairs)) /\
       (forall a acc, accessors (gltf s) !! a = Some acc ->
                      accessors (gltf s') !! a = Some acc) /\
       forall i node nd, l !! i = Some node -> nodes (gltf s) !! (k + i)%nat = Some nd ->
         exists nd', nodes (gltf s') !! (k + i)%nat = Some nd' /\
           skin_assigned raw nodesById ixs s'
             (length (skins (gltf s)) + skinned_before raw pairs i) node nd nd').
Proof.
  induction l as [|node l IH]; intros k s Hixs; cbn [length seq zip zip_with for_each].
  - apply post_ret. cbv zeta. split; [done|]. split; [by exists []; rewrite app_nil_r|].
    split; [done|]. intros i node nd H. done.
  - apply post_bind.
    destruct (nodes (gltf s) !! k) as [nd|] eqn:Hk.
    2:{ intros x s1 Hrun. by rewrite assign_mesh_step_none in Hrun. }
    eapply post_weaken; [by apply assign_mesh_step_skin|].
    intros [] s1 (nd' & Hn1 & Hnd' & Hskin). rewrite Hixs in Hskin.
    assert (Hix1 : map nd_ix (nodes (gltf s1)) = ixs).
    { rewrite Hn1, list_fmap_insert, <- Hixs. apply list_insert_id.
      rewrite list_lookup_fmap, Hk. cbn. f_equal. by rewrite Hnd'. }
    eapply post_weaken; [apply (IH (S k) s1 Hix1)|].
    intros [] s' (Hlow & (news & Hs' & Hlen) & Hacc & Hall). cbv zeta.
    assert (Hdrop1 : drop (S k) (nodes (gltf s1)) = drop (S k) (nodes (gltf s))).
    { rewrite Hn1. apply drop_insert_lt. lia. }
    rewrite Hdrop1 in *. rewrite (drop_S _ _ _ Hk). cbn [zip zip_with].
    set (pairs := zip_with pair l (drop (S k) (nodes (gltf s)))) in *.
    assert (Hstep : exists ns,
      skins (gltf s1) = skins (gltf s) ++ ns /\
      length ns = (if is_skinned raw (node, nd) then 1 else 0)%nat /\
      (forall a acc, accessors (gltf s) !! a = Some acc ->
                     accessors (gltf s1) !! a = Some acc) /\
      skin_assigned raw nodesById ixs s1 (length (skins (gltf s))) node nd nd').
    { unfold is_skinned, skin_assigned. cbn [fst snd].
      destruct (skin_source raw node nd) as [rawSurface|].
      - destruct Hskin as (sk & Hs1 & Hk1 & Hfor & Ha1 & _).
        exists [sk]. split; [done|]. split; [done|]. split.
        + intros a acc Ha. rewrite Ha1. by apply lookup_app_l_Some.
        + split; [done|].
          exists sk, (length (accessors (gltf s))), (ibm_accessor (length (accessors (gltf s)))
                         (length (bufferViews (gltf s))) rawSurface).
          split; [rewrite Hs1; apply lookup_snoc|]. split; [done|].
          split; [rewrite Ha1; apply lookup_snoc|]. done.
      - destruct Hskin as (Hs1 & Hk1 & Ha1 & _).
        exists []. rewrite app_nil_r. split; [done|]. split; [done|].
        split; [by rewrite Ha1|done]. }
    destruct Hstep as (ns & Hs1 & Hns & Hacc1 & Hfirst).
    split.
    { intros j Hj. rewrite Hlow by lia. rewrite Hn1.
      apply list_lookup_insert_ne. lia. }
    split.
    { exists (ns ++ news). split; [by rewrite Hs', Hs1, app_assoc|].
      rewrite length_app, Hns, Hlen. cbn [List.filter].
      by destruct (is_skinned raw (node, nd)). }
    split; [by auto|].
    intros [|i] node' nd0 Hi Hnd0.
    + cbn in Hi. injection Hi as <-. rewrite Nat.add_0_r in *.
      assert (nd0 = nd) as -> by congruence.
      exists nd'. split.
      { rewrite Hlow by lia. rewrite Hn1. apply list_lookup_insert_eq.
        by eapply lookup_lt_Some. }
      unfold skinned_before. cbn [take List.filter length]. rewrite Nat.add_0_r.
      unfold skin_assigned in *.
      destruct (skin_source raw node nd) as [rawSurface|]; [|done].
      destruct Hfirst as (Hsk & sk & a & acc & Hlook & Hfor & Ha & Hty & Hcnt).
      split; [done|]. exists sk, a, acc.
      split; [rewrite Hs'; by apply lookup_app_l_Some|]. split; [done|].
      split; [by apply Hacc|done].
    + cbn in Hi.
      assert (Hnd1 : nodes (gltf s1) !! (S k + i)%nat = Some nd0).
      { rewrite Hn1, list_lookup_insert_ne by lia.
        by replace (S k + i)%nat with (k + S i)%nat by lia. }
      destruct (Hall i node' nd0 Hi Hnd1) as (nd0' & Hnd0' & Hres).
      exists nd0'. split; [by replace (k + S i)%nat with (S k + i)%nat by lia|].
      replace (length (skins (gltf s)) + skinned_before raw ((node, nd) :: pairs) (S i))%nat
        with (length (skins (gltf s1)) + skinned_before raw pairs i)%nat; [done|].
      rewrite Hs1, length_app, Hns. unfold skinned_before.
      cbn [take List.filter]. destruct (is_skinned raw (node, nd)); cbn [length]; lia.
Qed.

(** X18: the loop over the nodes gives a skin to every node whose surface
    has joints and which has none, in the order of the nodes: such a node
    points to the skin held at the number of skins that existed plus the
    number of such nodes before it, so that nodes that share a surface get
    a skin each.  That skin carries its index, the joints and the skeleton
    root resolved through the map of nodes, and an accessor of MAT4 that
    counts the inverse bind matrices of the surface.  Every other node
    keeps its skin. *)
Theorem skins_in_node_order raw nodesById byId s s' :
  assign_meshes raw nodesById byId s = Some (tt, s') ->
  let ixs := map nd_ix (nodes (gltf s)) in
  let base := length (skins (gltf s)) in
  let pairs := zip (raw_nodes raw) (nodes (gltf s)) in
  length (skins (gltf s')) = (base + length (List.filter (is_skinned raw) pairs))%nat /\
  take base (skins (gltf s')) = skins (gltf s) /\
  forall i node nd, raw_nodes raw !! i = Some node -> nodes (gltf s) !! i = Some nd ->
    exists nd', nodes (gltf s') !! i = Some nd' /\
      match skin_source raw node nd with
      | None => nd_skin nd' = nd_skin nd
      | Some rawSurface =>
          let r := (base + length (List.filter (is_skinned raw) (take i pairs)))%nat in
          nd_skin nd' = Z.of_nat r /\
          exists sk a acc,
            skins (gltf s') !! r = Some sk /\ skin_ix sk = r /\
            skin_inverseBindMatrices sk = Some a /\
            Forall2 (fun id j => exists p ix, nodesById !! id = Some p /\
                                              ixs !! p = Some ix /\ j = Z.of_nat ix)
                    (rs_jointIds rawSurface) (skin_joints sk) /\
            (exists p ix, nodesById !! rs_skeletonRootId rawSurface = Some p /\
                          ixs !! p = Some ix /\ skin_skeletonRoot sk = Some ix) /\
            accessors (gltf s') !! a = Some acc /\ acc_type acc = GLT_MAT4F /\
            acc_count acc = Z.of_nat (length (rs_inverseBindMatrices rawSurface))
      end.
Proof.
  intros Hrun ixs base pairs. unfold assign_meshes, indexed in Hrun.
  destruct (skins_loop raw nodesById byId ixs (raw_nodes raw) 0%nat s eq_refl tt s' Hrun)
    as (_ & (news & Hs' & Hlen) & _ & Hall).
  rewrite drop_0 in Hlen, Hall. fold pairs in Hlen, Hall. fold base in Hall.
  split; [by rewrite Hs', length_app, Hlen|].
  split; [rewrite Hs'; by apply take_app_length|].
  intros i node nd Hi Hnd. destruct (Hall i node nd Hi Hnd) as (nd' & Hnd' & Hres).
  exists nd'. split; [done|]. unfold skin_assigned, skinned_before in Hres.
  destruct (skin_source raw node nd) as [rawSurface|]; [|done].
  destruct Hres as (Hsk & sk & a & acc & Hlook & (Hix & Hibm & Hj & (root & (p & Hp & Hpix) & Hroot))
                    & Ha & Hty & Hcnt).
  cbv zeta. split; [done|]. exists sk, a, acc.
  split; [done|]. split; [done|]. split; [done|]. split.
  { eapply Forall2_impl; [exact Hj|]. intros id j (ix & (q & Hq & Hqix) & ->).
    by exists q, ix. }
  split; [by exists p, root|]. done.
Qed.

(** ** The animations that are kept (lines 156-216) *)

Definition has_channels (animation : RawAnimation) : bool :=
  negb (is_empty (ra_channels animation)).

(** animation [ad] of state [s'] is what raw animation [animation] became *)
Definition animation_of (raw : RawModel) (nodesById : gmap Z nat) (s' : State)
    (animation : RawAnimation) (ad : AnimationData) : Prop :=
  anim_name ad = ra_name animation /\
  length (anim_channels ad)
    = length (animation_tracks raw nodesById (ra_channels animation)) /\
  exists acc, accessors (gltf s') !! anim_timeAccessor ad = Some acc /\
    acc_type acc = GLT_FLOAT /\
    acc_count acc = Z.of_nat (length (ra_times animation)).

Lemma animation_step_held raw nodesById animation s :
  post (animation_step raw nodesById animation) s
    (fun _ s' =>
       (forall a acc, accessors (gltf s) !! a = Some acc ->
                      accessors (gltf s') !! a = Some acc) /\
       if has_channels animation
       then exists ad, animations (gltf s') = animations (gltf s) ++ [ad] /\
              anim_ix ad = length (animations (gltf s)) /\
              animation_of raw nodesById s' animation ad
       else animations (gltf s') = animations (gltf s)).
Proof.
  unfold has_channels. destruct (is_empty (ra_channels animation)) eqn:Hch; cbn [negb].
  { unfold animation_step. rewrite Hch. post_prim. done. }
  intros [] s' Hrun. rewrite animation_step_channels in Hrun by done.
  cbv zeta in Hrun.
  destruct (min_element (ra_times animation)) as [lo|] eqn:Elo; [|done].
  destruct (max_element (ra_times animation)) as [hi|] eqn:Ehi; [|done].
  cbn [mbind option_bind] in Hrun.
  set (s0 := set_gltf _ s) in Hrun.
  set (a0 := {| anim_ix := length (animations (gltf s)); anim_name := ra_name animation;
                anim_timeAccessor := length (accessors (gltf s)); anim_channels := [] |}).
  assert (Hlt : (length (animations (gltf s)) < length (animations (gltf s0)))%nat).
  { unfold s0. cbn. rewrite length_app. cbn. lia. }
  assert (Hinv0 : tracks_inv s0 (length (animations (gltf s))) a0 [] s0).
  { unfold tracks_inv. cbv zeta. cbn [imap length]. rewrite app_nil_r, Nat.add_0_r.
    split; [done|]. split; [done|].
    symmetry. apply list_insert_id. unfold s0. cbn. apply lookup_snoc. }
  pose proof (channels_loop_tracks raw nodesById s0 _ a0 (ra_channels animation) [] s0
                Hlt Hinv0 tt s' Hrun) as (_ & Ha & _ & Han).
  cbn [app] in Ha, Han.
  assert (Ha0 : exists time,
    accessors (gltf s0) = accessors (gltf s) ++ [time] /\
    acc_type time = GLT_FLOAT /\
    acc_count time = Z.of_nat (length (ra_times animation))).
  { eexists. unfold s0. cbn [gltf set_gltf set_animations accessors].
    autorewrite with buf. split; [reflexivity|]. done. }
  destruct Ha0 as (time & Ha0 & Hty & Hcnt).
  split.
  { intros a acc Hacc. rewrite Ha, Ha0.
    by apply lookup_app_l_Some, lookup_app_l_Some. }
  eexists. split.
  { rewrite Han. unfold s0. cbn [gltf set_gltf set_animations animations].
    by rewrite insert_snoc. }
  split; [done|]. split; [done|]. split; [cbn; by rewrite length_imap|].
  exists time. split; [|done]. cbn [with_channels anim_timeAccessor a0].
  rewrite Ha, Ha0. apply lookup_app_l_Some, lookup_snoc.
Qed.

Lemma animations_loop raw nodesById l : forall s,
  post (for_each l (animation_step raw nodesById)) s
    (fun _ s' =>
       (forall a acc, accessors (gltf s) !! a = Some acc ->
                      accessors (gltf s') !! a = Some acc) /\
       exists news,
         animations (gltf s') = animations (gltf s) ++ news /\
         Forall2 (animation_of raw nodesById s') (List.filter has_channels l) news /\
         forall k ad, news !! k = Some ad ->
                      anim_ix ad = (length (animations (gltf s)) + k)%nat).
Proof.
  induction l as [|animation l IH]; intros s; cbn [for_each List.filter].
  - apply post_ret. split; [done|]. exists []. rewrite app_nil_r.
    split; [done|]. split; [constructor|]. intros k ad H. done.
  - apply post_bind. eapply post_weaken; [apply animation_step_held|].
    intros [] s1 (Hacc1 & Hstep). eapply post_weaken; [apply IH|].
    intros [] s' (Hacc & news & Hs' & Hall & Hix).
    split; [by auto|].
    destruct (has_channels animation).
    + destruct Hstep as (ad & Hs1 & Hadix & Hname & Hlen & acc & Hlook & Hty & Hcnt).
      exists (ad :: news). split; [by rewrite Hs', Hs1, <- app_assoc|].
      split.
      { constructor; [|done]. split; [done|]. split; [done|].
        exists acc. split; [by apply Hacc|done]. }
      intros [|k] ad' Hk.
      * cbn in Hk. injection Hk as <-. by rewrite Nat.add_0_r.
      * cbn in Hk. rewrite (Hix k ad' Hk), Hs1, length_app. cbn. lia.
    + exists news. rewrite Hs', Hstep. split; [done|]. split; [done|].
      intros k ad Hk. rewrite (Hix k ad Hk). by rewrite Hstep.
Qed.

(** X19: the animation holder receives one animation per raw animation
    that has channels, in the order of the raw animations; the raw
    animations without channels leave no entry, so the index of an
    animation is its rank among the kept ones.  Each kept animation has
    the raw name, one channel target per non-empty track, and a time
    accessor of scalar floats that counts the raw times. *)
Theorem animations_in_order raw nodesById s s' :
  build_animations raw nodesById s = Some (tt, s') ->
  let base := length (animations (gltf s)) in
  let kept := List.filter (fun a => negb (is_empty (ra_channels a))) (raw_animations raw) in
  length (animations (gltf s')) = (base + length kept)%nat /\
  take base (animations (gltf s')) = animations (gltf s) /\
  forall k animation, kept !! k = Some animation ->
    exists ad acc,
      animations (gltf s') !! (base + k)%nat = Some ad /\
      anim_ix ad = (base + k)%nat /\ anim_name ad = ra_name animation /\
      length (anim_channels ad)
        = length (animation_tracks raw nodesById (ra_channels animation)) /\
      accessors (gltf s') !! anim_timeAccessor ad = Some acc /\
      acc_type acc = GLT_FLOAT /\
      acc_count acc = Z.of_nat (length (ra_times animation)).
Proof.
  intros Hrun base kept. unfold build_animations in Hrun.
  destruct (animations_loop raw nodesById (raw_animations raw) s tt s' Hrun)
    as (_ & news & Hs' & Hall & Hix).
  fold has_channels in kept. change (List.filter has_channels _) with kept in Hall.
  split; [rewrite Hs', length_app; f_equal; symmetry; by eapply Forall2_length|].
  split; [rewrite Hs'; by apply take_app_length|].
  intros k animation Hk.
  destruct (Forall2_lookup_l _ _ _ _ _ Hall Hk) as (ad & Had & Hname & Hlen & acc & Hacc).
  exists ad, acc. split.
  { rewrite Hs', lookup_app_r by (unfold base; lia).
    by replace (base + k - length (animations (gltf s)))%nat with k by (unfold base; lia). }
  split; [by apply Hix|]. done.
Qed.

(** * Further runs on the sample inputs *)

(** the options of the sample model with unlit materials *)
Definition ex_options_unlit : GltfOptions :=
  {| outputBinary := true; usePBRMetRough := true; useKHRMatUnlit := true;
     useKHRLightsPunctual := true; disableSparseBlendShapes := false;
     useBlendShapeNormals := true; useBlendShapeTangents := true;
     enableUserProperties := false; useLongIndices := AUTO;
     draco := draco ex_options |}.

(** the options of the sample model without metallic-roughness output,
    with and without unlit materials *)
Definition ex_options_plain : GltfOptions :=
  {| outputBinary := true; usePBRMetRough := false; useKHRMatUnlit := false;
     useKHRLightsPunctual := true; disableSparseBlendShapes := false;
     useBlendShapeNormals := true; useBlendShapeTangents := true;
     enableUserProperties := false; useLongIndices := AUTO;
     draco := draco ex_options |}.

Definition ex_options_unlit_only : GltfOptions :=
  {| outputBinary := true; usePBRMetRough := false; useKHRMatUnlit := true;
     useKHRLightsPunctual := true; disableSparseBlendShapes := false;
     useBlendShapeNormals := true; useBlendShapeTangents := true;
     enableUserProperties := false; useLongIndices := AUTO;
     draco := draco ex_options |}.

(** a metallic-roughness material without maps *)
Definition ex_flat_material : RawMaterial :=
  {| rm_id := 9; rm_name := "flat"; rm_type := RAW_MATERIAL_TYPE_TRANSPARENT;
     rm_info := MetRoughProps
        {| mr_diffuseFactor := v4 1 1 1 1; mr_emissiveFactor := v3 1 1 1;
           mr_emissiveIntensity := f2; mr_metallic := f0; mr_roughness := f1;
           mr_invertRoughnessMap := false |};
     rm_isDoubleSided := true; rm_textures := fun _ => -1; rm_userProperties := [] |}.

(** the sample model, rigged: its surface has two joints, the first node
    belongs to the second of two extra skins, and two cameras name the
    second node *)
Definition ex_matrix : Mat4f :=
  map f32_of_Z [1; 0; 0; 0;  0; 1; 0; 0;  0; 0; 1; 0;  2; 3; 4; 1].

Definition ex_skinned_surface : RawSurface :=
  {| rs_id := 5; rs_name := "surf"; rs_bounds := rs_bounds ex_surface;
     rs_blendChannels := rs_blendChannels ex_surface;
     rs_jointIds := [101; 100]; rs_inverseBindMatrices := [ex_matrix; ex_matrix];
     rs_skeletonRootId := 100 |}.

Definition ex_joint_node : RawNode :=
  {| rn_id := 100; rn_name := "root"; rn_translation := v3 0 0 0;
     rn_rotation := v4 0 0 0 1; rn_scale := v3 1 1 1; rn_isJoint := true;
     rn_childIds := [101]; rn_surfaceId := 0; rn_lightIx := -1; rn_extraSkinIx := 1;
     rn_userProperties := [] |}.

Definition ex_camera (name : string) (mode : RawCameraMode) : RawCamera :=
  {| rc_name := name; rc_nodeId := 101; rc_mode := mode;
     rc_aspectRatio := f1; rc_fovDegreesY := f32_of_Z 90; rc_persp_nearZ := f1;
     rc_persp_farZ := f2; rc_magX := f1; rc_magY := f2; rc_ortho_nearZ := f0;
     rc_ortho_farZ := f1 |}.

Definition ex_raw_rigged : RawModel :=
  {| raw_rootNodeId := 100; raw_vertexAttributes := raw_vertexAttributes ex_raw;
     raw_globalWeightCount := 0; raw_extraSkinCount := 2;
     raw_vertices := raw_vertices ex_raw; raw_triangles := raw_triangles ex_raw;
     raw_textures := []; raw_materials := [ex_material];
     raw_surfaces := [ex_skinned_surface]; raw_animations := raw_animations ex_raw;
     raw_cameras := [ex_camera "persp" CAMERA_MODE_PERSPECTIVE;
                     ex_camera "ortho" CAMERA_MODE_ORTHOGRAPHIC];
     raw_lights := raw_lights ex_raw; raw_nodes := [ex_joint_node; ex_node2] |}.

(** the sample model with a root id that no node carries *)
Definition ex_raw_rootless : RawModel :=
  {| raw_rootNodeId := 1; raw_vertexAttributes := raw_vertexAttributes ex_raw;
     raw_globalWeightCount := 0; raw_extraSkinCount := 0;
     raw_vertices := raw_vertices ex_raw; raw_triangles := raw_triangles ex_raw;
     raw_textures := []; raw_materials := [ex_material];
     raw_surfaces := [ex_surface]; raw_animations := raw_animations ex_raw;
     raw_cameras := raw_cameras ex_raw; raw_lights := raw_lights ex_raw;
     raw_nodes := raw_nodes ex_raw |}.

Definition no_node : NodeData :=
  new_NodeData "" Vec3f_zero (f0, f0, f0, f0) Vec3f_zero false.

(** the stages of the sample models that the runs below start from *)
Abbreviation ex_nodes_ids := ((default (∅, new_State) ex_nodes_run).1).
Abbreviation ex_nodes_state := ((default (∅, new_State) ex_nodes_run).2).

Abbreviation ex_materials_run :=
  (build_materials ex_raw ex_options_plain ex_unassigned new_State).

Abbreviation ex_unlit_run :=
  (material_step ex_raw ex_options_unlit (ex_unassigned 0) ex_material ∅ new_State).

Abbreviation ex_unlit_only_run :=
  (material_step ex_raw ex_options_unlit_only (ex_unassigned 0) ex_material ∅ new_State).

Abbreviation ex_flat_run :=
  (material_step ex_raw ex_options (ex_unassigned 0) ex_flat_material ∅ new_State).

Abbreviation ex_surfaces_run :=
  (build_surfaces ex_to_uint32 ex_encode ex_options {[7 := 0%nat]} [ex_raw] new_State).

Abbreviation ex_animations_run := (build_animations ex_raw ex_nodes_ids ex_nodes_state).

Abbreviation ex_lights_run := (build_lights ex_raw ex_options ex_nodes_state).

Abbreviation ex_rig_nodes := (build_nodes ex_raw_rigged ex_options new_State).
Abbreviation ex_rig_ids := ((default (∅, new_State) ex_rig_nodes).1).

Abbreviation ex_rig_surfaces :=
  (build_surfaces ex_to_uint32 ex_encode ex_options {[7 := 0%nat]} [ex_raw_rigged]
     (default (∅, new_State) ex_rig_nodes).2).
Abbreviation ex_rig_meshes := ((default (∅, new_State) ex_rig_surfaces).1).
Abbreviation ex_rig_state := ((default (∅, new_State) ex_rig_surfaces).2).

Abbreviation ex_rig_step :=
  (assign_mesh_step ex_raw_rigged ex_rig_ids ex_rig_meshes (1%nat, ex_node2) ex_rig_state).

Abbreviation ex_rig_assign :=
  (assign_meshes ex_raw_rigged ex_rig_ids ex_rig_meshes ex_rig_state).

Abbreviation ex_rig_extra := (build_extra_skins ex_raw_rigged new_State).

Abbreviation ex_rig_cameras :=
  (build_cameras ex_raw_rigged ex_rig_ids (default (∅, new_State) ex_rig_nodes).2).

(** the second node of the sample model is found under its id *)
Lemma nodes_by_id_first_node_witness : ex_nodes_ids !! 101 = Some 1%nat.
Proof.
  assert (Hrun : is_some_b ex_nodes_run = true) by (vm_compute; reflexivity).
  destruct (nodes_by_id_first_node ex_raw ex_options new_State _ _
              (run_pair (∅, new_State) ex_nodes_run Hrun)) as [Hmap _].
  apply Hmap. exists 1%nat, ex_node2. split; [reflexivity|]. split; [reflexivity|].
  split; [reflexivity|]. intros [|j] node' Hj Hnode'; [|lia].
  injection Hnode' as <-. discriminate.
Defined.

(** without metallic-roughness output the material of the sample model is
    held as material 0, without metallic-roughness block; its emissive
    factor is the product of what the unassigned locals hold *)
Lemma materials_by_id_last_material_witness :
  (default (∅, new_State) ex_materials_run).1 !! 7 = Some 0%nat /\
  exists m,
    materials (gltf (default (∅, new_State) ex_materials_run).2) !! 0%nat = Some m /\
    pbrMetallicRoughness m = None /\
    mat_emissiveFactor m = vec3_scale (v3 5 6 7) (f32_of_Z 3).
Proof.
  assert (Hrun : is_some_b ex_materials_run = true) by (vm_compute; reflexivity).
  destruct (materials_by_id_last_material ex_raw ex_options_plain ex_unassigned new_State
              _ _ (run_pair (∅, new_State) ex_materials_run Hrun)) as (_ & Hmap & Hall).
  split.
  - apply Hmap. exists 0%nat, ex_material. split; [reflexivity|]. split; [reflexivity|].
    split; [reflexivity|].
    intros [|[|j]] material' Hj Hm; [lia|discriminate|discriminate].
  - destruct (Hall 0%nat ex_material eq_refl)
      as (m & Hm & _ & _ & _ & _ & _ & _ & _ & Hoff).
    destruct (Hoff eq_refl) as [Hemissive Hpbr].
    exists m. split; [exact Hm|]. split; [exact (Hpbr eq_refl)|exact Hemissive].
Defined.

(** the sample material, unlit: with metallic-roughness output its
    emissive factor is zero; without, it is zero times what the unassigned
    intensity holds *)
Lemma unlit_material_witness :
  (exists m,
     materials (gltf (default (∅, new_State) ex_unlit_run).2) = [m] /\
     khrCmnUnlitMat m = true /\ normalTexture m = None /\
     mat_emissiveFactor m = Vec3f_zero) /\
  (exists m,
     materials (gltf (default (∅, new_State) ex_unlit_only_run).2) = [m] /\
     khrCmnUnlitMat m = true /\ normalTexture m = None /\
     mat_emissiveFactor m = vec3_scale Vec3f_zero (f32_of_Z 3)).
Proof.
  assert (Hrun : is_some_b ex_unlit_run = true) by (vm_compute; reflexivity).
  assert (Hrun' : is_some_b ex_unlit_only_run = true) by (vm_compute; reflexivity).
  split.
  - destruct (unlit_material ex_raw ex_options_unlit (ex_unassigned 0) ex_material ∅
                new_State _ _ eq_refl (run_pair (∅, new_State) ex_unlit_run Hrun))
      as (m & pbr & Hm & Hunlit & Hnormal & _ & _ & _ & _ & _ & _ & _ & _ & Hzero).
    exists m. split; [exact Hm|]. split; [exact Hunlit|]. split; [exact Hnormal|].
    exact (Hzero eq_refl _ _ eq_refl).
  - destruct (unlit_material ex_raw ex_options_unlit_only (ex_unassigned 0) ex_material ∅
                new_State _ _ eq_refl
                (run_pair (∅, new_State) ex_unlit_only_run Hrun'))
      as (m & pbr & Hm & Hunlit & Hnormal & _ & _ & _ & _ & _ & _ & _ & Hemissive & _).
    exists m. split; [exact Hm|]. split; [exact Hunlit|]. split; [exact Hnormal|].
    exact Hemissive.
Defined.

(** the material without maps asks for no combined texture *)
Lemma no_combined_map_witness :
  exists m pbr,
    materials (gltf (default (∅, new_State) ex_flat_run).2) = [m] /\
    pbrMetallicRoughness m = Some pbr /\ metRoughTexture pbr = None /\
    occlusionTexture m = None /\ pbr_roughness pbr = f1.
Proof.
  assert (Hrun : is_some_b ex_flat_run = true) by (vm_compute; reflexivity).
  assert (Hmaps : rm_textures ex_flat_material RAW_TEXTURE_USAGE_OCCLUSION < 0 /\
                  rm_textures ex_flat_material RAW_TEXTURE_USAGE_ROUGHNESS < 0 /\
                  rm_textures ex_flat_material RAW_TEXTURE_USAGE_METALLIC < 0)
    by (cbn; lia).
  destruct (no_combined_map ex_raw ex_options (ex_unassigned 0) ex_flat_material _ ∅ new_State _ _
              eq_refl eq_refl eq_refl (or_introl Hmaps)
              (run_pair (∅, new_State) ex_flat_run Hrun))
    as (m & pbr & calls & Hm & _ & _ & Hpbr & _ & Hrough & _ & _ & Hnone & _).
  destruct (Hnone Hmaps) as [Hmr Hocc].
  exists m, pbr. split; [exact Hm|]. split; [exact Hpbr|]. split; [exact Hmr|].
  split; [exact Hocc|exact Hrough].
Defined.

(** the animation of the sample model has one track, of translations *)
Lemma animation_channels_witness :
  exists ad,
    animations (gltf (default (tt, new_State) ex_animation_run).2) = [ad] /\
    anim_channels ad = [(1%nat, 1%nat, "translation"%string)].
Proof.
  assert (Hrun : is_some_b ex_animation_run = true) by (vm_compute; reflexivity).
  destruct (animation_channels ex_raw _ ex_reversed_animation _ _ eq_refl
              (run_unit (tt, new_State) ex_animation_run Hrun))
    as (_ & ad & Had & Hlen & _ & Hall).
  exists ad. split; [exact Had|].
  assert (Htrack : animation_tracks ex_raw ex_nodes_ids (ra_channels ex_reversed_animation)
                   = [(1%nat, ("translation"%string, GLT_VEC3F, 2%nat))])
    by (vm_compute; reflexivity).
  rewrite Htrack in Hlen, Hall.
  destruct (Hall 0%nat _ _ _ _ eq_refl) as [Hch _].
  destruct (anim_channels ad) as [|c [|c' cs]]; [discriminate Hlen| |discriminate Hlen].
  cbn in Hch. injection Hch as ->. reflexivity.
Defined.

(** the first blend channel of the sample surface keeps vertices 0 and 2 *)
Lemma channel_vertices_witness :
  Forall (fun i => 0 <= i < 3)
    (sparseIndices (default no_channel (ex_channel ex_options 0))) /\
  (0 ∈ sparseIndices (default no_channel (ex_channel ex_options 0))).
Proof.
  assert (Ht : is_some_b (ex_target 0) = true) by (vm_compute; reflexivity).
  assert (Hd : is_some_b (ex_channel ex_options 0) = true) by (vm_compute; reflexivity).
  destruct (channel_vertices ex_options ex_raw _ 0%nat _
              (run_result no_channel _ Hd))
    as (blends & Hall & _ & _ & _ & _ & _ & _ & Hrange & _ & Hkept).
  split; [exact Hrange|].
  inversion Hall as [|v b vs bs Hb Hrest]; subst.
  apply (Hkept eq_refl 0%nat b eq_refl).
  cbn in Hb. injection Hb as <-. vm_compute. reflexivity.
Defined.

(** the surface of the sample model gets one mesh *)
Lemma meshes_by_surface_id_witness :
  exists news,
    meshes (gltf (default (∅, new_State) ex_surfaces_run).2) = news /\
    length news = size (default (∅, new_State) ex_surfaces_run).1.
Proof.
  assert (Hrun : is_some_b ex_surfaces_run = true) by (vm_compute; reflexivity).
  destruct (meshes_by_surface_id ex_to_uint32 ex_encode ex_options _ [ex_raw] new_State _ _
              (run_pair (∅, new_State) ex_surfaces_run Hrun))
    as (news & Hm & Hlen & _).
  exists news. split; [exact Hm|exact Hlen].
Defined.

(** the primitive of the sample surface: positions, normals and tangents *)
Lemma primitive_attribute_names_witness :
  exists p,
    map fst (pr_attributes p) = ["POSITION"; "NORMAL"; "TANGENT"]%string /\
    length (pr_targets p) = 3%nat /\ pr_material p = 0%nat.
Proof.
  destruct (primitive_attribute_names ex_to_uint32 ex_encode ex_options _ ex_raw _ _ _ _
              (run_pair (∅, new_State) (ex_surface_run ex_options) ex_surface_returns))
    as (rawSurface & mesh & md & p & Hsurf & _ & _ & _ & Hnames & Htargets & Hmat).
  injection Hsurf as <-.
  exists p. split; [exact Hnames|]. split; [exact Htargets|].
  vm_compute in Hmat. injection Hmat as Hmat. symmetry. exact Hmat.
Defined.

(** the rigged model has two extra skins: the second has the first node
    as its joint, the first has none *)
Lemma extra_skins_witness :
  exists sk0 sk1,
    skins (gltf (default (tt, new_State) ex_rig_extra).2) !! 0%nat = Some sk0 /\
    skins (gltf (default (tt, new_State) ex_rig_extra).2) !! 1%nat = Some sk1 /\
    skin_joints sk0 = [] /\ skin_joints sk1 = [0].
Proof.
  assert (Hrun : is_some_b ex_rig_extra = true) by (vm_compute; reflexivity).
  destruct (extra_skins ex_raw_rigged new_State _
              (run_unit (tt, new_State) ex_rig_extra Hrun))
    as (_ & _ & _ & _ & _ & Hall).
  destruct (Hall 0%nat) as (sk0 & Hsk0 & _ & _ & Hj0); [cbn; lia|].
  destruct (Hall 1%nat) as (sk1 & Hsk1 & _ & _ & Hj1); [cbn; lia|].
  exists sk0, sk1. split; [exact Hsk0|]. split; [exact Hsk1|].
  split; [exact Hj0|exact Hj1].
Defined.

(** both cameras of the rigged model name the second node: it points to
    the second, the orthographic one *)
Lemma camera_entities_witness :
  exists c nd,
    cameras (gltf (default (tt, new_State) ex_rig_cameras).2) !! 1%nat = Some c /\
    cam_type c = "orthographic"%string /\
    nodes (gltf (default (tt, new_State) ex_rig_cameras).2) !! 1%nat = Some nd /\
    nd_camera nd = 1.
Proof.
  assert (Hnodes : is_some_b ex_rig_nodes = true) by (vm_compute; reflexivity).
  assert (Hrun : is_some_b ex_rig_cameras = true) by (vm_compute; reflexivity).
  destruct (camera_entities ex_raw_rigged ex_rig_ids _ _
              (run_unit (tt, new_State) ex_rig_cameras Hrun))
    as (_ & _ & Hcams & _ & Hnodes').
  destruct (Hcams 1%nat _ eq_refl) as (c & Hc & _ & _ & Hty & _).
  assert (Hnd : is_some_b (nodes (gltf (default (∅, new_State) ex_rig_nodes).2) !! 1%nat)
                = true) by (vm_compute; reflexivity).
  destruct (Hnodes' 1%nat _ (run_result no_node _ Hnd)) as (nd & Hnd' & _ & _ & Hlast).
  exists c, nd. split; [exact Hc|]. split; [exact Hty|]. split; [exact Hnd'|].
  apply (Hlast 1%nat _ eq_refl).
  - vm_compute. reflexivity.
  - intros [|[|k']] cam' Hlt Hk'; [lia|lia|discriminate Hk'].
Defined.

(** the scene of the sample model starts at its first node *)
Lemma root_scene_witness :
  (default (0%nat, new_State) ex_assembled).1 = 0%nat /\
  exists p, scene_root <$> scenes (gltf (default (0%nat, new_State) ex_assembled).2) = [p].
Proof.
  destruct (root_scene ex_to_uint32 ex_encode ex_raw [ex_raw] ex_options ex_unassigned _ _
              (run_pair (0%nat, new_State) ex_assembled ex_assembled_returns))
    as (H0 & p & node & _ & _ & _ & Hsc).
  split; [exact H0|]. exists p. rewrite Hsc. reflexivity.
Defined.

(** the sample model with an unknown root id is not converted *)
Lemma missing_root_aborts_witness :
  Raw2Gltf ex_to_uint32 ex_encode ex_serialize fresh_stream ex_raw_rootless
    [ex_raw_rootless] ex_options ex_unassigned = None.
Proof.
  apply (missing_root_aborts ex_to_uint32 ex_encode ex_serialize fresh_stream
           ex_raw_rootless [ex_raw_rootless] ex_options ex_unassigned).
  repeat constructor; discriminate.
Defined.

(** the light of the sample model: a point light of intensity 1 *)
Lemma light_entities_witness :
  exists ld,
    lights (gltf (default (tt, new_State) ex_lights_run).2) !! 0%nat = Some ld /\
    light_type ld = Point /\ light_intensity ld = f1.
Proof.
  assert (Hrun : is_some_b ex_lights_run = true) by (vm_compute; reflexivity).
  destruct (light_entities ex_raw ex_options _ _
              (run_unit (tt, new_State) ex_lights_run Hrun)) as [_ Hon].
  destruct (Hon eq_refl) as (_ & _ & Hall & _).
  destruct (Hall 0%nat _ eq_refl) as (ld & Hld & _ & _ & Hty & _ & Hint & _).
  exists ld. split; [exact Hld|]. split; [exact Hty|].
  rewrite Hint. vm_compute. reflexivity.
Defined.

(** the document of the sample model uses the lights extension alone *)
Lemma declared_extensions_witness :
  document_json ex_serialize ex_options (default (0%nat, new_State) ex_assembled).1
    (gltf (default (0%nat, new_State) ex_assembled).2) =
  ex_serialize ["KHR_lights_punctual"%string] []
    (default (0%nat, new_State) ex_assembled).1
    (gltf (default (0%nat, new_State) ex_assembled).2) 0.
Proof.
  exact (declared_extensions ex_to_uint32 ex_encode ex_raw [ex_raw] ex_options ex_unassigned _ _
           (run_pair (0%nat, new_State) ex_assembled ex_assembled_returns) ex_serialize).
Defined.

(** the second node of the rigged model gets skin 0, with its inverse bind
    matrices in the accessor that follows those of the surface *)
Lemma surface_skin_witness :
  exists sk,
    skins (gltf (default (tt, new_State) ex_rig_step).2) = [sk] /\
    skin_ix sk = 0%nat /\ length (skin_joints sk) = 2%nat.
Proof.
  assert (Hnd : is_some_b (nodes (gltf ex_rig_state) !! 1%nat) = true)
    by (vm_compute; reflexivity).
  assert (Hrun : is_some_b ex_rig_step = true) by (vm_compute; reflexivity).
  destruct (surface_skin ex_raw_rigged ex_rig_ids ex_rig_meshes 1%nat ex_node2 _ _ _
              (run_result no_node _ Hnd) (run_unit (tt, new_State) ex_rig_step Hrun))
    as (nd' & _ & _ & Hskin).
  assert (Hsrc : skin_source ex_raw_rigged ex_node2
                   (default no_node (nodes (gltf ex_rig_state) !! 1%nat))
                 = Some ex_skinned_surface) by (vm_compute; reflexivity).
  rewrite Hsrc in Hskin.
  destruct Hskin as (_ & (sk & Hsk & Hix & _ & Hj & _) & _).
  exists sk. split; [exact Hsk|]. split; [exact Hix|].
  symmetry. exact (Forall2_length _ _ _ Hj).
Defined.

(** the loop over the nodes of the rigged model makes one skin *)
Lemma skins_in_node_order_witness :
  length (skins (gltf (default (tt, new_State) ex_rig_assign).2)) = 1%nat.
Proof.
  assert (Hrun : is_some_b ex_rig_assign = true) by (vm_compute; reflexivity).
  destruct (skins_in_node_order ex_raw_rigged ex_rig_ids ex_rig_meshes _ _
              (run_unit (tt, new_State) ex_rig_assign Hrun)) as (Hlen & _).
  rewrite Hlen. vm_compute. reflexivity.
Defined.

(** of the two animations of the sample model, the one with channels is
    kept *)
Lemma animations_in_order_witness :
  exists ad,
    animations (gltf (default (tt, new_State) ex_animations_run).2) !! 0%nat = Some ad /\
    anim_name ad = "idle"%string /\
    length (animations (gltf (default (tt, new_State) ex_animations_run).2)) = 1%nat.
Proof.
  assert (Hrun : is_some_b ex_animations_run = true) by (vm_compute; reflexivity).
  destruct (animations_in_order ex_raw ex_nodes_ids _ _
              (run_unit (tt, new_State) ex_animations_run Hrun)) as (Hlen & _ & Hall).
  destruct (Hall 0%nat _ eq_refl) as (ad & acc & Had & _ & Hname & _).
  exists ad. split; [exact Had|]. split; [exact Hname|exact Hlen].
Defined.

(** the sample model with a second surface, the surface of its second
    node, and the surface model of that surface *)
Definition ex_surface2 : RawSurface :=
  {| rs_id := 6; rs_name := "surf2"; rs_bounds := rs_bounds ex_surface;
     rs_blendChannels := rs_blendChannels ex_surface;
     rs_jointIds := []; rs_inverseBindMatrices := []; rs_skeletonRootId := 0 |}.

Definition ex_node3 : RawNode :=
  {| rn_id := 101; rn_name := "child"; rn_translation := v3 0 0 0;
     rn_rotation := v4 0 0 0 1; rn_scale := v3 1 1 1; rn_isJoint := false;
     rn_childIds := []; rn_surfaceId := 6; rn_lightIx := 0; rn_extraSkinIx := -1;
     rn_userProperties := [] |}.

Definition ex_two_surfaces (surfaces : list RawSurface) : RawModel :=
  {| raw_rootNodeId := 100; raw_vertexAttributes := raw_vertexAttributes ex_raw;
     raw_globalWeightCount := 0; raw_extraSkinCount := 0;
     raw_vertices := raw_vertices ex_raw; raw_triangles := raw_triangles ex_raw;
     raw_textures := []; raw_materials := [ex_material];
     raw_surfaces := surfaces; raw_animations := raw_animations ex_raw;
     raw_cameras := raw_cameras ex_raw; raw_lights := raw_lights ex_raw;
     raw_nodes := [ex_node; ex_node3] |}.

Abbreviation ex_raw_two := (ex_two_surfaces [ex_surface; ex_surface2]).

Abbreviation ex_two_assembled :=
  (assemble ex_to_uint32 ex_encode ex_raw_two
     [ex_two_surfaces [ex_surface]; ex_two_surfaces [ex_surface2]]
     ex_options ex_unassigned new_State).

(** the second node of the model with two surfaces gets the second mesh,
    the mesh of its surface *)
Lemma node_alignment_witness :
  exists nd m md,
    nodes (gltf (default (0%nat, new_State) ex_two_assembled).2) !! 1%nat = Some nd /\
    nd_name nd = "child"%string /\ nd_mesh nd = Z.of_nat m /\ m = 1%nat /\
    meshes (gltf (default (0%nat, new_State) ex_two_assembled).2) !! m = Some md /\
    mesh_ix md = m /\ mesh_name md = "surf2"%string /\
    length (mesh_primitives md) = 1%nat.
Proof.
  assert (Hrun : is_some_b ex_two_assembled = true) by (vm_compute; reflexivity).
  destruct (node_alignment ex_to_uint32 ex_encode ex_raw_two _ ex_options ex_unassigned _ _
              (run_pair (0%nat, new_State) ex_two_assembled Hrun))
    as (_ & _ & nodesById & materialsById & meshBySurfaceId & s1 & s2 & s3 & s4 &
        _ & _ & _ & _ & Hmeshes & Hnodes).
  destruct (Hnodes 1%nat ex_node3 eq_refl)
    as (nd & Hnd & _ & Hname & _ & _ & _ & _ & Hmesh & _).
  destruct (Hmesh ltac:(reflexivity)) as (rawSurface & m & md & Hrs & Hm & Hmd & Hix & Hndm).
  assert (Hone : nd_mesh nd = 1).
  { vm_compute in Hnd. injection Hnd as Hnd. rewrite <- Hnd. reflexivity. }
  vm_compute in Hrs. injection Hrs as Hrs. rewrite <- Hrs in Hm. cbn [rs_id] in Hm.
  destruct (Hmeshes 6 m Hm)
    as (md' & sm0 & rs0 & rest & Hmd' & _ & Hmo & Hrs0 & Hmname & _ & Hprims).
  rewrite Hmd in Hmd'. injection Hmd' as Hmd'. rewrite <- Hmd' in Hmname, Hprims.
  assert (Hmo' : models_of 6 [ex_two_surfaces [ex_surface]; ex_two_surfaces [ex_surface2]]
                 = [ex_two_surfaces [ex_surface2]]) by reflexivity.
  rewrite Hmo' in Hmo, Hprims. injection Hmo as Hsm0 _. rewrite <- Hsm0 in Hrs0.
  cbn [raw_surfaces ex_two_surfaces] in Hrs0. injection Hrs0 as Hrs0.
  rewrite <- Hrs0 in Hmname.
  exists nd, m, md. split; [exact Hnd|]. split; [exact Hname|]. split; [exact Hndm|].
  split; [rewrite Hone in Hndm; lia|]. split; [exact Hmd|]. split; [exact Hix|].
  split; [exact Hmname|exact Hprims].
Defined.
